(** * twinnn: timeline, particle fields and interactive props

    A shallow embedding of the animation core of the greeting-card scene:

    - [Timeline]: [AnimatedScene.useFrame] of [src/App.tsx], the per-frame
      state machine that poses cake, table and candle and reports the
      background fade, the environment progress and the completion.
    - [FallingSparkles]: the ambient particle field (second half of
      [src/App.tsx]).
    - [Fireworks]: the shell simulation ([components/Fireworks]).
    - [PictureFrame]: the interactive prop ([models/pictureFrame.tsx]).

    JavaScript numbers are idealised.  The timeline only adds, multiplies,
    divides by constants and compares, so it is modelled over the exact
    rationals [Q] and runs inside Rocq.  The particle systems and the prop
    call [Math.sin], [Math.cos], [Math.acos] and [Math.exp]; they are
    modelled over the real numbers [R].  Rounding of doubles and of
    [Float32Array] cells is not modelled. *)

From stdpp Require Import base list.
From Stdlib Require Import ZArith QArith Qminmax Qabs Lqa Lia.
From Stdlib Require Import Reals Lra.
From Stdlib Require String Ascii.

(** ** Scene timeline controller (src/App.tsx, lines 25-323) *)

Module Timeline.

Local Open Scope Q_scope.

(** *** Easing library (lines 25-30) *)

Definition clamp (value min max : Q) : Q := Qmin max (Qmax min value).

Definition lerp (from to t : Q) : Q := from + (to - from) * t.

Definition easeOutCubic (t : Q) : Q := 1 - (1 - t) ^ 3.

(** *** Phase constants (lines 47-83) *)

Definition CAKE_START_Y : Q := 10.
Definition CAKE_END_Y : Q := 0.
Definition CAKE_DESCENT_DURATION : Q := 3.

Definition TABLE_START_Z : Q := 30.
Definition TABLE_END_Z : Q := 0.
Definition TABLE_SLIDE_DURATION : Q := 0.7.
Definition TABLE_SLIDE_START : Q :=
  CAKE_DESCENT_DURATION - TABLE_SLIDE_DURATION - 0.1.

Definition CANDLE_START_Y : Q := 5.
Definition CANDLE_END_Y : Q := 0.
Definition CANDLE_DROP_DURATION : Q := 1.2.
Definition CANDLE_DROP_START : Q :=
  Qmax CAKE_DESCENT_DURATION (TABLE_SLIDE_START + TABLE_SLIDE_DURATION) + 1.0.

Definition totalAnimationTime : Q := CANDLE_DROP_START + CANDLE_DROP_DURATION.

Definition BACKGROUND_FADE_DURATION : Q := 1.
Definition BACKGROUND_FADE_OFFSET : Q := 0.
Definition BACKGROUND_FADE_END : Q :=
  Qmax (CANDLE_DROP_START - BACKGROUND_FADE_OFFSET) BACKGROUND_FADE_DURATION.
Definition BACKGROUND_FADE_START : Q :=
  Qmax (BACKGROUND_FADE_END - BACKGROUND_FADE_DURATION) 0.

(** [Math.PI] is the double nearest to pi; its exact value is this
    fraction. *)
Definition Math_PI : Q := 884279719003555 # 281474976710656.

(** The emission throttle of [emitBackgroundOpacity] and
    [emitEnvironmentProgress]. *)
Definition EMIT_EPSILON : Q := 0.005.

(** *** Comparisons *)

Definition Qltb (x y : Q) : bool := negb (Qle_bool y x).
Definition Qgeb (x y : Q) : bool := Qle_bool y x.

(** *** Data *)

Record Vec3 : Type := mkVec3 { vx : Q; vy : Q; vz : Q }.

(** A three.js [Group], as far as the controller touches it. *)
Record Group : Type := mkGroup {
  position : Vec3;
  rotation : Vec3;
  visible : bool
}.

(** The refs of [AnimatedScene] (lines 179-187). *)
Record Scene : Type := mkScene {
  cake : Group;
  table : Group;
  candle : Group;
  animationStartRef : option Q;
  hasPrimedRef : bool;
  hasCompletedRef : bool;
  completionNotifiedRef : bool;
  backgroundOpacityRef : Q;
  environmentProgressRef : Q
}.

(** Calls made on the three callback props. *)
Inductive Event : Type :=
| BackgroundFadeChange (opacity : Q)
| EnvironmentProgressChange (progress : Q)
| AnimationComplete.

(** A piece of the frame callback: the new refs and the callbacks it
    invoked, in order. *)
Definition Action : Type := Scene -> Scene * list Event.

Definition andThen (a b : Action) : Action := fun s =>
  let '(s1, e1) := a s in
  let '(s2, e2) := b s1 in
  (s2, e1 ++ e2).

Definition upd (f : Scene -> Scene) : Action := fun s => (f s, []).

Infix ">>" := andThen (at level 61, left associativity).

(** *** Field updates *)

Definition set_cake (g : Group) (s : Scene) : Scene :=
  mkScene g (table s) (candle s) (animationStartRef s) (hasPrimedRef s)
    (hasCompletedRef s) (completionNotifiedRef s) (backgroundOpacityRef s)
    (environmentProgressRef s).
Definition set_table (g : Group) (s : Scene) : Scene :=
  mkScene (cake s) g (candle s) (animationStartRef s) (hasPrimedRef s)
    (hasCompletedRef s) (completionNotifiedRef s) (backgroundOpacityRef s)
    (environmentProgressRef s).
Definition set_candle (g : Group) (s : Scene) : Scene :=
  mkScene (cake s) (table s) g (animationStartRef s) (hasPrimedRef s)
    (hasCompletedRef s) (completionNotifiedRef s) (backgroundOpacityRef s)
    (environmentProgressRef s).
Definition set_animationStart (a : option Q) (s : Scene) : Scene :=
  mkScene (cake s) (table s) (candle s) a (hasPrimedRef s)
    (hasCompletedRef s) (completionNotifiedRef s) (backgroundOpacityRef s)
    (environmentProgressRef s).
Definition set_hasPrimed (b : bool) (s : Scene) : Scene :=
  mkScene (cake s) (table s) (candle s) (animationStartRef s) b
    (hasCompletedRef s) (completionNotifiedRef s) (backgroundOpacityRef s)
    (environmentProgressRef s).
Definition set_hasCompleted (b : bool) (s : Scene) : Scene :=
  mkScene (cake s) (table s) (candle s) (animationStartRef s) (hasPrimedRef s)
    b (completionNotifiedRef s) (backgroundOpacityRef s)
    (environmentProgressRef s).
Definition set_completionNotified (b : bool) (s : Scene) : Scene :=
  mkScene (cake s) (table s) (candle s) (animationStartRef s) (hasPrimedRef s)
    (hasCompletedRef s) b (backgroundOpacityRef s)
    (environmentProgressRef s).
Definition set_backgroundOpacity (q : Q) (s : Scene) : Scene :=
  mkScene (cake s) (table s) (candle s) (animationStartRef s) (hasPrimedRef s)
    (hasCompletedRef s) (completionNotifiedRef s) q
    (environmentProgressRef s).
Definition set_environmentProgress (q : Q) (s : Scene) : Scene :=
  mkScene (cake s) (table s) (candle s) (animationStartRef s) (hasPrimedRef s)
    (hasCompletedRef s) (completionNotifiedRef s) (backgroundOpacityRef s) q.

Definition set_position (p : Vec3) (g : Group) : Group :=
  mkGroup p (rotation g) (visible g).
Definition set_rotation (r : Vec3) (g : Group) : Group :=
  mkGroup (position g) r (visible g).
Definition set_visible (b : bool) (g : Group) : Group :=
  mkGroup (position g) (rotation g) b.
Definition set_x (x : Q) (v : Vec3) : Vec3 := mkVec3 x (vy v) (vz v).
Definition set_y (y : Q) (v : Vec3) : Vec3 := mkVec3 (vx v) y (vz v).
Definition set_z (z : Q) (v : Vec3) : Vec3 := mkVec3 (vx v) (vy v) z.

(** *** The emitters (lines 194-208) *)

Definition emitBackgroundOpacity (value : Q) : Action := fun s =>
  let clamped := clamp value 0 1 in
  if Qltb EMIT_EPSILON (Qabs (clamped - backgroundOpacityRef s))
  then (set_backgroundOpacity clamped s, [BackgroundFadeChange clamped])
  else (s, []).

Definition emitEnvironmentProgress (value : Q) : Action := fun s =>
  let clamped := clamp value 0 1 in
  if Qltb EMIT_EPSILON (Qabs (clamped - environmentProgressRef s))
  then (set_environmentProgress clamped s, [EnvironmentProgressChange clamped])
  else (s, []).

(** [if (!completionNotifiedRef.current) { ... onAnimationComplete?.() }]
    (lines 241-244 and 318-321). *)
Definition notifyCompletion : Action := fun s =>
  if completionNotifiedRef s then (s, [])
  else (set_completionNotified true s, [AnimationComplete]).

(** *** The frame callback (lines 210-323) *)

(** Lines 219-227. *)
Definition prime (s : Scene) : Scene :=
  if hasPrimedRef s then s
  else
    let s := set_cake (set_rotation (mkVec3 0 0 0)
               (set_position (mkVec3 0 CAKE_START_Y 0) (cake s))) s in
    let s := set_table (set_rotation (mkVec3 0 0 0)
               (set_position (mkVec3 0 0 TABLE_START_Z) (table s))) s in
    let s := set_candle (set_visible false
               (set_position (mkVec3 0 CANDLE_START_Y 0) (candle s))) s in
    set_hasPrimed true s.

(** Lines 229-236. *)
Definition idleFrame : Action :=
  emitBackgroundOpacity 1 >>
  emitEnvironmentProgress 0 >>
  upd (fun s => set_completionNotified false
                  (set_hasCompleted false (set_animationStart None s))).

(** Lines 238-246. *)
Definition completedFrame : Action :=
  emitBackgroundOpacity 0 >>
  emitEnvironmentProgress 1 >>
  notifyCompletion.

(** Lines 255-262. *)
Definition poseCake (clampedElapsed : Q) (s : Scene) : Scene :=
  let cakeProgress := clamp (clampedElapsed / CAKE_DESCENT_DURATION) 0 1 in
  let cakeEase := easeOutCubic cakeProgress in
  let p := set_z 0 (set_x 0
             (set_y (lerp CAKE_START_Y CAKE_END_Y cakeEase)
                (position (cake s)))) in
  let r := set_z 0 (set_x 0
             (set_y (cakeEase * Math_PI * 2) (rotation (cake s)))) in
  set_cake (set_rotation r (set_position p (cake s))) s.

(** Lines 264-275. *)
Definition poseTable (clampedElapsed : Q) (s : Scene) : Scene :=
  let tableZ :=
    if Qgeb clampedElapsed TABLE_SLIDE_START then
      let tableProgress :=
        clamp ((clampedElapsed - TABLE_SLIDE_START) / TABLE_SLIDE_DURATION)
          0 1 in
      let tableEase := easeOutCubic tableProgress in
      lerp TABLE_START_Z TABLE_END_Z tableEase
    else TABLE_START_Z in
  set_table (set_rotation (mkVec3 0 0 0)
               (set_position (mkVec3 0 0 tableZ) (table s))) s.

(** Lines 277-291. *)
Definition poseCandle (clampedElapsed : Q) (s : Scene) : Scene :=
  if Qgeb clampedElapsed CANDLE_DROP_START then
    let c := if visible (candle s) then candle s
             else set_visible true (candle s) in
    let candleProgress :=
      clamp ((clampedElapsed - CANDLE_DROP_START) / CANDLE_DROP_DURATION)
        0 1 in
    let candleEase := easeOutCubic candleProgress in
    set_candle
      (set_position
         (set_y (lerp CANDLE_START_Y CANDLE_END_Y candleEase) (position c)) c)
      s
  else
    set_candle
      (set_position (mkVec3 0 CANDLE_START_Y 0)
         (set_visible false (candle s))) s.

(** Lines 293-306. *)
Definition emitFade (clampedElapsed : Q) : Action :=
  if Qltb clampedElapsed BACKGROUND_FADE_START then
    emitBackgroundOpacity 1 >> emitEnvironmentProgress 0
  else
    let fadeProgress :=
      clamp ((clampedElapsed - BACKGROUND_FADE_START)
             / BACKGROUND_FADE_DURATION) 0 1 in
    let eased := easeOutCubic fadeProgress in
    let backgroundOpacity := 1 - eased in
    emitBackgroundOpacity backgroundOpacity >>
    emitEnvironmentProgress (1 - backgroundOpacity).

(** Lines 310-314: the final pose. *)
Definition snapFinalPose (s : Scene) : Scene :=
  let s := set_cake (set_rotation (mkVec3 0 0 0)
             (set_position (mkVec3 0 CAKE_END_Y 0) (cake s))) s in
  let s := set_table (set_position (mkVec3 0 0 TABLE_END_Z) (table s)) s in
  set_candle (set_visible true
             (set_position (mkVec3 0 CANDLE_END_Y 0) (candle s))) s.

(** Lines 308-322. *)
Definition finish (clampedElapsed : Q) : Action :=
  let animationDone := Qgeb clampedElapsed totalAnimationTime in
  if animationDone then
    upd snapFinalPose >>
    emitBackgroundOpacity 0 >>
    emitEnvironmentProgress 1 >>
    upd (set_hasCompleted true) >>
    notifyCompletion
  else upd (fun s => s).

(** Lines 248-253: the start reference is taken on the first playing
    frame of a session. *)
Definition startReference (elapsedTime : Q) (s : Scene) : Q :=
  match animationStartRef s with
  | Some a => a
  | None => elapsedTime
  end.

Definition clampedElapsedOf (elapsedTime : Q) (s : Scene) : Q :=
  clamp (elapsedTime - startReference elapsedTime s) 0 totalAnimationTime.

Definition playingFrame (elapsedTime : Q) : Action := fun s =>
  let a := startReference elapsedTime s in
  let s := set_animationStart (Some a) s in
  let clampedElapsed := clamp (elapsedTime - a) 0 totalAnimationTime in
  (upd (poseCake clampedElapsed) >>
   upd (poseTable clampedElapsed) >>
   upd (poseCandle clampedElapsed) >>
   emitFade clampedElapsed >>
   finish clampedElapsed) s.

(** [mounted] tells whether the three group refs are set (lines 211-217);
    [elapsedTime] is [clock.elapsedTime]. *)
Definition useFrame (mounted isPlaying : bool) (elapsedTime : Q) : Action :=
  fun s =>
  if negb mounted then (s, [])
  else
    let s := prime s in
    if negb isPlaying then idleFrame s
    else if hasCompletedRef s then completedFrame s
    else playingFrame elapsedTime s.

(** A frame on which the groups are mounted. *)
Definition tick (isPlaying : bool) (elapsedTime : Q) : Action :=
  useFrame true isPlaying elapsedTime.

(** The component as mounted: untouched groups, refs at their initial
    values. *)
Definition freshGroup : Group := mkGroup (mkVec3 0 0 0) (mkVec3 0 0 0) true.

Definition initialScene : Scene :=
  mkScene freshGroup freshGroup freshGroup None false false false 1 0.

(** *** Runs *)

(** The state and the callbacks after each frame of a run. *)
Fixpoint run (isPlaying : bool) (clocks : list Q) (s : Scene)
  : list (Scene * list Event) :=
  match clocks with
  | [] => []
  | c :: cs =>
      let r := tick isPlaying c s in
      r :: run isPlaying cs (fst r)
  end.

Definition finalScene (isPlaying : bool) (clocks : list Q) (s : Scene) : Scene :=
  fold_left (fun s c => fst (tick isPlaying c s)) clocks s.

Definition isComplete (e : Event) : bool :=
  match e with AnimationComplete => true | _ => false end.

Definition completions (es : list Event) : nat :=
  length (filter (fun e => isComplete e = true) es).

(** *** Vocabulary of the properties *)

(** What the observers of the two progress callbacks hold: the last
    value delivered, which the refs mirror. *)
Definition signals (s : Scene) : Q * Q :=
  (backgroundOpacityRef s, environmentProgressRef s).

(** The session latches, and the three poses. *)
Definition flags (s : Scene) : option Q * bool * bool :=
  (animationStartRef s, hasCompletedRef s, completionNotifiedRef s).

Definition poses (s : Scene) : Group * Group * Group :=
  (cake s, table s, candle s).

(** A play session starts from refs as the idle branch (or the mount)
    leaves them. *)
Definition sessionStart (s : Scene) : Prop :=
  animationStartRef s = None /\
  hasCompletedRef s = false /\
  completionNotifiedRef s = false.

(** The clamped elapsed time of a frame at clock [c], in a session whose
    start reference is [a], reaches [totalAnimationTime]. *)
Definition reachesEnd (a c : Q) : Prop :=
  totalAnimationTime <= clamp (c - a) 0 totalAnimationTime.

(** Frame [k] of the clock readings [clocks] is the first of the session
    that reaches the end. *)
Definition firstReach (a : Q) (clocks : list Q) (k : nat) : Prop :=
  (exists c, clocks !! k = Some c /\ reachesEnd a c) /\
  (forall j c, (j < k)%nat -> clocks !! j = Some c -> ~ reachesEnd a c).

(** All the callbacks of a run, in order. *)
Definition allEvents (frames : list (Scene * list Event)) : list Event :=
  concat (map snd frames).

(** The cake height and the candle flag of a scene. *)
Definition cakeY (s : Scene) : Q := vy (position (cake s)).
Definition candleVisible (s : Scene) : bool := visible (candle s).

(** The height [poseCake] gives the cake at clamped elapsed time [t]. *)
Definition cakeHeight (t : Q) : Q :=
  lerp CAKE_START_Y CAKE_END_Y
    (easeOutCubic (clamp (t / CAKE_DESCENT_DURATION) 0 1)).

(** The two values [emitFade] hands to the emitters at clamped elapsed
    time [t]. *)
Definition fadeOpacity (t : Q) : Q :=
  if Qltb t BACKGROUND_FADE_START then 1
  else 1 - easeOutCubic
             (clamp ((t - BACKGROUND_FADE_START) / BACKGROUND_FADE_DURATION) 0 1).

Definition fadeProgress (t : Q) : Q :=
  if Qltb t BACKGROUND_FADE_START then 0
  else 1 - (1 - easeOutCubic
             (clamp ((t - BACKGROUND_FADE_START) / BACKGROUND_FADE_DURATION) 0 1)).

(** A throttled signal [v] that follows a falling target [x] (the
    background opacity) or a rising target [y] (the environment progress):
    it lags by at most the throttle, and it is either still at its idle
    value or more than the throttle away from it. *)
Definition tracksDown (x v : Q) : Prop :=
  0 <= x /\ x <= v /\ v <= x + EMIT_EPSILON /\ v <= 1 /\
  (v = 1 \/ v < 1 - EMIT_EPSILON).

Definition tracksUp (y v : Q) : Prop :=
  y <= 1 /\ v <= y /\ y <= v + EMIT_EPSILON /\ 0 <= v /\
  (v = 0 \/ EMIT_EPSILON < v).

(** What a finished session has latched. *)
Definition settled (a c : Q) (b : bool) (s : Scene) : Prop :=
  b = true ->
  hasPrimedRef s = true /\ reachesEnd a c /\
  cakeY s == CAKE_END_Y /\ candleVisible s = true.

(** The parent component keeps the last value each progress callback
    delivered (its [backgroundOpacity] and [environmentProgress] state,
    lines 467-468 and 695-696). *)
Definition observe (o : Q * Q) (e : Event) : Q * Q :=
  match e with
  | BackgroundFadeChange v => (v, snd o)
  | EnvironmentProgressChange v => (fst o, v)
  | AnimationComplete => o
  end.

(** What the parent holds after the callbacks [es], having held [o]. *)
Definition observed (o : Q * Q) (es : list Event) : Q * Q :=
  fold_left observe es o.

(** The two shapes of the refs: at rest between sessions, or inside a
    session started at [a] whose last frame had clock [c]. *)
Definition atRest (s : Scene) : Prop :=
  flags s = (None, false, false) /\ signals s = (1, 0).

Definition inSession (a c : Q) (b : bool) (s : Scene) : Prop :=
  flags s = (Some a, b, b) /\
  (b = true -> reachesEnd a c) /\
  tracksDown (fadeOpacity (clamp (c - a) 0 totalAnimationTime))
    (backgroundOpacityRef s) /\
  tracksUp (fadeProgress (clamp (c - a) 0 totalAnimationTime))
    (environmentProgressRef s).

(** The shape of the refs in a state the component can be in, when the
    last clock reading was [c]. *)
Definition wellFormed (c : Q) (s : Scene) : Prop :=
  atRest s \/ exists a c1 b, c1 <= c /\ inSession a c1 b s.

(** The reading of the fade property that the throttle does not allow:
    from the end of the animation on, the signals are exactly (0, 1). *)
Definition endpointsExact (s0 : Scene) (c0 : Q) (cs : list Q) : Prop :=
  forall k r c,
    run true (c0 :: cs) s0 !! k = Some r -> (c0 :: cs) !! k = Some c ->
    totalAnimationTime <= c - c0 ->
    backgroundOpacityRef (fst r) == 0 /\ environmentProgressRef (fst r) == 1.

(** Clock readings that never go back, starting from [c]. *)
Fixpoint nondecreasing (c : Q) (cs : list Q) : Prop :=
  match cs with
  | [] => True
  | c' :: cs' => c <= c' /\ nondecreasing c' cs'
  end.

(** States the component can be in: mounted, then driven by frames whose
    clock never goes back.  The index is the last clock reading. *)
Inductive reachable : Q -> Scene -> Prop :=
| reachable_mount (c : Q) : reachable c initialScene
| reachable_frame (c c' : Q) (mounted isPlaying : bool) (s : Scene) :
    reachable c s -> c <= c' ->
    reachable c' (fst (useFrame mounted isPlaying c' s)).

(** The depth of the table, the height of the candle and the turn of the
    cake in a scene. *)
Definition tableZ (s : Scene) : Q := vz (position (table s)).
Definition candleY (s : Scene) : Q := vy (position (candle s)).
Definition cakeSpin (s : Scene) : Q := vy (rotation (cake s)).

(** What a frame at clamped elapsed time [t] leaves in them: the values of
    [poseTable], [poseCandle] and [poseCake], and for the turn of the cake
    the reset of the finishing frame (line 311). *)
Definition tableDepth (t : Q) : Q :=
  if Qgeb t TABLE_SLIDE_START then
    lerp TABLE_START_Z TABLE_END_Z
      (easeOutCubic
         (clamp ((t - TABLE_SLIDE_START) / TABLE_SLIDE_DURATION) 0 1))
  else TABLE_START_Z.

Definition candleHeight (t : Q) : Q :=
  if Qgeb t CANDLE_DROP_START then
    lerp CANDLE_START_Y CANDLE_END_Y
      (easeOutCubic
         (clamp ((t - CANDLE_DROP_START) / CANDLE_DROP_DURATION) 0 1))
  else CANDLE_START_Y.

Definition spinAngle (t : Q) : Q :=
  if Qgeb t totalAnimationTime then 0
  else easeOutCubic (clamp (t / CAKE_DESCENT_DURATION) 0 1) * Math_PI * 2.

(** A finished session has latched the end of the track of a reading
    [f] of the scene that follows [g]. *)
Definition landed (f : Scene -> Q) (g : Q -> Q) (a c : Q) (b : bool) (s : Scene)
  : Prop :=
  b = true ->
  hasPrimedRef s = true /\ reachesEnd a c /\ f s == g totalAnimationTime.

(** The values handed to the two progress callbacks lie in the unit
    interval. *)
Definition inUnit (e : Event) : Prop :=
  match e with
  | BackgroundFadeChange v => 0 <= v <= 1
  | EnvironmentProgressChange v => 0 <= v <= 1
  | AnimationComplete => True
  end.

(** Each call of a progress callback carries a value that is more than
    the throttle away from the value its observer holds. *)
Fixpoint throttled (o : Q * Q) (es : list Event) : Prop :=
  match es with
  | [] => True
  | e :: es' =>
      match e with
      | BackgroundFadeChange v => EMIT_EPSILON < Qabs (v - fst o)
      | EnvironmentProgressChange v => EMIT_EPSILON < Qabs (v - snd o)
      | AnimationComplete => True
      end /\ throttled (observe o e) es'
  end.

(** Frames of any kind, one after the other: for each, whether the groups
    are mounted, [isPlaying], and the clock. *)
Fixpoint playFrames (fs : list (bool * bool * Q)) : Action :=
  match fs with
  | [] => upd (fun s => s)
  | (mounted, isPlaying, c) :: fs' => useFrame mounted isPlaying c >> playFrames fs'
  end.

(** A piece of the frame callback that hands the progress callbacks
    values of the unit interval only, never within the throttle of what
    the observer holds, and leaves in the refs what it delivered last. *)
Definition wellBehaved (a : Action) : Prop :=
  forall s,
    Forall inUnit (snd (a s)) /\
    throttled (signals s) (snd (a s)) /\
    observed (signals s) (snd (a s)) = signals (fst (a s)).

End Timeline.

(** ** Shared numerics of the particle systems and the prop *)

Module Three.

Local Open Scope R_scope.

(** [MathUtils.lerp] and [MathUtils.damp] of three.js. *)
Definition lerp (x y t : R) : R := (1 - t) * x + t * y.

Definition damp (x y lambda dt : R) : R := lerp x y (1 - exp (- lambda * dt)).

(** Reading a cell of a typed array.  Writing is stdpp's [<[i:=v]>], which
    like a typed array ignores an index out of range. *)
Definition aget (a : list R) (i : nat) : R := nth i a 0.

(** [for (let i = start; i < start + count; i++) body(i)]. *)
Fixpoint forRange {St : Type} (start count : nat) (body : nat -> St -> St) (s : St)
  : St :=
  match count with
  | O => s
  | S count' => forRange (S start) count' body (body start s)
  end.

(** The largest step the particle systems integrate. *)
Definition MAX_STEP : R := 0.05.

(** A frame callback that consumes the raw frame delta only through
    [Math.min(rawDelta, 0.05)]. *)
Definition clampsDelta {St : Type} (frame : R -> St -> St) : Prop :=
  forall (rawDelta : R) (s : St), frame rawDelta s = frame (Rmin rawDelta MAX_STEP) s.

End Three.

(** ** Ambient sparkle field (src/App.tsx, lines 725-854) *)

Module FallingSparkles.

Import Three.
Local Open Scope R_scope.

Definition PARTICLE_COUNT : nat := 400.
Definition AREA_X : R := 20.
Definition AREA_Z : R := 20.
Definition TOP_Y : R := 12.
Definition BOTTOM_Y : R := -2.
Definition FALL_SPEED_MIN : R := 0.8.
Definition FALL_SPEED_MAX : R := 2.0.
Definition DRIFT_SPEED : R := 0.3.
Definition PARTICLE_SIZE : R := 0.04.

(** The three buffers of the field, the opacity of its material, and the
    number of [Math.random()] calls made so far.  The [n]-th call returns
    [random n], for a sequence [random] that the functions below take as
    their first argument. *)
Record Field : Type := mkField {
  positions : list R;
  colors : list R;
  velocities : list R;
  opacity : R;
  calls : nat
}.

(** Lines 758-788: one particle of the initial scatter. *)
Definition initParticle (random : nat -> R) (i : nat) (f : Field) : Field :=
  let i3 := (i * 3)%nat in
  let k := calls f in
  let pos := <[i3 := (random k - 0.5) * AREA_X]> (positions f) in
  let pos := <[(i3 + 1)%nat := BOTTOM_Y + random (k + 1)%nat * (TOP_Y - BOTTOM_Y)]> pos in
  let pos := <[(i3 + 2)%nat := (random (k + 2)%nat - 0.5) * AREA_Z]> pos in
  let palette := random (k + 3)%nat in
  let '(col, k) :=
    if Rlt_dec palette 0.4 then
      (<[(i3 + 2)%nat := 0.6 + random (k + 5)%nat * 0.3]>
         (<[(i3 + 1)%nat := 0.9 + random (k + 4)%nat * 0.1]>
            (<[i3 := 1]> (colors f))), (k + 6)%nat)
    else if Rlt_dec palette 0.7 then
      (<[(i3 + 2)%nat := 0.8 + random (k + 5)%nat * 0.2]>
         (<[(i3 + 1)%nat := 0.7 + random (k + 4)%nat * 0.2]>
            (<[i3 := 1]> (colors f))), (k + 6)%nat)
    else
      (<[(i3 + 2)%nat := 1]> (<[(i3 + 1)%nat := 1]> (<[i3 := 1]> (colors f))),
       (k + 4)%nat) in
  let vel := <[i3 := (random k - 0.5) * DRIFT_SPEED]> (velocities f) in
  let vel := <[(i3 + 1)%nat :=
                 - (FALL_SPEED_MIN
                    + random (k + 1)%nat * (FALL_SPEED_MAX - FALL_SPEED_MIN))]> vel in
  let vel := <[(i3 + 2)%nat := (random (k + 2)%nat - 0.5) * DRIFT_SPEED]> vel in
  mkField pos col vel (opacity f) (k + 3)%nat.

(** Lines 753-791 and 848: zeroed typed arrays, scattered; the material
    starts with opacity 0. *)
Definition initialField (random : nat -> R) : Field :=
  forRange 0 PARTICLE_COUNT (initParticle random)
    (mkField (replicate (PARTICLE_COUNT * 3) 0)
             (replicate (PARTICLE_COUNT * 3) 0)
             (replicate (PARTICLE_COUNT * 3) 0) 0 0).

(** Lines 810-824: one particle of one frame.  [dateNow i] is what
    [Date.now()] returns in iteration [i]. *)
Definition moveParticle (random : nat -> R) (dateNow : nat -> R) (delta : R)
           (i : nat) (f : Field) : Field :=
  let i3 := (i * 3)%nat in
  let vel := velocities f in
  let sway := sin (dateNow i * 0.001 + INR i) * 0.15 in
  let pos := positions f in
  let pos := <[i3 := aget pos i3 + (aget vel i3 + sway) * delta]> pos in
  let pos := <[(i3 + 1)%nat :=
                 aget pos (i3 + 1) + aget vel (i3 + 1) * delta]> pos in
  let pos := <[(i3 + 2)%nat :=
                 aget pos (i3 + 2) + (aget vel (i3 + 2) + sway * 0.5) * delta]> pos in
  if Rlt_dec (aget pos (i3 + 1)) BOTTOM_Y then
    let k := calls f in
    let pos := <[i3 := (random k - 0.5) * AREA_X]> pos in
    let pos := <[(i3 + 1)%nat := TOP_Y + random (k + 1)%nat * 2]> pos in
    let pos := <[(i3 + 2)%nat := (random (k + 2)%nat - 0.5) * AREA_Z]> pos in
    mkField pos (colors f) vel (opacity f) (k + 3)%nat
  else mkField pos (colors f) vel (opacity f) (calls f).

(** Lines 800-825, after the delta is clamped. *)
Definition advance (random : nat -> R) (dateNow : nat -> R) (isActive : bool)
           (delta : R) (f : Field) : Field :=
  if negb isActive then
    mkField (positions f) (colors f) (velocities f)
      (damp (opacity f) 0 4 delta) (calls f)
  else
    let f := mkField (positions f) (colors f) (velocities f)
               (damp (opacity f) 0.6 2 delta) (calls f) in
    forRange 0 PARTICLE_COUNT (moveParticle random dateNow delta) f.

(** Lines 793-828.  [mounted] tells whether the geometry and material refs
    are set. *)
Definition useFrame (random : nat -> R) (dateNow : nat -> R)
           (mounted isActive : bool) (rawDelta : R) (f : Field) : Field :=
  if negb mounted then f
  else
    let delta := Rmin rawDelta 0.05 in
    advance random dateNow isActive delta f.

(** One frame per entry of [frames]: what [Date.now()] returns, the two
    flags and the raw delta. *)
Definition Frame : Type := (nat -> R) * bool * bool * R.

Definition runFrames (random : nat -> R) (frames : list Frame) (f : Field) : Field :=
  fold_left (fun f '(dateNow, mounted, isActive, rawDelta) =>
               useFrame random dateNow mounted isActive rawDelta f) frames f.

(** The height of particle [i]. *)
Definition particleY (f : Field) (i : nat) : R := aget (positions f) (i * 3 + 1).

Definition fallSpeedY (f : Field) (i : nat) : R := aget (velocities f) (i * 3 + 1).

(** The pool has its [PARTICLE_COUNT] particles. *)
Definition poolSized (f : Field) : Prop :=
  length (positions f) = (PARTICLE_COUNT * 3)%nat /\
  length (colors f) = (PARTICLE_COUNT * 3)%nat /\
  length (velocities f) = (PARTICLE_COUNT * 3)%nat.

(** The other cells of particle [i]. *)
Definition particleX (f : Field) (i : nat) : R := aget (positions f) (i * 3).
Definition particleZ (f : Field) (i : nat) : R := aget (positions f) (i * 3 + 2).
Definition driftX (f : Field) (i : nat) : R := aget (velocities f) (i * 3).
Definition driftZ (f : Field) (i : nat) : R := aget (velocities f) (i * 3 + 2).
Definition colorOf (f : Field) (i : nat) : R * R * R :=
  (aget (colors f) (i * 3), aget (colors f) (i * 3 + 1), aget (colors f) (i * 3 + 2)).

(** Particle [i] is over the area the field covers. *)
Definition inArea (f : Field) (i : nat) : Prop :=
  - (AREA_X / 2) <= particleX f i < AREA_X / 2 /\
  - (AREA_Z / 2) <= particleZ f i < AREA_Z / 2.

(** It is between the despawn height and the highest respawn height. *)
Definition inBand (f : Field) (i : nat) : Prop :=
  BOTTOM_Y <= particleY f i < TOP_Y + 2.

(** Its colour is one of the warm sparkle colours: full red, with green
    and blue of gold, soft pink or white. *)
Definition warm (f : Field) (i : nat) : Prop :=
  let '(r, g, b) := colorOf f i in r = 1 /\ 0.7 <= g <= 1 /\ 0.6 <= b <= 1.

(** It falls, and drifts slowly. *)
Definition falls (f : Field) (i : nat) : Prop :=
  - FALL_SPEED_MAX < fallSpeedY f i <= - FALL_SPEED_MIN /\
  Rabs (driftX f i) <= DRIFT_SPEED / 2 /\
  Rabs (driftZ f i) <= DRIFT_SPEED / 2.

(** The raw delta of a frame. *)
Definition rawDeltaOf (fr : Frame) : R := snd fr.

End FallingSparkles.

(** ** Firework simulation (components/Fireworks) *)

Module Fireworks.

Import Three.
Local Open Scope R_scope.

(** *** Tuning knobs (lines 18-37) *)

Definition MAX_SHELLS : nat := 12.
Definition PARTICLES_PER_SHELL : nat := 80.
Definition TRAIL_PARTICLES_PER_SHELL : nat := 12.
Definition TOTAL_BURST : nat := MAX_SHELLS * PARTICLES_PER_SHELL.
Definition TOTAL_TRAIL : nat := MAX_SHELLS * TRAIL_PARTICLES_PER_SHELL.
Definition TOTAL_PARTICLES : nat := TOTAL_BURST + TOTAL_TRAIL.
Definition GRAVITY : R := -3.8.
Definition DRAG : R := 0.97.
Definition LAUNCH_INTERVAL : R := 0.35.
Definition SHELL_RISE_SPEED_MIN : R := 6.
Definition SHELL_RISE_SPEED_MAX : R := 10.
Definition BURST_SPEED_MIN : R := 2.
Definition BURST_SPEED_MAX : R := 5.
Definition BURST_LIFETIME_MIN : R := 1.0.
Definition BURST_LIFETIME_MAX : R := 2.2.

Definition SPARKLE_SIZE : R := 0.06.
Definition TRAIL_SIZE : R := 0.03.
Definition SPREAD_X : R := 4.
Definition SPREAD_Z : R := 16.

(** The number of shells of the initial volley (line 189). *)
Definition VOLLEY : nat := 5.

(** *** Colour palettes (lines 40-57) *)

Definition Color : Type := R * R * R.

Definition PALETTES : list (list Color) :=
  [ [(1, 0.85, 0.3); (1, 0.95, 0.7); (1, 1, 1)];
    [(1, 0.2, 0.6); (1, 0.5, 0.8); (1, 0.8, 1)];
    [(0.2, 0.8, 1); (0.4, 0.6, 1); (0.7, 0.9, 1)];
    [(0.3, 1, 0.4); (0.6, 1, 0.3); (0.8, 1, 0.7)];
    [(1, 0.25, 0.15); (1, 0.55, 0.1); (1, 0.8, 0.4)];
    [(0.6, 0.2, 1); (0.8, 0.4, 1); (0.9, 0.7, 1)];
    [(1, 1, 1); (0.9, 0.95, 1); (0.8, 0.85, 0.95)] ].

(** [Math.floor] of a number that is not negative, as an index. *)
Definition floor (v : R) : nat := Z.to_nat (Int_part v).

(** [palette[index]]; the indices the code computes are in range. *)
Definition colorAt (palette : list Color) (index : nat) : Color :=
  nth index palette (0, 0, 0).

(** The [k]-th call of [Math.random()] returns [random k]. *)
Definition pickPalette (random : nat -> R) (k : nat) : list Color :=
  nth (floor (random k * INR (length PALETTES))) PALETTES [].

(** *** Per-shell state (lines 60-94) *)

Inductive Phase : Type := rising | burst.

Record ShellState : Type := mkShell {
  active : bool;
  phase : Phase;
  x : R;
  z : R;
  riseY : R;
  riseVelocity : R;
  targetY : R;
  burstAge : R;
  palette : list Color
}.

Record FireworkData : Type := mkData {
  positions : list R;
  velocities : list R;
  colors : list R;
  sizes : list R;
  ages : list R;
  lifetimes : list R;
  shells : list ShellState
}.

Record Vector3 : Type := mkVector3 { vx : R; vy : R; vz : R }.

Definition initShell : ShellState :=
  mkShell false rising 0 0 0 0 0 0 (nth 0 PALETTES []).

(** Lines 96-107.  Five calls of [Math.random()], the first being call
    number [k]. *)
Definition launchShell (random : nat -> R) (k : nat) (baseOrigin : Vector3)
           (shell : ShellState) : ShellState :=
  mkShell true rising
    (vx baseOrigin - random k * SPREAD_X)
    (vz baseOrigin + (random (k + 1)%nat - 0.5) * SPREAD_Z)
    (vy baseOrigin - 4)
    (SHELL_RISE_SPEED_MIN
     + random (k + 2)%nat * (SHELL_RISE_SPEED_MAX - SHELL_RISE_SPEED_MIN))
    (vy baseOrigin + random (k + 3)%nat * 4)
    0
    (pickPalette random (k + 4)).

(** *** Field updates *)

Definition set_positions (v : list R) (d : FireworkData) : FireworkData :=
  mkData v (velocities d) (colors d) (sizes d) (ages d) (lifetimes d) (shells d).
Definition set_velocities (v : list R) (d : FireworkData) : FireworkData :=
  mkData (positions d) v (colors d) (sizes d) (ages d) (lifetimes d) (shells d).
Definition set_colors (v : list R) (d : FireworkData) : FireworkData :=
  mkData (positions d) (velocities d) v (sizes d) (ages d) (lifetimes d) (shells d).
Definition set_sizes (v : list R) (d : FireworkData) : FireworkData :=
  mkData (positions d) (velocities d) (colors d) v (ages d) (lifetimes d) (shells d).
Definition set_ages (v : list R) (d : FireworkData) : FireworkData :=
  mkData (positions d) (velocities d) (colors d) (sizes d) v (lifetimes d) (shells d).
Definition set_lifetimes (v : list R) (d : FireworkData) : FireworkData :=
  mkData (positions d) (velocities d) (colors d) (sizes d) (ages d) v (shells d).
Definition set_shells (v : list ShellState) (d : FireworkData) : FireworkData :=
  mkData (positions d) (velocities d) (colors d) (sizes d) (ages d) (lifetimes d) v.

Definition set_active (b : bool) (s : ShellState) : ShellState :=
  mkShell b (phase s) (x s) (z s) (riseY s) (riseVelocity s) (targetY s)
    (burstAge s) (palette s).
Definition set_phase (p : Phase) (s : ShellState) : ShellState :=
  mkShell (active s) p (x s) (z s) (riseY s) (riseVelocity s) (targetY s)
    (burstAge s) (palette s).
Definition set_riseY (v : R) (s : ShellState) : ShellState :=
  mkShell (active s) (phase s) (x s) (z s) v (riseVelocity s) (targetY s)
    (burstAge s) (palette s).
Definition set_burstAge (v : R) (s : ShellState) : ShellState :=
  mkShell (active s) (phase s) (x s) (z s) (riseY s) (riseVelocity s) (targetY s)
    v (palette s).

(** Writing the three cells of a vector at [idx3]. *)
Definition set3 (idx3 : nat) (a b c : R) (l : list R) : list R :=
  <[(idx3 + 2)%nat := c]> (<[(idx3 + 1)%nat := b]> (<[idx3 := a]> l)).

(** The buffers together with the number of [Math.random()] calls made. *)
Definition Sim : Type := FireworkData * nat.

(** *** Bursting (lines 109-142) *)

(** The initial velocity of a burst particle, from the two angles and the
    speed drawn for it (lines 129-131). *)
Definition burstVelocity (theta phi speed : R) : R * R * R :=
  (sin phi * cos theta * speed,
   sin phi * sin theta * speed * 0.6 + cos phi * speed * 0.5,
   sin phi * sin (theta + PI / 2) * speed).

(** Lines 117-140: particle [p] of the burst of shell [shellIndex]. *)
Definition burstParticle (random : nat -> R) (shellIndex : nat) (shell : ShellState)
           (p : nat) (st : Sim) : Sim :=
  let '(data, k) := st in
  let burstStart := (shellIndex * PARTICLES_PER_SHELL)%nat in
  let i := (burstStart + p)%nat in
  let idx3 := (i * 3)%nat in
  let theta := random k * PI * 2 in
  let phi := acos (random (k + 1)%nat * 2 - 1) in
  let speed :=
    BURST_SPEED_MIN + random (k + 2)%nat * (BURST_SPEED_MAX - BURST_SPEED_MIN) in
  let data := set_positions
                (set3 idx3 (x shell) (riseY shell) (z shell) (positions data)) data in
  let '(v0, v1, v2) := burstVelocity theta phi speed in
  let data := set_velocities (set3 idx3 v0 v1 v2 (velocities data)) data in
  let '(c0, c1, c2) :=
    colorAt (palette shell)
      (floor (random (k + 3)%nat * INR (length (palette shell)))) in
  let data := set_colors (set3 idx3 c0 c1 c2 (colors data)) data in
  let data := set_sizes
                (<[i := SPARKLE_SIZE * (0.6 + random (k + 4)%nat * 0.8)]> (sizes data))
                data in
  let data := set_lifetimes
                (<[i := BURST_LIFETIME_MIN
                        + random (k + 5)%nat * (BURST_LIFETIME_MAX - BURST_LIFETIME_MIN)]>
                   (lifetimes data)) data in
  let data := set_ages (<[i := 0]> (ages data)) data in
  (data, (k + 6)%nat).

Definition burstShell (random : nat -> R) (shellIndex : nat) (shell : ShellState)
           (st : Sim) : Sim :=
  forRange 0 PARTICLES_PER_SHELL (burstParticle random shellIndex shell) st.

(** *** The component (lines 144-199) *)

(** The refs of [Fireworks]: the buffers, the launch timer, the volley
    latch, the opacities of the two materials, and the number of
    [Math.random()] calls made so far. *)
Record Component : Type := mkComponent {
  data : FireworkData;
  launchTimer : R;
  hasExplodedOnce : bool;
  materialOpacity : R;
  trailOpacity : R;
  calls : nat
}.

(** Lines 171-179: every particle starts off screen and expired. *)
Definition hideParticle (i : nat) (d : FireworkData) : FireworkData :=
  let idx3 := (i * 3)%nat in
  let d := set_positions (set3 idx3 0 (-100) 0 (positions d)) d in
  let d := set_ages (<[i := 999]> (ages d)) d in
  let d := set_lifetimes (<[i := 1]> (lifetimes d)) d in
  set_sizes (<[i := 0]> (sizes d)) d.

(** Lines 156-180. *)
Definition initialData : FireworkData :=
  forRange 0 TOTAL_PARTICLES hideParticle
    (mkData (replicate (TOTAL_PARTICLES * 3) 0)
            (replicate (TOTAL_PARTICLES * 3) 0)
            (replicate (TOTAL_PARTICLES * 3) 0)
            (replicate TOTAL_PARTICLES 0)
            (replicate TOTAL_PARTICLES 0)
            (replicate TOTAL_PARTICLES 0)
            (replicate MAX_SHELLS initShell)).

(** Lines 149-150 and the two [opacity={0}] props. *)
Definition initialComponent : Component :=
  mkComponent initialData 0 false 0 0 0.

(** The state of a launching loop: the shells, how many were launched,
    and the [Math.random()] calls made. *)
Definition Launch : Type := list ShellState * nat * nat.

(** Lines 189-194: the body of the volley loop, whose condition is
    [s < MAX_SHELLS && launched < 5]. *)
Definition volleyStep (random : nat -> R) (baseOrigin : Vector3) (limit : nat)
           (s : nat) (st : Launch) : Launch :=
  let '(shs, launched, k) := st in
  if (launched <? limit)%nat then
    match shs !! s with
    | Some shell =>
        if active shell then st
        else (<[s := launchShell random k baseOrigin shell]> shs,
              S launched, (k + 5)%nat)
    | None => st
    end
  else st.

Definition launchLoop (random : nat -> R) (baseOrigin : Vector3) (limit : nat)
           (shs : list ShellState) (k : nat) : Launch :=
  forRange 0 MAX_SHELLS (volleyStep random baseOrigin limit) (shs, 0%nat, k).

(** Lines 183-199: the effect that runs when [isActive] changes. *)
Definition activationEffect (random : nat -> R) (baseOrigin : Vector3)
           (isActive : bool) (c : Component) : Component :=
  let c :=
    if isActive && negb (hasExplodedOnce c) then
      let '(shs, _, k) :=
        launchLoop random baseOrigin VOLLEY (shells (data c)) (calls c) in
      mkComponent (set_shells shs (data c)) (launchTimer c) true
        (materialOpacity c) (trailOpacity c) k
    else c in
  if negb isActive then
    mkComponent (data c) (launchTimer c) false (materialOpacity c)
      (trailOpacity c) (calls c)
  else c.

(** *** The frame callback (lines 201-360) *)

(** Lines 230-240: the launch timer.  The loop stops at the first
    inactive shell ([break]), which is a volley of one. *)
Definition launchOnTimer (random : nat -> R) (baseOrigin : Vector3) (delta : R)
           (c : Component) : Component :=
  let timer := launchTimer c + delta in
  if Rge_dec timer LAUNCH_INTERVAL then
    let '(shs, _, k) :=
      launchLoop random baseOrigin 1 (shells (data c)) (calls c) in
    mkComponent (set_shells shs (data c)) 0 (hasExplodedOnce c)
      (materialOpacity c) (trailOpacity c) k
  else
    mkComponent (data c) timer (hasExplodedOnce c) (materialOpacity c)
      (trailOpacity c) (calls c).

(** Lines 250-264: trail particle [t] of the rising shell [s]. *)
Definition trailParticle (random : nat -> R) (s : nat) (shell : ShellState)
           (t : nat) (st : Sim) : Sim :=
  let '(d, k) := st in
  let trailBase := (s * TRAIL_PARTICLES_PER_SHELL)%nat in
  let ti := (TOTAL_BURST + trailBase + t)%nat in
  let ti3 := (ti * 3)%nat in
  let trailOffset := INR t / INR TRAIL_PARTICLES_PER_SHELL * 1.5 in
  let d := set_positions
             (set3 ti3
                (x shell + (random k - 0.5) * 0.15)
                (riseY shell - trailOffset + (random (k + 1)%nat - 0.5) * 0.1)
                (z shell + (random (k + 2)%nat - 0.5) * 0.15)
                (positions d)) d in
  let brightness := 1 - INR t / INR TRAIL_PARTICLES_PER_SHELL * 0.7 in
  let d := set_colors
             (set3 ti3 (1 * brightness) (0.85 * brightness) (0.4 * brightness)
                (colors d)) d in
  let d := set_sizes (<[ti := TRAIL_SIZE * brightness]> (sizes d)) d in
  (d, (k + 3)%nat).

(** Lines 276-281. *)
Definition hideTrailParticle (s : nat) (t : nat) (d : FireworkData) : FireworkData :=
  let trailBase2 := (s * TRAIL_PARTICLES_PER_SHELL)%nat in
  let ti := (TOTAL_BURST + trailBase2 + t)%nat in
  let ti3 := (ti * 3)%nat in
  let d := set_positions (<[(ti3 + 1)%nat := -100]> (positions d)) d in
  set_sizes (<[ti := 0]> (sizes d)) d.

(** Lines 247-282: a rising shell. *)
Definition riseShell (random : nat -> R) (delta : R) (s : nat) (shell : ShellState)
           (st : Sim) : Sim :=
  let '(d, k) :=
    forRange 0 TRAIL_PARTICLES_PER_SHELL (trailParticle random s shell) st in
  let shell := set_riseY (riseY shell + riseVelocity shell * delta) shell in
  if Rge_dec (riseY shell) (targetY shell) then
    let shell := set_burstAge 0 (set_phase burst shell) in
    let d := set_shells (<[s := shell]> (shells d)) d in
    let '(d, k) := burstShell random s shell (d, k) in
    (forRange 0 TRAIL_PARTICLES_PER_SHELL (hideTrailParticle s) d, k)
  else (set_shells (<[s := shell]> (shells d)) d, k).

(** The state of the loop over the burst particles of a shell: the
    buffers, [allDead], and the [Math.random()] calls made. *)
Definition Fade : Type := FireworkData * bool * nat.

(** Lines 289-335: burst particle [p] of the bursting shell [s]. *)
Definition fadeParticle (random : nat -> R) (delta : R) (s : nat) (shell : ShellState)
           (p : nat) (st : Fade) : Fade :=
  let '(d, allDead, k) := st in
  let burstStart := (s * PARTICLES_PER_SHELL)%nat in
  let i := (burstStart + p)%nat in
  let idx3 := (i * 3)%nat in
  let d := set_ages (<[i := aget (ages d) i + delta]> (ages d)) d in
  let age := aget (ages d) i in
  let life := aget (lifetimes d) i in
  if Rgt_dec age life then
    let d := set_positions (<[(idx3 + 1)%nat := -100]> (positions d)) d in
    let d := set_colors (set3 idx3 0 0 0 (colors d)) d in
    let d := set_sizes (<[i := 0]> (sizes d)) d in
    (d, allDead, k)
  else
    let vel := velocities d in
    let vel := set3 idx3 (aget vel idx3 * DRAG) (aget vel (idx3 + 1) * DRAG)
                 (aget vel (idx3 + 2) * DRAG) vel in
    let vel := <[(idx3 + 1)%nat := aget vel (idx3 + 1) + GRAVITY * delta]> vel in
    let d := set_velocities vel d in
    let pos := positions d in
    let pos := set3 idx3 (aget pos idx3 + aget vel idx3 * delta)
                 (aget pos (idx3 + 1) + aget vel (idx3 + 1) * delta)
                 (aget pos (idx3 + 2) + aget vel (idx3 + 2) * delta) pos in
    let d := set_positions pos d in
    let t := age / life in
    let fade := Rmax 0 (1 - t * t) in
    let flicker := 0.85 + random k * 0.15 in
    let pal := palette shell in
    let cIdx := Nat.min (floor (t * INR (length pal))) (length pal - 1) in
    let '(c0, c1, c2) := colorAt pal cIdx in
    let d := set_colors
               (set3 idx3 (c0 * fade * flicker) (c1 * fade * flicker)
                  (c2 * fade * flicker) (colors d)) d in
    let d := set_sizes
               (<[i := SPARKLE_SIZE * fade * (0.5 + random (k + 1)%nat * 0.5)]>
                  (sizes d)) d in
    (d, false, (k + 2)%nat).

(** Lines 284-339: a bursting shell. *)
Definition fadeShell (random : nat -> R) (delta : R) (s : nat) (shell : ShellState)
           (st : Sim) : Sim :=
  let '(d, k) := st in
  let shell := set_burstAge (burstAge shell + delta) shell in
  let d := set_shells (<[s := shell]> (shells d)) d in
  let '(d, allDead, k) :=
    forRange 0 PARTICLES_PER_SHELL (fadeParticle random delta s shell) (d, true, k) in
  if allDead then (set_shells (<[s := set_active false shell]> (shells d)) d, k)
  else (d, k).

(** Lines 243-341: the body of the loop over the shells. *)
Definition updateShell (random : nat -> R) (delta : R) (s : nat) (st : Sim) : Sim :=
  match shells (fst st) !! s with
  | Some shell =>
      if negb (active shell) then st
      else
        match phase shell with
        | rising => riseShell random delta s shell st
        | burst => fadeShell random delta s shell st
        end
  | None => st
  end.

Definition updateShells (random : nat -> R) (delta : R) (st : Sim) : Sim :=
  forRange 0 MAX_SHELLS (updateShell random delta) st.

(** Lines 216-341, after the delta is clamped.  The copies into the two
    geometries (lines 343-359) leave the refs as they are. *)
Definition advance (random : nat -> R) (baseOrigin : Vector3) (isActive : bool)
           (delta : R) (c : Component) : Component :=
  if negb isActive then
    let opacity := damp (materialOpacity c) 0 4 delta in
    let trail := damp (trailOpacity c) 0 4 delta in
    let d :=
      if Rlt_dec opacity 0.01
      then set_shells (map (set_active false) (shells (data c))) (data c)
      else data c in
    mkComponent d (launchTimer c) (hasExplodedOnce c) opacity trail (calls c)
  else
    let c := mkComponent (data c) (launchTimer c) (hasExplodedOnce c)
               (damp (materialOpacity c) 1 3 delta)
               (damp (trailOpacity c) 0.7 3 delta) (calls c) in
    let c := launchOnTimer random baseOrigin delta c in
    let '(d, k) := updateShells random delta (data c, calls c) in
    mkComponent d (launchTimer c) (hasExplodedOnce c) (materialOpacity c)
      (trailOpacity c) k.

(** Lines 201-360.  [mounted] tells whether the geometry and material
    refs are set. *)
Definition useFrame (random : nat -> R) (baseOrigin : Vector3)
           (mounted isActive : bool) (rawDelta : R) (c : Component) : Component :=
  if negb mounted then c
  else
    let delta := Rmin rawDelta 0.05 in
    advance random baseOrigin isActive delta c.

(** Frames with [isActive = false], one per raw delta. *)
Definition idleFrames (random : nat -> R) (baseOrigin : Vector3)
           (rawDeltas : list R) (c : Component) : Component :=
  fold_left (fun c rawDelta => useFrame random baseOrigin true false rawDelta c)
    rawDeltas c.

(** *** Vocabulary of the properties *)

(** The buffers have the sizes they are allocated with. *)
Definition dataSized (d : FireworkData) : Prop :=
  length (positions d) = (TOTAL_PARTICLES * 3)%nat /\
  length (velocities d) = (TOTAL_PARTICLES * 3)%nat /\
  length (colors d) = (TOTAL_PARTICLES * 3)%nat /\
  length (sizes d) = TOTAL_PARTICLES /\
  length (ages d) = TOTAL_PARTICLES /\
  length (lifetimes d) = TOTAL_PARTICLES /\
  length (shells d) = MAX_SHELLS.

(** Burst particle [p] of shell [s]. *)
Definition owned (s p : nat) : nat := (s * PARTICLES_PER_SHELL + p)%nat.

(** The number of active shells, and the first shell a launch would
    take. *)
Definition activeCount (shs : list ShellState) : nat :=
  length (filter (fun sh => active sh = true) shs).

(** What the code does to the buffers while it handles shell [j]: sizes
    stay, the other shells stay, and so do the ages and lifetimes of the
    burst particles of the other shells. *)
Definition inSlice (j i : nat) : Prop :=
  (j * PARTICLES_PER_SHELL <= i < j * PARTICLES_PER_SHELL + PARTICLES_PER_SHELL)%nat.

Definition footprint (j : nat) (d d' : FireworkData) : Prop :=
  (length (positions d') = length (positions d) /\
   length (velocities d') = length (velocities d) /\
   length (colors d') = length (colors d) /\
   length (sizes d') = length (sizes d) /\
   length (ages d') = length (ages d) /\
   length (lifetimes d') = length (lifetimes d) /\
   length (shells d') = length (shells d)) /\
  (forall s, s <> j -> shells d' !! s = shells d !! s) /\
  (forall i, ~ inSlice j i ->
     aget (ages d') i = aget (ages d) i /\
     aget (lifetimes d') i = aget (lifetimes d) i).

(** The cells of burst particle [i]. *)
Record Particle : Type := mkParticle {
  p_position : R * R * R;
  p_velocity : R * R * R;
  p_color : Color;
  p_size : R;
  p_lifetime : R;
  p_age : R
}.

Definition get3 (l : list R) (idx3 : nat) : R * R * R :=
  (aget l idx3, aget l (idx3 + 1), aget l (idx3 + 2)).

Definition particleAt (d : FireworkData) (i : nat) : Particle :=
  mkParticle (get3 (positions d) (i * 3)) (get3 (velocities d) (i * 3))
    (get3 (colors d) (i * 3)) (aget (sizes d) i) (aget (lifetimes d) i)
    (aget (ages d) i).

(** The particle [burstParticle] writes when its first [Math.random()]
    call is call number [k]. *)
Definition spawned (random : nat -> R) (k : nat) (shell : ShellState) : Particle :=
  mkParticle
    (x shell, riseY shell, z shell)
    (burstVelocity (random k * PI * 2) (acos (random (k + 1)%nat * 2 - 1))
       (BURST_SPEED_MIN + random (k + 2)%nat * (BURST_SPEED_MAX - BURST_SPEED_MIN)))
    (colorAt (palette shell)
       (floor (random (k + 3)%nat * INR (length (palette shell)))))
    (SPARKLE_SIZE * (0.6 + random (k + 4)%nat * 0.8))
    (BURST_LIFETIME_MIN
     + random (k + 5)%nat * (BURST_LIFETIME_MAX - BURST_LIFETIME_MIN))
    0.

(** No shell is in flight and the volley latch is open. *)
Definition idlePool (c : Component) : Prop :=
  length (shells (data c)) = MAX_SHELLS /\
  Forall (fun sh => active sh = false) (shells (data c)) /\
  hasExplodedOnce c = false.

(** Shell [s] and the ages and lifetimes of its burst particles are the
    same in [d'] as in [d]. *)
Definition agreeOn (s : nat) (d d' : FireworkData) : Prop :=
  shells d' !! s = shells d !! s /\
  forall p, (p < PARTICLES_PER_SHELL)%nat ->
    aget (ages d') (owned s p) = aget (ages d) (owned s p) /\
    aget (lifetimes d') (owned s p) = aget (lifetimes d) (owned s p).

(** The reading of the burst that the code does not implement: a unit
    vector on the sphere, scaled by the speed. *)
Definition sphericalBurst (v : R * R * R) : Prop :=
  exists theta phi speed,
    BURST_SPEED_MIN <= speed <= BURST_SPEED_MAX /\
    v = (sin phi * cos theta * speed,
         sin phi * sin theta * speed,
         cos phi * speed).

Definition firstInactive (shs : list ShellState) : option nat :=
  fst <$> list_find (fun sh => active sh = false) shs.

(** What the comment on the burst (line 120) announces: the speed times
    the point of the unit sphere at the two angles. *)
Definition sphereVelocity (theta phi speed : R) : R * R * R :=
  (sin phi * cos theta * speed, sin phi * sin theta * speed, cos phi * speed).

(** A source of [Math.random()] values whose second value is 1/2 and
    whose other values are 0: for the first particle of a burst it gives
    theta = 0, phi = pi / 2 and the lowest speed. *)
Definition sidewaysDraws (n : nat) : R := if Nat.eqb n 1 then 0.5 else 0.

(** The time the simulation integrates over frames with the raw deltas
    [rawDeltas]: the sum of the clamped deltas. *)
Definition simulatedTime (rawDeltas : list R) : R :=
  fold_right (fun rawDelta t => Rmin rawDelta 0.05 + t) 0 rawDeltas.

(** What happens to the mounted component: the parent renders it, which
    runs the effect ([App] passes a fresh [origin] array at every render,
    so [baseOrigin] is a dependency that always changed), or the render
    host calls the frame callback. *)
Inductive Input : Type :=
| Render (isActive : bool)
| Frame (mounted : bool) (rawDelta : R).

(** The component together with its [isActive] prop. *)
Definition step (random : nat -> R) (baseOrigin : Vector3)
           (s : Component * bool) (i : Input) : Component * bool :=
  match i with
  | Render isActive => (activationEffect random baseOrigin isActive (fst s), isActive)
  | Frame mounted rawDelta =>
      (useFrame random baseOrigin mounted (snd s) rawDelta (fst s), snd s)
  end.

(** The component is first rendered with [isActive = false], as [App]
    does. *)
Definition run (random : nat -> R) (baseOrigin : Vector3) (inputs : list Input)
  : Component * bool :=
  fold_left (step random baseOrigin) inputs
    (activationEffect random baseOrigin false initialComponent, false).

(** The frame deltas of [inputs] are not negative. *)
Definition forwardFrames (inputs : list Input) : Prop :=
  Forall (fun i => match i with
                   | Frame _ rawDelta => 0 <= rawDelta
                   | Render _ => True
                   end) inputs.

(** Where [launchShell] puts a shell, for an origin [o]: behind the origin
    by less than [SPREAD_X], within half of [SPREAD_Z] to its sides, 4
    below it, and heading for a target at or less than 4 above it. *)
Definition launchedFrom (o : Vector3) (l : ShellState) : Prop :=
  active l = true /\ phase l = rising /\ burstAge l = 0 /\
  vx o - SPREAD_X < x l <= vx o /\
  vz o - SPREAD_Z / 2 <= z l < vz o + SPREAD_Z / 2 /\
  riseY l = vy o - 4 /\
  SHELL_RISE_SPEED_MIN <= riseVelocity l < SHELL_RISE_SPEED_MAX /\
  vy o <= targetY l < vy o + 4 /\
  In (palette l) PALETTES.

End Fireworks.

(** ** Interactive prop (models/pictureFrame.tsx) *)

Module PictureFrame.

Import Three.
Local Open Scope R_scope.

Definition FRAME_CAMERA_DISTANCE : R := 1.0.
Definition FRAME_HOVER_LIFT : R := 0.04.
Definition FRAME_TILT : R := 0.435.

Record Vector3 : Type := mkVector3 { vx : R; vy : R; vz : R }.

Record Euler : Type := mkEuler { ex : R; ey : R; ez : R }.

(** The two listeners the prop puts on [window], by event type and
    callback.  Both callbacks keep their identity between renders while
    [onDragChange] does, as it does in [App] where it is a state setter. *)
Inductive Listener : Type :=
| pointermove_onWindowPointerMove
| pointerup_onWindowPointerUp.

#[global] Instance Listener_eq_dec : EqDecision Listener.
Proof. solve_decision. Defined.

(** [window.addEventListener]: a listener that is registered already is
    not registered twice.  [window.removeEventListener] removes it. *)
Definition addEventListener (l : Listener) (ls : list Listener) : list Listener :=
  if decide (l ∈ ls) then ls else ls ++ [l].

Definition removeEventListener (l : Listener) (ls : list Listener) : list Listener :=
  filter (fun l' => l' <> l) ls.

(** Calls made on the callback props. *)
Inductive Output : Type :=
| DragChange (isDragging : bool)
| Toggle.

(** The [isActive] prop, the state and refs of the component (lines
    53-59), the position of its group and the tilt of its inner group, the
    listeners on [window], and the callbacks invoked so far, latest first.
    The orientation of the group, a three.js quaternion, is left out: it is
    smoothed like the position, with the factor [slerpAlpha]. *)
Record Prop_ : Type := mkProp {
  isActive : bool;
  isHovered : bool;
  isDragging : bool;
  hasDragged : bool;
  previousPointerPosition : R * R;
  rotationOffset : Euler;
  position : Vector3;
  tilt : R;
  windowListeners : list Listener;
  outputs : list Output
}.

(** Lines 133-153: the two effects that depend on [isActive].  They run
    on mount and whenever the prop changes. *)
Definition activeEffects (defaultPosition : Vector3) (s : Prop_) : Prop_ :=
  if negb (isActive s) then
    mkProp (isActive s) false false false (previousPointerPosition s)
      (mkEuler 0 0 0) defaultPosition (tilt s) (windowListeners s)
      (DragChange false :: outputs s)
  else s.

(** The parent renders the prop with [isActive = b]. *)
Definition setActive (defaultPosition : Vector3) (b : bool) (s : Prop_) : Prop_ :=
  if Bool.eqb b (isActive s) then s
  else
    activeEffects defaultPosition
      (mkProp b (isHovered s) (isDragging s) (hasDragged s)
         (previousPointerPosition s) (rotationOffset s) (position s) (tilt s)
         (windowListeners s) (outputs s)).

(** The component as mounted with [isActive = false]. *)
Definition mounted (defaultPosition : Vector3) : Prop_ :=
  activeEffects defaultPosition
    (mkProp false false false false (0, 0) (mkEuler 0 0 0) (mkVector3 0 0 0) 0 [] []).

(** Lines 226-239. *)
Definition handlePointerOver (s : Prop_) : Prop_ :=
  if negb (isActive s) then
    mkProp (isActive s) true (isDragging s) (hasDragged s)
      (previousPointerPosition s) (rotationOffset s) (position s) (tilt s)
      (windowListeners s) (outputs s)
  else s.

Definition handlePointerOut (s : Prop_) : Prop_ :=
  mkProp (isActive s) false (isDragging s) (hasDragged s)
    (previousPointerPosition s) (rotationOffset s) (position s) (tilt s)
    (windowListeners s) (outputs s).

(** Lines 241-262. *)
Definition onWindowPointerMove (clientX clientY : R) (s : Prop_) : Prop_ :=
  if negb (isDragging s) then s
  else
    let deltaX := clientX - fst (previousPointerPosition s) in
    let deltaY := clientY - snd (previousPointerPosition s) in
    let dragged :=
      if Rgt_dec (Rabs deltaX) 2 then true
      else if Rgt_dec (Rabs deltaY) 2 then true
      else hasDragged s in
    let sensitivity := 0.012 in
    let prev := rotationOffset s in
    mkProp (isActive s) (isHovered s) (isDragging s) dragged
      (clientX, clientY)
      (mkEuler (ex prev - deltaY * sensitivity) (ey prev + deltaX * sensitivity)
         (ez prev))
      (position s) (tilt s) (windowListeners s) (outputs s).

(** Lines 264-272. *)
Definition onWindowPointerUp (s : Prop_) : Prop_ :=
  if isDragging s then
    mkProp (isActive s) (isHovered s) false (hasDragged s)
      (previousPointerPosition s) (rotationOffset s) (position s) (tilt s)
      (removeEventListener pointerup_onWindowPointerUp
         (removeEventListener pointermove_onWindowPointerMove (windowListeners s)))
      (DragChange false :: outputs s)
  else s.

(** Lines 274-295. *)
Definition handlePointerDown (clientX clientY : R) (s : Prop_) : Prop_ :=
  if isActive s then
    mkProp (isActive s) (isHovered s) true false (clientX, clientY)
      (rotationOffset s) (position s) (tilt s)
      (addEventListener pointerup_onWindowPointerUp
         (addEventListener pointermove_onWindowPointerMove (windowListeners s)))
      (DragChange true :: outputs s)
  else s.

(** Lines 297-308. *)
Definition handleClick (s : Prop_) : Prop_ :=
  mkProp (isActive s) (isHovered s) (isDragging s) false
    (previousPointerPosition s) (rotationOffset s) (position s) (tilt s)
    (windowListeners s)
    (if hasDragged s then outputs s else Toggle :: outputs s).

(** The browser delivers a window event to the listeners registered for
    it. *)
Definition windowPointerMove (clientX clientY : R) (s : Prop_) : Prop_ :=
  if decide (pointermove_onWindowPointerMove ∈ windowListeners s)
  then onWindowPointerMove clientX clientY s else s.

Definition windowPointerUp (s : Prop_) : Prop_ :=
  if decide (pointerup_onWindowPointerUp ∈ windowListeners s)
  then onWindowPointerUp s else s.

(** Lines 209-210: the smoothing factors. *)
Definition lerpAlpha (delta : R) : R := 1 - exp (- delta * 12).
Definition slerpAlpha (delta : R) : R := 1 - exp (- delta * 10).

(** [Vector3.lerp] of three.js. *)
Definition lerpVector (v target : Vector3) (alpha : R) : Vector3 :=
  mkVector3 (vx v + (vx target - vx v) * alpha)
            (vy v + (vy target - vy v) * alpha)
            (vz v + (vz target - vz v) * alpha).

(** Lines 173-207: where the prop is heading. *)
Definition positionTarget (defaultPosition cameraPosition cameraDirection : Vector3)
           (s : Prop_) : Vector3 :=
  if isActive s then
    mkVector3
      (vx cameraPosition + vx cameraDirection * FRAME_CAMERA_DISTANCE + 0)
      (vy cameraPosition + vy cameraDirection * FRAME_CAMERA_DISTANCE + -0.05)
      (vz cameraPosition + vz cameraDirection * FRAME_CAMERA_DISTANCE + 0)
  else
    mkVector3 (vx defaultPosition)
      (if isHovered s then vy defaultPosition + FRAME_HOVER_LIFT
       else vy defaultPosition)
      (vz defaultPosition).

(** Lines 164-224.  [delta] is the frame delta the render host passes. *)
Definition useFrame (defaultPosition cameraPosition cameraDirection : Vector3)
           (delta : R) (s : Prop_) : Prop_ :=
  let target := positionTarget defaultPosition cameraPosition cameraDirection s in
  let targetTilt := if isActive s then - FRAME_TILT else 0 in
  let currentTilt := tilt s in
  let newTilt := currentTilt + (targetTilt - currentTilt) * (1 - exp (- delta * 10)) in
  mkProp (isActive s) (isHovered s) (isDragging s) (hasDragged s)
    (previousPointerPosition s) (rotationOffset s)
    (lerpVector (position s) target (lerpAlpha delta)) newTilt
    (windowListeners s) (outputs s).

(** What can happen to the prop. *)
Inductive Input : Type :=
| SetActive (b : bool)
| PointerOver
| PointerOut
| PointerDown (clientX clientY : R)
| Click
| WindowPointerMove (clientX clientY : R)
| WindowPointerUp.

Definition step (defaultPosition : Vector3) (s : Prop_) (i : Input) : Prop_ :=
  match i with
  | SetActive b => setActive defaultPosition b s
  | PointerOver => handlePointerOver s
  | PointerOut => handlePointerOut s
  | PointerDown x y => handlePointerDown x y s
  | Click => handleClick s
  | WindowPointerMove x y => windowPointerMove x y s
  | WindowPointerUp => windowPointerUp s
  end.

Definition run (defaultPosition : Vector3) (inputs : list Input) : Prop_ :=
  fold_left (step defaultPosition) inputs (mounted defaultPosition).

(** *** Vocabulary of the properties *)

Definition listenersAttached (s : Prop_) : Prop :=
  pointermove_onWindowPointerMove ∈ windowListeners s /\
  pointerup_onWindowPointerUp ∈ windowListeners s.

(** The discipline the drag listeners are meant to follow. *)
Definition attachedIffDragging (s : Prop_) : Prop :=
  listenersAttached s <-> isDragging s = true.

(** The inputs never deactivate the prop while it is dragged: the pointer
    is released before the parent takes [isActive] away. *)
Fixpoint releasedBeforeDeactivation (defaultPosition : Vector3) (s : Prop_)
         (inputs : list Input) : Prop :=
  match inputs with
  | [] => True
  | i :: rest =>
      (i = SetActive false -> isDragging s = false) /\
      releasedBeforeDeactivation defaultPosition (step defaultPosition s i) rest
  end.

(** A gesture: the pointer goes down on the prop at [start], moves through
    the positions [moves], is released and the click that the browser
    sends after the release arrives. *)
Definition gesture (start : R * R) (moves : list (R * R)) : list Input :=
  PointerDown (fst start) (snd start)
  :: map (fun m => WindowPointerMove (fst m) (snd m)) moves
  ++ [WindowPointerUp; Click].

(** Some move of the gesture is more than 2 pixels away, along one axis,
    from the pointer position before it (line 248). *)
Fixpoint jumps (from : R * R) (moves : list (R * R)) : Prop :=
  match moves with
  | [] => False
  | m :: rest =>
      Rabs (fst m - fst from) > 2 \/ Rabs (snd m - snd from) > 2 \/ jumps m rest
  end.

(** The prop is at rest: not dragged, with no listener on [window]. *)
Definition released (s : Prop_) : Prop :=
  isDragging s = false /\ windowListeners s = [].

End PictureFrame.

(** ** The page (src/App.tsx, lines 85-123 and 465-724) *)

Module App.

Import String.StringSyntax.
Local Open Scope string_scope.
Local Open Scope Q_scope.

(** A JavaScript string holds UTF-16 code units; [length] and [slice]
    count them. *)
Definition JsString : Type := list N.

Definition units (s : String.string) : JsString :=
  map Ascii.N_of_ascii (String.list_ascii_of_string s).

(** The face at the end of the last line: U+0669, an opening parenthesis,
    U+25D5, U+203F, U+25D5, a closing parenthesis, U+06F6. *)
Definition face : JsString := [0x669; 0x28; 0x25D5; 0x203F; 0x25D5; 0x29; 0x6F6]%N.

(** Lines 85-96. *)
Definition TYPED_LINES : list JsString :=
  [ units "> Hello, Ate Bianca";
    units "...";
    units "> Happy Birthday!";
    units "...";
    units "> I just want to say...";
    units "> Please enjoy your special day.";
    units "> Wishing you all the best and a very good future.";
    units "...";
    units "> Just a simple message for you.";
    units "> Happy Birthdayyyyyy!!! " ++ face ++ units " " ++ face
      ++ units " " ++ face ].

(** Lines 98-100, in milliseconds. *)
Definition TYPED_CHAR_DELAY : nat := 100.
Definition POST_TYPING_SCENE_DELAY : nat := 1000.
Definition CURSOR_BLINK_INTERVAL : nat := 480.

(** Lines 118-123: the song of each frame and where it starts.  Only the
    object's own keys are modelled. *)
Definition FRAME_AUDIO_MAPPING (id : String.string) : option (String.string * Q) :=
  if String.eqb id "frame1" then Some ("/Colbie Caillat.mp3", 6)
  else if String.eqb id "frame2" then Some ("/Prettiest To Me.mp3", 5)
  else if String.eqb id "frame3" then Some ("/Gwiyomi.mp3", 6)
  else if String.eqb id "frame4" then Some ("/Aphrodite.mp3", 4)
  else None.

(** An [HTMLAudioElement], as far as the page drives it: its source, the
    position the page set last, and whether it is paused.  Playback is
    taken to be allowed by the browser, and the position it advances to
    is not modelled. *)
Record Audio : Type := mkAudio {
  src : String.string;
  currentTime : Q;
  paused : bool
}.

(** [new Audio(src)]. *)
Definition newAudio (src : String.string) : Audio := mkAudio src 0 true.

Definition play (a : Audio) : Audio := mkAudio (src a) (currentTime a) false.
Definition pause (a : Audio) : Audio := mkAudio (src a) (currentTime a) true.

(** The timeout that the typing effect has armed. *)
Inductive Timeout : Type := TypingTimeout | SceneTimeout.

(** The state and the refs of [App] (lines 466-481), and the pending
    timeout of the typing effect. *)
Record State : Type := mkState {
  hasStarted : bool;
  backgroundOpacity : Q;
  environmentProgress : Q;
  currentLineIndex : nat;
  currentCharIndex : nat;
  sceneStarted : bool;
  cursorVisible : bool;
  hasAnimationCompleted : bool;
  isCandleLit : bool;
  fireworksActive : bool;
  activeCardId : option String.string;
  activeFrameId : option String.string;
  showCardOverlay : bool;
  isDraggingFrame : bool;
  backgroundAudioRef : option Audio;
  frameAudioRef : option Audio;
  timeout : option Timeout
}.

(** *** Field updates *)

Definition set_hasStarted (v : bool) (s : State) : State :=
  mkState v (backgroundOpacity s) (environmentProgress s) (currentLineIndex s)
    (currentCharIndex s) (sceneStarted s) (cursorVisible s)
    (hasAnimationCompleted s) (isCandleLit s) (fireworksActive s)
    (activeCardId s) (activeFrameId s) (showCardOverlay s) (isDraggingFrame s)
    (backgroundAudioRef s) (frameAudioRef s) (timeout s).
Definition set_backgroundOpacity (v : Q) (s : State) : State :=
  mkState (hasStarted s) v (environmentProgress s) (currentLineIndex s)
    (currentCharIndex s) (sceneStarted s) (cursorVisible s)
    (hasAnimationCompleted s) (isCandleLit s) (fireworksActive s)
    (activeCardId s) (activeFrameId s) (showCardOverlay s) (isDraggingFrame s)
    (backgroundAudioRef s) (frameAudioRef s) (timeout s).
Definition set_environmentProgress (v : Q) (s : State) : State :=
  mkState (hasStarted s) (backgroundOpacity s) v (currentLineIndex s)
    (currentCharIndex s) (sceneStarted s) (cursorVisible s)
    (hasAnimationCompleted s) (isCandleLit s) (fireworksActive s)
    (activeCardId s) (activeFrameId s) (showCardOverlay s) (isDraggingFrame s)
    (backgroundAudioRef s) (frameAudioRef s) (timeout s).
Definition set_currentLineIndex (v : nat) (s : State) : State :=
  mkState (hasStarted s) (backgroundOpacity s) (environmentProgress s) v
    (currentCharIndex s) (sceneStarted s) (cursorVisible s)
    (hasAnimationCompleted s) (isCandleLit s) (fireworksActive s)
    (activeCardId s) (activeFrameId s) (showCardOverlay s) (isDraggingFrame s)
    (backgroundAudioRef s) (frameAudioRef s) (timeout s).
Definition set_currentCharIndex (v : nat) (s : State) : State :=
  mkState (hasStarted s) (backgroundOpacity s) (environmentProgress s)
    (currentLineIndex s) v (sceneStarted s) (cursorVisible s)
    (hasAnimationCompleted s) (isCandleLit s) (fireworksActive s)
    (activeCardId s) (activeFrameId s) (showCardOverlay s) (isDraggingFrame s)
    (backgroundAudioRef s) (frameAudioRef s) (timeout s).
Definition set_sceneStarted (v : bool) (s : State) : State :=
  mkState (hasStarted s) (backgroundOpacity s) (environmentProgress s)
    (currentLineIndex s) (currentCharIndex s) v (cursorVisible s)
    (hasAnimationCompleted s) (isCandleLit s) (fireworksActive s)
    (activeCardId s) (activeFrameId s) (showCardOverlay s) (isDraggingFrame s)
    (backgroundAudioRef s) (frameAudioRef s) (timeout s).
Definition set_cursorVisible (v : bool) (s : State) : State :=
  mkState (hasStarted s) (backgroundOpacity s) (environmentProgress s)
    (currentLineIndex s) (currentCharIndex s) (sceneStarted s) v
    (hasAnimationCompleted s) (isCandleLit s) (fireworksActive s)
    (activeCardId s) (activeFrameId s) (showCardOverlay s) (isDraggingFrame s)
    (backgroundAudioRef s) (frameAudioRef s) (timeout s).
Definition set_hasAnimationCompleted (v : bool) (s : State) : State :=
  mkState (hasStarted s) (backgroundOpacity s) (environmentProgress s)
    (currentLineIndex s) (currentCharIndex s) (sceneStarted s)
    (cursorVisible s) v (isCandleLit s) (fireworksActive s) (activeCardId s)
    (activeFrameId s) (showCardOverlay s) (isDraggingFrame s)
    (backgroundAudioRef s) (frameAudioRef s) (timeout s).
Definition set_isCandleLit (v : bool) (s : State) : State :=
  mkState (hasStarted s) (backgroundOpacity s) (environmentProgress s)
    (currentLineIndex s) (currentCharIndex s) (sceneStarted s)
    (cursorVisible s) (hasAnimationCompleted s) v (fireworksActive s)
    (activeCardId s) (activeFrameId s) (showCardOverlay s) (isDraggingFrame s)
    (backgroundAudioRef s) (frameAudioRef s) (timeout s).
Definition set_fireworksActive (v : bool) (s : State) : State :=
  mkState (hasStarted s) (backgroundOpacity s) (environmentProgress s)
    (currentLineIndex s) (currentCharIndex s) (sceneStarted s)
    (cursorVisible s) (hasAnimationCompleted s) (isCandleLit s) v
    (activeCardId s) (activeFrameId s) (showCardOverlay s) (isDraggingFrame s)
    (backgroundAudioRef s) (frameAudioRef s) (timeout s).
Definition set_activeCardId (v : option String.string) (s : State) : State :=
  mkState (hasStarted s) (backgroundOpacity s) (environmentProgress s)
    (currentLineIndex s) (currentCharIndex s) (sceneStarted s)
    (cursorVisible s) (hasAnimationCompleted s) (isCandleLit s)
    (fireworksActive s) v (activeFrameId s) (showCardOverlay s)
    (isDraggingFrame s) (backgroundAudioRef s) (frameAudioRef s) (timeout s).
Definition set_activeFrameId (v : option String.string) (s : State) : State :=
  mkState (hasStarted s) (backgroundOpacity s) (environmentProgress s)
    (currentLineIndex s) (currentCharIndex s) (sceneStarted s)
    (cursorVisible s) (hasAnimationCompleted s) (isCandleLit s)
    (fireworksActive s) (activeCardId s) v (showCardOverlay s)
    (isDraggingFrame s) (backgroundAudioRef s) (frameAudioRef s) (timeout s).
Definition set_showCardOverlay (v : bool) (s : State) : State :=
  mkState (hasStarted s) (backgroundOpacity s) (environmentProgress s)
    (currentLineIndex s) (currentCharIndex s) (sceneStarted s)
    (cursorVisible s) (hasAnimationCompleted s) (isCandleLit s)
    (fireworksActive s) (activeCardId s) (activeFrameId s) v
    (isDraggingFrame s) (backgroundAudioRef s) (frameAudioRef s) (timeout s).
Definition set_isDraggingFrame (v : bool) (s : State) : State :=
  mkState (hasStarted s) (backgroundOpacity s) (environmentProgress s)
    (currentLineIndex s) (currentCharIndex s) (sceneStarted s)
    (cursorVisible s) (hasAnimationCompleted s) (isCandleLit s)
    (fireworksActive s) (activeCardId s) (activeFrameId s) (showCardOverlay s)
    v (backgroundAudioRef s) (frameAudioRef s) (timeout s).
Definition set_backgroundAudioRef (v : option Audio) (s : State) : State :=
  mkState (hasStarted s) (backgroundOpacity s) (environmentProgress s)
    (currentLineIndex s) (currentCharIndex s) (sceneStarted s)
    (cursorVisible s) (hasAnimationCompleted s) (isCandleLit s)
    (fireworksActive s) (activeCardId s) (activeFrameId s) (showCardOverlay s)
    (isDraggingFrame s) v (frameAudioRef s) (timeout s).
Definition set_frameAudioRef (v : option Audio) (s : State) : State :=
  mkState (hasStarted s) (backgroundOpacity s) (environmentProgress s)
    (currentLineIndex s) (currentCharIndex s) (sceneStarted s)
    (cursorVisible s) (hasAnimationCompleted s) (isCandleLit s)
    (fireworksActive s) (activeCardId s) (activeFrameId s) (showCardOverlay s)
    (isDraggingFrame s) (backgroundAudioRef s) v (timeout s).
Definition set_timeout (v : option Timeout) (s : State) : State :=
  mkState (hasStarted s) (backgroundOpacity s) (environmentProgress s)
    (currentLineIndex s) (currentCharIndex s) (sceneStarted s)
    (cursorVisible s) (hasAnimationCompleted s) (isCandleLit s)
    (fireworksActive s) (activeCardId s) (activeFrameId s) (showCardOverlay s)
    (isDraggingFrame s) (backgroundAudioRef s) (frameAudioRef s) v.

(** Lines 466-481: the initial values. *)
Definition initialState : State :=
  mkState false 1 0 0 0 false true false true false None None false false
    None None None.

(** A string or [null] used as a condition. *)
Definition truthy (id : option String.string) : bool :=
  match id with
  | Some id => negb (String.eqb id String.EmptyString)
  | None => false
  end.

(** *** What is rendered (lines 507-530 and 647-722) *)

Definition typingComplete (s : State) : bool :=
  (length TYPED_LINES <=? currentLineIndex s)%nat.

(** Lines 508-522. *)
Definition typedLines (s : State) : list JsString :=
  if (length TYPED_LINES =? 0)%nat then [[]]
  else
    imap (fun index line =>
            if typingComplete s || (index <? currentLineIndex s)%nat then line
            else if (index =? currentLineIndex s)%nat then
              take (Nat.min (currentCharIndex s) (length line)) line
            else [])
         TYPED_LINES.

(** Lines 524-530. *)
Definition cursorLineIndex (s : State) : Z :=
  if typingComplete s then Z.max (Z.of_nat (length (typedLines s)) - 1) 0
  else Z.of_nat (currentLineIndex s).

Definition cursorTargetIndex (s : State) : Z :=
  Z.max (Z.min (cursorLineIndex s) (Z.of_nat (length (typedLines s)) - 1)) 0.

(** Lines 658-661. *)
Definition showCursor (s : State) (index : nat) : bool :=
  cursorVisible s && (Z.of_nat index =? cursorTargetIndex s)%Z
  && (negb (typingComplete s) || negb (sceneStarted s)).

(** Line 647. *)
Definition isScenePlaying (s : State) : bool := hasStarted s && sceneStarted s.

(** Line 675: the hint to blow out the candle. *)
Definition hintVisible (s : State) : bool := hasAnimationCompleted s && isCandleLit s.

(** Lines 329-368: the [isActive] prop of the picture frame [frameId]. *)
Definition frameIsActive (s : State) (frameId : String.string) : bool :=
  match activeFrameId s with
  | Some id => String.eqb id frameId
  | None => false
  end.

(** Line 719: the [enabled] prop of the orbit controls. *)
Definition orbitEnabled (s : State) : bool :=
  negb (isDraggingFrame s) && negb (truthy (activeFrameId s)).

(** Lines 706-714: the intensities of the lights. *)
Definition ambientIntensity (s : State) : Q := (1 - environmentProgress s) * 0.8.
Definition environmentIntensity (s : State) : Q := 0.1 * environmentProgress s.
Definition backgroundIntensity (s : State) : Q := 0.05 * environmentProgress s.

(** *** The effects *)

(** Lines 483-492, at mount. *)
Definition audioMountEffect (s : State) : State :=
  set_backgroundAudioRef (Some (newAudio "/Paragraphs.mp3")) s.

(** Lines 494-505. *)
Definition playBackgroundMusic (s : State) : State :=
  match backgroundAudioRef s with
  | None => s
  | Some audio =>
      if negb (paused audio) then s
      else set_backgroundAudioRef (Some (play audio)) s
  end.

(** Lines 560-566: the lines after [nextLineIndex] that are empty are
    skipped; [lines] are the lines from [nextLineIndex] on. *)
Fixpoint skipEmptyLines (lines : list JsString) (nextLineIndex : nat) : nat :=
  match lines with
  | line :: lines' =>
      if (length line =? 0)%nat then skipEmptyLines lines' (S nextLineIndex)
      else nextLineIndex
  | [] => nextLineIndex
  end.

(** Lines 553-570: the handler of the typing timeout. *)
Definition onTypingTimeout (s : State) : State :=
  let currentLine := nth (currentLineIndex s) TYPED_LINES [] in
  if (currentCharIndex s <? length currentLine)%nat then
    set_currentCharIndex (currentCharIndex s + 1) s
  else
    let nextLineIndex :=
      skipEmptyLines (drop (currentLineIndex s + 1) TYPED_LINES)
        (currentLineIndex s + 1) in
    set_currentCharIndex 0 (set_currentLineIndex nextLineIndex s).

(** Lines 545-547: the handler of the scene timeout. *)
Definition onSceneTimeout (s : State) : State := set_sceneStarted true s.

(** Lines 532-579: the typing effect.  Its previous run is cleaned up
    first, which clears the timeout that run armed. *)
Definition typingEffect (s : State) : State :=
  let s := set_timeout None s in
  if negb (hasStarted s) then
    set_hasAnimationCompleted false
      (set_fireworksActive false
         (set_isCandleLit true
            (set_sceneStarted false
               (set_currentCharIndex 0 (set_currentLineIndex 0 s)))))
  else if typingComplete s then
    if negb (sceneStarted s) then set_timeout (Some SceneTimeout) s else s
  else set_timeout (Some TypingTimeout) s.

(** Lines 617-645: the effect that switches between the background music
    and the song of the active frame. *)
Definition audioEffect (s : State) : State :=
  let s :=
    match frameAudioRef s with
    | None => set_frameAudioRef (Some (newAudio String.EmptyString)) s
    | Some _ => s
    end in
  let bgAudio := backgroundAudioRef s in
  match frameAudioRef s with
  | None => s
  | Some frameAudio =>
      if truthy (activeFrameId s) then
        let s :=
          match bgAudio with
          | Some bg => set_backgroundAudioRef (Some (pause bg)) s
          | None => s
          end in
        match activeFrameId s with
        | Some id =>
            match FRAME_AUDIO_MAPPING id with
            | Some (src, startAt) =>
                set_frameAudioRef (Some (play (mkAudio src startAt (paused frameAudio)))) s
            | None => s
            end
        | None => s
        end
      else
        let s := set_frameAudioRef (Some (mkAudio (src frameAudio) 0 true)) s in
        match bgAudio with
        | Some bg =>
            if hasStarted s && negb (truthy (activeCardId s))
            then set_backgroundAudioRef (Some (play bg)) s
            else s
        | None => s
        end
  end.

(** The dependencies of the typing effect (lines 573-579) and of the audio
    effect (line 645). *)
Definition typingDeps (s : State) : bool * nat * nat * bool * bool :=
  (hasStarted s, currentCharIndex s, currentLineIndex s, typingComplete s,
   sceneStarted s).

Definition audioDeps (s : State)
  : option String.string * bool * option String.string :=
  (activeFrameId s, hasStarted s, activeCardId s).

Definition sameTypingDeps (prev s : State) : bool :=
  Bool.eqb (hasStarted prev) (hasStarted s)
  && (currentCharIndex prev =? currentCharIndex s)%nat
  && (currentLineIndex prev =? currentLineIndex s)%nat
  && Bool.eqb (typingComplete prev) (typingComplete s)
  && Bool.eqb (sceneStarted prev) (sceneStarted s).

Definition sameId (a b : option String.string) : bool :=
  match a, b with
  | Some a, Some b => String.eqb a b
  | None, None => true
  | _, _ => false
  end.

Definition sameAudioDeps (prev s : State) : bool :=
  sameId (activeFrameId prev) (activeFrameId s)
  && Bool.eqb (hasStarted prev) (hasStarted s)
  && sameId (activeCardId prev) (activeCardId s).

(** After a render, the effects whose dependencies differ from those of
    the previous render [prev] run, in the order of their declaration. *)
Definition runEffects (prev s : State) : State :=
  let s1 := if sameTypingDeps prev s then s else typingEffect s in
  if sameAudioDeps prev s then s1 else audioEffect s1.

(** The mounted page: every effect has run once. *)
Definition mounted : State :=
  audioEffect (typingEffect (audioMountEffect initialState)).

(** *** The handlers *)

Record KeyboardEvent : Type := mkKey { code : String.string; key : String.string }.

(** Lines 589-603. *)
Definition handleKeyDown (event : KeyboardEvent) (s : State) : State :=
  if negb (String.eqb (code event) "Space") && negb (String.eqb (key event) " ")
  then s
  else if negb (hasStarted s) then set_hasStarted true (playBackgroundMusic s)
  else if hasAnimationCompleted s && isCandleLit s then
    set_fireworksActive true (set_isCandleLit false s)
  else s.

(** Lines 609-615: [current === id ? null : id]. *)
Definition toggle (current : option String.string) (id : String.string)
  : option String.string :=
  match current with
  | Some c => if String.eqb c id then None else Some id
  | None => Some id
  end.

Definition handleCardToggle (id : String.string) (s : State) : State :=
  set_activeCardId (toggle (activeCardId s) id) s.

Definition handleFrameToggle (id : String.string) (s : State) : State :=
  set_activeFrameId (toggle (activeFrameId s) id) s.

(** Lines 685-689. *)
Definition onPointerMissed (s : State) : State :=
  if truthy (activeFrameId s) then
    match activeFrameId s with
    | Some id => handleFrameToggle id s
    | None => s
    end
  else s.

(** Lines 695-697: the callbacks handed to [AnimatedScene]. *)
Definition onSceneCallback (e : Timeline.Event) (s : State) : State :=
  match e with
  | Timeline.BackgroundFadeChange opacity => set_backgroundOpacity opacity s
  | Timeline.EnvironmentProgressChange progress => set_environmentProgress progress s
  | Timeline.AnimationComplete => set_hasAnimationCompleted true s
  end.

(** What can happen to the mounted page. *)
Inductive Event : Type :=
| KeyDown (event : KeyboardEvent)
| TimeoutFires
| CursorBlink
| SceneCallback (e : Timeline.Event)
| ToggleCard (id : String.string)
| ToggleFrame (id : String.string)
| DragChange (isDragging : bool)
| PointerMissed
| ShowOverlay
| CloseOverlay.

Definition handle (e : Event) (s : State) : State :=
  match e with
  | KeyDown event => handleKeyDown event s
  | TimeoutFires =>
      match timeout s with
      | Some TypingTimeout => onTypingTimeout (set_timeout None s)
      | Some SceneTimeout => onSceneTimeout (set_timeout None s)
      | None => s
      end
  | CursorBlink => set_cursorVisible (negb (cursorVisible s)) s
  | SceneCallback e => onSceneCallback e s
  | ToggleCard id => handleCardToggle id s
  | ToggleFrame id => handleFrameToggle id s
  | DragChange isDragging => set_isDraggingFrame isDragging s
  | PointerMissed => onPointerMissed s
  | ShowOverlay => set_showCardOverlay true s
  | CloseOverlay => set_showCardOverlay false s
  end.

(** A handler runs, the page renders, and the effects run. *)
Definition step (s : State) (e : Event) : State := runEffects s (handle e s).

Definition run (es : list Event) : State := fold_left step es mounted.

(** *** Vocabulary of the properties *)

Definition space : KeyboardEvent := mkKey "Space" " ".

(** The page after the first press of the space bar and [n] firings of
    the armed timeout. *)
Definition typed (n : nat) : State := run (KeyDown space :: repeat TimeoutFires n).

(** The number of code units on screen. *)
Definition shown (s : State) : nat := length (concat (typedLines s)).

(** The number of timeouts that type the whole text: one for each code
    unit and one at the end of each line. *)
Definition TYPING_TIMEOUTS : nat :=
  length (concat TYPED_LINES) + length TYPED_LINES.

Definition playing (a : option Audio) : bool :=
  match a with
  | Some a => negb (paused a)
  | None => false
  end.

(** The timeout that the typing effect arms when it runs in state [s]. *)
Definition armed (s : State) : option Timeout :=
  if negb (hasStarted s) then None
  else if typingComplete s then
    if negb (sceneStarted s) then Some SceneTimeout else None
  else Some TypingTimeout.

(** The calls of the callbacks of [AnimatedScene] among the events. *)
Definition sceneCallbacks (es : list Event) : list Timeline.Event :=
  flat_map (fun e => match e with SceneCallback c => [c] | _ => [] end) es.

(** The line being typed. *)
Definition currentLine (s : State) : JsString :=
  nth (currentLineIndex s) TYPED_LINES [].

(** What the key handler, the timeouts and the typing effect keep true:
    the fireworks run exactly when the candle is out, and only after the
    animation has completed; the pending timeout is the one the typing
    effect arms in the state; before the start nothing is typed; the scene
    starts only after the typing; and the typing position is inside its
    line. *)
Definition protocol (s : State) : Prop :=
  fireworksActive s = negb (isCandleLit s) /\
  (fireworksActive s = true ->
     hasStarted s = true /\ hasAnimationCompleted s = true) /\
  timeout s = armed s /\
  (hasStarted s = false ->
     currentLineIndex s = 0%nat /\ currentCharIndex s = 0%nat /\
     sceneStarted s = false) /\
  (sceneStarted s = true -> typingComplete s = true) /\
  (currentCharIndex s <= length (currentLine s))%nat.

(** What the audio effect keeps true of the two audio elements: while a
    frame is active the background music is paused; while none is, the
    frame's song is paused and rewound; the background music plays only
    after the start, and with no card active exactly when the page has
    started and no frame is active; and the song of an active frame is
    the one of the mapping, playing from its start position. *)
Definition mixed (s : State) : Prop :=
  exists bg song,
    backgroundAudioRef s = Some bg /\ frameAudioRef s = Some song /\
    (truthy (activeFrameId s) = true -> paused bg = true) /\
    (truthy (activeFrameId s) = false -> paused song = true /\ currentTime song = 0) /\
    (paused bg = false -> hasStarted s = true) /\
    (truthy (activeCardId s) = false ->
       paused bg = negb (hasStarted s && negb (truthy (activeFrameId s)))) /\
    (forall id src startAt,
       activeFrameId s = Some id -> FRAME_AUDIO_MAPPING id = Some (src, startAt) ->
       song = mkAudio src startAt false).

End App.

(** ** The card overlay (src/components/CardOverlay.tsx) *)

Module CardOverlay.

Import String.StringSyntax.
Local Open Scope string_scope.
Local Open Scope Z_scope.



(** Lines 19-20: the state and the ref of the component, and the number of
    timeouts that [onDragEnd] has scheduled and that have not fired. *)
Record State : Type := mkState {
  focusedIndex : option nat;
  isDragging : bool;
  pending : nat
}.

Definition initialState : State := mkState None false 0.

(** Calls of the [onClose] prop. *)
Inductive Callback : Type := onClose.

(** Lines 23-29. *)
Definition handleBackgroundClick (s : State) : State * list Callback :=
  match focusedIndex s with
  | Some _ => (mkState None (isDragging s) (pending s), [])
  | None => (s, [onClose])
  end.

(** Lines 31-37.  The click does not propagate to the background. *)
Definition handleCardClick (index : nat) (s : State) : State * list Callback :=
  if isDragging s then (s, [])
  else
    let same :=
      match focusedIndex s with
      | Some f => (index =? f)%nat
      | None => false
      end in
    (mkState (if same then None else Some index) (isDragging s) (pending s), []).

(** Line 86. *)
Definition onDragStart (s : State) : State :=
  mkState (focusedIndex s) true (pending s).

(** Line 87: the timeout is scheduled. *)
Definition onDragEnd (s : State) : State :=
  mkState (focusedIndex s) (isDragging s) (S (pending s)).

(** Line 87: one of the scheduled timeouts fires. *)
Definition onTimeout (s : State) : State :=
  match pending s with
  | O => s
  | S n => mkState (focusedIndex s) false n
  end.

Inductive Event : Type :=
| BackgroundClick
| CardClick (index : nat)
| DragStart
| DragEnd
| TimeoutFires.

Definition step (s : State) (e : Event) : State * list Callback :=
  match e with
  | BackgroundClick => handleBackgroundClick s
  | CardClick index => handleCardClick index s
  | DragStart => (onDragStart s, [])
  | DragEnd => (onDragEnd s, [])
  | TimeoutFires => (onTimeout s, [])
  end.

(** The state after the events, and the callbacks they invoked. *)
Fixpoint run (es : list Event) (s : State) : State * list Callback :=
  match es with
  | [] => (s, [])
  | e :: es' =>
      let '(s1, c1) := step s e in
      let '(s2, c2) := run es' s1 in
      (s2, c1 ++ c2)
  end.

(** *** What is rendered for the card at [index] (lines 79-130) *)

Definition isFocused (s : State) (index : nat) : bool :=
  match focusedIndex s with
  | Some f => (f =? index)%nat
  | None => false
  end.

Definition someFocused (s : State) : bool :=
  match focusedIndex s with
  | Some _ => true
  | None => false
  end.



Definition opacity (s : State) (index : nat) : Q :=
  if someFocused s && negb (isFocused s index) then 0.3%Q else 1%Q.





(** *** Vocabulary of the properties *)



End CardOverlay.

(** * Properties *)

(** ** Timeline *)

Module TimelineFacts.

Import Timeline.
Local Open Scope Q_scope.

(** Linear and non-linear arithmetic over [Q]. *)
Local Ltac lra := Lqa.lra.
Local Ltac nra := Lqa.nra.

(** *** Comparisons and clamping *)

Lemma Qltb_true (x y : Q) : Qltb x y = true <-> x < y.
Proof.
  unfold Qltb. rewrite negb_true_iff.
  destruct (Qle_bool y x) eqn:E.
  - apply Qle_bool_iff in E. split; [discriminate | intros H; exfalso; lra].
  - split; [intros _ | reflexivity].
    apply Qnot_le_lt. intros H. apply Qle_bool_iff in H. congruence.
Qed.

Lemma Qltb_false (x y : Q) : Qltb x y = false <-> y <= x.
Proof.
  destruct (Qltb x y) eqn:E.
  - apply Qltb_true in E. split; [discriminate | intros H; exfalso; lra].
  - split; [intros _ | reflexivity].
    apply Qnot_lt_le. intros H. apply Qltb_true in H. congruence.
Qed.

Lemma Qgeb_true (x y : Q) : Qgeb x y = true <-> y <= x.
Proof. unfold Qgeb. apply Qle_bool_iff. Qed.

Lemma Qgeb_false (x y : Q) : Qgeb x y = false <-> x < y.
Proof.
  destruct (Qgeb x y) eqn:E.
  - apply Qgeb_true in E. split; [discriminate | intros H; exfalso; lra].
  - split; [intros _ | reflexivity].
    apply Qnot_le_lt. intros H. apply Qgeb_true in H. congruence.
Qed.

Lemma clamp_cases (v lo hi : Q) :
  lo <= hi ->
  (v <= lo /\ clamp v lo hi == lo) \/
  (lo <= v <= hi /\ clamp v lo hi == v) \/
  (hi <= v /\ clamp v lo hi == hi).
Proof.
  intros Hlh. unfold clamp.
  destruct (Q.max_spec lo v) as [[H1 E1] | [H1 E1]];
    destruct (Q.min_spec hi (Qmax lo v)) as [[H2 E2] | [H2 E2]];
    rewrite E1 in *; rewrite E2.
  - right; right. split; [lra | reflexivity].
  - right; left. split; [lra | reflexivity].
  - right; right. split; [lra | reflexivity].
  - left. split; [lra | reflexivity].
Qed.

Lemma clamp_range (v lo hi : Q) : lo <= hi -> lo <= clamp v lo hi <= hi.
Proof. intros H. destruct (clamp_cases v lo hi H) as [[? E] | [[? E] | [? E]]]; lra. Qed.

Lemma clamp_id (v lo hi : Q) : lo <= v <= hi -> clamp v lo hi == v.
Proof.
  intros H. destruct (clamp_cases v lo hi) as [[? E] | [[? E] | [? E]]]; lra.
Qed.

Lemma clamp_mono (v w lo hi : Q) :
  lo <= hi -> v <= w -> clamp v lo hi <= clamp w lo hi.
Proof.
  intros H Hvw.
  destruct (clamp_cases v lo hi H) as [[? E] | [[? E] | [? E]]];
    destruct (clamp_cases w lo hi H) as [[? F] | [[? F] | [? F]]]; lra.
Qed.

(** *** The phase constants, evaluated *)

Lemma total_value : totalAnimationTime == 5.2.
Proof. reflexivity. Qed.

Lemma candle_drop_start_value : CANDLE_DROP_START == 4.
Proof. reflexivity. Qed.

Lemma fade_start_value : BACKGROUND_FADE_START == 3.
Proof. reflexivity. Qed.

Lemma cube_mono (x y : Q) : 0 <= x -> x <= y -> x ^ 3 <= y ^ 3.
Proof.
  intros Hx Hxy. simpl.
  assert (H1 : x * x <= y * y) by nra.
  assert (H2 : 0 <= x * x) by nra.
  nra.
Qed.

(** *** What one frame does to the refs *)

(** Arithmetic stays folded while the frame is taken apart. *)
Local Arguments clamp : simpl never.
Local Arguments lerp : simpl never.
Local Arguments easeOutCubic : simpl never.
Local Arguments Qltb : simpl never.
Local Arguments Qgeb : simpl never.
Local Arguments Qabs : simpl never.
Local Arguments Qplus : simpl never.
Local Arguments Qminus : simpl never.
Local Arguments Qmult : simpl never.
Local Arguments Qdiv : simpl never.
Local Arguments Qopp : simpl never.

Lemma prime_refs (s : Scene) :
  animationStartRef (prime s) = animationStartRef s /\
  hasCompletedRef (prime s) = hasCompletedRef s /\
  completionNotifiedRef (prime s) = completionNotifiedRef s /\
  backgroundOpacityRef (prime s) = backgroundOpacityRef s /\
  environmentProgressRef (prime s) = environmentProgressRef s /\
  hasPrimedRef (prime s) = true.
Proof. unfold prime. destruct (hasPrimedRef s) eqn:E; simpl; repeat split; auto. Qed.

Lemma prime_primed (s : Scene) : hasPrimedRef s = true -> prime s = s.
Proof. unfold prime. intros ->. reflexivity. Qed.

Lemma andThen_fst (a b : Action) (s : Scene) :
  fst ((a >> b) s) = fst (b (fst (a s))).
Proof. unfold andThen. destruct (a s) as [s1 e1]. simpl. destruct (b s1). reflexivity. Qed.

Lemma andThen_snd (a b : Action) (s : Scene) :
  snd ((a >> b) s) = snd (a s) ++ snd (b (fst (a s))).
Proof. unfold andThen. destruct (a s) as [s1 e1]. simpl. destruct (b s1). reflexivity. Qed.

Lemma completions_app (e1 e2 : list Event) :
  completions (e1 ++ e2) = (completions e1 + completions e2)%nat.
Proof. unfold completions. rewrite filter_app, length_app. reflexivity. Qed.

(** The emitters touch one signal and nothing else. *)

Lemma emitBackgroundOpacity_frame (v : Q) (s : Scene) :
  flags (fst (emitBackgroundOpacity v s)) = flags s /\
  poses (fst (emitBackgroundOpacity v s)) = poses s /\
  hasPrimedRef (fst (emitBackgroundOpacity v s)) = hasPrimedRef s /\
  environmentProgressRef (fst (emitBackgroundOpacity v s)) = environmentProgressRef s /\
  completions (snd (emitBackgroundOpacity v s)) = 0%nat.
Proof.
  unfold emitBackgroundOpacity.
  destruct (Qltb _ _); repeat split; reflexivity.
Qed.

Lemma emitEnvironmentProgress_frame (v : Q) (s : Scene) :
  flags (fst (emitEnvironmentProgress v s)) = flags s /\
  poses (fst (emitEnvironmentProgress v s)) = poses s /\
  hasPrimedRef (fst (emitEnvironmentProgress v s)) = hasPrimedRef s /\
  backgroundOpacityRef (fst (emitEnvironmentProgress v s)) = backgroundOpacityRef s /\
  completions (snd (emitEnvironmentProgress v s)) = 0%nat.
Proof.
  unfold emitEnvironmentProgress.
  destruct (Qltb _ _); repeat split; reflexivity.
Qed.

Lemma emitFade_frame (t : Q) (s : Scene) :
  flags (fst (emitFade t s)) = flags s /\
  poses (fst (emitFade t s)) = poses s /\
  hasPrimedRef (fst (emitFade t s)) = hasPrimedRef s /\
  completions (snd (emitFade t s)) = 0%nat.
Proof.
  unfold emitFade.
  destruct (Qltb t BACKGROUND_FADE_START);
    rewrite andThen_fst, andThen_snd, completions_app;
    match goal with
    | |- context [emitEnvironmentProgress ?w (fst (emitBackgroundOpacity ?v s))] =>
        destruct (emitBackgroundOpacity_frame v s) as (F1 & P1 & H1 & _ & C1);
        destruct (emitEnvironmentProgress_frame w (fst (emitBackgroundOpacity v s)))
          as (F2 & P2 & H2 & _ & C2)
    end;
    rewrite F2, P2, H2, C2, F1, P1, H1, C1; repeat split; reflexivity.
Qed.

Lemma notifyCompletion_spec (s : Scene) :
  flags (fst (notifyCompletion s))
    = (animationStartRef s, hasCompletedRef s, true) /\
  poses (fst (notifyCompletion s)) = poses s /\
  signals (fst (notifyCompletion s)) = signals s /\
  completions (snd (notifyCompletion s))
    = (if completionNotifiedRef s then 0 else 1)%nat.
Proof.
  unfold notifyCompletion, flags.
  destruct (completionNotifiedRef s) eqn:E; simpl; rewrite ?E; repeat split; reflexivity.
Qed.

Lemma flags_inv (s : Scene) (a : option Q) (c n : bool) :
  flags s = (a, c, n) ->
  animationStartRef s = a /\ hasCompletedRef s = c /\ completionNotifiedRef s = n.
Proof. unfold flags. intros H. injection H as -> -> ->. auto. Qed.

Ltac step_seq :=
  repeat (rewrite andThen_fst || rewrite andThen_snd || rewrite completions_app).

Lemma finish_not_done (t : Q) (s : Scene) :
  Qgeb t totalAnimationTime = false -> finish t s = (s, []).
Proof. unfold finish. intros ->. reflexivity. Qed.

Lemma finish_done_flags (t : Q) (s : Scene) :
  Qgeb t totalAnimationTime = true ->
  flags (fst (finish t s)) = (animationStartRef s, true, true) /\
  completions (snd (finish t s))
    = (if completionNotifiedRef s then 0 else 1)%nat.
Proof.
  unfold finish. intros ->. step_seq.
  change (fst (upd snapFinalPose s)) with (snapFinalPose s).
  set (s1 := snapFinalPose s).
  set (s2 := fst (emitBackgroundOpacity 0 s1)).
  set (s3 := fst (emitEnvironmentProgress 1 s2)).
  change (fst (upd (set_hasCompleted true) s3)) with (set_hasCompleted true s3).
  set (s4 := set_hasCompleted true s3).
  destruct (emitBackgroundOpacity_frame 0 s1) as (F1 & _ & _ & _ & C1).
  destruct (emitEnvironmentProgress_frame 1 s2) as (F2 & _ & _ & _ & C2).
  destruct (notifyCompletion_spec s4) as (F4 & _ & _ & C4).
  fold s2 in F1, F2. fold s3 in F2.
  assert (F3 : flags s3 = flags s) by (rewrite F2, F1; reflexivity).
  apply flags_inv in F3. destruct F3 as (Fa & Fc & Fn).
  rewrite F4, C4, C1, C2.
  change (animationStartRef s4) with (animationStartRef s3).
  change (completionNotifiedRef s4) with (completionNotifiedRef s3).
  change (hasCompletedRef s4) with true.
  rewrite Fa, Fn. split; reflexivity.
Qed.

Lemma poses_keep_flags (t : Q) (s : Scene) :
  flags (poseCandle t (poseTable t (poseCake t s))) = flags s /\
  signals (poseCandle t (poseTable t (poseCake t s))) = signals s /\
  hasPrimedRef (poseCandle t (poseTable t (poseCake t s))) = hasPrimedRef s.
Proof.
  unfold poseCandle. destruct (Qgeb t CANDLE_DROP_START); repeat split; reflexivity.
Qed.

Lemma playingFrame_flags (c : Q) (s : Scene) :
  hasCompletedRef s = false ->
  completionNotifiedRef s = false ->
  let a := startReference c s in
  let done := Qgeb (clamp (c - a) 0 totalAnimationTime) totalAnimationTime in
  flags (fst (playingFrame c s)) = (Some a, done, done) /\
  completions (snd (playingFrame c s)) = (if done then 1 else 0)%nat.
Proof.
  intros Hc Hn a done. unfold playingFrame. fold a.
  set (t := clamp (c - a) 0 totalAnimationTime) in *.
  step_seq.
  set (s0 := set_animationStart (Some a) s).
  change (fst (upd (poseCandle t) (fst (upd (poseTable t) (fst (upd (poseCake t) s0))))))
    with (poseCandle t (poseTable t (poseCake t s0))).
  change (fst (upd (poseTable t) (fst (upd (poseCake t) s0))))
    with (poseTable t (poseCake t s0)).
  change (fst (upd (poseCake t) s0)) with (poseCake t s0).
  set (s3 := poseCandle t (poseTable t (poseCake t s0))).
  assert (F3 : flags s3 = (Some a, false, false)).
  { unfold s3. destruct (poses_keep_flags t s0) as (-> & _).
    unfold flags, s0. simpl. rewrite Hc, Hn. reflexivity. }
  destruct (emitFade_frame t s3) as (F4 & _ & _ & C4).
  set (s4 := fst (emitFade t s3)) in *.
  rewrite F3 in F4. apply flags_inv in F4. destruct F4 as (Fa & Fc & Fn).
  change (completions (snd (upd _ _))) with 0%nat. rewrite C4. simpl.
  destruct done eqn:D; subst done.
  - destruct (finish_done_flags t s4 D) as [F5 C5].
    rewrite F5, C5, Fa, Fn. split; reflexivity.
  - rewrite (finish_not_done t s4 D). simpl.
    unfold flags. rewrite Fa, Fc, Fn. split; reflexivity.
Qed.

Lemma completedFrame_flags (s : Scene) :
  flags (fst (completedFrame s))
    = (animationStartRef s, hasCompletedRef s, true) /\
  completions (snd (completedFrame s))
    = (if completionNotifiedRef s then 0 else 1)%nat.
Proof.
  unfold completedFrame. step_seq.
  set (s1 := fst (emitBackgroundOpacity 0 s)).
  set (s2 := fst (emitEnvironmentProgress 1 s1)).
  destruct (emitBackgroundOpacity_frame 0 s) as (F1 & _ & _ & _ & C1).
  destruct (emitEnvironmentProgress_frame 1 s1) as (F2 & _ & _ & _ & C2).
  destruct (notifyCompletion_spec s2) as (F3 & _ & _ & C3).
  fold s1 in F1. fold s2 in F2.
  assert (F : flags s2 = flags s) by (rewrite F2, F1; reflexivity).
  apply flags_inv in F. destruct F as (Fa & Fc & Fn).
  rewrite F3, C3, C1, C2, Fa, Fc, Fn. split; reflexivity.
Qed.

Lemma idleFrame_flags (s : Scene) :
  flags (fst (idleFrame s)) = (None, false, false) /\
  completions (snd (idleFrame s)) = 0%nat.
Proof.
  unfold idleFrame. step_seq.
  destruct (emitBackgroundOpacity_frame 1 s) as (_ & _ & _ & _ & C1).
  destruct (emitEnvironmentProgress_frame 0 (fst (emitBackgroundOpacity 1 s)))
    as (_ & _ & _ & _ & C2).
  rewrite C1, C2. split; reflexivity.
Qed.

(** *** One frame of a session *)

Lemma reachesEnd_dec (a c : Q) :
  Qgeb (clamp (c - a) 0 totalAnimationTime) totalAnimationTime = true
  <-> reachesEnd a c.
Proof. unfold reachesEnd. apply Qgeb_true. Qed.

Lemma reachesEnd_start (c : Q) : ~ reachesEnd c c.
Proof.
  unfold reachesEnd. intros H.
  assert (E : clamp (c - c) 0 totalAnimationTime == c - c).
  { apply clamp_id. pose proof total_value. lra. }
  pose proof total_value. lra.
Qed.

Lemma tick_playing_flags (c a : Q) (b : bool) (s : Scene) :
  flags s = (Some a, b, b) ->
  let done := Qgeb (clamp (c - a) 0 totalAnimationTime) totalAnimationTime in
  flags (fst (tick true c s)) = (Some a, b || done, b || done) /\
  completions (snd (tick true c s)) = (if b then 0 else if done then 1 else 0)%nat.
Proof.
  intros F done. unfold tick, useFrame. simpl negb. cbv iota.
  destruct (prime_refs s) as (Pa & Pc & Pn & _).
  apply flags_inv in F. destruct F as (Fa & Fc & Fn).
  rewrite Pc, Fc. destruct b.
  - destruct (completedFrame_flags (prime s)) as [F C].
    rewrite F, C, Pa, Pc, Pn, Fa, Fc, Fn. split; reflexivity.
  - destruct (playingFrame_flags c (prime s)) as [F C];
      [congruence | congruence |].
    unfold startReference in F, C. rewrite Pa, Fa in F, C.
    fold done in F, C. rewrite F, C. split; reflexivity.
Qed.

Lemma tick_first_flags (c : Q) (s : Scene) :
  sessionStart s ->
  flags (fst (tick true c s)) = (Some c, false, false) /\
  completions (snd (tick true c s)) = 0%nat.
Proof.
  intros (Ha & Hc & Hn). unfold tick, useFrame. simpl negb. cbv iota.
  destruct (prime_refs s) as (Pa & Pc & Pn & _).
  rewrite Pc, Hc.
  destruct (playingFrame_flags c (prime s)) as [F C]; [congruence | congruence |].
  unfold startReference in F, C. rewrite Pa, Ha in F, C.
  assert (D : Qgeb (clamp (c - c) 0 totalAnimationTime) totalAnimationTime = false).
  { apply Qgeb_false. apply Qnot_le_lt. apply (reachesEnd_start c). }
  rewrite D in F, C. split; assumption.
Qed.

Lemma tick_idle_flags (c : Q) (s : Scene) :
  sessionStart (fst (tick false c s)) /\ completions (snd (tick false c s)) = 0%nat.
Proof.
  unfold tick, useFrame. simpl negb. cbv iota.
  destruct (idleFrame_flags (prime s)) as [F C].
  apply flags_inv in F. split; [exact F | exact C].
Qed.

Lemma sessionStart_mount : sessionStart initialScene.
Proof. repeat split. Qed.

(** *** The completion latch over a session *)

Lemma firstReach_head (a c : Q) (cs : list Q) :
  firstReach a (c :: cs) 0 <-> reachesEnd a c.
Proof.
  unfold firstReach. simpl. split.
  - intros [(c' & E & H) _]. injection E as <-. exact H.
  - intros H. split; [exists c; auto | intros j c' Hj; lia].
Qed.

Lemma firstReach_tail (a c : Q) (cs : list Q) (k : nat) :
  firstReach a (c :: cs) (S k) <-> ~ reachesEnd a c /\ firstReach a cs k.
Proof.
  unfold firstReach. simpl. split.
  - intros [H1 H2]. split; [apply (H2 0%nat c); [lia | reflexivity] |].
    split; [exact H1 |].
    intros j c' Hj E. apply (H2 (S j) c'); [lia | exact E].
  - intros [H0 [H1 H2]]. split; [exact H1 |].
    intros [| j] c' Hj E; simpl in E.
    + injection E as <-. exact H0.
    + apply (H2 j c'); [lia | exact E].
Qed.

Lemma latched_run_silent (a : Q) (cs : list Q) (s : Scene) :
  flags s = (Some a, true, true) ->
  completions (allEvents (run true cs s)) = 0%nat.
Proof.
  revert s. induction cs as [| c cs IH]; intros s F; [reflexivity |].
  unfold allEvents in *. simpl. rewrite completions_app.
  destruct (tick_playing_flags c a true s F) as [F' C'].
  rewrite C'. simpl. apply IH. exact F'.
Qed.

Lemma completions_le_total (frames : list (Scene * list Event)) (k : nat)
      (r : Scene * list Event) :
  frames !! k = Some r ->
  (completions (snd r) <= completions (allEvents frames))%nat.
Proof.
  revert k. induction frames as [| f fs IH]; intros k E; [discriminate |].
  unfold allEvents in *. simpl. rewrite completions_app.
  destruct k as [| k]; simpl in E.
  - injection E as ->. lia.
  - specialize (IH k E). lia.
Qed.

Lemma open_run_completions (a : Q) (cs : list Q) (s : Scene) :
  flags s = (Some a, false, false) ->
  (completions (allEvents (run true cs s)) <= 1)%nat /\
  ((exists c, In c cs /\ reachesEnd a c) ->
     completions (allEvents (run true cs s)) = 1%nat) /\
  (forall k r, run true cs s !! k = Some r ->
     (firstReach a cs k -> completions (snd r) = 1%nat) /\
     (~ firstReach a cs k -> completions (snd r) = 0%nat)).
Proof.
  revert s. induction cs as [| c cs IH]; intros s F.
  - split; [unfold allEvents, completions; simpl; lia |].
    split; [intros (c & [] & _) |]. intros k r E. discriminate.
  - destruct (tick_playing_flags c a false s F) as [F' C']. simpl in F', C'.
    unfold allEvents. simpl run. simpl map. simpl concat.
    rewrite completions_app. fold (allEvents (run true cs (fst (tick true c s)))).
    destruct (Qgeb (clamp (c - a) 0 totalAnimationTime) totalAnimationTime) eqn:D.
    + pose proof (latched_run_silent a cs _ F') as L.
      assert (R : reachesEnd a c) by (apply reachesEnd_dec; exact D).
      rewrite C', L. split; [lia |]. split; [reflexivity |].
      intros [| k] r E; simpl in E.
      * injection E as <-. rewrite C'. split; [reflexivity |].
        intros N. exfalso. apply N. apply firstReach_head. exact R.
      * split.
        -- intros H. apply firstReach_tail in H. tauto.
        -- intros _. pose proof (completions_le_total _ _ _ E) as Le.
           rewrite L in Le. lia.
    + assert (R : ~ reachesEnd a c).
      { intros H. apply reachesEnd_dec in H. congruence. }
      destruct (IH _ F') as (I1 & I2 & I3).
      rewrite C'. split; [simpl; exact I1 |].
      split.
      * intros (c' & [<- | Hin] & Hc'); [tauto |]. simpl. apply I2. eauto.
      * intros [| k] r E; simpl in E.
        -- injection E as <-. rewrite C'. split; [| reflexivity].
           intros H. apply firstReach_head in H. tauto.
        -- destruct (I3 k r E) as [J1 J2]. split.
           ++ intros H. apply firstReach_tail in H. tauto.
           ++ intros N. apply J2. intros H. apply N. apply firstReach_tail. tauto.
Qed.

(** C1. Within a play session -- frames with [isPlaying = true] that follow
    an idle frame or the mount -- the completion callback is invoked at
    most once; it is invoked on the first frame whose clamped elapsed time
    reaches [totalAnimationTime] and on no other frame, so exactly once as
    soon as some frame reaches the end, however many do. *)
Theorem completion_fires_exactly_once (s0 : Scene) (c0 : Q) (cs : list Q) :
  sessionStart s0 ->
  let clocks := c0 :: cs in
  let frames := run true clocks s0 in
  (completions (allEvents frames) <= 1)%nat /\
  ((exists c, In c clocks /\ reachesEnd c0 c) ->
     completions (allEvents frames) = 1%nat) /\
  (forall k r, frames !! k = Some r ->
     (firstReach c0 clocks k -> completions (snd r) = 1%nat) /\
     (~ firstReach c0 clocks k -> completions (snd r) = 0%nat)).
Proof.
  intros Hs clocks frames. subst clocks frames.
  destruct (tick_first_flags c0 s0 Hs) as [F C].
  destruct (open_run_completions c0 cs _ F) as (I1 & I2 & I3).
  pose proof (reachesEnd_start c0) as R0.
  unfold allEvents in *. simpl run. simpl map. simpl concat.
  rewrite completions_app, C. simpl.
  split; [exact I1 |]. split.
  - intros (c & [<- | Hin] & Hc); [tauto |]. apply I2. eauto.
  - intros [| k] r E; simpl in E.
    + injection E as <-. rewrite C. split; [| reflexivity].
      intros H. apply firstReach_head in H. tauto.
    + destruct (I3 k r E) as [J1 J2]. split.
      * intros H. apply firstReach_tail in H. tauto.
      * intros N. apply J2. intros H. apply N. apply firstReach_tail. tauto.
Qed.

(** *** The easing curves *)

(** Division by a literal, turned into a product for [lra]. *)
Ltac no_div :=
  unfold Qdiv in *;
  repeat match goal with
         | |- context [Qinv ?c] =>
             let v := eval vm_compute in (Qinv c) in change (Qinv c) with v in *
         | H : context [Qinv ?c] |- _ =>
             let v := eval vm_compute in (Qinv c) in change (Qinv c) with v in *
         end.

Lemma easeOutCubic_range (p : Q) : 0 <= p <= 1 -> 0 <= easeOutCubic p <= 1.
Proof.
  intros [H0 H1]. unfold easeOutCubic.
  pose proof (cube_mono 0 (1 - p)) as L. pose proof (cube_mono (1 - p) 1) as U.
  simpl in *. lra.
Qed.

Lemma easeOutCubic_mono (p q : Q) :
  0 <= p -> p <= q -> q <= 1 -> easeOutCubic p <= easeOutCubic q.
Proof.
  intros H0 H1 H2. unfold easeOutCubic.
  pose proof (cube_mono (1 - q) (1 - p)) as L. simpl in *. lra.
Qed.

Lemma easeOutCubic_0 : easeOutCubic 0 == 0.
Proof. reflexivity. Qed.

Lemma easeOutCubic_1 (p : Q) : p == 1 -> easeOutCubic p == 1.
Proof. intros E. unfold easeOutCubic. simpl. rewrite E. reflexivity. Qed.

Lemma cakeHeight_mono (t u : Q) : t <= u -> cakeHeight u <= cakeHeight t.
Proof.
  intros H. unfold cakeHeight, lerp, CAKE_START_Y, CAKE_END_Y, CAKE_DESCENT_DURATION.
  assert (M : clamp (t / 3) 0 1 <= clamp (u / 3) 0 1)
    by (apply clamp_mono; no_div; lra).
  pose proof (clamp_range (t / 3) 0 1) as Rt. pose proof (clamp_range (u / 3) 0 1) as Ru.
  pose proof (easeOutCubic_mono (clamp (t / 3) 0 1) (clamp (u / 3) 0 1)) as E.
  lra.
Qed.

Lemma cakeHeight_range (t : Q) : CAKE_END_Y <= cakeHeight t <= CAKE_START_Y.
Proof.
  unfold cakeHeight, lerp, CAKE_START_Y, CAKE_END_Y, CAKE_DESCENT_DURATION.
  pose proof (clamp_range (t / 3) 0 1) as Rt.
  pose proof (easeOutCubic_range (clamp (t / 3) 0 1)) as E. lra.
Qed.

Lemma cakeHeight_start (t : Q) : t <= 0 -> cakeHeight t == CAKE_START_Y.
Proof.
  intros H. unfold cakeHeight, lerp, CAKE_START_Y, CAKE_END_Y, CAKE_DESCENT_DURATION.
  assert (E : clamp (t / 3) 0 1 == 0).
  { destruct (clamp_cases (t / 3) 0 1) as [[? E] | [[? E] | [? E]]];
      no_div; lra. }
  unfold easeOutCubic. simpl. rewrite E. lra.
Qed.

Lemma cakeHeight_end (t : Q) : CAKE_DESCENT_DURATION <= t -> cakeHeight t == CAKE_END_Y.
Proof.
  unfold cakeHeight, lerp, CAKE_START_Y, CAKE_END_Y, CAKE_DESCENT_DURATION. intros H.
  assert (E : clamp (t / 3) 0 1 == 1).
  { destruct (clamp_cases (t / 3) 0 1) as [[? E] | [[? E] | [? E]]];
      no_div; lra. }
  rewrite (easeOutCubic_1 _ E). lra.
Qed.

(** *** Poses after one frame *)

Lemma poses_inv (s s' : Scene) :
  poses s' = poses s ->
  cake s' = cake s /\ table s' = table s /\ candle s' = candle s.
Proof. unfold poses. intros H. injection H as -> -> ->. auto. Qed.

Lemma poses_cakeY (s s' : Scene) :
  poses s' = poses s -> cakeY s' = cakeY s /\ candleVisible s' = candleVisible s.
Proof.
  intros H. apply poses_inv in H. destruct H as (Hc & _ & Hd).
  unfold cakeY, candleVisible. rewrite Hc, Hd. auto.
Qed.

Lemma posed_scene (t : Q) (s : Scene) :
  cakeY (poseCandle t (poseTable t (poseCake t s))) = cakeHeight t /\
  candleVisible (poseCandle t (poseTable t (poseCake t s)))
    = Qgeb t CANDLE_DROP_START.
Proof.
  unfold poseCandle, candleVisible.
  destruct (Qgeb t CANDLE_DROP_START); [| split; reflexivity].
  destruct (visible (candle (poseTable t (poseCake t s)))) eqn:V;
    split; try reflexivity.
  simpl. exact V.
Qed.

Lemma finish_done_poses (t : Q) (s : Scene) :
  Qgeb t totalAnimationTime = true ->
  cakeY (fst (finish t s)) = CAKE_END_Y /\
  candleVisible (fst (finish t s)) = true.
Proof.
  unfold finish. intros ->. step_seq.
  change (fst (upd snapFinalPose s)) with (snapFinalPose s).
  set (s1 := snapFinalPose s).
  set (s2 := fst (emitBackgroundOpacity 0 s1)).
  set (s3 := fst (emitEnvironmentProgress 1 s2)).
  change (fst (upd (set_hasCompleted true) s3)) with (set_hasCompleted true s3).
  set (s4 := set_hasCompleted true s3).
  destruct (emitBackgroundOpacity_frame 0 s1) as (_ & P1 & _).
  destruct (emitEnvironmentProgress_frame 1 s2) as (_ & P2 & _).
  destruct (notifyCompletion_spec s4) as (_ & P4 & _).
  fold s2 in P1, P2. fold s3 in P2.
  assert (P : poses (fst (notifyCompletion s4)) = poses s1).
  { rewrite P4. change (poses s4) with (poses s3). rewrite P2, P1. reflexivity. }
  apply poses_cakeY in P. destruct P as [-> ->]. split; reflexivity.
Qed.

Lemma playingFrame_pose (c : Q) (s : Scene) :
  let t := clamp (c - startReference c s) 0 totalAnimationTime in
  cakeY (fst (playingFrame c s)) == cakeHeight t /\
  candleVisible (fst (playingFrame c s)) = Qgeb t CANDLE_DROP_START.
Proof.
  intros t. unfold playingFrame. fold t. step_seq.
  set (s0 := set_animationStart (Some (startReference c s)) s).
  change (fst (upd (poseCandle t) (fst (upd (poseTable t) (fst (upd (poseCake t) s0))))))
    with (poseCandle t (poseTable t (poseCake t s0))).
  set (s3 := poseCandle t (poseTable t (poseCake t s0))).
  destruct (posed_scene t s0) as [Y3 V3]. fold s3 in Y3, V3.
  destruct (emitFade_frame t s3) as (_ & P4 & _).
  apply poses_cakeY in P4. destruct P4 as [Y4 V4].
  set (s4 := fst (emitFade t s3)) in *.
  destruct (Qgeb t totalAnimationTime) eqn:D.
  - destruct (finish_done_poses t s4 D) as [-> ->].
    apply Qgeb_true in D. pose proof total_value as T.
    split.
    + symmetry. apply cakeHeight_end. unfold CAKE_DESCENT_DURATION. lra.
    + symmetry. apply Qgeb_true. pose proof candle_drop_start_value. lra.
  - rewrite (finish_not_done t s4 D). simpl.
    rewrite Y4, V4, Y3, V3. split; reflexivity.
Qed.

Lemma completedFrame_poses (s : Scene) :
  poses (fst (completedFrame s)) = poses s.
Proof.
  unfold completedFrame. step_seq.
  destruct (emitBackgroundOpacity_frame 0 s) as (_ & P1 & _).
  destruct (emitEnvironmentProgress_frame 1 (fst (emitBackgroundOpacity 0 s)))
    as (_ & P2 & _).
  destruct (notifyCompletion_spec
              (fst (emitEnvironmentProgress 1 (fst (emitBackgroundOpacity 0 s)))))
    as (_ & P3 & _).
  rewrite P3, P2, P1. reflexivity.
Qed.

Lemma idleFrame_poses (s : Scene) :
  poses (fst (idleFrame s)) = poses s /\
  hasPrimedRef (fst (idleFrame s)) = hasPrimedRef s.
Proof.
  unfold idleFrame. step_seq.
  destruct (emitBackgroundOpacity_frame 1 s) as (_ & P1 & H1 & _).
  destruct (emitEnvironmentProgress_frame 0 (fst (emitBackgroundOpacity 1 s)))
    as (_ & P2 & H2 & _).
  split.
  - change (poses (fst (upd ?f ?x))) with (poses x). rewrite P2, P1. reflexivity.
  - change (hasPrimedRef (fst (upd ?f ?x))) with (hasPrimedRef x).
    rewrite H2, H1. reflexivity.
Qed.

Lemma notifyCompletion_primed (s : Scene) :
  hasPrimedRef (fst (notifyCompletion s)) = hasPrimedRef s.
Proof. unfold notifyCompletion. destruct (completionNotifiedRef s); reflexivity. Qed.

Lemma completedFrame_primed (s : Scene) :
  hasPrimedRef (fst (completedFrame s)) = hasPrimedRef s.
Proof.
  unfold completedFrame. step_seq. rewrite notifyCompletion_primed.
  destruct (emitBackgroundOpacity_frame 0 s) as (_ & _ & H1 & _).
  destruct (emitEnvironmentProgress_frame 1 (fst (emitBackgroundOpacity 0 s)))
    as (_ & _ & H2 & _).
  rewrite H2, H1. reflexivity.
Qed.

Lemma finish_primed (t : Q) (s : Scene) :
  hasPrimedRef (fst (finish t s)) = hasPrimedRef s.
Proof.
  unfold finish. destruct (Qgeb t totalAnimationTime); [| reflexivity].
  step_seq. rewrite notifyCompletion_primed.
  change (fst (upd snapFinalPose s)) with (snapFinalPose s).
  change (hasPrimedRef (fst (upd (set_hasCompleted true) ?x))) with (hasPrimedRef x).
  destruct (emitBackgroundOpacity_frame 0 (snapFinalPose s)) as (_ & _ & H1 & _).
  destruct (emitEnvironmentProgress_frame 1
              (fst (emitBackgroundOpacity 0 (snapFinalPose s)))) as (_ & _ & H2 & _).
  rewrite H2, H1. reflexivity.
Qed.

Lemma playingFrame_primed (c : Q) (s : Scene) :
  hasPrimedRef (fst (playingFrame c s)) = hasPrimedRef s.
Proof.
  unfold playingFrame. step_seq. rewrite finish_primed.
  set (t := clamp (c - startReference c s) 0 totalAnimationTime).
  set (s0 := set_animationStart (Some (startReference c s)) s).
  change (fst (upd (poseCandle t) (fst (upd (poseTable t) (fst (upd (poseCake t) s0))))))
    with (poseCandle t (poseTable t (poseCake t s0))).
  destruct (emitFade_frame t (poseCandle t (poseTable t (poseCake t s0))))
    as (_ & _ & H & _).
  rewrite H. destruct (poses_keep_flags t s0) as (_ & _ & ->). reflexivity.
Qed.

Lemma tick_primed (p : bool) (c : Q) (s : Scene) :
  hasPrimedRef (fst (tick p c s)) = true.
Proof.
  unfold tick, useFrame. simpl negb. cbv iota.
  destruct (prime_refs s) as (_ & _ & _ & _ & _ & P).
  destruct p; simpl negb; cbv iota.
  - destruct (hasCompletedRef (prime s)).
    + rewrite completedFrame_primed. exact P.
    + rewrite playingFrame_primed. exact P.
  - destruct (idleFrame_poses (prime s)) as [_ ->]. exact P.
Qed.

(** *** Poses over a session *)

Lemma reachesEnd_later (a c c' : Q) : c <= c' -> reachesEnd a c -> reachesEnd a c'.
Proof.
  unfold reachesEnd. intros H R.
  assert (M : clamp (c - a) 0 totalAnimationTime <= clamp (c' - a) 0 totalAnimationTime).
  { apply clamp_mono; [pose proof total_value |]; lra. }
  lra.
Qed.

Lemma reachesEnd_elapsed (a c : Q) : reachesEnd a c <-> totalAnimationTime <= c - a.
Proof.
  unfold reachesEnd. pose proof total_value as T.
  destruct (clamp_cases (c - a) 0 totalAnimationTime) as [[? E] | [[? E] | [? E]]];
    [lra | | |]; split; intros; lra.
Qed.

Lemma session_pose_step (a c c' : Q) (b : bool) (s : Scene) :
  flags s = (Some a, b, b) ->
  settled a c b s ->
  c <= c' ->
  let s' := fst (tick true c' s) in
  let t' := clamp (c' - a) 0 totalAnimationTime in
  (cakeY s' == cakeHeight t' /\ candleVisible s' = Qgeb t' CANDLE_DROP_START) /\
  exists b', flags s' = (Some a, b', b') /\ settled a c' b' s'.
Proof.
  intros F S Hc s' t'.
  destruct (tick_playing_flags c' a b s F) as [F' _]. fold s' in F'.
  pose proof (tick_primed true c' s) as P'. fold s' in P'.
  pose proof total_value as T. pose proof candle_drop_start_value as D4.
  assert (O : cakeY s' == cakeHeight t' /\ candleVisible s' = Qgeb t' CANDLE_DROP_START).
  { subst s'. unfold tick, useFrame in *. simpl negb in *. cbv iota in *.
    destruct (prime_refs s) as (Pa & Pc & Pn & _).
    apply flags_inv in F. destruct F as (Fa & Fc & Fn).
    rewrite Pc, Fc in *. destruct b.
    - destruct (S eq_refl) as (Hp & R & Y & V).
      rewrite (prime_primed s Hp) in *.
      pose proof (completedFrame_poses s) as P. apply poses_cakeY in P.
      destruct P as [-> ->].
      assert (R' : reachesEnd a c') by (apply (reachesEnd_later a c c'); assumption).
      unfold reachesEnd in R'. fold t' in R'.
      split.
      + rewrite Y. symmetry. apply cakeHeight_end. unfold CAKE_DESCENT_DURATION. lra.
      + rewrite V. symmetry. apply Qgeb_true. lra.
    - pose proof (playingFrame_pose c' (prime s)) as P.
      unfold startReference in P. rewrite Pa, Fa in P. exact P. }
  split; [exact O |].
  exists (b || Qgeb t' totalAnimationTime). split; [exact F' |].
  intros Hb. split; [exact P' |].
  assert (R' : reachesEnd a c').
  { destruct b; simpl in Hb.
    - destruct (S eq_refl) as (_ & R & _). apply (reachesEnd_later a c c'); assumption.
    - apply reachesEnd_dec. exact Hb. }
  split; [exact R' |]. destruct O as [Y V].
  unfold reachesEnd in R'. fold t' in R'. split.
  - rewrite Y. apply cakeHeight_end. unfold CAKE_DESCENT_DURATION. lra.
  - rewrite V. apply Qgeb_true. lra.
Qed.

Lemma session_poses (a c : Q) (cs : list Q) (b : bool) (s : Scene) :
  flags s = (Some a, b, b) ->
  settled a c b s ->
  nondecreasing c cs ->
  forall k r ck, run true cs s !! k = Some r -> cs !! k = Some ck ->
    cakeY (fst r) == cakeHeight (clamp (ck - a) 0 totalAnimationTime) /\
    candleVisible (fst r)
      = Qgeb (clamp (ck - a) 0 totalAnimationTime) CANDLE_DROP_START.
Proof.
  revert c b s. induction cs as [| c' cs IH]; intros c b s F S N k r ck Er Ec;
    [discriminate |].
  destruct N as [Hc N].
  destruct (session_pose_step a c c' b s F S Hc) as (O & b' & F' & S').
  destruct k as [| k]; simpl in Er, Ec.
  - injection Er as <-. injection Ec as <-. exact O.
  - apply (IH c' b' _ F' S' N k r ck Er Ec).
Qed.

Lemma nondecreasing_lookup (c : Q) (cs : list Q) (k : nat) (ck : Q) :
  nondecreasing c cs -> cs !! k = Some ck -> c <= ck.
Proof.
  revert c k. induction cs as [| c' cs IH]; intros c k N E; [discriminate |].
  destruct N as [Hc N]. destruct k as [| k]; simpl in E.
  - injection E as <-. exact Hc.
  - specialize (IH c' k N E). lra.
Qed.

Lemma nondecreasing_pairs (c : Q) (cs : list Q) (i j : nat) (ci cj : Q) :
  nondecreasing c cs -> (i <= j)%nat ->
  (c :: cs) !! i = Some ci -> (c :: cs) !! j = Some cj -> ci <= cj.
Proof.
  revert c i j. induction cs as [| c' cs IH]; intros c i j N Hij Ei Ej.
  - destruct i as [| i]; [| discriminate]. destruct j as [| j]; [| discriminate].
    simpl in *. injection Ei as <-. injection Ej as <-. lra.
  - destruct N as [Hc N]. destruct i as [| i]; simpl in Ei.
    + injection Ei as <-. destruct j as [| j]; simpl in Ej.
      * injection Ej as <-. lra.
      * assert (c' <= cj); [| lra].
        destruct j as [| j]; simpl in Ej.
        -- injection Ej as <-. lra.
        -- apply (nondecreasing_lookup c' cs j cj N Ej).
    + destruct j as [| j]; [lia |]. simpl in Ej.
      apply (IH c' i j N); [lia | exact Ei | exact Ej].
Qed.

Lemma length_run (p : bool) (cs : list Q) (s : Scene) :
  length (run p cs s) = length cs.
Proof.
  revert s. induction cs as [| c cs IH]; intros s; simpl; [| rewrite IH]; reflexivity.
Qed.

(** C6. Replaying a session with a clock that never goes back: the cake
    height after each frame lies between the end height 0 and the start
    height 10, is 10 at elapsed time 0 and 0 from [totalAnimationTime] on,
    and never increases from one frame to a later one; the candle is
    visible after a frame exactly when the elapsed time of that frame is at
    least [CANDLE_DROP_START]. *)
Theorem cake_descends_and_candle_appears (s0 : Scene) (c0 : Q) (cs : list Q) :
  sessionStart s0 ->
  nondecreasing c0 cs ->
  let clocks := c0 :: cs in
  let frames := run true clocks s0 in
  (forall k r c, frames !! k = Some r -> clocks !! k = Some c ->
     CAKE_END_Y <= cakeY (fst r) <= CAKE_START_Y /\
     (c - c0 == 0 -> cakeY (fst r) == CAKE_START_Y) /\
     (totalAnimationTime <= c - c0 -> cakeY (fst r) == CAKE_END_Y) /\
     (candleVisible (fst r) = true <-> CANDLE_DROP_START <= c - c0)) /\
  (forall i j ri rj, (i <= j)%nat ->
     frames !! i = Some ri -> frames !! j = Some rj ->
     cakeY (fst rj) <= cakeY (fst ri)).
Proof.
  intros Hs N clocks frames.
  pose proof total_value as T. pose proof candle_drop_start_value as D4.
  assert (O : forall k r c, frames !! k = Some r -> clocks !! k = Some c ->
            cakeY (fst r) == cakeHeight (clamp (c - c0) 0 totalAnimationTime) /\
            candleVisible (fst r)
              = Qgeb (clamp (c - c0) 0 totalAnimationTime) CANDLE_DROP_START).
  { subst clocks frames. intros k r c Er Ec.
    destruct (tick_first_flags c0 s0 Hs) as [F _].
    destruct k as [| k]; simpl in Er, Ec.
    - injection Er as <-. injection Ec as Ec. subst c.
      unfold tick, useFrame. simpl negb. cbv iota.
      destruct Hs as (Ha & Hc & Hn).
      destruct (prime_refs s0) as (Pa & Pc & _).
      rewrite Pc, Hc.
      pose proof (playingFrame_pose c0 (prime s0)) as P.
      unfold startReference in P. rewrite Pa, Ha in P. exact P.
    - apply (session_poses c0 c0 cs false _ F) with (k := k); try assumption.
      intros Hb. discriminate. }
  split.
  - intros k r c Er Ec. destruct (O k r c Er Ec) as [Y V].
    assert (Hc : c0 <= c).
    { apply (nondecreasing_pairs c0 cs 0 k c0 c N); [lia | reflexivity | exact Ec]. }
    set (t := clamp (c - c0) 0 totalAnimationTime) in *.
    destruct (clamp_cases (c - c0) 0 totalAnimationTime) as [[? E] | [[? E] | [? E]]];
      [lra | | |]; fold t in E; pose proof (cakeHeight_range t) as R;
      (split; [lra |]); (split; [intros Z; rewrite Y; apply cakeHeight_start; lra |]);
      (split; [intros Z; rewrite Y; apply cakeHeight_end;
               unfold CAKE_DESCENT_DURATION; lra |]);
      rewrite V; rewrite Qgeb_true; split; intros; lra.
  - intros i j ri rj Hij Ei Ej.
    assert (Li : (i < length clocks)%nat).
    { apply lookup_lt_Some in Ei. subst frames. rewrite length_run in Ei. exact Ei. }
    assert (Lj : (j < length clocks)%nat).
    { apply lookup_lt_Some in Ej. subst frames. rewrite length_run in Ej. exact Ej. }
    destruct (lookup_lt_is_Some_2 clocks i Li) as [ci Eci].
    destruct (lookup_lt_is_Some_2 clocks j Lj) as [cj Ecj].
    destruct (O i ri ci Ei Eci) as [Yi _]. destruct (O j rj cj Ej Ecj) as [Yj _].
    rewrite Yi, Yj. apply cakeHeight_mono. apply clamp_mono; [lra |].
    pose proof (nondecreasing_pairs c0 cs i j ci cj N Hij Eci Ecj). lra.
Qed.

(** *** The parent sees what the refs hold *)

Lemma observed_app (o : Q * Q) (e1 e2 : list Event) :
  observed o (e1 ++ e2) = observed (observed o e1) e2.
Proof. unfold observed. apply fold_left_app. Qed.

Lemma mirror_andThen (a b : Action) (s : Scene) :
  observed (signals s) (snd (a s)) = signals (fst (a s)) ->
  observed (signals (fst (a s))) (snd (b (fst (a s)))) = signals (fst (b (fst (a s)))) ->
  observed (signals s) (snd ((a >> b) s)) = signals (fst ((a >> b) s)).
Proof.
  intros Ha Hb. rewrite andThen_fst, andThen_snd, observed_app, Ha. exact Hb.
Qed.

Lemma mirror_emitBackgroundOpacity (v : Q) (s : Scene) :
  observed (signals s) (snd (emitBackgroundOpacity v s))
    = signals (fst (emitBackgroundOpacity v s)).
Proof. unfold emitBackgroundOpacity. destruct (Qltb _ _); reflexivity. Qed.

Lemma mirror_emitEnvironmentProgress (v : Q) (s : Scene) :
  observed (signals s) (snd (emitEnvironmentProgress v s))
    = signals (fst (emitEnvironmentProgress v s)).
Proof. unfold emitEnvironmentProgress. destruct (Qltb _ _); reflexivity. Qed.

Lemma mirror_notifyCompletion (s : Scene) :
  observed (signals s) (snd (notifyCompletion s)) = signals (fst (notifyCompletion s)).
Proof. unfold notifyCompletion. destruct (completionNotifiedRef s); reflexivity. Qed.

Lemma mirror_upd (f : Scene -> Scene) (s : Scene) :
  signals (f s) = signals s ->
  observed (signals s) (snd (upd f s)) = signals (fst (upd f s)).
Proof. intros H. simpl. symmetry. exact H. Qed.

Ltac mirror_step :=
  lazymatch goal with
  | |- observed _ (snd ((_ >> _) _)) = _ => apply mirror_andThen
  | |- observed _ (snd (emitBackgroundOpacity _ _)) = _ =>
      apply mirror_emitBackgroundOpacity
  | |- observed _ (snd (emitEnvironmentProgress _ _)) = _ =>
      apply mirror_emitEnvironmentProgress
  | |- observed _ (snd (notifyCompletion _)) = _ => apply mirror_notifyCompletion
  | |- observed _ (snd (upd _ _)) = _ => apply mirror_upd
  end.

Ltac mirror := repeat mirror_step.

Lemma mirror_idleFrame (s : Scene) :
  observed (signals s) (snd (idleFrame s)) = signals (fst (idleFrame s)).
Proof. unfold idleFrame. mirror. reflexivity. Qed.

Lemma mirror_completedFrame (s : Scene) :
  observed (signals s) (snd (completedFrame s)) = signals (fst (completedFrame s)).
Proof. unfold completedFrame. mirror. Qed.

Lemma mirror_emitFade (t : Q) (s : Scene) :
  observed (signals s) (snd (emitFade t s)) = signals (fst (emitFade t s)).
Proof. unfold emitFade. destruct (Qltb t BACKGROUND_FADE_START); mirror. Qed.

Lemma mirror_finish (t : Q) (s : Scene) :
  observed (signals s) (snd (finish t s)) = signals (fst (finish t s)).
Proof.
  unfold finish. destruct (Qgeb t totalAnimationTime); [| reflexivity].
  mirror; reflexivity.
Qed.

Lemma mirror_playingFrame (c : Q) (s : Scene) :
  observed (signals s) (snd (playingFrame c s)) = signals (fst (playingFrame c s)).
Proof.
  unfold playingFrame.
  set (t := clamp (c - startReference c s) 0 totalAnimationTime).
  set (s0 := set_animationStart (Some (startReference c s)) s).
  change (signals s) with (signals s0).
  apply mirror_andThen; [| apply mirror_finish].
  apply mirror_andThen; [| apply mirror_emitFade].
  mirror.
  - reflexivity.
  - reflexivity.
  - unfold poseCandle. destruct (Qgeb t CANDLE_DROP_START); reflexivity.
Qed.

Lemma prime_signals (s : Scene) : signals (prime s) = signals s.
Proof. unfold prime. destruct (hasPrimedRef s); reflexivity. Qed.

Lemma mirror_useFrame (m p : bool) (c : Q) (s : Scene) :
  observed (signals s) (snd (useFrame m p c s)) = signals (fst (useFrame m p c s)).
Proof.
  unfold useFrame. destruct m; simpl negb; cbv iota; [| reflexivity].
  rewrite <- (prime_signals s).
  destruct p; simpl negb; cbv iota.
  - destruct (hasCompletedRef (prime s)).
    + apply mirror_completedFrame.
    + apply mirror_playingFrame.
  - apply mirror_idleFrame.
Qed.

Lemma mirror_run (p : bool) (cs : list Q) (s : Scene) (k : nat)
      (r : Scene * list Event) :
  run p cs s !! k = Some r ->
  observed (signals s) (allEvents (take (S k) (run p cs s))) = signals (fst r).
Proof.
  revert s k. induction cs as [| c cs IH]; intros s k E; [discriminate |].
  simpl run in *. unfold allEvents. simpl take. simpl map. simpl concat.
  rewrite observed_app. unfold tick at 1. rewrite mirror_useFrame.
  destruct k as [| k]; simpl in E.
  - injection E as <-. rewrite take_0. reflexivity.
  - apply (IH _ k E).
Qed.

(** *** Throttled signals follow their targets *)

Lemma signals_inv (s s' : Scene) :
  signals s' = signals s ->
  backgroundOpacityRef s' = backgroundOpacityRef s /\
  environmentProgressRef s' = environmentProgressRef s.
Proof. unfold signals. intros H. injection H as -> ->. auto. Qed.

Lemma tracksDown_eq (x x' v : Q) : x == x' -> tracksDown x v -> tracksDown x' v.
Proof. unfold tracksDown. intros E (H0 & H1 & H2 & H3 & H4). repeat split; try lra; exact H4. Qed.

Lemma tracksUp_eq (y y' v : Q) : y == y' -> tracksUp y v -> tracksUp y' v.
Proof. unfold tracksUp. intros E (H0 & H1 & H2 & H3 & H4). repeat split; try lra; exact H4. Qed.

Lemma emitBackgroundOpacity_tracks (x x' : Q) (s : Scene) :
  tracksDown x (backgroundOpacityRef s) ->
  0 <= x' -> x' <= x ->
  tracksDown x' (backgroundOpacityRef (fst (emitBackgroundOpacity x' s))) /\
  backgroundOpacityRef (fst (emitBackgroundOpacity x' s)) <= backgroundOpacityRef s.
Proof.
  unfold tracksDown, emitBackgroundOpacity, EMIT_EPSILON.
  intros (H0 & H1 & H2 & H3 & H4) Hx' Hx.
  assert (C : clamp x' 0 1 == x') by (apply clamp_id; lra).
  set (d := clamp x' 0 1 - backgroundOpacityRef s).
  assert (A : Qabs d == - d) by (apply Qabs_neg; unfold d; lra).
  destruct (Qltb 0.005 (Qabs d)) eqn:E; simpl.
  - apply Qltb_true in E. rewrite A in E. unfold d in E.
    repeat split; try lra; right; lra.
  - apply Qltb_false in E. rewrite A in E. unfold d in E.
    repeat split; try lra; exact H4.
Qed.

Lemma emitEnvironmentProgress_tracks (y y' : Q) (s : Scene) :
  tracksUp y (environmentProgressRef s) ->
  y <= y' -> y' <= 1 ->
  tracksUp y' (environmentProgressRef (fst (emitEnvironmentProgress y' s))) /\
  environmentProgressRef s <= environmentProgressRef (fst (emitEnvironmentProgress y' s)).
Proof.
  unfold tracksUp, emitEnvironmentProgress, EMIT_EPSILON.
  intros (H0 & H1 & H2 & H3 & H4) Hy Hy'.
  assert (C : clamp y' 0 1 == y') by (apply clamp_id; lra).
  set (d := clamp y' 0 1 - environmentProgressRef s).
  assert (A : Qabs d == d) by (apply Qabs_pos; unfold d; lra).
  destruct (Qltb 0.005 (Qabs d)) eqn:E; simpl.
  - apply Qltb_true in E. rewrite A in E. unfold d in E.
    repeat split; try lra; right; lra.
  - apply Qltb_false in E. rewrite A in E. unfold d in E.
    repeat split; try lra; exact H4.
Qed.

(** Both emitters in a row, as every branch of the frame calls them. *)
Lemma emit_pair_tracks (x x' y y' : Q) (s : Scene) :
  tracksDown x (backgroundOpacityRef s) ->
  tracksUp y (environmentProgressRef s) ->
  0 <= x' -> x' <= x -> y <= y' -> y' <= 1 ->
  let s' := fst (emitEnvironmentProgress y' (fst (emitBackgroundOpacity x' s))) in
  tracksDown x' (backgroundOpacityRef s') /\
  tracksUp y' (environmentProgressRef s') /\
  backgroundOpacityRef s' <= backgroundOpacityRef s /\
  environmentProgressRef s <= environmentProgressRef s'.
Proof.
  intros B E Hx' Hx Hy Hy' s'. subst s'.
  destruct (emitBackgroundOpacity_tracks x x' s B Hx' Hx) as [B1 L1].
  destruct (emitBackgroundOpacity_frame x' s) as (_ & _ & _ & E1 & _).
  set (s1 := fst (emitBackgroundOpacity x' s)) in *.
  rewrite <- E1 in E.
  destruct (emitEnvironmentProgress_tracks y y' s1 E Hy Hy') as [E2 L2].
  destruct (emitEnvironmentProgress_frame y' s1) as (_ & _ & _ & B2 & _).
  rewrite B2. rewrite <- E1. auto.
Qed.

(** *** The fade curve *)

Lemma emitFade_eq (t : Q) :
  emitFade t = emitBackgroundOpacity (fadeOpacity t) >> emitEnvironmentProgress (fadeProgress t).
Proof.
  unfold emitFade, fadeOpacity, fadeProgress.
  destruct (Qltb t BACKGROUND_FADE_START); reflexivity.
Qed.

Lemma fadeProgress_eq (t : Q) : fadeProgress t == 1 - fadeOpacity t.
Proof.
  unfold fadeProgress, fadeOpacity.
  destruct (Qltb t BACKGROUND_FADE_START); lra.
Qed.

Lemma fadeOpacity_range (t : Q) : 0 <= fadeOpacity t <= 1.
Proof.
  unfold fadeOpacity. destruct (Qltb t BACKGROUND_FADE_START); [lra |].
  set (p := clamp _ 0 1).
  pose proof (clamp_range ((t - BACKGROUND_FADE_START) / BACKGROUND_FADE_DURATION) 0 1) as R.
  fold p in R. pose proof (easeOutCubic_range p). lra.
Qed.

Lemma fadeOpacity_mono (t u : Q) : t <= u -> fadeOpacity u <= fadeOpacity t.
Proof.
  intros H. pose proof (fadeOpacity_range u) as Ru.
  unfold fadeOpacity in *.
  destruct (Qltb t BACKGROUND_FADE_START) eqn:Et; [lra |].
  destruct (Qltb u BACKGROUND_FADE_START) eqn:Eu.
  - apply Qltb_true in Eu. apply Qltb_false in Et. lra.
  - set (p := clamp ((t - BACKGROUND_FADE_START) / BACKGROUND_FADE_DURATION) 0 1).
    set (q := clamp ((u - BACKGROUND_FADE_START) / BACKGROUND_FADE_DURATION) 0 1).
    assert (M : p <= q).
    { apply clamp_mono; [lra |]. unfold BACKGROUND_FADE_DURATION. no_div. lra. }
    pose proof (clamp_range ((t - BACKGROUND_FADE_START) / BACKGROUND_FADE_DURATION) 0 1) as Rp.
    pose proof (clamp_range ((u - BACKGROUND_FADE_START) / BACKGROUND_FADE_DURATION) 0 1) as Rq.
    fold p in Rp. fold q in Rq.
    pose proof (easeOutCubic_mono p q). lra.
Qed.

Lemma fadeOpacity_end (t : Q) : totalAnimationTime <= t -> fadeOpacity t == 0.
Proof.
  intros H. pose proof total_value as T. pose proof fade_start_value as F3.
  unfold fadeOpacity.
  destruct (Qltb t BACKGROUND_FADE_START) eqn:Et.
  - apply Qltb_true in Et. lra.
  - assert (E : clamp ((t - BACKGROUND_FADE_START) / BACKGROUND_FADE_DURATION) 0 1 == 1).
    { destruct (clamp_cases ((t - BACKGROUND_FADE_START) / BACKGROUND_FADE_DURATION) 0 1)
        as [[L E] | [[L E] | [L E]]]; [lra | | |];
        unfold BACKGROUND_FADE_DURATION in *; no_div; lra. }
    rewrite (easeOutCubic_1 _ E). lra.
Qed.

Lemma fadeOpacity_start (t : Q) : t <= 0 -> fadeOpacity t = 1.
Proof.
  intros H. unfold fadeOpacity.
  destruct (Qltb t BACKGROUND_FADE_START) eqn:Et; [reflexivity |].
  apply Qltb_false in Et. pose proof fade_start_value. lra.
Qed.

(** *** Signals after one frame *)

Lemma completedFrame_signals (x y : Q) (s : Scene) :
  tracksDown x (backgroundOpacityRef s) ->
  tracksUp y (environmentProgressRef s) ->
  let s' := fst (completedFrame s) in
  tracksDown 0 (backgroundOpacityRef s') /\
  tracksUp 1 (environmentProgressRef s') /\
  backgroundOpacityRef s' <= backgroundOpacityRef s /\
  environmentProgressRef s <= environmentProgressRef s'.
Proof.
  intros B E s'. subst s'. unfold completedFrame. step_seq.
  set (s2 := fst (emitEnvironmentProgress 1 (fst (emitBackgroundOpacity 0 s)))).
  destruct (notifyCompletion_spec s2) as (_ & _ & S & _).
  apply signals_inv in S. destruct S as [-> ->].
  assert (Hx : 0 <= x) by (destruct B; assumption).
  assert (Hy : y <= 1) by (destruct E; assumption).
  apply (emit_pair_tracks x 0 y 1 s B E); lra.
Qed.

Lemma playingFrame_signals (c x y : Q) (s : Scene) :
  let t := clamp (c - startReference c s) 0 totalAnimationTime in
  tracksDown x (backgroundOpacityRef s) ->
  tracksUp y (environmentProgressRef s) ->
  fadeOpacity t <= x -> y <= fadeProgress t ->
  let s' := fst (playingFrame c s) in
  tracksDown (fadeOpacity t) (backgroundOpacityRef s') /\
  tracksUp (fadeProgress t) (environmentProgressRef s') /\
  backgroundOpacityRef s' <= backgroundOpacityRef s /\
  environmentProgressRef s <= environmentProgressRef s'.
Proof.
  intros t B E Hx Hy s'. subst s'. unfold playingFrame. fold t. step_seq.
  set (s0 := set_animationStart (Some (startReference c s)) s).
  change (fst (upd (poseCandle t) (fst (upd (poseTable t) (fst (upd (poseCake t) s0))))))
    with (poseCandle t (poseTable t (poseCake t s0))).
  set (s3 := poseCandle t (poseTable t (poseCake t s0))).
  destruct (poses_keep_flags t s0) as (_ & S3 & _). fold s3 in S3.
  apply signals_inv in S3. destruct S3 as [B3 E3].
  change (backgroundOpacityRef s0) with (backgroundOpacityRef s) in B3.
  change (environmentProgressRef s0) with (environmentProgressRef s) in E3.
  rewrite <- B3 in B. rewrite <- E3 in E. rewrite <- B3, <- E3.
  pose proof (fadeOpacity_range t) as R. pose proof (fadeProgress_eq t) as P.
  rewrite emitFade_eq, andThen_fst.
  destruct (emit_pair_tracks x (fadeOpacity t) y (fadeProgress t) s3 B E)
    as (B4 & E4 & LB & LE); try lra.
  set (s4 := fst (emitEnvironmentProgress (fadeProgress t)
                    (fst (emitBackgroundOpacity (fadeOpacity t) s3)))) in *.
  destruct (Qgeb t totalAnimationTime) eqn:D.
  - unfold finish. rewrite D. step_seq.
    change (fst (upd snapFinalPose s4)) with (snapFinalPose s4).
    set (s5 := snapFinalPose s4).
    change (fst (upd (set_hasCompleted true) ?z)) with (set_hasCompleted true z).
    set (s7 := fst (emitEnvironmentProgress 1 (fst (emitBackgroundOpacity 0 s5)))).
    destruct (notifyCompletion_spec (set_hasCompleted true s7)) as (_ & _ & S & _).
    apply signals_inv in S. destruct S as [-> ->].
    change (backgroundOpacityRef (set_hasCompleted true s7)) with (backgroundOpacityRef s7).
    change (environmentProgressRef (set_hasCompleted true s7))
      with (environmentProgressRef s7).
    assert (B5 : tracksDown (fadeOpacity t) (backgroundOpacityRef s5)) by exact B4.
    assert (E5 : tracksUp (fadeProgress t) (environmentProgressRef s5)) by exact E4.
    destruct (emit_pair_tracks (fadeOpacity t) 0 (fadeProgress t) 1 s5 B5 E5)
      as (B7 & E7 & LB7 & LE7); try lra.
    fold s7 in B7, E7, LB7, LE7.
    change (backgroundOpacityRef s5) with (backgroundOpacityRef s4) in LB7.
    change (environmentProgressRef s5) with (environmentProgressRef s4) in LE7.
    apply Qgeb_true in D. pose proof (fadeOpacity_end t D) as Z.
    split; [apply (tracksDown_eq 0); [lra | exact B7] |].
    split; [apply (tracksUp_eq 1); [lra | exact E7] |].
    split; lra.
  - rewrite (finish_not_done t s4 D). cbn [fst]. auto.
Qed.

Lemma tracksDown_rest : tracksDown 1 1.
Proof. unfold tracksDown, EMIT_EPSILON. repeat split; try lra. left. reflexivity. Qed.

Lemma tracksUp_rest : tracksUp 0 0.
Proof. unfold tracksUp, EMIT_EPSILON. repeat split; try lra. left. reflexivity. Qed.

(** The first playing frame after rest opens the session. *)
Lemma tick_opens_session (c : Q) (s : Scene) :
  atRest s ->
  inSession c c false (fst (tick true c s)) /\
  backgroundOpacityRef (fst (tick true c s)) <= backgroundOpacityRef s /\
  environmentProgressRef s <= environmentProgressRef (fst (tick true c s)).
Proof.
  intros [F S]. unfold signals in S. injection S as Sb Se.
  assert (Hs : sessionStart s) by (apply flags_inv in F; exact F).
  destruct (tick_first_flags c s Hs) as [F' _].
  unfold inSession. rewrite F'.
  unfold tick, useFrame. simpl negb. cbv iota.
  destruct (prime_refs s) as (Pa & Pc & _ & Pb & Pe & _).
  destruct Hs as (Ha & Hc & Hn). rewrite Pc, Hc.
  pose proof (playingFrame_signals c 1 0 (prime s)) as P.
  unfold startReference in P. rewrite Pa, Ha, Pb, Pe, Sb, Se in P.
  pose proof (fadeOpacity_range (clamp (c - c) 0 totalAnimationTime)) as R.
  pose proof (fadeProgress_eq (clamp (c - c) 0 totalAnimationTime)) as Q.
  destruct P as (B & E & LB & LE);
    [exact tracksDown_rest | exact tracksUp_rest | lra | lra |].
  rewrite Sb, Se. split; [| split; assumption].
  split; [reflexivity |]. split; [intros; discriminate |]. split; assumption.
Qed.

(** A later playing frame keeps the session. *)
Lemma tick_keeps_session (a c c' : Q) (b : bool) (s : Scene) :
  inSession a c b s -> c <= c' ->
  (exists b', inSession a c' b' (fst (tick true c' s))) /\
  backgroundOpacityRef (fst (tick true c' s)) <= backgroundOpacityRef s /\
  environmentProgressRef s <= environmentProgressRef (fst (tick true c' s)).
Proof.
  intros (F & R & B & E) Hc.
  destruct (tick_playing_flags c' a b s F) as [F' _].
  pose proof total_value as T.
  set (t := clamp (c - a) 0 totalAnimationTime) in *.
  set (t' := clamp (c' - a) 0 totalAnimationTime) in *.
  assert (M : t <= t') by (apply clamp_mono; lra).
  assert (R' : b || Qgeb t' totalAnimationTime = true -> reachesEnd a c').
  { destruct b; simpl; intros Hb.
    - apply (reachesEnd_later a c c' Hc). auto.
    - apply reachesEnd_dec. exact Hb. }
  assert (O : tracksDown (fadeOpacity t')
                (backgroundOpacityRef (fst (tick true c' s))) /\
              tracksUp (fadeProgress t')
                (environmentProgressRef (fst (tick true c' s))) /\
              backgroundOpacityRef (fst (tick true c' s)) <= backgroundOpacityRef s /\
              environmentProgressRef s <= environmentProgressRef (fst (tick true c' s))).
  { unfold tick, useFrame. simpl negb. cbv iota.
    destruct (prime_refs s) as (Pa & Pc & _ & Pb & Pe & _).
    apply flags_inv in F. destruct F as (Fa & Fc & Fn). rewrite Pc, Fc.
    rewrite <- Pb in B. rewrite <- Pe in E. rewrite <- Pb, <- Pe.
    destruct b.
    - destruct (completedFrame_signals _ _ (prime s) B E) as (B1 & E1 & LB & LE).
      assert (Z : fadeOpacity t' == 0).
      { apply fadeOpacity_end. apply (R' eq_refl). }
      pose proof (fadeProgress_eq t') as Q.
      split; [apply (tracksDown_eq 0); [lra | exact B1] |].
      split; [apply (tracksUp_eq 1); [lra | exact E1] |]. auto.
    - pose proof (playingFrame_signals c' (fadeOpacity t) (fadeProgress t) (prime s)) as P.
      unfold startReference in P. rewrite Pa, Fa in P. fold t' in P.
      pose proof (fadeOpacity_mono t t' M) as Mo.
      pose proof (fadeProgress_eq t) as Q. pose proof (fadeProgress_eq t') as Q'.
      apply P; try assumption; lra. }
  destruct O as (B' & E' & LB & LE).
  split; [| auto].
  exists (b || Qgeb t' totalAnimationTime).
  split; [exact F' |]. split; [exact R' |]. split; assumption.
Qed.

(** An idle frame brings the signals to rest, whatever the session did. *)
Lemma emit_one_rests (s : Scene) :
  backgroundOpacityRef s = 1 \/ backgroundOpacityRef s < 1 - EMIT_EPSILON ->
  backgroundOpacityRef (fst (emitBackgroundOpacity 1 s)) = 1.
Proof.
  unfold emitBackgroundOpacity, EMIT_EPSILON. intros [H | H].
  - rewrite H. change (Qltb 0.005 (Qabs (clamp 1 0 1 - 1))) with false. exact H.
  - assert (C : clamp 1 0 1 = 1) by reflexivity. rewrite C.
    assert (A : Qabs (1 - backgroundOpacityRef s) == 1 - backgroundOpacityRef s)
      by (apply Qabs_pos; lra).
    assert (E : Qltb 0.005 (Qabs (1 - backgroundOpacityRef s)) = true)
      by (apply Qltb_true; lra).
    rewrite E. reflexivity.
Qed.

Lemma emit_zero_rests (s : Scene) :
  environmentProgressRef s = 0 \/ EMIT_EPSILON < environmentProgressRef s ->
  environmentProgressRef (fst (emitEnvironmentProgress 0 s)) = 0.
Proof.
  unfold emitEnvironmentProgress, EMIT_EPSILON. intros [H | H].
  - rewrite H. change (Qltb 0.005 (Qabs (clamp 0 0 1 - 0))) with false. exact H.
  - assert (C : clamp 0 0 1 = 0) by reflexivity. rewrite C.
    assert (A : Qabs (0 - environmentProgressRef s) == - (0 - environmentProgressRef s))
      by (apply Qabs_neg; lra).
    assert (E : Qltb 0.005 (Qabs (0 - environmentProgressRef s)) = true)
      by (apply Qltb_true; lra).
    rewrite E. reflexivity.
Qed.

Lemma tick_idle_rests (c : Q) (s : Scene) :
  (backgroundOpacityRef s = 1 \/ backgroundOpacityRef s < 1 - EMIT_EPSILON) ->
  (environmentProgressRef s = 0 \/ EMIT_EPSILON < environmentProgressRef s) ->
  atRest (fst (tick false c s)).
Proof.
  intros B E. split.
  - destruct (tick_idle_flags c s) as [(Ha & Hc & Hn) _].
    unfold flags. rewrite Ha, Hc, Hn. reflexivity.
  - unfold tick, useFrame. simpl negb. cbv iota.
    destruct (prime_refs s) as (_ & _ & _ & Pb & Pe & _).
    rewrite <- Pb in B. rewrite <- Pe in E.
    unfold idleFrame. step_seq.
    change (signals (fst (upd ?f ?z))) with (signals z).
    destruct (emitBackgroundOpacity_frame 1 (prime s)) as (_ & _ & _ & E1 & _).
    destruct (emitEnvironmentProgress_frame 0 (fst (emitBackgroundOpacity 1 (prime s))))
      as (_ & _ & _ & B2 & _).
    unfold signals. rewrite B2, (emit_one_rests _ B), emit_zero_rests; [reflexivity |].
    rewrite E1. exact E.
Qed.

(** *** Reachable states *)

Lemma reachable_wellFormed (c : Q) (s : Scene) : reachable c s -> wellFormed c s.
Proof.
  induction 1 as [c | c c' m p s R IH Hc].
  - left. split; reflexivity.
  - destruct m; [| simpl; destruct IH as [A | (a & c1 & b & H1 & I)];
                   [left; exact A | right; exists a, c1, b; split; [lra | exact I]]].
    change (useFrame true p c' s) with (tick p c' s).
    destruct p.
    + right. destruct IH as [A | (a & c1 & b & H1 & I)].
      * exists c', c', false. split; [lra |]. apply (tick_opens_session c' s A).
      * destruct (tick_keeps_session a c1 c' b s I) as [[b' I'] _]; [lra |].
        exists a, c', b'. split; [lra | exact I'].
    + left. apply tick_idle_rests.
      * destruct IH as [[_ S] | (a & c1 & b & _ & _ & _ & B & _)].
        -- unfold signals in S. injection S as -> _. left. reflexivity.
        -- destruct B as (_ & _ & _ & _ & B). exact B.
      * destruct IH as [[_ S] | (a & c1 & b & _ & _ & _ & _ & E)].
        -- unfold signals in S. injection S as _ ->. left. reflexivity.
        -- destruct E as (_ & _ & _ & _ & E). exact E.
Qed.

Lemma reset_flags_id (s : Scene) :
  flags s = (None, false, false) ->
  set_completionNotified false (set_hasCompleted false (set_animationStart None s)) = s.
Proof.
  destruct s. unfold flags. simpl. intros H. injection H as -> -> ->. reflexivity.
Qed.

Lemma emit_one_noop (s : Scene) :
  backgroundOpacityRef s = 1 -> emitBackgroundOpacity 1 s = (s, []).
Proof.
  intros H. unfold emitBackgroundOpacity, EMIT_EPSILON. rewrite H.
  change (Qltb 0.005 (Qabs (clamp 1 0 1 - 1))) with false. reflexivity.
Qed.

Lemma emit_zero_noop (s : Scene) :
  environmentProgressRef s = 0 -> emitEnvironmentProgress 0 s = (s, []).
Proof.
  intros H. unfold emitEnvironmentProgress, EMIT_EPSILON. rewrite H.
  change (Qltb 0.005 (Qabs (clamp 0 0 1 - 0))) with false. reflexivity.
Qed.

Lemma tick_idle_fixed (c : Q) (s : Scene) :
  atRest s -> hasPrimedRef s = true -> tick false c s = (s, []).
Proof.
  intros [F S] P. unfold signals in S. injection S as Sb Se.
  unfold tick, useFrame. simpl negb. cbv iota. rewrite (prime_primed s P).
  unfold idleFrame, andThen.
  rewrite (emit_one_noop s Sb). cbv beta iota.
  rewrite (emit_zero_noop s Se). cbv beta iota.
  unfold upd. rewrite (reset_flags_id s F). reflexivity.
Qed.

Lemma run_idle_fixed (cs : list Q) (s : Scene) :
  atRest s -> hasPrimedRef s = true ->
  forall k r, run false cs s !! k = Some r -> r = (s, []).
Proof.
  intros A P. induction cs as [| c cs IH]; intros k r E; [discriminate |].
  simpl in E. rewrite (tick_idle_fixed c s A P) in E. simpl in E.
  destruct k as [| k]; simpl in E.
  - injection E as <-. reflexivity.
  - apply (IH k r E).
Qed.

(** C9. An idle frame ([isPlaying = false]) taken in any state the
    component can reach leaves the signals the observers hold at (1, 0);
    once the poses are primed it leaves cake, table and candle as they
    were; and every further idle frame is a no-op: it returns the same
    refs and poses and calls no callback. *)
Theorem idle_frames_are_idempotent (c : Q) (s : Scene) (c1 : Q) (cs : list Q) :
  reachable c s ->
  let s1 := fst (tick false c1 s) in
  signals s1 = (1, 0) /\
  observed (signals s) (snd (tick false c1 s)) = (1, 0) /\
  (hasPrimedRef s = true -> poses s1 = poses s) /\
  (forall k r, run false cs s1 !! k = Some r -> r = (s1, [])).
Proof.
  intros R s1. apply reachable_wellFormed in R.
  assert (A : atRest s1).
  { apply tick_idle_rests.
    - destruct R as [[_ S] | (a & c2 & b & _ & _ & _ & B & _)].
      + unfold signals in S. injection S as -> _. left. reflexivity.
      + destruct B as (_ & _ & _ & _ & B). exact B.
    - destruct R as [[_ S] | (a & c2 & b & _ & _ & _ & _ & E)].
      + unfold signals in S. injection S as _ ->. left. reflexivity.
      + destruct E as (_ & _ & _ & _ & E). exact E. }
  split; [exact (proj2 A) |].
  split; [unfold tick at 1; rewrite mirror_useFrame; exact (proj2 A) |].
  split.
  - intros P. subst s1. unfold tick, useFrame. simpl negb. cbv iota.
    rewrite (prime_primed s P). apply idleFrame_poses.
  - apply run_idle_fixed; [exact A | apply tick_primed].
Qed.

(** *** Signals over a session *)

Lemma session_signals_after (a c : Q) (cs : list Q) (b : bool) (s : Scene) :
  inSession a c b s ->
  nondecreasing c cs ->
  forall k r ck, run true cs s !! k = Some r -> cs !! k = Some ck ->
    (exists b', inSession a ck b' (fst r)) /\
    backgroundOpacityRef (fst r) <= backgroundOpacityRef s /\
    environmentProgressRef s <= environmentProgressRef (fst r).
Proof.
  revert c b s. induction cs as [| c' cs IH]; intros c b s I N k r ck Er Ec;
    [discriminate |].
  destruct N as [Hc N].
  destruct (tick_keeps_session a c c' b s I Hc) as ([b' I'] & LB & LE).
  destruct k as [| k]; simpl in Er, Ec.
  - injection Er as <-. injection Ec as <-. split; [exists b'; exact I' | auto].
  - destruct (IH c' b' _ I' N k r ck Er Ec) as (J & LB' & LE').
    split; [exact J |]. split; lra.
Qed.

Lemma session_signals_mono (a c : Q) (cs : list Q) (b : bool) (s : Scene) :
  inSession a c b s ->
  nondecreasing c cs ->
  forall i j ri rj, (i <= j)%nat ->
    run true cs s !! i = Some ri -> run true cs s !! j = Some rj ->
    backgroundOpacityRef (fst rj) <= backgroundOpacityRef (fst ri) /\
    environmentProgressRef (fst ri) <= environmentProgressRef (fst rj).
Proof.
  revert c b s. induction cs as [| c' cs IH]; intros c b s I N i j ri rj Hij Ei Ej;
    [discriminate |].
  destruct N as [Hc N].
  destruct (tick_keeps_session a c c' b s I Hc) as ([b' I'] & _ & _).
  destruct i as [| i]; simpl in Ei.
  - injection Ei as <-. destruct j as [| j]; simpl in Ej.
    + injection Ej as <-. split; lra.
    + assert (Lj : (j < length cs)%nat).
      { apply lookup_lt_Some in Ej. rewrite length_run in Ej. exact Ej. }
      destruct (lookup_lt_is_Some_2 cs j Lj) as [cj Ecj].
      destruct (session_signals_after a c' cs b' _ I' N j rj cj Ej Ecj) as (_ & LB & LE).
      auto.
  - destruct j as [| j]; [lia |]. simpl in Ej.
    apply (IH c' b' _ I' N i j ri rj); [lia | exact Ei | exact Ej].
Qed.

Lemma inSession_settled (a c : Q) (b : bool) (s : Scene) :
  inSession a c b s ->
  totalAnimationTime <= c - a ->
  0 <= backgroundOpacityRef s <= EMIT_EPSILON /\
  1 - EMIT_EPSILON <= environmentProgressRef s <= 1.
Proof.
  intros (_ & _ & B & E) H. pose proof total_value as T.
  set (t := clamp (c - a) 0 totalAnimationTime) in *.
  assert (Ht : totalAnimationTime <= t).
  { unfold t.
    destruct (clamp_cases (c - a) 0 totalAnimationTime) as [[? K] | [[? K] | [? K]]]; lra. }
  pose proof (fadeOpacity_end t Ht) as Z. pose proof (fadeProgress_eq t) as Q.
  destruct B as (B0 & B1 & B2 & _). destruct E as (E0 & E1 & E2 & _).
  unfold EMIT_EPSILON in *. lra.
Qed.

(** C2, as the code has it.  In a session that starts from rest and is
    driven by a clock that never goes back: the parent holds what the refs
    hold; the background opacity it holds never increases and the
    environment progress never decreases from one frame to a later one;
    and from [totalAnimationTime] on the two values lie within the emission
    throttle of their end values, [0 <= backgroundOpacity <= 0.005] and
    [0.995 <= environmentProgress <= 1]. *)
Theorem signals_monotone_and_settle_within_throttle
        (s0 : Scene) (c0 : Q) (cs : list Q) :
  atRest s0 ->
  nondecreasing c0 cs ->
  let clocks := c0 :: cs in
  let frames := run true clocks s0 in
  (forall k r, frames !! k = Some r ->
     observed (signals s0) (allEvents (take (S k) frames)) = signals (fst r)) /\
  (forall i j ri rj, (i <= j)%nat ->
     frames !! i = Some ri -> frames !! j = Some rj ->
     backgroundOpacityRef (fst rj) <= backgroundOpacityRef (fst ri) /\
     environmentProgressRef (fst ri) <= environmentProgressRef (fst rj)) /\
  (forall k r c, frames !! k = Some r -> clocks !! k = Some c ->
     totalAnimationTime <= c - c0 ->
     0 <= backgroundOpacityRef (fst r) <= EMIT_EPSILON /\
     1 - EMIT_EPSILON <= environmentProgressRef (fst r) <= 1).
Proof.
  intros A N clocks frames. subst clocks frames.
  destruct (tick_opens_session c0 s0 A) as (I & _ & _).
  split; [intros k r E; apply mirror_run; exact E |].
  split.
  - intros i j ri rj Hij Ei Ej.
    destruct i as [| i]; simpl in Ei.
    + injection Ei as <-. destruct j as [| j]; simpl in Ej.
      * injection Ej as <-. split; lra.
      * assert (Lj : (j < length cs)%nat).
        { apply lookup_lt_Some in Ej. rewrite length_run in Ej. exact Ej. }
        destruct (lookup_lt_is_Some_2 cs j Lj) as [cj Ecj].
        destruct (session_signals_after c0 c0 cs false _ I N j rj cj Ej Ecj)
          as (_ & LB & LE).
        auto.
    + destruct j as [| j]; [lia |]. simpl in Ej.
      apply (session_signals_mono c0 c0 cs false _ I N i j ri rj); [lia | exact Ei | exact Ej].
  - intros k r c Er Ec H. pose proof total_value as T.
    destruct k as [| k]; simpl in Er, Ec.
    + injection Ec as <-. lra.
    + destruct (session_signals_after c0 c0 cs false _ I N k r c Er Ec) as ([b' J] & _).
      apply (inSession_settled c0 c b' _ J H).
Qed.

(** *** The statements at concrete sessions *)

Lemma atRest_mount : atRest initialScene.
Proof. split; reflexivity. Qed.

(** A session of four frames, the third of which reaches the end: one
    completion in all. *)
Lemma completion_fires_exactly_once_witness :
  sessionStart initialScene /\
  completions (allEvents (run true [0; 3; 5.2; 6] initialScene)) = 1%nat.
Proof.
  split; [exact sessionStart_mount |].
  pose proof (completion_fires_exactly_once initialScene 0 [3; 5.2; 6]
                sessionStart_mount) as H.
  cbv zeta in H. destruct H as (_ & H & _). apply H.
  exists 5.2. split; [simpl; auto |].
  unfold reachesEnd. apply Qle_bool_imp_le. reflexivity.
Defined.

(** The cake height never increases between the second and the fourth
    frame of the same session. *)
Lemma cake_descends_and_candle_appears_witness :
  sessionStart initialScene /\ nondecreasing 0 [3; 5.2; 6] /\
  cakeY (fst (tick true 6 (fst (tick true 5.2 (fst (tick true 3 (fst (tick true 0 initialScene))))))))
  <= cakeY (fst (tick true 3 (fst (tick true 0 initialScene)))).
Proof.
  assert (N : nondecreasing 0 [3; 5.2; 6]).
  { simpl. repeat split; apply Qle_bool_imp_le; reflexivity. }
  split; [exact sessionStart_mount |]. split; [exact N |].
  pose proof (cake_descends_and_candle_appears initialScene 0 [3; 5.2; 6]
                sessionStart_mount N) as H.
  cbv zeta in H. destruct H as [_ H].
  apply (H 1%nat 3%nat (tick true 3 (fst (tick true 0 initialScene)))
           (tick true 6 (fst (tick true 5.2 (fst (tick true 3 (fst (tick true 0 initialScene))))))));
    [lia | reflexivity | reflexivity].
Defined.

(** The session on which the throttle swallows the last emission: the
    frame at elapsed time 3.85 delivers the opacity 0.003375, and the frame
    at 5.2, where the animation is over, delivers nothing more. *)
Lemma throttle_leaves_a_residue :
  atRest initialScene /\ nondecreasing 0 [3.85; 5.2] /\
  ~ endpointsExact initialScene 0 [3.85; 5.2].
Proof.
  split; [exact atRest_mount |]. split.
  - simpl. repeat split; apply Qle_bool_imp_le; reflexivity.
  - intros H.
    destruct (H 2%nat
                (tick true 5.2 (fst (tick true 3.85 (fst (tick true 0 initialScene)))))
                5.2) as [B _].
    + reflexivity.
    + reflexivity.
    + apply Qle_bool_imp_le. reflexivity.
    + vm_compute in B. discriminate B.
Qed.

Lemma signals_monotone_and_settle_within_throttle_witness :
  atRest initialScene /\ nondecreasing 0 [3.85; 5.2] /\
  0 <= backgroundOpacityRef
         (fst (tick true 5.2 (fst (tick true 3.85 (fst (tick true 0 initialScene))))))
    <= EMIT_EPSILON.
Proof.
  assert (N : nondecreasing 0 [3.85; 5.2]).
  { simpl. repeat split; apply Qle_bool_imp_le; reflexivity. }
  split; [exact atRest_mount |]. split; [exact N |].
  pose proof (signals_monotone_and_settle_within_throttle
                initialScene 0 [3.85; 5.2] atRest_mount N) as H.
  cbv zeta in H. destruct H as (_ & _ & H).
  apply (H 2%nat
           (tick true 5.2 (fst (tick true 3.85 (fst (tick true 0 initialScene)))))
           5.2); [reflexivity | reflexivity |].
  apply Qle_bool_imp_le. reflexivity.
Defined.

(** An idle frame after a session that was cut short at elapsed time 3.5. *)
Lemma idle_frames_are_idempotent_witness :
  reachable 3.5 (fst (useFrame true true 3.5 (fst (useFrame true true 0 initialScene)))) /\
  signals (fst (tick false 4
             (fst (useFrame true true 3.5 (fst (useFrame true true 0 initialScene))))))
    = (1, 0).
Proof.
  assert (R : reachable 3.5
                (fst (useFrame true true 3.5 (fst (useFrame true true 0 initialScene))))).
  { apply (reachable_frame 0 3.5); [| apply Qle_bool_imp_le; reflexivity].
    apply (reachable_frame 0 0); [apply reachable_mount | apply Qle_bool_imp_le; reflexivity]. }
  split; [exact R |].
  pose proof (idle_frames_are_idempotent 3.5 _ 4 [] R) as H.
  cbv zeta in H. destruct H as [H _]. exact H.
Defined.

End TimelineFacts.

(** ** Easing *)

Module EasingFacts.

Import Timeline TimelineFacts.
Local Open Scope Q_scope.
Local Ltac lra := Lqa.lra.
Local Ltac nra := Lqa.nra.

Lemma clamp_inverted (v lo hi : Q) : hi < lo -> clamp v lo hi == hi.
Proof.
  intros H. unfold clamp. apply Q.min_l.
  pose proof (Q.le_max_l lo v). lra.
Qed.

(** X1. [clamp] projects onto the interval: with [min <= max] its value
    lies in the interval, a value of the interval is returned as it is,
    clamping twice is clamping once, and the function never decreases in
    its first argument.  With [min > max] it returns [max], whatever the
    value. *)
Theorem clamp_projects_onto_the_interval (v w lo hi : Q) :
  (lo <= hi ->
   lo <= clamp v lo hi <= hi /\
   (lo <= v <= hi -> clamp v lo hi == v) /\
   clamp (clamp v lo hi) lo hi == clamp v lo hi /\
   (v <= w -> clamp v lo hi <= clamp w lo hi)) /\
  (hi < lo -> clamp v lo hi == hi).
Proof.
  split; [intros H | apply clamp_inverted].
  pose proof (clamp_range v lo hi H) as R.
  split; [exact R |]. split; [apply clamp_id |].
  split; [apply clamp_id; exact R | apply clamp_mono; exact H].
Qed.

Lemma easeOutCubic_above (t : Q) : 0 <= t <= 1 -> t <= easeOutCubic t.
Proof.
  intros [H0 H1]. unfold easeOutCubic.
  set (u := 1 - t). assert (Hu : 0 <= u <= 1) by (subst u; lra).
  assert (E : u ^ 3 == u * u * u) by (simpl; ring).
  assert (P : 0 <= u * (1 - u)) by (apply Qmult_le_0_compat; lra).
  assert (P2 : 0 <= u * (1 - u) * (1 + u)) by (apply Qmult_le_0_compat; lra).
  assert (T : t == 1 - u) by (subst u; ring).
  rewrite E. lra.
Qed.

(** X2. [easeOutCubic] maps the unit interval onto itself: it is 0 at 0
    and 1 at 1, never decreases in between and stays at or above the
    identity, so that an eased progress is never behind the linear one. *)
Theorem easeOutCubic_eases_out (t u : Q) :
  0 <= t -> t <= u -> u <= 1 ->
  easeOutCubic 0 == 0 /\ easeOutCubic 1 == 1 /\
  0 <= easeOutCubic t <= 1 /\
  easeOutCubic t <= easeOutCubic u /\
  t <= easeOutCubic t.
Proof.
  intros H0 H1 H2.
  split; [reflexivity |]. split; [reflexivity |].
  split; [apply easeOutCubic_range; lra |].
  split; [apply easeOutCubic_mono; assumption | apply easeOutCubic_above; lra].
Qed.

(** The eased progress at one half and at three quarters. *)
Lemma easeOutCubic_eases_out_witness :
  0 <= 0.5 /\ 0.5 <= 0.75 /\ 0.75 <= 1 /\ easeOutCubic 0.5 <= easeOutCubic 0.75.
Proof.
  assert (H0 : 0 <= 0.5) by lra. assert (H1 : 0.5 <= 0.75) by lra.
  assert (H2 : 0.75 <= 1) by lra.
  pose proof (easeOutCubic_eases_out 0.5 0.75 H0 H1 H2) as (_ & _ & _ & M & _).
  repeat split; assumption.
Defined.

End EasingFacts.

(** ** The tracks of the three props *)

Module TrackFacts.

Import Timeline TimelineFacts.
Local Open Scope Q_scope.
Local Ltac lra := Lqa.lra.
Local Ltac nra := Lqa.nra.

Local Arguments clamp : simpl never.
Local Arguments lerp : simpl never.
Local Arguments easeOutCubic : simpl never.
Local Arguments Qltb : simpl never.
Local Arguments Qgeb : simpl never.
Local Arguments Qabs : simpl never.
Local Arguments Qplus : simpl never.
Local Arguments Qminus : simpl never.
Local Arguments Qmult : simpl never.
Local Arguments Qdiv : simpl never.
Local Arguments Qopp : simpl never.

(** The three groups after the poses of a playing frame, and after the
    whole frame. *)
Lemma finish_poses (t : Q) (s : Scene) :
  poses (fst (finish t s))
  = poses (if Qgeb t totalAnimationTime then snapFinalPose s else s).
Proof.
  unfold finish. destruct (Qgeb t totalAnimationTime); [| reflexivity].
  step_seq.
  change (fst (upd snapFinalPose s)) with (snapFinalPose s).
  set (s1 := snapFinalPose s).
  set (s2 := fst (emitBackgroundOpacity 0 s1)).
  set (s3 := fst (emitEnvironmentProgress 1 s2)).
  change (fst (upd (set_hasCompleted true) s3)) with (set_hasCompleted true s3).
  set (s4 := set_hasCompleted true s3).
  destruct (emitBackgroundOpacity_frame 0 s1) as (_ & P1 & _).
  destruct (emitEnvironmentProgress_frame 1 s2) as (_ & P2 & _).
  destruct (notifyCompletion_spec s4) as (_ & P4 & _).
  fold s2 in P1, P2. fold s3 in P2.
  rewrite P4. change (poses s4) with (poses s3). rewrite P2, P1. reflexivity.
Qed.

Lemma playingFrame_poses (c : Q) (s : Scene) :
  let t := clamp (c - startReference c s) 0 totalAnimationTime in
  let p := poseCandle t (poseTable t (poseCake t s)) in
  poses (fst (playingFrame c s))
  = poses (if Qgeb t totalAnimationTime then snapFinalPose p else p).
Proof.
  intros t p. unfold playingFrame. fold t. step_seq.
  set (s0 := set_animationStart (Some (startReference c s)) s).
  change (fst (upd (poseCandle t) (fst (upd (poseTable t) (fst (upd (poseCake t) s0))))))
    with (poseCandle t (poseTable t (poseCake t s0))).
  set (s3 := poseCandle t (poseTable t (poseCake t s0))).
  destruct (emitFade_frame t s3) as (_ & P4 & _).
  rewrite finish_poses.
  assert (E : poses s3 = poses p)
    by (unfold s3, p, poseCandle; destruct (Qgeb t CANDLE_DROP_START); reflexivity).
  destruct (Qgeb t totalAnimationTime).
  - rewrite E in P4. apply poses_inv in P4. destruct P4 as (Pc & Pt & Pd).
    unfold poses, snapFinalPose. cbn [cake table candle set_cake set_table set_candle].
    rewrite Pc, Pt, Pd. reflexivity.
  - rewrite P4. exact E.
Qed.

Section Track.

Variable f : Scene -> Q.
Variable g : Q -> Q.

Hypothesis f_poses : forall s s', poses s' = poses s -> f s' = f s.
Hypothesis f_play : forall c s,
  f (fst (playingFrame c s))
  == g (clamp (c - startReference c s) 0 totalAnimationTime).
Hypothesis g_end : forall t, totalAnimationTime <= t -> g t == g totalAnimationTime.

Lemma track_step (a c c' : Q) (b : bool) (s : Scene) :
  flags s = (Some a, b, b) ->
  landed f g a c b s ->
  c <= c' ->
  let s' := fst (tick true c' s) in
  f s' == g (clamp (c' - a) 0 totalAnimationTime) /\
  exists b', flags s' = (Some a, b', b') /\ landed f g a c' b' s'.
Proof.
  intros F S Hc s'. set (t' := clamp (c' - a) 0 totalAnimationTime).
  destruct (tick_playing_flags c' a b s F) as [F' _]. fold s' in F'.
  pose proof (tick_primed true c' s) as P'. fold s' in P'.
  pose proof total_value as T.
  assert (O : f s' == g t').
  { subst s'. unfold tick, useFrame in *. simpl negb in *. cbv iota in *.
    destruct (prime_refs s) as (Pa & Pc & Pn & _).
    apply flags_inv in F. destruct F as (Fa & Fc & Fn).
    rewrite Pc, Fc in *. destruct b.
    - destruct (S eq_refl) as (Hp & R & Y).
      rewrite (prime_primed s Hp) in *.
      rewrite (f_poses _ _ (completedFrame_poses s)).
      assert (R' : reachesEnd a c') by (apply (reachesEnd_later a c c'); assumption).
      unfold reachesEnd in R'. fold t' in R'.
      rewrite Y. symmetry. apply g_end. exact R'.
    - pose proof (f_play c' (prime s)) as P.
      unfold startReference in P. rewrite Pa, Fa in P. exact P. }
  split; [exact O |].
  exists (b || Qgeb t' totalAnimationTime). split; [exact F' |].
  intros Hb. split; [exact P' |].
  assert (R' : reachesEnd a c').
  { destruct b; simpl in Hb.
    - destruct (S eq_refl) as (_ & R & _). apply (reachesEnd_later a c c'); assumption.
    - apply reachesEnd_dec. exact Hb. }
  split; [exact R' |].
  unfold reachesEnd in R'. fold t' in R'.
  rewrite O. apply g_end. exact R'.
Qed.

Lemma track_session (a c : Q) (cs : list Q) (b : bool) (s : Scene) :
  flags s = (Some a, b, b) ->
  landed f g a c b s ->
  nondecreasing c cs ->
  forall k r ck, run true cs s !! k = Some r -> cs !! k = Some ck ->
    f (fst r) == g (clamp (ck - a) 0 totalAnimationTime).
Proof.
  revert c b s. induction cs as [| c' cs IH]; intros c b s F S N k r ck Er Ec;
    [discriminate |].
  destruct N as [Hc N].
  destruct (track_step a c c' b s F S Hc) as (O & b' & F' & S').
  destruct k as [| k]; simpl in Er, Ec.
  - injection Er as <-. injection Ec as <-. exact O.
  - apply (IH c' b' _ F' S' N k r ck Er Ec).
Qed.

Lemma track_run (s0 : Scene) (c0 : Q) (cs : list Q) :
  sessionStart s0 ->
  nondecreasing c0 cs ->
  forall k r c, run true (c0 :: cs) s0 !! k = Some r -> (c0 :: cs) !! k = Some c ->
    f (fst r) == g (clamp (c - c0) 0 totalAnimationTime).
Proof.
  intros Hs N k r c Er Ec.
  destruct (tick_first_flags c0 s0 Hs) as [F _].
  destruct k as [| k]; simpl in Er, Ec.
  - injection Er as <-. injection Ec as Ec. subst c.
    unfold tick, useFrame. simpl negb. cbv iota.
    destruct Hs as (Ha & Hc & Hn).
    destruct (prime_refs s0) as (Pa & Pc & _).
    rewrite Pc, Hc.
    pose proof (f_play c0 (prime s0)) as P.
    unfold startReference in P. rewrite Pa, Ha in P. exact P.
  - apply (track_session c0 c0 cs false _ F) with (k := k); try assumption.
    intros Hb. discriminate.
Qed.

(** A track that never rises is followed downwards. *)
Lemma track_falls (s0 : Scene) (c0 : Q) (cs : list Q) :
  (forall t u, t <= u -> g u <= g t) ->
  sessionStart s0 ->
  nondecreasing c0 cs ->
  forall i j ri rj, (i <= j)%nat ->
    run true (c0 :: cs) s0 !! i = Some ri -> run true (c0 :: cs) s0 !! j = Some rj ->
    f (fst rj) <= f (fst ri).
Proof.
  intros Mono Hs N i j ri rj Hij Ei Ej.
  pose proof total_value as T.
  assert (Li : (i < length (c0 :: cs))%nat).
  { apply lookup_lt_Some in Ei. rewrite length_run in Ei. exact Ei. }
  assert (Lj : (j < length (c0 :: cs))%nat).
  { apply lookup_lt_Some in Ej. rewrite length_run in Ej. exact Ej. }
  destruct (lookup_lt_is_Some_2 (c0 :: cs) i Li) as [ci Eci].
  destruct (lookup_lt_is_Some_2 (c0 :: cs) j Lj) as [cj Ecj].
  rewrite (track_run s0 c0 cs Hs N i ri ci Ei Eci).
  rewrite (track_run s0 c0 cs Hs N j rj cj Ej Ecj).
  apply Mono. apply clamp_mono; [lra |].
  pose proof (nondecreasing_pairs c0 cs i j ci cj N Hij Eci Ecj). lra.
Qed.

End Track.

(** *** The three tracks *)

Lemma table_slide_start_value : TABLE_SLIDE_START == 2.2.
Proof. reflexivity. Qed.

Lemma tableDepth_range (t : Q) : TABLE_END_Z <= tableDepth t <= TABLE_START_Z.
Proof.
  unfold tableDepth, lerp, TABLE_START_Z, TABLE_END_Z.
  destruct (Qgeb t TABLE_SLIDE_START); [| lra].
  set (p := clamp ((t - TABLE_SLIDE_START) / TABLE_SLIDE_DURATION) 0 1).
  pose proof (clamp_range ((t - TABLE_SLIDE_START) / TABLE_SLIDE_DURATION) 0 1) as Rp.
  fold p in Rp. pose proof (easeOutCubic_range p) as E. lra.
Qed.

Lemma tableDepth_start (t : Q) : t <= TABLE_SLIDE_START -> tableDepth t == TABLE_START_Z.
Proof.
  intros H. unfold tableDepth.
  destruct (Qgeb t TABLE_SLIDE_START) eqn:G; [| reflexivity].
  apply Qgeb_true in G.
  unfold lerp, TABLE_START_Z, TABLE_END_Z, TABLE_SLIDE_DURATION in *.
  assert (E : clamp ((t - TABLE_SLIDE_START) / 0.7) 0 1 == 0).
  { destruct (clamp_cases ((t - TABLE_SLIDE_START) / 0.7) 0 1) as [[? E] | [[? E] | [? E]]];
      no_div; lra. }
  unfold easeOutCubic. simpl Qpower. rewrite E. lra.
Qed.

Lemma tableDepth_end (t : Q) :
  TABLE_SLIDE_START + TABLE_SLIDE_DURATION <= t -> tableDepth t == TABLE_END_Z.
Proof.
  intros H. unfold tableDepth.
  assert (G : Qgeb t TABLE_SLIDE_START = true).
  { apply Qgeb_true. unfold TABLE_SLIDE_DURATION in H. lra. }
  rewrite G. unfold lerp, TABLE_START_Z, TABLE_END_Z, TABLE_SLIDE_DURATION in *.
  assert (E : clamp ((t - TABLE_SLIDE_START) / 0.7) 0 1 == 1).
  { destruct (clamp_cases ((t - TABLE_SLIDE_START) / 0.7) 0 1) as [[? E] | [[? E] | [? E]]];
      no_div; lra. }
  rewrite (easeOutCubic_1 _ E). lra.
Qed.

Lemma tableDepth_mono (t u : Q) : t <= u -> tableDepth u <= tableDepth t.
Proof.
  intros H. unfold tableDepth.
  destruct (Qgeb t TABLE_SLIDE_START) eqn:Gt.
  - assert (Gu : Qgeb u TABLE_SLIDE_START = true).
    { apply Qgeb_true. apply Qgeb_true in Gt. lra. }
    rewrite Gu. unfold lerp, TABLE_START_Z, TABLE_END_Z, TABLE_SLIDE_DURATION.
    set (p := clamp ((t - TABLE_SLIDE_START) / 0.7) 0 1).
    set (q := clamp ((u - TABLE_SLIDE_START) / 0.7) 0 1).
    assert (M : p <= q) by (apply clamp_mono; no_div; lra).
    pose proof (clamp_range ((t - TABLE_SLIDE_START) / 0.7) 0 1) as Rp.
    pose proof (clamp_range ((u - TABLE_SLIDE_START) / 0.7) 0 1) as Rq.
    fold p in Rp. fold q in Rq.
    pose proof (easeOutCubic_mono p q) as E. lra.
  - pose proof (tableDepth_range u) as R. unfold tableDepth in R. lra.
Qed.

Lemma candleHeight_range (t : Q) : CANDLE_END_Y <= candleHeight t <= CANDLE_START_Y.
Proof.
  unfold candleHeight, lerp, CANDLE_START_Y, CANDLE_END_Y.
  destruct (Qgeb t CANDLE_DROP_START); [| lra].
  set (p := clamp ((t - CANDLE_DROP_START) / CANDLE_DROP_DURATION) 0 1).
  pose proof (clamp_range ((t - CANDLE_DROP_START) / CANDLE_DROP_DURATION) 0 1) as Rp.
  fold p in Rp. pose proof (easeOutCubic_range p) as E. lra.
Qed.

Lemma candleHeight_start (t : Q) : t <= CANDLE_DROP_START -> candleHeight t == CANDLE_START_Y.
Proof.
  intros H. unfold candleHeight.
  destruct (Qgeb t CANDLE_DROP_START) eqn:G; [| reflexivity].
  apply Qgeb_true in G.
  unfold lerp, CANDLE_START_Y, CANDLE_END_Y, CANDLE_DROP_DURATION in *.
  assert (E : clamp ((t - CANDLE_DROP_START) / 1.2) 0 1 == 0).
  { destruct (clamp_cases ((t - CANDLE_DROP_START) / 1.2) 0 1) as [[? E] | [[? E] | [? E]]];
      no_div; lra. }
  unfold easeOutCubic. simpl Qpower. rewrite E. lra.
Qed.

Lemma candleHeight_end (t : Q) : totalAnimationTime <= t -> candleHeight t == CANDLE_END_Y.
Proof.
  intros H. unfold candleHeight. pose proof total_value as T.
  pose proof candle_drop_start_value as D4.
  assert (G : Qgeb t CANDLE_DROP_START = true) by (apply Qgeb_true; lra).
  rewrite G. unfold lerp, CANDLE_START_Y, CANDLE_END_Y, CANDLE_DROP_DURATION in *.
  assert (E : clamp ((t - CANDLE_DROP_START) / 1.2) 0 1 == 1).
  { destruct (clamp_cases ((t - CANDLE_DROP_START) / 1.2) 0 1) as [[? E] | [[? E] | [? E]]];
      no_div; lra. }
  rewrite (easeOutCubic_1 _ E). lra.
Qed.

Lemma candleHeight_mono (t u : Q) : t <= u -> candleHeight u <= candleHeight t.
Proof.
  intros H. unfold candleHeight.
  destruct (Qgeb t CANDLE_DROP_START) eqn:Gt.
  - assert (Gu : Qgeb u CANDLE_DROP_START = true).
    { apply Qgeb_true. apply Qgeb_true in Gt. lra. }
    rewrite Gu. unfold lerp, CANDLE_START_Y, CANDLE_END_Y, CANDLE_DROP_DURATION.
    set (p := clamp ((t - CANDLE_DROP_START) / 1.2) 0 1).
    set (q := clamp ((u - CANDLE_DROP_START) / 1.2) 0 1).
    assert (M : p <= q) by (apply clamp_mono; no_div; lra).
    pose proof (clamp_range ((t - CANDLE_DROP_START) / 1.2) 0 1) as Rp.
    pose proof (clamp_range ((u - CANDLE_DROP_START) / 1.2) 0 1) as Rq.
    fold p in Rp. fold q in Rq.
    pose proof (easeOutCubic_mono p q) as E. lra.
  - pose proof (candleHeight_range u) as R. unfold candleHeight in R. lra.
Qed.

(** The cake is on the table only from the end of its descent on. *)
Lemma cakeHeight_landed (t : Q) : cakeHeight t == CAKE_END_Y -> CAKE_DESCENT_DURATION <= t.
Proof.
  unfold cakeHeight, lerp, CAKE_START_Y, CAKE_END_Y, CAKE_DESCENT_DURATION. intros H.
  set (p := clamp (t / 3) 0 1) in *.
  pose proof (clamp_range (t / 3) 0 1) as Rp. fold p in Rp.
  destruct (Qlt_le_dec p 1) as [L | L].
  - exfalso. unfold easeOutCubic in H.
    set (u := 1 - p) in *. assert (Hu : 0 < u) by (subst u; lra).
    assert (E : u ^ 3 == u * u * u) by (simpl; ring).
    assert (P : 0 < u * u) by (apply Qmult_lt_0_compat; lra).
    assert (P3 : 0 < u * u * u) by (apply Qmult_lt_0_compat; lra).
    rewrite E in H. lra.
  - destruct (clamp_cases (t / 3) 0 1) as [[? E] | [[? E] | [? E]]];
      try fold p in E; no_div; lra.
Qed.

Lemma tableZ_play (c : Q) (s : Scene) :
  tableZ (fst (playingFrame c s))
  == tableDepth (clamp (c - startReference c s) 0 totalAnimationTime).
Proof.
  pose proof (playingFrame_poses c s) as P. cbv zeta in P.
  set (t := clamp (c - startReference c s) 0 totalAnimationTime) in *.
  apply poses_inv in P. destruct P as (_ & Pt & _).
  unfold tableZ. rewrite Pt. destruct (Qgeb t totalAnimationTime) eqn:D.
  - apply Qgeb_true in D. rewrite tableDepth_end; [reflexivity |].
    pose proof total_value. pose proof table_slide_start_value.
    unfold TABLE_SLIDE_DURATION. lra.
  - unfold poseCandle. destruct (Qgeb t CANDLE_DROP_START); reflexivity.
Qed.

Lemma candleY_play (c : Q) (s : Scene) :
  candleY (fst (playingFrame c s))
  == candleHeight (clamp (c - startReference c s) 0 totalAnimationTime).
Proof.
  pose proof (playingFrame_poses c s) as P. cbv zeta in P.
  set (t := clamp (c - startReference c s) 0 totalAnimationTime) in *.
  apply poses_inv in P. destruct P as (_ & _ & Pd).
  unfold candleY. rewrite Pd. destruct (Qgeb t totalAnimationTime) eqn:D.
  - apply Qgeb_true in D. rewrite candleHeight_end; [reflexivity | exact D].
  - unfold poseCandle, candleHeight.
    destruct (Qgeb t CANDLE_DROP_START); [| reflexivity].
    destruct (visible (candle (poseTable t (poseCake t s)))); reflexivity.
Qed.

Lemma cakeSpin_play (c : Q) (s : Scene) :
  cakeSpin (fst (playingFrame c s))
  == spinAngle (clamp (c - startReference c s) 0 totalAnimationTime).
Proof.
  pose proof (playingFrame_poses c s) as P. cbv zeta in P.
  set (t := clamp (c - startReference c s) 0 totalAnimationTime) in *.
  apply poses_inv in P. destruct P as (Pc & _ & _).
  unfold cakeSpin, spinAngle. rewrite Pc. destruct (Qgeb t totalAnimationTime) eqn:D.
  - reflexivity.
  - unfold poseCandle. destruct (Qgeb t CANDLE_DROP_START); reflexivity.
Qed.

Lemma cakeY_play (c : Q) (s : Scene) :
  cakeY (fst (playingFrame c s))
  == cakeHeight (clamp (c - startReference c s) 0 totalAnimationTime).
Proof. apply playingFrame_pose. Qed.

Lemma poses_tableZ (s s' : Scene) : poses s' = poses s -> tableZ s' = tableZ s.
Proof. intros H. apply poses_inv in H. destruct H as (_ & H & _). unfold tableZ. rewrite H. reflexivity. Qed.

Lemma poses_candleY (s s' : Scene) : poses s' = poses s -> candleY s' = candleY s.
Proof. intros H. apply poses_inv in H. destruct H as (_ & _ & H). unfold candleY. rewrite H. reflexivity. Qed.

Lemma poses_cakeSpin (s s' : Scene) : poses s' = poses s -> cakeSpin s' = cakeSpin s.
Proof. intros H. apply poses_inv in H. destruct H as (H & _ & _). unfold cakeSpin. rewrite H. reflexivity. Qed.

Lemma poses_cakeHeight (s s' : Scene) : poses s' = poses s -> cakeY s' = cakeY s.
Proof. intros H. apply poses_cakeY in H. apply H. Qed.

Lemma poses_candleVisible (s s' : Scene) :
  poses s' = poses s -> candleVisible s' = candleVisible s.
Proof. intros H. apply poses_cakeY in H. apply H. Qed.

Lemma tableDepth_total (t : Q) :
  totalAnimationTime <= t -> tableDepth t == tableDepth totalAnimationTime.
Proof.
  intros H. pose proof total_value as T. pose proof table_slide_start_value.
  rewrite !tableDepth_end; [reflexivity | |]; unfold TABLE_SLIDE_DURATION; lra.
Qed.

Lemma candleHeight_total (t : Q) :
  totalAnimationTime <= t -> candleHeight t == candleHeight totalAnimationTime.
Proof.
  intros H. pose proof total_value as T.
  rewrite !candleHeight_end; [reflexivity | |]; lra.
Qed.

Lemma cakeHeight_total (t : Q) :
  totalAnimationTime <= t -> cakeHeight t == cakeHeight totalAnimationTime.
Proof.
  intros H. pose proof total_value as T.
  rewrite !cakeHeight_end; [reflexivity | |]; unfold CAKE_DESCENT_DURATION; lra.
Qed.

Lemma spinAngle_total (t : Q) :
  totalAnimationTime <= t -> spinAngle t == spinAngle totalAnimationTime.
Proof.
  intros H. unfold spinAngle.
  assert (G : Qgeb t totalAnimationTime = true) by (apply Qgeb_true; exact H).
  assert (G' : Qgeb totalAnimationTime totalAnimationTime = true)
    by (apply Qgeb_true; lra).
  rewrite G, G'. reflexivity.
Qed.

Lemma spinAngle_range (t : Q) : 0 <= spinAngle t <= Math_PI * 2.
Proof.
  unfold spinAngle, CAKE_DESCENT_DURATION, Math_PI.
  destruct (Qgeb t totalAnimationTime); [lra |].
  pose proof (clamp_range (t / 3) 0 1) as Rp.
  pose proof (easeOutCubic_range (clamp (t / 3) 0 1)) as E. lra.
Qed.

Lemma spinAngle_start (t : Q) : t <= 0 -> spinAngle t == 0.
Proof.
  intros H. unfold spinAngle, CAKE_DESCENT_DURATION.
  destruct (Qgeb t totalAnimationTime); [reflexivity |].
  assert (E : clamp (t / 3) 0 1 == 0).
  { destruct (clamp_cases (t / 3) 0 1) as [[? E] | [[? E] | [? E]]]; no_div; lra. }
  unfold easeOutCubic. simpl Qpower. rewrite E. unfold Math_PI. lra.
Qed.

Lemma spinAngle_full (t : Q) :
  CAKE_DESCENT_DURATION <= t -> t < totalAnimationTime -> spinAngle t == Math_PI * 2.
Proof.
  intros H L. unfold spinAngle, CAKE_DESCENT_DURATION in *.
  assert (G : Qgeb t totalAnimationTime = false) by (apply Qgeb_false; exact L).
  rewrite G.
  assert (E : clamp (t / 3) 0 1 == 1).
  { destruct (clamp_cases (t / 3) 0 1) as [[? E] | [[? E] | [? E]]]; no_div; lra. }
  rewrite (easeOutCubic_1 _ E). unfold Math_PI. lra.
Qed.

Lemma spinAngle_mono (t u : Q) :
  t <= u -> u < totalAnimationTime -> spinAngle t <= spinAngle u.
Proof.
  intros H L. unfold spinAngle, CAKE_DESCENT_DURATION.
  assert (Gu : Qgeb u totalAnimationTime = false) by (apply Qgeb_false; exact L).
  assert (Gt : Qgeb t totalAnimationTime = false) by (apply Qgeb_false; lra).
  rewrite Gu, Gt.
  assert (M : clamp (t / 3) 0 1 <= clamp (u / 3) 0 1)
    by (apply clamp_mono; no_div; lra).
  pose proof (clamp_range (t / 3) 0 1) as Rt. pose proof (clamp_range (u / 3) 0 1) as Ru.
  pose proof (easeOutCubic_mono (clamp (t / 3) 0 1) (clamp (u / 3) 0 1)) as E.
  unfold Math_PI. lra.
Qed.

(** The clamped elapsed time of a frame of a session. *)
Lemma elapsed_cases (c0 c : Q) :
  c0 <= c ->
  let t := clamp (c - c0) 0 totalAnimationTime in
  (c - c0 <= totalAnimationTime /\ t == c - c0) \/
  (totalAnimationTime <= c - c0 /\ t == totalAnimationTime).
Proof.
  intros H t. pose proof total_value as T.
  destruct (clamp_cases (c - c0) 0 totalAnimationTime) as [[? E] | [[? E] | [? E]]];
    [lra | | |]; fold t in E; [left | left | right]; split; lra.
Qed.

Lemma session_clock (c0 : Q) (cs : list Q) (k : nat) (c : Q) :
  nondecreasing c0 cs -> (c0 :: cs) !! k = Some c -> c0 <= c.
Proof.
  intros N E. apply (nondecreasing_pairs c0 cs 0 k c0 c N); [lia | reflexivity | exact E].
Qed.

Lemma tableZ_run (s0 : Scene) (c0 : Q) (cs : list Q) :
  sessionStart s0 -> nondecreasing c0 cs ->
  forall k r c, run true (c0 :: cs) s0 !! k = Some r -> (c0 :: cs) !! k = Some c ->
    tableZ (fst r) == tableDepth (clamp (c - c0) 0 totalAnimationTime).
Proof. apply track_run; [apply poses_tableZ | apply tableZ_play | apply tableDepth_total]. Qed.

Lemma candleY_run (s0 : Scene) (c0 : Q) (cs : list Q) :
  sessionStart s0 -> nondecreasing c0 cs ->
  forall k r c, run true (c0 :: cs) s0 !! k = Some r -> (c0 :: cs) !! k = Some c ->
    candleY (fst r) == candleHeight (clamp (c - c0) 0 totalAnimationTime).
Proof. apply track_run; [apply poses_candleY | apply candleY_play | apply candleHeight_total]. Qed.

Lemma cakeSpin_run (s0 : Scene) (c0 : Q) (cs : list Q) :
  sessionStart s0 -> nondecreasing c0 cs ->
  forall k r c, run true (c0 :: cs) s0 !! k = Some r -> (c0 :: cs) !! k = Some c ->
    cakeSpin (fst r) == spinAngle (clamp (c - c0) 0 totalAnimationTime).
Proof. apply track_run; [apply poses_cakeSpin | apply cakeSpin_play | apply spinAngle_total]. Qed.

Lemma cakeY_run (s0 : Scene) (c0 : Q) (cs : list Q) :
  sessionStart s0 -> nondecreasing c0 cs ->
  forall k r c, run true (c0 :: cs) s0 !! k = Some r -> (c0 :: cs) !! k = Some c ->
    cakeY (fst r) == cakeHeight (clamp (c - c0) 0 totalAnimationTime).
Proof. apply track_run; [apply poses_cakeHeight | apply cakeY_play | apply cakeHeight_total]. Qed.

Lemma candleVisible_run (s0 : Scene) (c0 : Q) (cs : list Q) :
  sessionStart s0 -> nondecreasing c0 cs ->
  forall k r c, run true (c0 :: cs) s0 !! k = Some r -> (c0 :: cs) !! k = Some c ->
    candleVisible (fst r) = Qgeb (clamp (c - c0) 0 totalAnimationTime) CANDLE_DROP_START.
Proof.
  intros Hs N k r c Er Ec.
  destruct (tick_first_flags c0 s0 Hs) as [F _].
  destruct k as [| k]; simpl in Er, Ec.
  - injection Er as <-. injection Ec as Ec. subst c.
    unfold tick, useFrame. simpl negb. cbv iota.
    destruct Hs as (Ha & Hc & Hn).
    destruct (prime_refs s0) as (Pa & Pc & _).
    rewrite Pc, Hc.
    pose proof (playingFrame_pose c0 (prime s0)) as P.
    unfold startReference in P. rewrite Pa, Ha in P. apply P.
  - apply (session_poses c0 c0 cs false _ F) with (k := k); try assumption.
    intros Hb. discriminate.
Qed.

(** X3. In a session replayed with a clock that never goes back, the
    depth of the table after each frame lies between 0 and 30, is 30 until
    the slide starts at 2.2 seconds and 0 from its end at 2.9 seconds on,
    and never increases from a frame to a later one.  The cake is never on
    the table before the table is in place. *)
Theorem table_slides_in_before_the_cake_lands (s0 : Scene) (c0 : Q) (cs : list Q) :
  sessionStart s0 ->
  nondecreasing c0 cs ->
  let clocks := c0 :: cs in
  let frames := run true clocks s0 in
  (forall k r c, frames !! k = Some r -> clocks !! k = Some c ->
     TABLE_END_Z <= tableZ (fst r) <= TABLE_START_Z /\
     (c - c0 <= TABLE_SLIDE_START -> tableZ (fst r) == TABLE_START_Z) /\
     (TABLE_SLIDE_START + TABLE_SLIDE_DURATION <= c - c0 ->
        tableZ (fst r) == TABLE_END_Z) /\
     (cakeY (fst r) == CAKE_END_Y -> tableZ (fst r) == TABLE_END_Z)) /\
  (forall i j ri rj, (i <= j)%nat ->
     frames !! i = Some ri -> frames !! j = Some rj ->
     tableZ (fst rj) <= tableZ (fst ri)).
Proof.
  intros Hs N clocks frames.
  pose proof total_value as T. pose proof table_slide_start_value as T2.
  split.
  - intros k r c Er Ec.
    pose proof (tableZ_run s0 c0 cs Hs N k r c Er Ec) as Z.
    pose proof (cakeY_run s0 c0 cs Hs N k r c Er Ec) as Y.
    pose proof (session_clock c0 cs k c N Ec) as Hc.
    set (t := clamp (c - c0) 0 totalAnimationTime) in *.
    pose proof (tableDepth_range t) as R.
    split; [lra |].
    destruct (elapsed_cases c0 c Hc) as [[L E] | [L E]]; fold t in E.
    + split; [intros H; rewrite Z; apply tableDepth_start; lra |].
      split; [intros H; rewrite Z; apply tableDepth_end; lra |].
      intros H. rewrite Z. apply tableDepth_end. rewrite Y in H.
      apply cakeHeight_landed in H.
      unfold CAKE_DESCENT_DURATION, TABLE_SLIDE_DURATION in *. lra.
    + assert (Z0 : tableZ (fst r) == TABLE_END_Z).
      { rewrite Z. apply tableDepth_end. unfold TABLE_SLIDE_DURATION. lra. }
      split; [intros H; lra |]. split; intros _; exact Z0.
  - intros i j ri rj Hij Ei Ej.
    apply (track_falls tableZ tableDepth poses_tableZ tableZ_play tableDepth_total
             s0 c0 cs tableDepth_mono Hs N i j ri rj Hij Ei Ej).
Qed.

(** X4. In a session replayed with a clock that never goes back, the
    height of the candle after each frame lies between 0 and 5, is 5 until
    the drop starts at 4 seconds and 0 from [totalAnimationTime] on, and
    never increases from a frame to a later one.  A hidden candle is
    parked at its start height, and a candle that has left its start
    height finds the cake landed and the table in place. *)
Theorem candle_drops_once_the_cake_has_landed (s0 : Scene) (c0 : Q) (cs : list Q) :
  sessionStart s0 ->
  nondecreasing c0 cs ->
  let clocks := c0 :: cs in
  let frames := run true clocks s0 in
  (forall k r c, frames !! k = Some r -> clocks !! k = Some c ->
     CANDLE_END_Y <= candleY (fst r) <= CANDLE_START_Y /\
     (c - c0 <= CANDLE_DROP_START -> candleY (fst r) == CANDLE_START_Y) /\
     (totalAnimationTime <= c - c0 -> candleY (fst r) == CANDLE_END_Y) /\
     (candleVisible (fst r) = false -> candleY (fst r) == CANDLE_START_Y) /\
     (candleY (fst r) < CANDLE_START_Y ->
        cakeY (fst r) == CAKE_END_Y /\ tableZ (fst r) == TABLE_END_Z)) /\
  (forall i j ri rj, (i <= j)%nat ->
     frames !! i = Some ri -> frames !! j = Some rj ->
     candleY (fst rj) <= candleY (fst ri)).
Proof.
  intros Hs N clocks frames.
  pose proof total_value as T. pose proof table_slide_start_value as T2.
  pose proof candle_drop_start_value as D4.
  split.
  - intros k r c Er Ec.
    pose proof (candleY_run s0 c0 cs Hs N k r c Er Ec) as Z.
    pose proof (cakeY_run s0 c0 cs Hs N k r c Er Ec) as Y.
    pose proof (tableZ_run s0 c0 cs Hs N k r c Er Ec) as X.
    pose proof (candleVisible_run s0 c0 cs Hs N k r c Er Ec) as V.
    pose proof (session_clock c0 cs k c N Ec) as Hc.
    set (t := clamp (c - c0) 0 totalAnimationTime) in *.
    pose proof (candleHeight_range t) as R.
    split; [lra |].
    assert (Early : t <= CANDLE_DROP_START -> candleY (fst r) == CANDLE_START_Y).
    { intros H. rewrite Z. apply candleHeight_start. exact H. }
    destruct (elapsed_cases c0 c Hc) as [[L E] | [L E]]; fold t in E.
    + split; [intros H; apply Early; lra |].
      split; [intros H; rewrite Z; apply candleHeight_end; lra |].
      split.
      * intros H. apply Early. rewrite V in H. apply Qgeb_false in H. lra.
      * intros H. destruct (Qlt_le_dec CANDLE_DROP_START t) as [G | G];
          [| specialize (Early G); lra].
        split.
        -- rewrite Y. apply cakeHeight_end. unfold CAKE_DESCENT_DURATION. lra.
        -- rewrite X. apply tableDepth_end. unfold TABLE_SLIDE_DURATION. lra.
    + assert (Z0 : candleY (fst r) == CANDLE_END_Y).
      { rewrite Z. apply candleHeight_end. lra. }
      split; [intros H; lra |]. split; [intros _; exact Z0 |].
      split.
      * intros H. rewrite V in H. apply Qgeb_false in H. lra.
      * intros _. split.
        -- rewrite Y. apply cakeHeight_end. unfold CAKE_DESCENT_DURATION. lra.
        -- rewrite X. apply tableDepth_end. unfold TABLE_SLIDE_DURATION. lra.
  - intros i j ri rj Hij Ei Ej.
    apply (track_falls candleY candleHeight poses_candleY candleY_play
             candleHeight_total s0 c0 cs candleHeight_mono Hs N i j ri rj Hij Ei Ej).
Qed.

(** X5. In a session replayed with a clock that never goes back, the
    turn of the cake about its vertical axis lies between 0 and two
    [Math.PI], is 0 on the first frame, never decreases before the end of
    the animation, is the full turn from the end of the descent until the
    end of the animation, and is set back to 0 by the frame that ends the
    animation. *)
Theorem cake_turns_once_and_is_reset (s0 : Scene) (c0 : Q) (cs : list Q) :
  sessionStart s0 ->
  nondecreasing c0 cs ->
  let clocks := c0 :: cs in
  let frames := run true clocks s0 in
  (forall k r c, frames !! k = Some r -> clocks !! k = Some c ->
     0 <= cakeSpin (fst r) <= Math_PI * 2 /\
     (c - c0 == 0 -> cakeSpin (fst r) == 0) /\
     (CAKE_DESCENT_DURATION <= c - c0 -> c - c0 < totalAnimationTime ->
        cakeSpin (fst r) == Math_PI * 2) /\
     (totalAnimationTime <= c - c0 -> cakeSpin (fst r) == 0)) /\
  (forall i j ri rj cj, (i <= j)%nat ->
     frames !! i = Some ri -> frames !! j = Some rj -> clocks !! j = Some cj ->
     cj - c0 < totalAnimationTime ->
     cakeSpin (fst ri) <= cakeSpin (fst rj)).
Proof.
  intros Hs N clocks frames. pose proof total_value as T.
  split.
  - intros k r c Er Ec.
    pose proof (cakeSpin_run s0 c0 cs Hs N k r c Er Ec) as Z.
    pose proof (session_clock c0 cs k c N Ec) as Hc.
    set (t := clamp (c - c0) 0 totalAnimationTime) in *.
    pose proof (spinAngle_range t) as R.
    split; [lra |].
    destruct (elapsed_cases c0 c Hc) as [[L E] | [L E]]; fold t in E.
    + split; [intros H; rewrite Z; apply spinAngle_start; lra |].
      split; [intros H H'; rewrite Z; apply spinAngle_full; lra |].
      intros H. rewrite Z. rewrite spinAngle_total by lra.
      unfold spinAngle. reflexivity.
    + assert (Z0 : cakeSpin (fst r) == 0).
      { rewrite Z. rewrite spinAngle_total by lra. unfold spinAngle. reflexivity. }
      split; [intros H; lra |]. split; [intros H H'; lra | intros _; exact Z0].
  - intros i j ri rj cj Hij Ei Ej Ecj Hj.
    assert (Li : (i < length clocks)%nat).
    { apply lookup_lt_Some in Ei. subst frames. rewrite length_run in Ei. exact Ei. }
    destruct (lookup_lt_is_Some_2 clocks i Li) as [ci Eci].
    rewrite (cakeSpin_run s0 c0 cs Hs N i ri ci Ei Eci).
    rewrite (cakeSpin_run s0 c0 cs Hs N j rj cj Ej Ecj).
    pose proof (nondecreasing_pairs c0 cs i j ci cj N Hij Eci Ecj) as Hc.
    pose proof (session_clock c0 cs j cj N Ecj) as Hj0.
    destruct (elapsed_cases c0 cj Hj0) as [[L E] | [L E]]; [| lra].
    apply spinAngle_mono; [apply clamp_mono; lra | lra].
Qed.

(** A session of three frames: when the third is drawn, 2.95 seconds after
    the first, the table is in place. *)
Lemma table_slides_in_before_the_cake_lands_witness :
  sessionStart initialScene /\ nondecreasing 0 [1; 2.95] /\
  tableZ (fst (tick true 2.95 (fst (tick true 1 (fst (tick true 0 initialScene))))))
  == TABLE_END_Z.
Proof.
  assert (N : nondecreasing 0 [1; 2.95]).
  { simpl. repeat split; apply Qle_bool_imp_le; reflexivity. }
  split; [exact sessionStart_mount |]. split; [exact N |].
  pose proof (table_slides_in_before_the_cake_lands initialScene 0 [1; 2.95]
                sessionStart_mount N) as H.
  cbv zeta in H. destruct H as [H _].
  destruct (H 2%nat (tick true 2.95 (fst (tick true 1 (fst (tick true 0 initialScene)))))
              2.95 eq_refl eq_refl) as (_ & _ & K & _).
  apply K. apply Qle_bool_imp_le. reflexivity.
Defined.

(** The same session a second later: the candle has left its start height
    and the cake is on the table. *)
Lemma candle_drops_once_the_cake_has_landed_witness :
  sessionStart initialScene /\ nondecreasing 0 [1; 4.5] /\
  candleY (fst (tick true 4.5 (fst (tick true 1 (fst (tick true 0 initialScene))))))
  <= candleY (fst (tick true 1 (fst (tick true 0 initialScene)))).
Proof.
  assert (N : nondecreasing 0 [1; 4.5]).
  { simpl. repeat split; apply Qle_bool_imp_le; reflexivity. }
  split; [exact sessionStart_mount |]. split; [exact N |].
  pose proof (candle_drops_once_the_cake_has_landed initialScene 0 [1; 4.5]
                sessionStart_mount N) as H.
  cbv zeta in H. destruct H as [_ H].
  apply (H 1%nat 2%nat (tick true 1 (fst (tick true 0 initialScene)))
           (tick true 4.5 (fst (tick true 1 (fst (tick true 0 initialScene))))));
    [lia | reflexivity | reflexivity].
Defined.

(** On the frame that ends the session the turn of the cake is back at
    0. *)
Lemma cake_turns_once_and_is_reset_witness :
  sessionStart initialScene /\ nondecreasing 0 [3; 5.2] /\
  cakeSpin (fst (tick true 5.2 (fst (tick true 3 (fst (tick true 0 initialScene))))))
  == 0.
Proof.
  assert (N : nondecreasing 0 [3; 5.2]).
  { simpl. repeat split; apply Qle_bool_imp_le; reflexivity. }
  split; [exact sessionStart_mount |]. split; [exact N |].
  pose proof (cake_turns_once_and_is_reset initialScene 0 [3; 5.2]
                sessionStart_mount N) as H.
  cbv zeta in H. destruct H as [H _].
  destruct (H 2%nat (tick true 5.2 (fst (tick true 3 (fst (tick true 0 initialScene)))))
              5.2 eq_refl eq_refl) as (_ & _ & _ & K).
  apply K. apply Qle_bool_imp_le. reflexivity.
Defined.

End TrackFacts.

(** ** The callbacks *)

Module CallbackFacts.

Import Timeline TimelineFacts.
Local Open Scope Q_scope.
Local Ltac lra := Lqa.lra.
Local Ltac nra := Lqa.nra.

Local Arguments clamp : simpl never.
Local Arguments Qltb : simpl never.
Local Arguments Qabs : simpl never.
Local Arguments Qminus : simpl never.

Lemma throttled_app (o : Q * Q) (e1 e2 : list Event) :
  throttled o e1 -> throttled (observed o e1) e2 -> throttled o (e1 ++ e2).
Proof.
  revert o. induction e1 as [| e e1 IH]; intros o H1 H2; [exact H2 |].
  destruct H1 as [He H1]. split; [exact He |]. apply IH; assumption.
Qed.

Lemma wellBehaved_andThen (a b : Action) :
  wellBehaved a -> wellBehaved b -> wellBehaved (a >> b).
Proof.
  intros Ha Hb s. destruct (Ha s) as (U1 & T1 & M1).
  destruct (Hb (fst (a s))) as (U2 & T2 & M2).
  rewrite andThen_snd, andThen_fst. split; [| split].
  - apply Forall_app. split; assumption.
  - apply throttled_app; [exact T1 |]. rewrite M1. exact T2.
  - rewrite observed_app, M1. exact M2.
Qed.

Lemma wellBehaved_upd (f : Scene -> Scene) :
  (forall s, signals (f s) = signals s) -> wellBehaved (upd f).
Proof.
  intros H s. split; [constructor |]. split; [exact I |].
  simpl. symmetry. apply H.
Qed.

Lemma wellBehaved_emitBackgroundOpacity (v : Q) : wellBehaved (emitBackgroundOpacity v).
Proof.
  intros s. unfold emitBackgroundOpacity.
  destruct (Qltb EMIT_EPSILON (Qabs (clamp v 0 1 - backgroundOpacityRef s))) eqn:E.
  - apply Qltb_true in E. split; [| split].
    + constructor; [| constructor]. apply clamp_range. lra.
    + split; [exact E | exact I].
    + reflexivity.
  - split; [constructor |]. split; [exact I | reflexivity].
Qed.

Lemma wellBehaved_emitEnvironmentProgress (v : Q) :
  wellBehaved (emitEnvironmentProgress v).
Proof.
  intros s. unfold emitEnvironmentProgress.
  destruct (Qltb EMIT_EPSILON (Qabs (clamp v 0 1 - environmentProgressRef s))) eqn:E.
  - apply Qltb_true in E. split; [| split].
    + constructor; [| constructor]. apply clamp_range. lra.
    + split; [exact E | exact I].
    + reflexivity.
  - split; [constructor |]. split; [exact I | reflexivity].
Qed.

Lemma wellBehaved_notifyCompletion : wellBehaved notifyCompletion.
Proof.
  intros s. unfold notifyCompletion. destruct (completionNotifiedRef s).
  - split; [constructor |]. split; [exact I | reflexivity].
  - split; [constructor; [exact I | constructor] |]. split; [split; exact I | reflexivity].
Qed.

Ltac behaved :=
  cbv zeta;
  repeat lazymatch goal with
         | |- wellBehaved (_ >> _) => apply wellBehaved_andThen
         | |- wellBehaved (emitBackgroundOpacity _) =>
             apply wellBehaved_emitBackgroundOpacity
         | |- wellBehaved (emitEnvironmentProgress _) =>
             apply wellBehaved_emitEnvironmentProgress
         | |- wellBehaved notifyCompletion => apply wellBehaved_notifyCompletion
         | |- wellBehaved (upd _) => apply wellBehaved_upd; intros; try reflexivity
         end.

Lemma wellBehaved_idleFrame : wellBehaved idleFrame.
Proof. unfold idleFrame. behaved. Qed.

Lemma wellBehaved_completedFrame : wellBehaved completedFrame.
Proof. unfold completedFrame. behaved. Qed.

Lemma wellBehaved_emitFade (t : Q) : wellBehaved (emitFade t).
Proof. unfold emitFade. destruct (Qltb t BACKGROUND_FADE_START); behaved. Qed.

Lemma wellBehaved_finish (t : Q) : wellBehaved (finish t).
Proof. unfold finish. destruct (Qgeb t totalAnimationTime); behaved. Qed.

Lemma wellBehaved_poses (t : Q) :
  wellBehaved (upd (poseCake t) >> upd (poseTable t) >> upd (poseCandle t)).
Proof.
  behaved. unfold poseCandle.
  destruct (Qgeb t CANDLE_DROP_START); reflexivity.
Qed.

Lemma wellBehaved_playingFrame (c : Q) : wellBehaved (playingFrame c).
Proof.
  intros s. unfold playingFrame.
  set (s0 := set_animationStart (Some (startReference c s)) s).
  set (t := clamp (c - startReference c s) 0 totalAnimationTime).
  change (signals s) with (signals s0).
  assert (W : wellBehaved (upd (poseCake t) >> upd (poseTable t) >> upd (poseCandle t)
                           >> emitFade t >> finish t)).
  { apply wellBehaved_andThen; [apply wellBehaved_andThen |];
      [apply wellBehaved_poses | apply wellBehaved_emitFade | apply wellBehaved_finish]. }
  apply W.
Qed.

Lemma wellBehaved_useFrame (m p : bool) (c : Q) : wellBehaved (useFrame m p c).
Proof.
  intros s. unfold useFrame. destruct m; cbn [negb].
  - rewrite <- (prime_signals s). destruct p; cbn [negb].
    + destruct (hasCompletedRef (prime s));
        [apply wellBehaved_completedFrame | apply wellBehaved_playingFrame].
    + apply wellBehaved_idleFrame.
  - split; [constructor |]. split; [exact I | reflexivity].
Qed.

Lemma wellBehaved_playFrames (fs : list (bool * bool * Q)) : wellBehaved (playFrames fs).
Proof.
  induction fs as [| [[m p] c] fs IH]; simpl.
  - apply wellBehaved_upd. reflexivity.
  - apply wellBehaved_andThen; [apply wellBehaved_useFrame | exact IH].
Qed.

(** X6. Whatever the frames are (mounted or not, playing or not, with any
    clock): every value handed to the two progress callbacks lies in the
    unit interval, every call carries a value more than 0.005 away from
    the value the same callback delivered before (at first, from what the
    refs hold), and when the frames are over the refs hold what was
    delivered last. *)
Theorem progress_callbacks_are_clamped_and_throttled
        (fs : list (bool * bool * Q)) (s : Scene) :
  Forall inUnit (snd (playFrames fs s)) /\
  throttled (signals s) (snd (playFrames fs s)) /\
  observed (signals s) (snd (playFrames fs s)) = signals (fst (playFrames fs s)).
Proof. apply wellBehaved_playFrames. Qed.

(** X7. A frame with [isPlaying = false] re-arms the controller, whatever
    state it was in: it invokes no completion callback and leaves the refs
    of a session start.  The session played next takes the clock of its
    own first frame as its start and invokes the completion callback at
    most once, and exactly once if one of its frames reaches the end of
    the animation. *)
Theorem pausing_rearms_the_session (s : Scene) (c c0 : Q) (cs : list Q) :
  let s1 := fst (tick false c s) in
  let frames := run true (c0 :: cs) s1 in
  sessionStart s1 /\
  completions (snd (tick false c s)) = 0%nat /\
  animationStartRef (fst (tick true c0 s1)) = Some c0 /\
  (completions (allEvents frames) <= 1)%nat /\
  ((exists c', In c' (c0 :: cs) /\ reachesEnd c0 c') ->
     completions (allEvents frames) = 1%nat).
Proof.
  intros s1 frames. destruct (tick_idle_flags c s) as [Hs C0]. fold s1 in Hs.
  split; [exact Hs |]. split; [exact C0 |].
  destruct (tick_first_flags c0 s1 Hs) as [F C].
  split; [apply flags_inv in F; apply F |].
  destruct (open_run_completions c0 cs _ F) as (I1 & I2 & _).
  pose proof (reachesEnd_start c0) as R0.
  subst frames. unfold allEvents in *. simpl run. simpl map. simpl concat.
  rewrite completions_app, C. simpl.
  split; [exact I1 |].
  intros (c' & [<- | Hin] & Hc); [tauto |]. apply I2. eauto.
Qed.

End CallbackFacts.

(** ** Loops and typed arrays *)

Module ThreeFacts.

Import Three.
Local Open Scope R_scope.

Lemma forRange_inv {St : Type} (P : St -> Prop) (body : nat -> St -> St)
      (count start : nat) (s : St) :
  (forall j t, (start <= j < start + count)%nat -> P t -> P (body j t)) ->
  P s -> P (forRange start count body s).
Proof.
  revert start s. induction count as [| n IH]; intros start s Hb Hs; simpl; [exact Hs |].
  apply IH.
  - intros j t Hj. apply Hb. lia.
  - apply Hb; [lia | exact Hs].
Qed.

Lemma forRange_ind {St : Type} (P : nat -> St -> Prop) (body : nat -> St -> St)
      (count start : nat) (s : St) :
  (forall j t, (start <= j < start + count)%nat -> P j t -> P (S j) (body j t)) ->
  P start s -> P (start + count)%nat (forRange start count body s).
Proof.
  revert start s. induction count as [| n IH]; intros start s Hb Hs; simpl.
  - rewrite Nat.add_0_r. exact Hs.
  - replace (start + S n)%nat with (S start + n)%nat by lia. apply IH.
    + intros j t Hj. apply Hb. lia.
    + apply Hb; [lia | exact Hs].
Qed.

Lemma forRange_split {St : Type} (body : nat -> St -> St) (n m start : nat) (s : St) :
  forRange start (n + m) body s = forRange (start + n) m body (forRange start n body s).
Proof.
  revert start s. induction n as [| n IH]; intros start s; simpl.
  - rewrite Nat.add_0_r. reflexivity.
  - rewrite IH. replace (S start + n)%nat with (start + S n)%nat by lia. reflexivity.
Qed.

(** The loop seen from iteration [i]: what ran before, iteration [i], and
    what runs after. *)
Lemma forRange_at {St : Type} (body : nat -> St -> St) (count i : nat) (s : St) :
  (i < count)%nat ->
  forRange 0 count body s
  = forRange (S i) (count - S i) body (body i (forRange 0 i body s)).
Proof.
  intros Hi. replace count with (i + S (count - S i))%nat at 1 by lia.
  rewrite forRange_split. simpl. reflexivity.
Qed.

Lemma aget_insert_eq (a : list R) (i : nat) (v : R) :
  (i < length a)%nat -> aget (<[i := v]> a) i = v.
Proof. intros H. unfold aget. rewrite nth_lookup, list_lookup_insert_eq by exact H. reflexivity. Qed.

Lemma aget_insert_ne (a : list R) (i j : nat) (v : R) :
  i <> j -> aget (<[i := v]> a) j = aget a j.
Proof. intros H. unfold aget. rewrite !nth_lookup, list_lookup_insert_ne by exact H. reflexivity. Qed.

Lemma Rmin_clamped (x : R) : Rmin (Rmin x MAX_STEP) MAX_STEP = Rmin x MAX_STEP.
Proof. unfold Rmin, MAX_STEP. repeat destruct (Rle_dec _ _); lra. Qed.

Lemma Rmin_step_bound (x : R) : Rmin x 0.05 <= MAX_STEP.
Proof. unfold Rmin, MAX_STEP. destruct (Rle_dec _ _); lra. Qed.

End ThreeFacts.

(** ** Ambient sparkle field *)

Module FallingSparklesFacts.

Import Three ThreeFacts FallingSparkles.
Local Open Scope R_scope.

Local Arguments forRange : simpl never.

Section WithRandom.

Variable random : nat -> R.
Hypothesis random_range : forall n, 0 <= random n < 1.

Variable dateNow : nat -> R.

Lemma moveParticle_buffers (delta : R) (i : nat) (f : Field) :
  length (positions (moveParticle random dateNow delta i f)) = length (positions f) /\
  colors (moveParticle random dateNow delta i f) = colors f /\
  velocities (moveParticle random dateNow delta i f) = velocities f.
Proof.
  unfold moveParticle. destruct (Rlt_dec _ _); simpl; rewrite !length_insert; auto.
Qed.

Lemma moveParticle_other (delta : R) (j i : nat) (f : Field) :
  i <> j ->
  particleY (moveParticle random dateNow delta j f) i = particleY f i.
Proof.
  intros H. unfold particleY, moveParticle.
  destruct (Rlt_dec _ _); simpl; rewrite !aget_insert_ne by lia; reflexivity.
Qed.

Lemma moveParticle_self (delta : R) (i : nat) (f : Field) :
  (i * 3 + 2 < length (positions f))%nat ->
  let y := particleY f i + fallSpeedY f i * delta in
  (y < BOTTOM_Y -> TOP_Y <= particleY (moveParticle random dateNow delta i f) i) /\
  (~ y < BOTTOM_Y -> particleY (moveParticle random dateNow delta i f) i = y).
Proof.
  intros L y. unfold particleY, moveParticle.
  set (p1 := <[(i * 3)%nat := _]> (positions f)).
  set (p2 := <[(i * 3 + 1)%nat := _]> p1).
  set (p3 := <[(i * 3 + 2)%nat := _]> p2).
  assert (E : aget p3 (i * 3 + 1) = y).
  { unfold p3. rewrite aget_insert_ne by lia.
    unfold p2. rewrite aget_insert_eq by (unfold p1; rewrite length_insert; lia).
    unfold p1. rewrite aget_insert_ne by lia. reflexivity. }
  rewrite E. destruct (Rlt_dec y BOTTOM_Y) as [Hy | Hy]; simpl.
  - split; [intros _ | tauto].
    rewrite aget_insert_ne by lia.
    rewrite aget_insert_eq
      by (rewrite length_insert; unfold p3, p2, p1; rewrite !length_insert; lia).
    pose proof (random_range (calls f + 1)). unfold TOP_Y. lra.
  - split; [tauto | intros _; exact E].
Qed.

Lemma loop_buffers (delta : R) (start count : nat) (f : Field) :
  length (positions (forRange start count (moveParticle random dateNow delta) f))
    = length (positions f) /\
  colors (forRange start count (moveParticle random dateNow delta) f) = colors f /\
  velocities (forRange start count (moveParticle random dateNow delta) f) = velocities f.
Proof.
  apply (forRange_inv (fun t => length (positions t) = length (positions f) /\
                                colors t = colors f /\ velocities t = velocities f)).
  - intros j t _ (L & C & V).
    destruct (moveParticle_buffers delta j t) as (L' & C' & V').
    rewrite L', C', V'. auto.
  - auto.
Qed.

Lemma loop_other (delta : R) (start count i : nat) (f : Field) :
  (i < start \/ start + count <= i)%nat ->
  particleY (forRange start count (moveParticle random dateNow delta) f) i
    = particleY f i.
Proof.
  intros H.
  apply (forRange_inv (fun t => particleY t i = particleY f i)).
  - intros j t Hj E. rewrite moveParticle_other by lia. exact E.
  - reflexivity.
Qed.

Lemma advance_buffers (isActive : bool) (delta : R) (f : Field) :
  length (positions (advance random dateNow isActive delta f)) = length (positions f) /\
  colors (advance random dateNow isActive delta f) = colors f /\
  velocities (advance random dateNow isActive delta f) = velocities f.
Proof.
  unfold advance. destruct isActive; cbn [negb]; [| cbn; auto].
  exact (loop_buffers delta 0 PARTICLE_COUNT
           (mkField (positions f) (colors f) (velocities f)
              (damp (opacity f) 0.6 2 delta) (calls f))).
Qed.

(** The height of particle [i] after an active frame: respawned at or
    above the top bound if the step took it below the lower bound, moved
    by its velocity otherwise. *)
Lemma advance_particle (delta : R) (i : nat) (f : Field) :
  poolSized f -> (i < PARTICLE_COUNT)%nat ->
  let y := particleY f i + fallSpeedY f i * delta in
  (y < BOTTOM_Y -> TOP_Y <= particleY (advance random dateNow true delta f) i) /\
  (~ y < BOTTOM_Y -> particleY (advance random dateNow true delta f) i = y).
Proof.
  intros (Lp & _ & _) Hi y. unfold advance. simpl negb. cbv iota.
  set (f0 := mkField _ _ _ _ _).
  rewrite (forRange_at _ PARTICLE_COUNT i f0 Hi).
  rewrite loop_other by lia.
  set (f1 := forRange 0 i (moveParticle random dateNow delta) f0).
  destruct (loop_buffers delta 0 i f0) as (L1 & _ & V1). fold f1 in L1, V1.
  assert (Y1 : particleY f1 i = particleY f i).
  { unfold f1. rewrite loop_other by lia. reflexivity. }
  assert (W1 : fallSpeedY f1 i = fallSpeedY f i).
  { unfold fallSpeedY. rewrite V1. reflexivity. }
  pose proof (moveParticle_self delta i f1) as M. cbv zeta in M.
  rewrite Y1, W1 in M. apply M.
  rewrite L1. unfold f0. simpl. rewrite Lp. lia.
Qed.

Lemma initParticle_buffers (i : nat) (f : Field) :
  length (positions (initParticle random i f)) = length (positions f) /\
  length (colors (initParticle random i f)) = length (colors f) /\
  length (velocities (initParticle random i f)) = length (velocities f).
Proof.
  unfold initParticle.
  destruct (Rlt_dec _ _); [| destruct (Rlt_dec _ _)];
    simpl; rewrite !length_insert; auto.
Qed.

Lemma initialField_sized : poolSized (initialField random).
Proof.
  unfold initialField.
  apply (forRange_inv poolSized).
  - intros j t _ (Lp & Lc & Lv).
    destruct (initParticle_buffers j t) as (Lp' & Lc' & Lv').
    unfold poolSized. rewrite Lp', Lc', Lv'. auto.
  - unfold poolSized. cbn [positions colors velocities].
    rewrite !length_replicate. auto.
Qed.

Lemma useFrame_sized (mounted isActive : bool) (rawDelta : R) (f : Field) :
  poolSized f -> poolSized (useFrame random dateNow mounted isActive rawDelta f).
Proof.
  intros (Lp & Lc & Lv). unfold useFrame. destruct mounted; cbn [negb]; [| repeat split; assumption].
  destruct (advance_buffers isActive (Rmin rawDelta 0.05) f) as (Lp' & Lc' & Lv').
  unfold poolSized. rewrite Lp', Lc', Lv'. auto.
Qed.

End WithRandom.

Lemma runFrames_sized (random : nat -> R) (frames : list Frame) (f : Field) :
  poolSized f -> poolSized (runFrames random frames f).
Proof.
  revert f. induction frames as [| [[[dateNow mounted] isActive] rawDelta] frames IH];
    intros f H; [exact H |].
  unfold runFrames in *. simpl. apply IH. apply useFrame_sized. exact H.
Qed.

(** C10. The sparkle pool keeps its 400 particles: the field is created
    with three buffers of 400 * 3 cells and every frame, whatever its
    flags and delta, returns buffers of the same length.  And in a frame
    that moves the particles, a particle whose step takes it below
    [BOTTOM_Y] ends that same frame at or above [TOP_Y]; so no particle is
    below [BOTTOM_Y] when the frame is over. *)
Theorem sparkle_pool_is_fixed_and_respawns_at_top
        (random : nat -> R) (dateNow : nat -> R) :
  (forall n, 0 <= random n < 1) ->
  poolSized (initialField random) /\
  (forall frames f, poolSized f -> poolSized (runFrames random frames f)) /\
  (forall rawDelta f i,
     poolSized f -> (i < PARTICLE_COUNT)%nat ->
     let delta := Rmin rawDelta 0.05 in
     let f' := useFrame random dateNow true true rawDelta f in
     (particleY f i + fallSpeedY f i * delta < BOTTOM_Y -> TOP_Y <= particleY f' i) /\
     BOTTOM_Y <= particleY f' i).
Proof.
  intros Hr. split; [apply initialField_sized |].
  split; [intros frames f; apply runFrames_sized |].
  intros rawDelta f i Hf Hi delta f'.
  destruct (advance_particle random Hr dateNow delta i f Hf Hi) as [Below Above].
  subst f'. unfold useFrame. cbn [negb]. fold delta.
  split; [exact Below |].
  destruct (Rlt_dec (particleY f i + fallSpeedY f i * delta) BOTTOM_Y) as [H | H].
  - specialize (Below H). unfold TOP_Y, BOTTOM_Y in *. lra.
  - rewrite (Above H). lra.
Qed.

(** A pool of particles lying at height -3, below the lower bound: after
    one frame the first of them is back at the top. *)
Lemma sparkle_pool_is_fixed_and_respawns_at_top_witness :
  (forall n : nat, 0 <= (fun _ : nat => 0) n < 1) /\
  TOP_Y <= particleY
             (useFrame (fun _ => 0) (fun _ => 0) true true 1
                (mkField (replicate (PARTICLE_COUNT * 3) (-3))
                         (replicate (PARTICLE_COUNT * 3) 1)
                         (replicate (PARTICLE_COUNT * 3) 0) 0 0)) 0.
Proof.
  assert (Hr : forall n : nat, 0 <= (fun _ : nat => 0) n < 1) by (intros n; lra).
  split; [exact Hr |].
  pose proof (sparkle_pool_is_fixed_and_respawns_at_top (fun _ => 0) (fun _ => 0) Hr) as H.
  destruct H as (_ & _ & H).
  destruct (H 1 (mkField (replicate (PARTICLE_COUNT * 3) (-3))
                         (replicate (PARTICLE_COUNT * 3) 1)
                         (replicate (PARTICLE_COUNT * 3) 0) 0 0) 0%nat) as [K _].
  - unfold poolSized. cbn [positions colors velocities].
    rewrite !length_replicate. auto.
  - unfold PARTICLE_COUNT. lia.
  - apply K. unfold particleY, fallSpeedY, aget, BOTTOM_Y. simpl. lra.
Defined.

End FallingSparklesFacts.

(** ** The sparkle field from its scatter on *)

Module SparkleFieldFacts.

Import Three FallingSparkles ThreeFacts FallingSparklesFacts.
Local Open Scope R_scope.

Local Arguments forRange : simpl never.
Local Arguments aget : simpl never.

Section WithRandom.

Variable random : nat -> R.
Hypothesis random_range : forall n, 0 <= random n < 1.

(** [initParticle j] writes the cells of particle [j] only. *)
Lemma initParticle_other (j c : nat) (f : Field) :
  (c < j * 3 \/ j * 3 + 3 <= c)%nat ->
  aget (positions (initParticle random j f)) c = aget (positions f) c /\
  aget (colors (initParticle random j f)) c = aget (colors f) c /\
  aget (velocities (initParticle random j f)) c = aget (velocities f) c.
Proof.
  intros H. unfold initParticle.
  destruct (Rlt_dec _ _); [| destruct (Rlt_dec _ _)];
    cbn [positions colors velocities]; rewrite !aget_insert_ne by lia; auto.
Qed.

Lemma initParticle_self (j : nat) (f : Field) :
  poolSized f -> (j < PARTICLE_COUNT)%nat ->
  let f' := initParticle random j f in
  inArea f' j /\ BOTTOM_Y <= particleY f' j < TOP_Y /\ warm f' j /\ falls f' j.
Proof.
  intros (Lp & Lc & Lv) Hj f'. unfold PARTICLE_COUNT in *.
  assert (In0 : forall (l : list R) a b c, length l = (400 * 3)%nat ->
            aget (<[(j * 3 + 2)%nat := c]> (<[(j * 3 + 1)%nat := b]> (<[(j * 3)%nat := a]> l)))
              (j * 3) = a).
  { intros l a b c L. rewrite !aget_insert_ne by lia. apply aget_insert_eq. lia. }
  assert (In1 : forall (l : list R) a b c, length l = (400 * 3)%nat ->
            aget (<[(j * 3 + 2)%nat := c]> (<[(j * 3 + 1)%nat := b]> (<[(j * 3)%nat := a]> l)))
              (j * 3 + 1) = b).
  { intros l a b c L. rewrite aget_insert_ne by lia. apply aget_insert_eq.
    rewrite length_insert. lia. }
  assert (In2 : forall (l : list R) a b c, length l = (400 * 3)%nat ->
            aget (<[(j * 3 + 2)%nat := c]> (<[(j * 3 + 1)%nat := b]> (<[(j * 3)%nat := a]> l)))
              (j * 3 + 2) = c).
  { intros l a b c L. apply aget_insert_eq. rewrite !length_insert. lia. }
  pose proof (random_range (calls f)) as R0.
  pose proof (random_range (calls f + 1)) as R1.
  pose proof (random_range (calls f + 2)) as R2.
  subst f'. unfold inArea, warm, falls, colorOf, particleX, particleY, particleZ,
    fallSpeedY, driftX, driftZ, initParticle.
  unfold AREA_X, AREA_Z, BOTTOM_Y, TOP_Y, FALL_SPEED_MIN, FALL_SPEED_MAX, DRIFT_SPEED.
  destruct (Rlt_dec (random (calls f + 3)) 0.4) as [G | G];
    [| destruct (Rlt_dec (random (calls f + 3)) 0.7) as [K | K]];
    cbn [positions colors velocities];
    rewrite ?In0, ?In1, ?In2 by assumption.
  - pose proof (random_range (calls f + 4)) as R4.
    pose proof (random_range (calls f + 5)) as R5.
    pose proof (random_range (calls f + 6)) as R6.
    pose proof (random_range (calls f + 6 + 1)) as R7.
    pose proof (random_range (calls f + 6 + 2)) as R8.
    repeat split; try lra; apply Rabs_le; lra.
  - pose proof (random_range (calls f + 4)) as R4.
    pose proof (random_range (calls f + 5)) as R5.
    pose proof (random_range (calls f + 6)) as R6.
    pose proof (random_range (calls f + 6 + 1)) as R7.
    pose proof (random_range (calls f + 6 + 2)) as R8.
    repeat split; try lra; apply Rabs_le; lra.
  - pose proof (random_range (calls f + 4)) as R4.
    pose proof (random_range (calls f + 4 + 1)) as R7.
    pose proof (random_range (calls f + 4 + 2)) as R8.
    repeat split; try lra; apply Rabs_le; lra.
Qed.

(** The readings of particle [i] depend on its three cells only. *)
Lemma particle_ext (f f' : Field) (i : nat) :
  (forall c, (i * 3 <= c < i * 3 + 3)%nat ->
     aget (positions f') c = aget (positions f) c /\
     aget (colors f') c = aget (colors f) c /\
     aget (velocities f') c = aget (velocities f) c) ->
  (inArea f i -> inArea f' i) /\
  particleY f' i = particleY f i /\
  (warm f i -> warm f' i) /\
  (falls f i -> falls f' i).
Proof.
  intros H.
  destruct (H (i * 3)%nat ltac:(lia)) as (P0 & C0 & V0).
  destruct (H (i * 3 + 1)%nat ltac:(lia)) as (P1 & C1 & V1).
  destruct (H (i * 3 + 2)%nat ltac:(lia)) as (P2 & C2 & V2).
  unfold inArea, warm, falls, colorOf, particleX, particleY, particleZ,
    fallSpeedY, driftX, driftZ.
  rewrite P0, P1, P2, C0, C1, C2, V0, V1, V2. auto.
Qed.

Lemma scatter_loop (n : nat) :
  (n <= PARTICLE_COUNT)%nat ->
  let f := forRange 0 n (initParticle random)
             (mkField (replicate (PARTICLE_COUNT * 3) 0)
                      (replicate (PARTICLE_COUNT * 3) 0)
                      (replicate (PARTICLE_COUNT * 3) 0) 0 0) in
  poolSized f /\
  forall i, (i < n)%nat ->
    inArea f i /\ BOTTOM_Y <= particleY f i < TOP_Y /\ warm f i /\ falls f i.
Proof.
  intros Hn.
  apply (forRange_ind
           (fun j f => poolSized f /\
              forall i, (i < j)%nat ->
                inArea f i /\ BOTTOM_Y <= particleY f i < TOP_Y /\ warm f i /\ falls f i)
           (initParticle random) n 0).
  - intros j t Hj (Sz & All). split.
    + destruct Sz as (Lp & Lc & Lv).
      destruct (initParticle_buffers random j t) as (Lp' & Lc' & Lv').
      unfold poolSized. rewrite Lp', Lc', Lv'. auto.
    + intros i Hi. destruct (Nat.eq_dec i j) as [-> | Ne].
      * apply initParticle_self; [exact Sz | lia].
      * destruct (All i ltac:(lia)) as (A & Y & W & F).
        destruct (particle_ext t (initParticle random j t) i) as (A' & Y' & W' & F').
        { intros c Hc. apply initParticle_other. lia. }
        rewrite Y'. auto.
  - split; [| intros i Hi; lia].
    unfold poolSized. cbn [positions colors velocities].
    rewrite !length_replicate. auto.
Qed.

Variable dateNow : nat -> R.

(** The height of particle [i] after its own step: [k] is the number of
    [Math.random()] calls made before. *)
Lemma moveParticle_height (delta : R) (i : nat) (f : Field) :
  (i * 3 + 2 < length (positions f))%nat ->
  let y := particleY f i + fallSpeedY f i * delta in
  particleY (moveParticle random dateNow delta i f) i
  = if Rlt_dec y BOTTOM_Y then TOP_Y + random (calls f + 1) * 2 else y.
Proof.
  intros L y. unfold particleY, moveParticle.
  set (p1 := <[(i * 3)%nat := _]> (positions f)).
  set (p2 := <[(i * 3 + 1)%nat := _]> p1).
  set (p3 := <[(i * 3 + 2)%nat := _]> p2).
  assert (E : aget p3 (i * 3 + 1) = y).
  { unfold p3. rewrite aget_insert_ne by lia.
    unfold p2. rewrite aget_insert_eq by (unfold p1; rewrite length_insert; lia).
    unfold p1. rewrite aget_insert_ne by lia. reflexivity. }
  rewrite E. destruct (Rlt_dec y BOTTOM_Y) as [Hy | Hy]; cbn [positions].
  - rewrite aget_insert_ne by lia.
    rewrite aget_insert_eq
      by (rewrite length_insert; unfold p3, p2, p1; rewrite !length_insert; lia).
    reflexivity.
  - exact E.
Qed.

Lemma advance_height (delta : R) (i : nat) (f : Field) :
  poolSized f -> (i < PARTICLE_COUNT)%nat ->
  let y := particleY f i + fallSpeedY f i * delta in
  exists k,
    particleY (advance random dateNow true delta f) i
    = if Rlt_dec y BOTTOM_Y then TOP_Y + random k * 2 else y.
Proof.
  intros (Lp & _ & _) Hi y. unfold advance. cbn [negb].
  set (f0 := mkField _ _ _ _ _).
  rewrite (forRange_at _ PARTICLE_COUNT i f0 Hi).
  rewrite loop_other by lia.
  set (f1 := forRange 0 i (moveParticle random dateNow delta) f0).
  destruct (loop_buffers random dateNow delta 0 i f0) as (L1 & _ & V1).
  fold f1 in L1, V1.
  assert (Y1 : particleY f1 i = particleY f i).
  { unfold f1. rewrite loop_other by lia. reflexivity. }
  assert (W1 : fallSpeedY f1 i = fallSpeedY f i).
  { unfold fallSpeedY. rewrite V1. reflexivity. }
  exists (calls f1 + 1)%nat.
  rewrite moveParticle_height.
  - rewrite Y1, W1. reflexivity.
  - rewrite L1. unfold f0. cbn [positions]. rewrite Lp. unfold PARTICLE_COUNT in *. lia.
Qed.

Lemma useFrame_band (mounted isActive : bool) (rawDelta : R) (f : Field) (i : nat) :
  poolSized f -> (i < PARTICLE_COUNT)%nat ->
  0 <= rawDelta -> fallSpeedY f i <= 0 ->
  inBand f i -> inBand (useFrame random dateNow mounted isActive rawDelta f) i.
Proof.
  intros Sz Hi Hd Hv B. unfold useFrame. destruct mounted; cbn [negb]; [| exact B].
  set (delta := Rmin rawDelta 0.05).
  assert (D : 0 <= delta) by (unfold delta, Rmin; destruct (Rle_dec _ _); lra).
  destruct isActive.
  - destruct (advance_height delta i f Sz Hi) as [k E]. cbv zeta in E.
    unfold inBand in *. rewrite E. unfold BOTTOM_Y, TOP_Y in *.
    destruct (Rlt_dec _ _) as [Lt | Ge].
    + pose proof (random_range k). lra.
    + assert (fallSpeedY f i * delta <= 0) by nra. lra.
  - exact B.
Qed.

Lemma moveParticle_opacity (delta : R) (i : nat) (f : Field) :
  opacity (moveParticle random dateNow delta i f) = opacity f.
Proof. unfold moveParticle. destruct (Rlt_dec _ _); reflexivity. Qed.

Lemma advance_opacity (isActive : bool) (delta : R) (f : Field) :
  opacity (advance random dateNow isActive delta f)
  = if isActive then damp (opacity f) 0.6 2 delta else damp (opacity f) 0 4 delta.
Proof.
  unfold advance. destruct isActive; cbn [negb]; [| reflexivity].
  set (f0 := mkField _ _ _ _ _).
  change (damp (opacity f) 0.6 2 delta) with (opacity f0).
  apply (forRange_inv (fun t => opacity t = opacity f0)); [| reflexivity].
  intros j t _ E. rewrite moveParticle_opacity. exact E.
Qed.

End WithRandom.

(** [MathUtils.damp] moves towards its target without passing it. *)
Lemma damp_between (x y lambda dt : R) :
  0 <= lambda -> 0 <= dt ->
  (x <= y -> x <= damp x y lambda dt <= y) /\
  (y <= x -> y <= damp x y lambda dt <= x).
Proof.
  intros Hl Hd. unfold damp, lerp.
  set (e := exp (- lambda * dt)).
  assert (E0 : 0 < e) by apply exp_pos.
  assert (E1 : e <= 1).
  { unfold e. rewrite <- exp_0. destruct (Req_dec (lambda * dt) 0) as [Z | NZ].
    - replace (- lambda * dt) with 0 by lra. lra.
    - left. apply exp_increasing. assert (0 <= lambda * dt) by nra. lra. }
  split; intros H; split; nra.
Qed.

Lemma clamped_delta_nonneg (rawDelta : R) : 0 <= rawDelta -> 0 <= Rmin rawDelta 0.05.
Proof. intros H. unfold Rmin. destruct (Rle_dec _ _); lra. Qed.

Lemma runFrames_cons (random : nat -> R) (fr : Frame) (frames : list Frame) (f : Field) :
  runFrames random (fr :: frames) f
  = runFrames random frames
      (useFrame random (fst (fst (fst fr))) (snd (fst (fst fr))) (snd (fst fr))
         (snd fr) f).
Proof. destruct fr as [[[d m] a] r]. reflexivity. Qed.

Lemma runFrames_band (random : nat -> R) (frames : list Frame) (f : Field) :
  (forall n, 0 <= random n < 1) ->
  Forall (fun fr => 0 <= rawDeltaOf fr) frames ->
  poolSized f ->
  (forall i, (i < PARTICLE_COUNT)%nat -> inBand f i /\ fallSpeedY f i <= 0) ->
  velocities (runFrames random frames f) = velocities f /\
  colors (runFrames random frames f) = colors f /\
  forall i, (i < PARTICLE_COUNT)%nat -> inBand (runFrames random frames f) i.
Proof.
  intros Hr. revert f. induction frames as [| fr frames IH]; intros f Hd Sz All.
  - split; [reflexivity |]. split; [reflexivity |]. intros i Hi. apply All. exact Hi.
  - rewrite runFrames_cons. destruct fr as [[[d m] a] r]. cbn [fst snd].
    apply Forall_cons in Hd. destruct Hd as [Hd0 Hd]. unfold rawDeltaOf in Hd0.
    cbn [snd] in Hd0.
    set (f1 := useFrame random d m a r f).
    assert (B1 : velocities f1 = velocities f /\ colors f1 = colors f).
    { unfold f1, useFrame. destruct m; cbn [negb]; [| auto].
      destruct (advance_buffers random d a (Rmin r 0.05) f) as (_ & C & V). auto. }
    destruct B1 as [V1 C1].
    destruct (IH f1 Hd) as (V & C & B).
    + apply useFrame_sized. exact Sz.
    + intros i Hi. destruct (All i Hi) as [Bi Vi]. split.
      * apply useFrame_band; assumption.
      * unfold fallSpeedY in *. rewrite V1. exact Vi.
    + rewrite V, C, V1, C1. auto.
Qed.

Lemma initialField_scattered (random : nat -> R) (i : nat) :
  (forall n, 0 <= random n < 1) ->
  (i < PARTICLE_COUNT)%nat ->
  inArea (initialField random) i /\
  BOTTOM_Y <= particleY (initialField random) i < TOP_Y /\
  warm (initialField random) i /\ falls (initialField random) i.
Proof.
  intros Hr Hi.
  pose proof (scatter_loop random Hr PARTICLE_COUNT (Nat.le_refl _)) as H.
  cbv zeta in H. destruct H as [_ All]. apply (All i Hi).
Qed.

(** X8. The field as scattered at mount, for [Math.random()] values in
    [0, 1): every particle is over the 20 by 20 area, between the despawn
    height and the spawn height, has one of the warm colours (full red,
    green at least 0.7, blue at least 0.6), falls at a speed between
    [FALL_SPEED_MIN] and [FALL_SPEED_MAX] and drifts at no more than half
    [DRIFT_SPEED] along each horizontal axis. *)
Theorem sparkles_are_scattered_over_the_area (random : nat -> R) (i : nat) :
  (forall n, 0 <= random n < 1) ->
  (i < PARTICLE_COUNT)%nat ->
  let f := initialField random in
  inArea f i /\ BOTTOM_Y <= particleY f i < TOP_Y /\ warm f i /\ falls f i.
Proof. intros Hr Hi f. apply initialField_scattered; assumption. Qed.

Lemma scattered_in_band (g : Field) (i : nat) :
  BOTTOM_Y <= particleY g i < TOP_Y -> falls g i ->
  inBand g i /\ fallSpeedY g i <= 0.
Proof.
  intros Y (F & _). unfold inBand. unfold FALL_SPEED_MIN in F. unfold TOP_Y in *.
  split; lra.
Qed.

Lemma same_buffers (g g' : Field) (i : nat) :
  velocities g' = velocities g -> colors g' = colors g ->
  (warm g i -> warm g' i) /\ (falls g i -> falls g' i).
Proof.
  intros V C. unfold warm, falls, colorOf, fallSpeedY, driftX, driftZ.
  rewrite V, C. auto.
Qed.

(** X9. From the field as scattered, through frames of any kind whose raw
    delta is not negative: the velocities and the colours are never
    written again, so every particle keeps its warm colour and keeps
    falling, and every particle stays between the despawn height
    [BOTTOM_Y] and the highest respawn height [TOP_Y + 2]. *)
Theorem sparkles_stay_in_the_band_and_keep_falling
        (random : nat -> R) (frames : list Frame) :
  (forall n, 0 <= random n < 1) ->
  Forall (fun fr => 0 <= rawDeltaOf fr) frames ->
  let f0 := initialField random in
  let f := runFrames random frames f0 in
  velocities f = velocities f0 /\ colors f = colors f0 /\
  forall i, (i < PARTICLE_COUNT)%nat -> inBand f i /\ warm f i /\ falls f i.
Proof.
  intros Hr Hd f0 f.
  assert (Start : forall i, (i < PARTICLE_COUNT)%nat ->
            inBand f0 i /\ fallSpeedY f0 i <= 0).
  { intros i Hi.
    destruct (initialField_scattered random i Hr Hi) as (_ & Y & _ & F).
    apply scattered_in_band; assumption. }
  destruct (runFrames_band random frames f0 Hr Hd (initialField_sized random) Start)
    as (V & C & B).
  split; [exact V |]. split; [exact C |].
  intros i Hi. split; [apply B; exact Hi |].
  destruct (initialField_scattered random i Hr Hi) as (_ & _ & W & F).
  destruct (same_buffers f0 f i V C) as [W' F'].
  split; [apply W'; exact W | apply F'; exact F].
Qed.

Lemma useFrame_opacity (random dateNow : nat -> R) (mounted isActive : bool)
      (rawDelta : R) (g : Field) :
  0 <= rawDelta -> 0 <= opacity g <= 0.6 ->
  0 <= opacity (useFrame random dateNow mounted isActive rawDelta g) <= 0.6 /\
  (mounted = true ->
   if isActive
   then opacity g <= opacity (useFrame random dateNow mounted isActive rawDelta g)
   else opacity (useFrame random dateNow mounted isActive rawDelta g) <= opacity g).
Proof.
  intros Hr Hg. unfold useFrame. destruct mounted; cbn [negb];
    [| split; [exact Hg | discriminate]].
  rewrite advance_opacity. pose proof (clamped_delta_nonneg rawDelta Hr) as D.
  destruct isActive.
  - destruct (damp_between (opacity g) 0.6 2 (Rmin rawDelta 0.05)) as [Up _]; lra.
  - destruct (damp_between (opacity g) 0 4 (Rmin rawDelta 0.05)) as [_ Down]; lra.
Qed.

Lemma runFrames_opacity (random : nat -> R) (frames : list Frame) (g : Field) :
  Forall (fun fr => 0 <= rawDeltaOf fr) frames ->
  0 <= opacity g <= 0.6 ->
  0 <= opacity (runFrames random frames g) <= 0.6.
Proof.
  revert g. induction frames as [| fr frames IH]; intros g Hf Hg; [exact Hg |].
  rewrite runFrames_cons. apply Forall_cons in Hf. destruct Hf as [Hf0 Hf].
  apply IH; [exact Hf |]. apply useFrame_opacity; [exact Hf0 | exact Hg].
Qed.

(** X10. The opacity of the sparkle material moves towards its target
    without passing it: in a frame with a raw delta that is not negative
    it stays between 0 and 0.6, does not fall while the field is active
    and does not rise while it is not; and it stays between 0 and 0.6
    through any such frames. *)
Theorem sparkle_opacity_moves_towards_its_target
        (random dateNow : nat -> R) (isActive : bool) (rawDelta : R) (f : Field) :
  0 <= rawDelta ->
  0 <= opacity f <= 0.6 ->
  let f' := useFrame random dateNow true isActive rawDelta f in
  0 <= opacity f' <= 0.6 /\
  (if isActive then opacity f <= opacity f' else opacity f' <= opacity f) /\
  (forall frames, Forall (fun fr => 0 <= rawDeltaOf fr) frames ->
     0 <= opacity (runFrames random frames f) <= 0.6).
Proof.
  intros Hd Ho f'.
  destruct (useFrame_opacity random dateNow true isActive rawDelta f Hd Ho) as [R M].
  split; [exact R |]. split; [apply M; reflexivity |].
  intros frames Hf. apply runFrames_opacity; assumption.
Qed.

Lemma initParticle_opacity (random : nat -> R) (i : nat) (f : Field) :
  opacity (initParticle random i f) = opacity f.
Proof.
  unfold initParticle. destruct (Rlt_dec _ _); [| destruct (Rlt_dec _ _)]; reflexivity.
Qed.

Lemma initialField_opacity (random : nat -> R) : opacity (initialField random) = 0.
Proof.
  unfold initialField.
  apply (forRange_inv (fun t => opacity t = 0)); [| reflexivity].
  intros j t _ E. rewrite initParticle_opacity. exact E.
Qed.

(** The first particle of the field scattered with every [Math.random()]
    call returning 0. *)
Lemma sparkles_are_scattered_over_the_area_witness :
  (forall n : nat, 0 <= (fun _ : nat => 0) n < 1) /\ (0 < PARTICLE_COUNT)%nat /\
  falls (initialField (fun _ => 0)) 0.
Proof.
  assert (Hr : forall n : nat, 0 <= (fun _ : nat => 0) n < 1) by (intros n; lra).
  assert (Hi : (0 < PARTICLE_COUNT)%nat) by (unfold PARTICLE_COUNT; lia).
  split; [exact Hr |]. split; [exact Hi |].
  pose proof (sparkles_are_scattered_over_the_area (fun _ => 0) 0 Hr Hi) as H.
  cbv zeta in H. apply H.
Defined.

(** The same field after a frame of 20 milliseconds. *)
Lemma sparkles_stay_in_the_band_and_keep_falling_witness :
  (forall n : nat, 0 <= (fun _ : nat => 0) n < 1) /\
  Forall (fun fr => 0 <= rawDeltaOf fr) [(fun _ : nat => 0, true, true, 0.02)] /\
  inBand (runFrames (fun _ => 0) [(fun _ : nat => 0, true, true, 0.02)]
            (initialField (fun _ => 0))) 0.
Proof.
  assert (Hr : forall n : nat, 0 <= (fun _ : nat => 0) n < 1) by (intros n; lra).
  assert (Hd : Forall (fun fr => 0 <= rawDeltaOf fr) [(fun _ : nat => 0, true, true, 0.02)]).
  { constructor; [| constructor]. unfold rawDeltaOf. cbn [snd]. lra. }
  split; [exact Hr |]. split; [exact Hd |].
  pose proof (sparkles_stay_in_the_band_and_keep_falling (fun _ => 0) _ Hr Hd) as H.
  cbv zeta in H. destruct H as (_ & _ & H).
  apply H. unfold PARTICLE_COUNT. lia.
Defined.

(** The first active frame of the field as mounted: the opacity leaves
    0. *)
Lemma sparkle_opacity_moves_towards_its_target_witness :
  0 <= 0.02 /\ 0 <= opacity (initialField (fun _ => 0)) <= 0.6 /\
  opacity (initialField (fun _ => 0))
  <= opacity (useFrame (fun _ => 0) (fun _ => 0) true true 0.02
                (initialField (fun _ => 0))).
Proof.
  assert (Hd : 0 <= 0.02) by lra.
  assert (Ho : 0 <= opacity (initialField (fun _ => 0)) <= 0.6).
  { rewrite initialField_opacity. lra. }
  split; [exact Hd |]. split; [exact Ho |].
  pose proof (sparkle_opacity_moves_towards_its_target (fun _ => 0) (fun _ => 0)
                true 0.02 (initialField (fun _ => 0)) Hd Ho) as H.
  cbv zeta in H. destruct H as (_ & H & _). exact H.
Defined.

End SparkleFieldFacts.

(** ** Firework simulation *)

Module FireworksFacts.

Import Three ThreeFacts Fireworks.
Local Open Scope R_scope.

Local Arguments forRange : simpl never.
Local Arguments set3 : simpl never.
Local Arguments aget : simpl never.
Local Arguments TOTAL_BURST : simpl never.
Local Arguments TOTAL_PARTICLES : simpl never.
Local Arguments TOTAL_TRAIL : simpl never.

(** *** Footprints *)

Lemma footprint_refl (j : nat) (d : FireworkData) : footprint j d d.
Proof. unfold footprint. repeat split; reflexivity. Qed.

Lemma footprint_trans (j : nat) (d1 d2 d3 : FireworkData) :
  footprint j d1 d2 -> footprint j d2 d3 -> footprint j d1 d3.
Proof.
  intros ((A1 & A2 & A3 & A4 & A5 & A6 & A7) & S1 & G1)
         ((B1 & B2 & B3 & B4 & B5 & B6 & B7) & S2 & G2).
  split; [repeat split; congruence |]. split.
  - intros s Hs. rewrite (S2 s Hs). apply S1. exact Hs.
  - intros i Hi. destruct (G1 i Hi) as [E1 E2]. destruct (G2 i Hi) as [F1 F2].
    split; congruence.
Qed.

Lemma footprint_sized (j : nat) (d d' : FireworkData) :
  footprint j d d' -> dataSized d -> dataSized d'.
Proof.
  intros ((A1 & A2 & A3 & A4 & A5 & A6 & A7) & _) (B1 & B2 & B3 & B4 & B5 & B6 & B7).
  unfold dataSized. rewrite A1, A2, A3, A4, A5, A6, A7. repeat split; assumption.
Qed.

Lemma length_set3 (idx3 : nat) (a b c : R) (l : list R) :
  length (set3 idx3 a b c l) = length l.
Proof. unfold set3. rewrite !length_insert. reflexivity. Qed.

Ltac len_simpl := repeat (rewrite length_set3 || rewrite length_insert).

Lemma get3_set3 (idx3 : nat) (a b c : R) (l : list R) :
  (idx3 + 2 < length l)%nat -> get3 (set3 idx3 a b c l) idx3 = (a, b, c).
Proof.
  intros H. unfold get3, set3.
  rewrite (aget_insert_ne _ (idx3 + 2) idx3) by lia.
  rewrite (aget_insert_ne _ (idx3 + 1) idx3) by lia.
  rewrite aget_insert_eq by lia.
  rewrite (aget_insert_ne _ (idx3 + 2) (idx3 + 1)) by lia.
  rewrite aget_insert_eq by (rewrite length_insert; lia).
  rewrite aget_insert_eq by (rewrite !length_insert; lia).
  reflexivity.
Qed.

Lemma get3_set3_other (idx3 jdx3 : nat) (a b c : R) (l : list R) :
  (idx3 + 2 < jdx3 \/ jdx3 + 2 < idx3)%nat ->
  get3 (set3 idx3 a b c l) jdx3 = get3 l jdx3.
Proof.
  intros H. unfold get3, set3. rewrite !aget_insert_ne by lia. reflexivity.
Qed.

Lemma footprint_trailParticle (random : nat -> R) (s : nat) (shell : ShellState)
      (t : nat) (st : Sim) :
  footprint s (fst st) (fst (trailParticle random s shell t st)).
Proof.
  destruct st as [d k]. unfold trailParticle. cbn.
  unfold footprint. cbn. len_simpl.
  repeat split; reflexivity.
Qed.

Lemma footprint_hideTrailParticle (s t : nat) (d : FireworkData) :
  footprint s d (hideTrailParticle s t d).
Proof.
  unfold hideTrailParticle, footprint. cbn. rewrite !length_insert.
  repeat split; reflexivity.
Qed.

Lemma footprint_burstParticle (random : nat -> R) (s : nat) (shell : ShellState)
      (p : nat) (st : Sim) :
  (p < PARTICLES_PER_SHELL)%nat ->
  footprint s (fst st) (fst (burstParticle random s shell p st)).
Proof.
  intros Hp. destruct st as [d k]. unfold burstParticle.
  destruct (burstVelocity _ _ _) as [[v0 v1] v2].
  destruct (colorAt _ _) as [[c0 c1] c2]. cbn.
  unfold footprint. cbn. len_simpl.
  split; [repeat split; reflexivity |]. split; [reflexivity |].
  intros i Hi. unfold inSlice in Hi.
  rewrite aget_insert_ne by lia. rewrite aget_insert_ne by lia. auto.
Qed.

Lemma footprint_fadeParticle (random : nat -> R) (delta : R) (s : nat)
      (shell : ShellState) (p : nat) (st : Fade) :
  (p < PARTICLES_PER_SHELL)%nat ->
  footprint s (fst (fst st)) (fst (fst (fadeParticle random delta s shell p st))) /\
  lifetimes (fst (fst (fadeParticle random delta s shell p st)))
    = lifetimes (fst (fst st)) /\
  shells (fst (fst (fadeParticle random delta s shell p st))) = shells (fst (fst st)).
Proof.
  intros Hp. destruct st as [[d a] k]. unfold fadeParticle. cbn.
  destruct (Rgt_dec _ _); [| destruct (colorAt _ _) as [[c0 c1] c2]]; cbn;
    (split; [| split; reflexivity]);
    unfold footprint; cbn; len_simpl;
    (split; [repeat split; reflexivity |]); (split; [reflexivity |]);
    intros i Hi; unfold inSlice in Hi; rewrite aget_insert_ne by lia; auto.
Qed.

Lemma footprint_set_shell (s : nat) (sh : ShellState) (d : FireworkData) :
  footprint s d (set_shells (<[s := sh]> (shells d)) d).
Proof.
  unfold footprint. cbn. rewrite length_insert.
  split; [repeat split; reflexivity |]. split; [| auto].
  intros j Hj. apply list_lookup_insert_ne. auto.
Qed.

(** *** Bursting *)

Ltac sizes :=
  unfold dataSized, owned, inSlice, TOTAL_PARTICLES, TOTAL_BURST, TOTAL_TRAIL,
    MAX_SHELLS, PARTICLES_PER_SHELL, TRAIL_PARTICLES_PER_SHELL in *.

Lemma burstParticle_calls (random : nat -> R) (s : nat) (shell : ShellState)
      (p : nat) (d : FireworkData) (k : nat) :
  snd (burstParticle random s shell p (d, k)) = (k + 6)%nat /\
  shells (fst (burstParticle random s shell p (d, k))) = shells d.
Proof.
  unfold burstParticle.
  destruct (burstVelocity _ _ _) as [[v0 v1] v2].
  destruct (colorAt _ _) as [[c0 c1] c2]. split; reflexivity.
Qed.

Lemma burstParticle_self (random : nat -> R) (s : nat) (shell : ShellState)
      (p : nat) (d : FireworkData) (k : nat) :
  dataSized d -> (s < MAX_SHELLS)%nat -> (p < PARTICLES_PER_SHELL)%nat ->
  particleAt (fst (burstParticle random s shell p (d, k))) (owned s p)
    = spawned random k shell.
Proof.
  intros (L1 & L2 & L3 & L4 & L5 & L6 & L7) Hs Hp.
  unfold burstParticle, spawned, particleAt, owned.
  destruct (burstVelocity _ _ _) as [[v0 v1] v2].
  destruct (colorAt _ _) as [[c0 c1] c2]. cbn.
  rewrite !get3_set3 by (sizes; lia).
  rewrite !aget_insert_eq by (sizes; lia).
  reflexivity.
Qed.

Lemma burstParticle_other (random : nat -> R) (s : nat) (shell : ShellState)
      (p i : nat) (d : FireworkData) (k : nat) :
  i <> owned s p ->
  particleAt (fst (burstParticle random s shell p (d, k))) i = particleAt d i.
Proof.
  intros Hi. unfold burstParticle, particleAt, owned in *.
  destruct (burstVelocity _ _ _) as [[v0 v1] v2].
  destruct (colorAt _ _) as [[c0 c1] c2]. cbn.
  rewrite !get3_set3_other by lia.
  rewrite !aget_insert_ne by lia.
  reflexivity.
Qed.

(** The whole burst of shell [s]: particle [p] of its slice is the one
    spawned with the calls [k + 6 p] to [k + 6 p + 5]; everything outside
    the slice is as before. *)
Lemma burstShell_spec (random : nat -> R) (s : nat) (shell : ShellState)
      (d : FireworkData) (k : nat) :
  dataSized d -> (s < MAX_SHELLS)%nat ->
  let r := burstShell random s shell (d, k) in
  footprint s d (fst r) /\
  shells (fst r) = shells d /\
  snd r = (k + 6 * PARTICLES_PER_SHELL)%nat /\
  (forall p, (p < PARTICLES_PER_SHELL)%nat ->
     particleAt (fst r) (owned s p) = spawned random (k + 6 * p) shell) /\
  (forall i, ~ inSlice s i -> particleAt (fst r) i = particleAt d i).
Proof.
  intros Hd Hs r. subst r. unfold burstShell.
  pose (P := fun (j : nat) (t : Sim) =>
    footprint s d (fst t) /\
    shells (fst t) = shells d /\
    snd t = (k + 6 * j)%nat /\
    (forall p, (p < j)%nat ->
       particleAt (fst t) (owned s p) = spawned random (k + 6 * p) shell) /\
    (forall i, ~ inSlice s i -> particleAt (fst t) i = particleAt d i)).
  assert (H : P (0 + PARTICLES_PER_SHELL)%nat
                (forRange 0 PARTICLES_PER_SHELL (burstParticle random s shell) (d, k))).
  { apply (forRange_ind P).
    - intros j [dj kj] Hj (F & Sh & K & Own & Out). cbn [fst snd] in *. subst kj.
      pose proof (footprint_sized s d dj F Hd) as Hdj.
      destruct (burstParticle_calls random s shell j dj (k + 6 * j)) as [K' Sh'].
      unfold P. split; [| split; [| split; [| split]]].
      + apply (footprint_trans s d dj); [exact F |].
        apply (footprint_burstParticle random s shell j (dj, (k + 6 * j)%nat)). lia.
      + rewrite Sh'. exact Sh.
      + rewrite K'. lia.
      + intros p Hp. destruct (Nat.eq_dec p j) as [-> | Hne].
        * apply burstParticle_self; [exact Hdj | exact Hs | lia].
        * rewrite burstParticle_other by (unfold owned; lia). apply Own. lia.
      + intros i Hi. rewrite burstParticle_other by (sizes; lia). apply Out. exact Hi.
    - unfold P. cbn [fst snd]. split; [apply footprint_refl |].
      split; [reflexivity |]. split; [lia |]. split; [intros p Hp; lia | auto]. }
  destruct H as (F & Sh & K & Own & Out).
  split; [exact F |]. split; [exact Sh |]. split; [exact K |]. split; assumption.
Qed.

Lemma hideParticle_sized (i : nat) (d : FireworkData) :
  dataSized d -> dataSized (hideParticle i d).
Proof.
  unfold dataSized, hideParticle. cbn. len_simpl. auto.
Qed.

Lemma initialData_sized : dataSized initialData.
Proof.
  unfold initialData. apply (forRange_inv dataSized).
  - intros j t _. apply hideParticle_sized.
  - unfold dataSized. cbn [positions velocities colors sizes ages lifetimes shells].
    rewrite !length_replicate. repeat split; reflexivity.
Qed.

(** *** The drawn quantities *)

Lemma floor_lt (v : R) (n : nat) : 0 <= v < INR n -> (floor v < n)%nat.
Proof.
  intros [H0 H1]. unfold floor.
  destruct (base_Int_part v) as [Lo Hi].
  assert (A : (-1 < Int_part v)%Z) by (apply lt_IZR; lra).
  assert (B : (Int_part v < Z.of_nat n)%Z).
  { apply lt_IZR. rewrite <- INR_IZR_INZ. lra. }
  lia.
Qed.

Lemma colorAt_in (palette : list Color) (u : R) :
  0 <= u < 1 -> palette <> [] ->
  In (colorAt palette (floor (u * INR (length palette)))) palette.
Proof.
  intros Hu Hp. unfold colorAt. apply nth_In. apply floor_lt.
  assert (L : 0 < INR (length palette)).
  { apply lt_0_INR. destruct palette; [congruence | simpl; lia]. }
  split; nra.
Qed.

Lemma sin_quarter_turn (theta : R) : sin (theta + PI / 2) = cos theta.
Proof. rewrite Rplus_comm. symmetry. apply cos_sin. Qed.

Lemma acos_minus_one : acos (-1) = PI.
Proof. replace (-1) with (- (1)) by lra. rewrite acos_opp, acos_1. lra. Qed.

(** With every [Math.random()] call returning 0: theta = 0, phi = pi and
    the lowest speed. *)
Lemma burstVelocity_all_zero :
  burstVelocity (0 * PI * 2) (acos (0 * 2 - 1))
    (BURST_SPEED_MIN + 0 * (BURST_SPEED_MAX - BURST_SPEED_MIN)) = (0, -1, 0).
Proof.
  unfold burstVelocity, BURST_SPEED_MIN, BURST_SPEED_MAX.
  replace (0 * PI * 2) with 0 by lra.
  replace (0 * 2 - 1) with (-1) by lra.
  rewrite acos_minus_one, sin_PI, cos_PI. f_equal; [f_equal |]; lra.
Qed.

Lemma sphere_norm (theta phi speed : R) :
  (sin phi * cos theta * speed) * (sin phi * cos theta * speed)
  + (sin phi * sin theta * speed) * (sin phi * sin theta * speed)
  + (cos phi * speed) * (cos phi * speed) = speed * speed.
Proof.
  pose proof (sin2_cos2 phi) as P. pose proof (sin2_cos2 theta) as T.
  unfold Rsqr in *.
  replace ((sin phi * cos theta * speed) * (sin phi * cos theta * speed)
           + (sin phi * sin theta * speed) * (sin phi * sin theta * speed)
           + (cos phi * speed) * (cos phi * speed))
    with (speed * speed
          * (sin phi * sin phi * (sin theta * sin theta + cos theta * cos theta)
             + cos phi * cos phi)) by ring.
  rewrite T. replace (sin phi * sin phi * 1 + cos phi * cos phi) with 1 by lra. ring.
Qed.

Lemma not_spherical : ~ sphericalBurst (0, -1, 0).
Proof.
  intros (theta & phi & speed & [Lo Hi] & E).
  injection E as E1 E2 E3.
  pose proof (sphere_norm theta phi speed) as N.
  rewrite <- E1, <- E2, <- E3 in N.
  unfold BURST_SPEED_MIN in Lo. nra.
Qed.

(** The burst of a shell, launched and burst while every
    [Math.random()] call returns 0: the velocity written for its first
    particle is (0, -1, 0), of length 1, which no unit vector scaled by a
    speed of at least [BURST_SPEED_MIN] gives. *)
Lemma burst_velocity_is_not_spherical :
  p_velocity
    (particleAt
       (fst (burstShell (fun _ => 0) 0
               (launchShell (fun _ => 0) 0 (mkVector3 (-10) 6 0) initShell)
               (initialData, 5%nat)))
       (owned 0 0)) = (0, -1, 0) /\
  ~ sphericalBurst
      (p_velocity
         (particleAt
            (fst (burstShell (fun _ => 0) 0
                    (launchShell (fun _ => 0) 0 (mkVector3 (-10) 6 0) initShell)
                    (initialData, 5%nat)))
            (owned 0 0))).
Proof.
  assert (Hs : (0 < MAX_SHELLS)%nat) by (unfold MAX_SHELLS; lia).
  assert (Hp : (0 < PARTICLES_PER_SHELL)%nat) by (unfold PARTICLES_PER_SHELL; lia).
  destruct (burstShell_spec (fun _ => 0) 0
              (launchShell (fun _ => 0) 0 (mkVector3 (-10) 6 0) initShell)
              initialData 5 initialData_sized Hs) as (_ & _ & _ & Own & _).
  rewrite (Own 0%nat Hp). unfold spawned. cbn [p_velocity].
  rewrite burstVelocity_all_zero. split; [reflexivity | exact not_spherical].
Qed.

(** Line 131: the third component is the first one again. *)
Lemma burstVelocity_planar (theta phi speed : R) :
  snd (burstVelocity theta phi speed) = fst (fst (burstVelocity theta phi speed)).
Proof. unfold burstVelocity. cbn [fst snd]. rewrite sin_quarter_turn. reflexivity. Qed.

(** With the draws 0, 1/2 and 0: theta = 0, phi = pi / 2 and the lowest
    speed. *)
Lemma burstVelocity_sidewaysDraws :
  burstVelocity (0 * PI * 2) (acos (0.5 * 2 - 1))
    (BURST_SPEED_MIN + 0 * (BURST_SPEED_MAX - BURST_SPEED_MIN)) = (2, 0, 2).
Proof.
  unfold burstVelocity, BURST_SPEED_MIN, BURST_SPEED_MAX.
  replace (0 * PI * 2) with 0 by lra.
  replace (0.5 * 2 - 1) with 0 by lra.
  rewrite acos_0, Rplus_0_l, sin_PI2, cos_PI2, sin_0, cos_0.
  f_equal; [f_equal |]; lra.
Qed.

Lemma sphereVelocity_sidewaysDraws :
  sphereVelocity (0 * PI * 2) (acos (0.5 * 2 - 1))
    (BURST_SPEED_MIN + 0 * (BURST_SPEED_MAX - BURST_SPEED_MIN)) = (2, 0, 0).
Proof.
  unfold sphereVelocity, BURST_SPEED_MIN, BURST_SPEED_MAX.
  replace (0 * PI * 2) with 0 by lra.
  replace (0.5 * 2 - 1) with 0 by lra.
  rewrite acos_0, sin_PI2, cos_PI2, sin_0, cos_0.
  f_equal; [f_equal |]; lra.
Qed.

(** C8 on the code.  The burst that the source announces as spherical is
    planar: for every shell, every particle and every sequence of
    [Math.random()] values, the third component of the velocity written
    by [burstShell] is its first component again, because line 131 takes
    the sine of [theta + pi / 2] where the point of the sphere has the
    cosine of [phi].  With the draws 0, 1/2, 0 (theta = 0, phi = pi / 2,
    speed 2) the first particle of a burst gets the velocity (2, 0, 2),
    where the speed times the point of the unit sphere is (2, 0, 0); and
    (2, 0, 2), of length 2 sqrt 2, is the speed 2 times no point of the
    unit sphere at all. *)
Theorem burst_is_planar_not_spherical :
  (forall random s p k shell d,
     dataSized d -> (s < MAX_SHELLS)%nat -> (p < PARTICLES_PER_SHELL)%nat ->
     let v := p_velocity
                (particleAt (fst (burstShell random s shell (d, k))) (owned s p)) in
     snd v = fst (fst v)) /\
  let theta := sidewaysDraws 0 * PI * 2 in
  let phi := acos (sidewaysDraws 1 * 2 - 1) in
  let speed := BURST_SPEED_MIN + sidewaysDraws 2 * (BURST_SPEED_MAX - BURST_SPEED_MIN) in
  let v := p_velocity
             (particleAt (fst (burstShell sidewaysDraws 0 initShell (initialData, 0%nat)))
                (owned 0 0)) in
  v = (2, 0, 2) /\ sphereVelocity theta phi speed = (2, 0, 0) /\
  v <> sphereVelocity theta phi speed /\
  ~ (exists theta' phi', v = sphereVelocity theta' phi' speed).
Proof.
  split.
  - intros random s p k shell d Hd Hs Hp v. subst v.
    destruct (burstShell_spec random s shell d k Hd Hs) as (_ & _ & _ & Own & _).
    rewrite (Own p Hp). unfold spawned. cbn [p_velocity].
    apply burstVelocity_planar.
  - intros theta phi speed v.
    assert (Hs : (0 < MAX_SHELLS)%nat) by (unfold MAX_SHELLS; lia).
    assert (Hp : (0 < PARTICLES_PER_SHELL)%nat) by (unfold PARTICLES_PER_SHELL; lia).
    assert (Ev : v = (2, 0, 2)).
    { subst v.
      destruct (burstShell_spec sidewaysDraws 0 initShell initialData 0 initialData_sized Hs)
        as (_ & _ & _ & Own & _).
      rewrite (Own 0%nat Hp). unfold spawned. cbn [p_velocity].
      change (sidewaysDraws (0 + 6 * 0)) with 0.
      change (sidewaysDraws (0 + 6 * 0 + 1)) with 0.5.
      change (sidewaysDraws (0 + 6 * 0 + 2)) with 0.
      apply burstVelocity_sidewaysDraws. }
    assert (Es : sphereVelocity theta phi speed = (2, 0, 0)).
    { subst theta phi speed. change (sidewaysDraws 0) with 0. change (sidewaysDraws 1) with 0.5.
      change (sidewaysDraws 2) with 0. apply sphereVelocity_sidewaysDraws. }
    split; [exact Ev |]. split; [exact Es |]. split.
    + rewrite Ev, Es. intros E. injection E as E. lra.
    + intros (theta' & phi' & E). rewrite Ev in E. unfold sphereVelocity in E.
      injection E as E1 E2 E3.
      pose proof (sphere_norm theta' phi' speed) as N.
      rewrite <- E1, <- E2, <- E3 in N.
      assert (Sp : speed = 2).
      { subst speed. change (sidewaysDraws 2) with 0.
        unfold BURST_SPEED_MIN, BURST_SPEED_MAX. lra. }
      rewrite Sp in N. lra.
Qed.

(** X11. The particles a burst writes, for [Math.random()] values in
    [0, 1).  The burst of shell [s] draws six random numbers for each of
    its 80 particles and leaves the shells as they are.  Each particle of
    the slice of [s] starts at the position of the shell with age 0, below
    its lifetime, which lies in [BURST_LIFETIME_MIN, BURST_LIFETIME_MAX);
    its colour is an entry of the shell's palette and its size lies in
    [0.6, 1.4) times [SPARKLE_SIZE]. *)
Theorem burst_particles_start_at_the_shell
        (random : nat -> R) (s k : nat) (shell : ShellState) (d : FireworkData) :
  (forall n, 0 <= random n < 1) ->
  dataSized d -> (s < MAX_SHELLS)%nat ->
  let r := burstShell random s shell (d, k) in
  snd r = (k + 6 * PARTICLES_PER_SHELL)%nat /\
  shells (fst r) = shells d /\
  forall p, (p < PARTICLES_PER_SHELL)%nat ->
    let q := particleAt (fst r) (owned s p) in
    p_position q = (x shell, riseY shell, z shell) /\
    p_age q = 0 /\ p_age q < p_lifetime q /\
    BURST_LIFETIME_MIN <= p_lifetime q < BURST_LIFETIME_MAX /\
    SPARKLE_SIZE * 0.6 <= p_size q < SPARKLE_SIZE * 1.4 /\
    (palette shell <> [] -> In (p_color q) (palette shell)).
Proof.
  intros Hr Hd Hs r.
  destruct (burstShell_spec random s shell d k Hd Hs) as (_ & Sh & Ca & Own & _).
  fold r in Sh, Ca, Own.
  split; [exact Ca |]. split; [exact Sh |].
  intros p Hp q. subst q. rewrite (Own p Hp). unfold spawned.
  cbn [p_position p_color p_size p_lifetime p_age].
  pose proof (Hr (k + 6 * p + 3)%nat) as R3.
  pose proof (Hr (k + 6 * p + 4)%nat) as R4. pose proof (Hr (k + 6 * p + 5)%nat) as R5.
  unfold SPARKLE_SIZE, BURST_LIFETIME_MIN, BURST_LIFETIME_MAX.
  split; [reflexivity |]. split; [reflexivity |]. split; [lra |].
  split; [lra |]. split; [lra |].
  intros Hne. apply colorAt_in; assumption.
Qed.

(** The burst of shell 0 of the pool as allocated, with every
    [Math.random()] call returning 0. *)
Lemma burst_particles_start_at_the_shell_witness :
  (forall n : nat, 0 <= (fun _ : nat => 0) n < 1) /\
  dataSized initialData /\ (0 < MAX_SHELLS)%nat /\
  snd (burstShell (fun _ => 0) 0 initShell (initialData, 0%nat))
  = (0 + 6 * PARTICLES_PER_SHELL)%nat.
Proof.
  assert (Hr : forall n : nat, 0 <= (fun _ : nat => 0) n < 1) by (intros n; lra).
  assert (Hs : (0 < MAX_SHELLS)%nat) by (unfold MAX_SHELLS; lia).
  split; [exact Hr |]. split; [exact initialData_sized |]. split; [exact Hs |].
  pose proof (burst_particles_start_at_the_shell (fun _ => 0) 0 0 initShell
                initialData Hr initialData_sized Hs) as H.
  cbv zeta in H. destruct H as (H & _). exact H.
Defined.

(** *** Launching *)

Section Launching.

Variable random : nat -> R.
Variable baseOrigin : Vector3.

Lemma launchShell_rising (k : nat) (sh : ShellState) :
  active (launchShell random k baseOrigin sh) = true /\
  phase (launchShell random k baseOrigin sh) = rising.
Proof. split; reflexivity. Qed.

(** The timer's loop launches the first inactive shell, if there is one. *)
Lemma launchLoop_one (shs : list ShellState) (k : nat) :
  length shs = MAX_SHELLS ->
  launchLoop random baseOrigin 1 shs k
  = match list_find (fun sh => active sh = false) shs with
    | Some (i, sh) =>
        (<[i := launchShell random k baseOrigin sh]> shs, 1%nat, (k + 5)%nat)
    | None => (shs, 0%nat, k)
    end.
Proof.
  intros L. unfold launchLoop.
  pose (P := fun (j : nat) (st : Launch) =>
    (st = (shs, 0%nat, k) /\
     forall i sh, (i < j)%nat -> shs !! i = Some sh -> active sh = true) \/
    (exists i sh, (i < j)%nat /\ shs !! i = Some sh /\ active sh = false /\
       (forall i' sh', (i' < i)%nat -> shs !! i' = Some sh' -> active sh' = true) /\
       st = (<[i := launchShell random k baseOrigin sh]> shs, 1%nat, (k + 5)%nat))).
  assert (H : P (0 + MAX_SHELLS)%nat
                (forRange 0 MAX_SHELLS (volleyStep random baseOrigin 1) (shs, 0%nat, k))).
  { apply (forRange_ind P).
    - intros j st Hj [[-> Act] | (i & sh & Hi & Ei & Ai & Bi & ->)].
      + unfold volleyStep. cbn [Nat.ltb Nat.leb].
        destruct (shs !! j) as [sh |] eqn:Ej.
        * destruct (active sh) eqn:Aj.
          -- left. split; [reflexivity |]. intros i sh' Hi Ei.
             destruct (Nat.eq_dec i j) as [-> | Hne]; [congruence |].
             apply (Act i sh'); [lia | exact Ei].
          -- right. exists j, sh. repeat split; try assumption; try lia.
        * apply lookup_ge_None in Ej. lia.
      + right. exists i, sh. unfold volleyStep. cbn [Nat.ltb Nat.leb].
        repeat split; try assumption; lia.
    - left. split; [reflexivity | intros i sh Hi; lia]. }
  destruct H as [[-> Act] | (i & sh & Hi & Ei & Ai & Bi & ->)].
  - assert (N : list_find (fun sh => active sh = false) shs = None).
    { apply list_find_None, Forall_lookup. intros i sh Ei.
      rewrite (Act i sh); [discriminate | | exact Ei].
      apply lookup_lt_Some in Ei. lia. }
    rewrite N. reflexivity.
  - assert (F : list_find (fun sh => active sh = false) shs = Some (i, sh)).
    { apply list_find_Some. split; [exact Ei |]. split; [exact Ai |].
      intros j y Ej Hj. rewrite (Bi j y Hj Ej). discriminate. }
    rewrite F. reflexivity.
Qed.

(** The volley on a pool with no active shell launches shells 0 to 4. *)
Lemma volley_on_idle_pool (shs : list ShellState) (k : nat) :
  length shs = MAX_SHELLS ->
  Forall (fun sh => active sh = false) shs ->
  exists shs',
    launchLoop random baseOrigin VOLLEY shs k = (shs', VOLLEY, (k + 5 * VOLLEY)%nat) /\
    length shs' = MAX_SHELLS /\
    (forall i, (i < VOLLEY)%nat ->
       exists sh, shs !! i = Some sh /\
                  shs' !! i = Some (launchShell random (k + 5 * i) baseOrigin sh)) /\
    (forall i, (VOLLEY <= i)%nat -> shs' !! i = shs !! i).
Proof.
  intros L Idle. unfold launchLoop.
  pose (P := fun (j : nat) (st : Launch) =>
    let '(shs', launched, k') := st in
    launched = Nat.min j VOLLEY /\ k' = (k + 5 * launched)%nat /\
    length shs' = MAX_SHELLS /\
    (forall i, (i < launched)%nat ->
       exists sh, shs !! i = Some sh /\
                  shs' !! i = Some (launchShell random (k + 5 * i) baseOrigin sh)) /\
    (forall i, (launched <= i)%nat -> shs' !! i = shs !! i)).
  assert (H : P (0 + MAX_SHELLS)%nat
                (forRange 0 MAX_SHELLS (volleyStep random baseOrigin VOLLEY)
                   (shs, 0%nat, k))).
  { apply (forRange_ind P).
    - intros j [[shs' launched] k'] Hj (El & Ek & Ll & Done & Rest).
      unfold volleyStep.
      destruct (launched <? VOLLEY)%nat eqn:Lt.
      + apply Nat.ltb_lt in Lt. assert (Hl : launched = j) by lia.
        clear El. subst launched.
        assert (Ej : shs' !! j = shs !! j) by (apply Rest; lia).
        destruct (lookup_lt_is_Some_2 shs j) as [sh Es]; [lia |].
        rewrite Ej, Es.
        rewrite Forall_lookup in Idle. rewrite (Idle j sh Es).
        unfold P. split; [lia |]. split; [lia |].
        split; [rewrite length_insert; exact Ll |]. split.
        * intros i Hi. destruct (Nat.eq_dec i j) as [-> | Hne].
          -- exists sh. split; [exact Es |]. subst k'.
             apply list_lookup_insert_eq. lia.
          -- destruct (Done i) as (sh' & E1 & E2); [lia |].
             exists sh'. split; [exact E1 |].
             rewrite list_lookup_insert_ne by lia. exact E2.
        * intros i Hi. rewrite list_lookup_insert_ne by lia. apply Rest. lia.
      + apply Nat.ltb_ge in Lt. unfold P.
        split; [lia |]. split; [exact Ek |]. split; [exact Ll |]. split; assumption.
    - unfold P. split; [reflexivity |]. split; [lia |]. split; [exact L |].
      split; [intros i Hi; lia | reflexivity]. }
  destruct (forRange 0 MAX_SHELLS (volleyStep random baseOrigin VOLLEY) (shs, 0%nat, k))
    as [[shs' launched] k'].
  destruct H as (El & Ek & Ll & Done & Rest).
  assert (launched = VOLLEY) by (unfold VOLLEY, MAX_SHELLS in *; lia). subst launched.
  exists shs'. subst k'. repeat split; assumption.
Qed.

End Launching.

Lemma count_all (P : ShellState -> Prop) `{forall x, Decision (P x)}
      (l : list ShellState) :
  Forall P l -> length (filter P l) = length l.
Proof.
  induction 1 as [| x l Hx Hl IH]; [reflexivity |].
  rewrite filter_cons_True by exact Hx. simpl. rewrite IH. reflexivity.
Qed.

Lemma count_none (P : ShellState -> Prop) `{forall x, Decision (P x)}
      (l : list ShellState) :
  Forall (fun x => ~ P x) l -> length (filter P l) = 0%nat.
Proof.
  induction 1 as [| x l Hx Hl IH]; [reflexivity |].
  rewrite filter_cons_False by exact Hx. exact IH.
Qed.

Lemma activeCount_prefix (shs : list ShellState) (n : nat) :
  (n <= length shs)%nat ->
  (forall i sh, (i < n)%nat -> shs !! i = Some sh -> active sh = true) ->
  (forall i sh, (n <= i)%nat -> shs !! i = Some sh -> active sh = false) ->
  activeCount shs = n.
Proof.
  intros L Front Back. unfold activeCount.
  rewrite <- (take_drop n shs), filter_app, length_app.
  rewrite count_all, count_none.
  - rewrite length_take. lia.
  - apply Forall_lookup. intros i sh E. rewrite lookup_drop in E.
    rewrite (Back (n + i)%nat sh); [discriminate | lia | exact E].
  - apply Forall_lookup. intros i sh E.
    destruct (decide (i < n)%nat) as [Hi | Hi].
    + rewrite lookup_take_lt in E by exact Hi. apply (Front i sh Hi E).
    + rewrite lookup_take_ge in E by lia. discriminate.
Qed.

(** *** Before the first activation *)

Lemma hideParticle_shells (i : nat) (d : FireworkData) :
  shells (hideParticle i d) = shells d.
Proof. reflexivity. Qed.

Lemma initialData_shells : shells initialData = replicate MAX_SHELLS initShell.
Proof.
  unfold initialData.
  apply (forRange_inv (fun d => shells d = replicate MAX_SHELLS initShell)).
  - intros j t _ H. rewrite hideParticle_shells. exact H.
  - reflexivity.
Qed.

Lemma idlePool_initial : idlePool initialComponent.
Proof.
  unfold idlePool, initialComponent. cbn [data hasExplodedOnce].
  rewrite initialData_shells. split; [apply length_replicate |].
  split; [apply Forall_replicate; reflexivity | reflexivity].
Qed.

Lemma idlePool_idleFrames (random : nat -> R) (baseOrigin : Vector3)
      (rawDeltas : list R) (c : Component) :
  idlePool c -> idlePool (idleFrames random baseOrigin rawDeltas c).
Proof.
  revert c. induction rawDeltas as [| r rs IH]; intros c H; [exact H |].
  unfold idleFrames in *. simpl. apply IH. clear IH.
  destruct H as (L & F & E). unfold useFrame, advance. cbn [negb].
  destruct (Rlt_dec _ _); unfold idlePool; cbn.
  - rewrite length_map. split; [exact L |]. split; [| exact E].
    apply Forall_map. apply Forall_forall. intros x _. reflexivity.
  - auto.
Qed.

Lemma set_shells_same (d : FireworkData) : set_shells (shells d) d = d.
Proof. destruct d. reflexivity. Qed.

(** *** One shell of one frame *)

Section Updating.

Variable random : nat -> R.
Variable delta : R.

Lemma footprint_trail (s : nat) (sh : ShellState) (st : Sim) (count : nat) :
  footprint s (fst st)
    (fst (forRange 0 count (trailParticle random s sh) st)).
Proof.
  apply (forRange_inv (fun t => footprint s (fst st) (fst t))).
  - intros j t _ F. apply (footprint_trans s _ (fst t)); [exact F |].
    apply footprint_trailParticle.
  - apply footprint_refl.
Qed.

Lemma footprint_hideTrail (s : nat) (d : FireworkData) (count : nat) :
  footprint s d (forRange 0 count (hideTrailParticle s) d).
Proof.
  apply (forRange_inv (fun t => footprint s d t)).
  - intros j t _ F. apply (footprint_trans s _ t); [exact F |].
    apply footprint_hideTrailParticle.
  - apply footprint_refl.
Qed.

Lemma footprint_burstShell (s : nat) (sh : ShellState) (st : Sim) :
  footprint s (fst st) (fst (burstShell random s sh st)).
Proof.
  unfold burstShell.
  apply (forRange_inv (fun t => footprint s (fst st) (fst t))).
  - intros j t Hj F. apply (footprint_trans s _ (fst t)); [exact F |].
    apply footprint_burstParticle. lia.
  - apply footprint_refl.
Qed.

Lemma footprint_fade (s : nat) (sh : ShellState) (st : Fade) :
  footprint s (fst (fst st))
    (fst (fst (forRange 0 PARTICLES_PER_SHELL (fadeParticle random delta s sh) st))).
Proof.
  apply (forRange_inv (fun t => footprint s (fst (fst st)) (fst (fst t)))).
  - intros j t Hj F. apply (footprint_trans s _ (fst (fst t))); [exact F |].
    apply footprint_fadeParticle. lia.
  - apply footprint_refl.
Qed.

Lemma footprint_riseShell (s : nat) (sh : ShellState) (st : Sim) :
  footprint s (fst st) (fst (riseShell random delta s sh st)).
Proof.
  unfold riseShell.
  pose proof (footprint_trail s sh st TRAIL_PARTICLES_PER_SHELL) as F1.
  destruct (forRange 0 TRAIL_PARTICLES_PER_SHELL (trailParticle random s sh) st)
    as [d1 k1]. cbn [fst] in F1.
  set (sh1 := set_riseY _ sh).
  destruct (Rge_dec (riseY sh1) (targetY sh1)).
  - set (sh2 := set_burstAge 0 (set_phase burst sh1)).
    set (d2 := set_shells (<[s := sh2]> (shells d1)) d1).
    pose proof (footprint_burstShell s sh2 (d2, k1)) as F3.
    destruct (burstShell random s sh2 (d2, k1)) as [d3 k3]. cbn [fst] in *.
    apply (footprint_trans s _ d1); [exact F1 |].
    apply (footprint_trans s _ d2); [apply footprint_set_shell |].
    apply (footprint_trans s _ d3); [exact F3 |].
    apply footprint_hideTrail.
  - cbn [fst]. apply (footprint_trans s _ d1); [exact F1 |].
    apply footprint_set_shell.
Qed.

Lemma footprint_fadeShell (s : nat) (sh : ShellState) (st : Sim) :
  footprint s (fst st) (fst (fadeShell random delta s sh st)).
Proof.
  unfold fadeShell. destruct st as [d k].
  set (sh1 := set_burstAge _ sh).
  set (d1 := set_shells (<[s := sh1]> (shells d)) d).
  pose proof (footprint_fade s sh1 (d1, true, k)) as F2.
  destruct (forRange 0 PARTICLES_PER_SHELL (fadeParticle random delta s sh1) (d1, true, k))
    as [[d2 allDead] k2]. cbn [fst] in *.
  assert (F : footprint s d d2).
  { apply (footprint_trans s _ d1); [apply footprint_set_shell | exact F2]. }
  destruct allDead; cbn [fst]; [| exact F].
  apply (footprint_trans s _ d2); [exact F | apply footprint_set_shell].
Qed.

Lemma footprint_updateShell (j : nat) (st : Sim) :
  footprint j (fst st) (fst (updateShell random delta j st)).
Proof.
  unfold updateShell.
  destruct (shells (fst st) !! j) as [sh |]; [| apply footprint_refl].
  destruct (active sh); cbn [negb]; [| apply footprint_refl].
  destruct (phase sh); [apply footprint_riseShell | apply footprint_fadeShell].
Qed.

Lemma footprint_agree (j s : nat) (d d' : FireworkData) :
  j <> s -> footprint j d d' -> agreeOn s d d'.
Proof.
  intros Hne (_ & Sh & Out). split; [apply Sh; auto |].
  intros p Hp. apply Out. sizes. nia.
Qed.

Lemma agreeOn_refl (s : nat) (d : FireworkData) : agreeOn s d d.
Proof. split; auto. Qed.

Lemma agreeOn_trans (s : nat) (d1 d2 d3 : FireworkData) :
  agreeOn s d1 d2 -> agreeOn s d2 d3 -> agreeOn s d1 d3.
Proof.
  intros [S1 A1] [S2 A2]. split; [congruence |].
  intros p Hp. destruct (A1 p Hp) as [E1 E2]. destruct (A2 p Hp) as [F1 F2].
  split; congruence.
Qed.

(** The shells other than [s] leave shell [s] and its particles alone. *)
Lemma updateShells_others (s start count : nat) (st : Sim) :
  (s < start \/ start + count <= s)%nat ->
  dataSized (fst st) ->
  agreeOn s (fst st) (fst (forRange start count (updateShell random delta) st)) /\
  dataSized (fst (forRange start count (updateShell random delta) st)).
Proof.
  intros Hs Hd.
  apply (forRange_inv (fun t => agreeOn s (fst st) (fst t) /\ dataSized (fst t))).
  - intros j t Hj [A D].
    pose proof (footprint_updateShell j t) as F. split.
    + apply (agreeOn_trans s _ (fst t)); [exact A |].
      apply (footprint_agree j); [lia | exact F].
    + apply (footprint_sized j (fst t)); assumption.
  - split; [apply agreeOn_refl | exact Hd].
Qed.

Lemma hideTrailParticle_keeps (s t i : nat) (d : FireworkData) :
  (i < TOTAL_BURST)%nat ->
  particleAt (hideTrailParticle s t d) i = particleAt d i /\
  shells (hideTrailParticle s t d) = shells d.
Proof.
  intros Hi. unfold hideTrailParticle, particleAt, get3.
  cbn [positions velocities colors sizes ages lifetimes shells set_positions set_sizes].
  rewrite !aget_insert_ne by lia. split; reflexivity.
Qed.

Lemma hideTrail_keeps (s : nat) (d : FireworkData) :
  shells (forRange 0 TRAIL_PARTICLES_PER_SHELL (hideTrailParticle s) d) = shells d /\
  forall i, (i < TOTAL_BURST)%nat ->
    particleAt (forRange 0 TRAIL_PARTICLES_PER_SHELL (hideTrailParticle s) d) i
      = particleAt d i.
Proof.
  apply (forRange_inv (fun t => shells t = shells d /\
           forall i, (i < TOTAL_BURST)%nat -> particleAt t i = particleAt d i)).
  - intros j t _ [Sh Pa]. split.
    + destruct (hideTrailParticle_keeps s j 0 t) as [_ ->];
        [unfold TOTAL_BURST, MAX_SHELLS, PARTICLES_PER_SHELL; lia | exact Sh].
    + intros i Hi. destruct (hideTrailParticle_keeps s j i t Hi) as [-> _].
      apply Pa. exact Hi.
  - split; [reflexivity | auto].
Qed.

(** A rising shell that reaches its target bursts at once. *)
Lemma riseShell_bursts (s : nat) (sh : ShellState) (d : FireworkData) (k : nat) :
  dataSized d -> (s < MAX_SHELLS)%nat ->
  riseY sh + riseVelocity sh * delta >= targetY sh ->
  let sh' := set_burstAge 0
               (set_phase burst (set_riseY (riseY sh + riseVelocity sh * delta) sh)) in
  let r := riseShell random delta s sh (d, k) in
  shells (fst r) !! s = Some sh' /\
  exists k', forall p, (p < PARTICLES_PER_SHELL)%nat ->
    particleAt (fst r) (owned s p) = spawned random (k' + 6 * p) sh'.
Proof.
  intros Hd Hs Reach sh' r. subst r. unfold riseShell.
  pose proof (footprint_trail s sh (d, k) TRAIL_PARTICLES_PER_SHELL) as F1.
  destruct (forRange 0 TRAIL_PARTICLES_PER_SHELL (trailParticle random s sh) (d, k))
    as [d1 k1]. cbn [fst] in F1.
  pose proof (footprint_sized s d d1 F1 Hd) as Hd1.
  set (sh1 := set_riseY (riseY sh + riseVelocity sh * delta) sh).
  destruct (Rge_dec (riseY sh1) (targetY sh1)) as [_ | No];
    [| exfalso; apply No; exact Reach].
  change (set_burstAge 0 (set_phase burst sh1)) with sh'.
  set (d2 := set_shells (<[s := sh']> (shells d1)) d1).
  assert (Hd2 : dataSized d2).
  { apply (footprint_sized s d1); [apply footprint_set_shell | exact Hd1]. }
  assert (S2 : shells d2 !! s = Some sh').
  { unfold d2. cbn. apply list_lookup_insert_eq.
    destruct Hd1 as (_ & _ & _ & _ & _ & _ & L). rewrite L. exact Hs. }
  destruct (burstShell_spec random s sh' d2 k1 Hd2 Hs) as (_ & Sh3 & _ & Own & _).
  destruct (burstShell random s sh' (d2, k1)) as [d3 k3]. cbn [fst snd] in *.
  destruct (hideTrail_keeps s d3) as [Sh4 Pa4].
  cbn [fst]. split; [rewrite Sh4, Sh3; exact S2 |].
  exists k1. intros p Hp. rewrite Pa4 by (sizes; lia). apply Own. exact Hp.
Qed.

(** A bursting shell whose particles are all past their lifetime
    retires. *)
Lemma fadeShell_retires (s : nat) (sh : ShellState) (d : FireworkData) (k : nat) :
  dataSized d -> (s < MAX_SHELLS)%nat ->
  (forall p, (p < PARTICLES_PER_SHELL)%nat ->
     aget (ages d) (owned s p) + delta > aget (lifetimes d) (owned s p)) ->
  shells (fst (fadeShell random delta s sh (d, k))) !! s
    = Some (set_active false (set_burstAge (burstAge sh + delta) sh)).
Proof.
  intros Hd Hs Dead. unfold fadeShell.
  set (sh1 := set_burstAge (burstAge sh + delta) sh).
  set (d1 := set_shells (<[s := sh1]> (shells d)) d).
  pose (P := fun (j : nat) (t : Fade) =>
    snd (fst t) = true /\
    lifetimes (fst (fst t)) = lifetimes d /\
    length (ages (fst (fst t))) = length (ages d) /\
    (forall q, (j <= q < PARTICLES_PER_SHELL)%nat ->
       aget (ages (fst (fst t))) (owned s q) = aget (ages d) (owned s q))).
  assert (H : P (0 + PARTICLES_PER_SHELL)%nat
                (forRange 0 PARTICLES_PER_SHELL (fadeParticle random delta s sh1)
                   (d1, true, k))).
  { apply (forRange_ind P).
    - intros j [[dj a] kj] Hj (A & Li & Le & Ag). cbn [fst snd] in *. subst a.
      unfold fadeParticle. cbn [ages lifetimes set_ages].
      fold (owned s j).
      assert (Hi : (owned s j < length (ages dj))%nat).
      { rewrite Le. destruct Hd as (_ & _ & _ & _ & L & _). rewrite L. sizes. lia. }
      rewrite (aget_insert_eq _ _ _ Hi).
      rewrite Li, (Ag j) by lia.
      destruct (Rgt_dec _ _) as [_ | No]; [| exfalso; apply No; apply Dead; lia].
      unfold P. cbn. rewrite length_insert.
      split; [reflexivity |]. split; [exact Li |]. split; [exact Le |].
      intros q Hq. rewrite aget_insert_ne by (unfold owned; lia). apply Ag. lia.
    - unfold P. cbn. auto. }
  pose proof (footprint_fade s sh1 (d1, true, k)) as F2.
  destruct (forRange 0 PARTICLES_PER_SHELL (fadeParticle random delta s sh1) (d1, true, k))
    as [[d2 allDead] k2]. unfold P in H. cbn [fst snd] in *.
  destruct H as (A & _). subst allDead. cbn.
  apply list_lookup_insert_eq.
  destruct F2 as ((_ & _ & _ & _ & _ & _ & L2) & _). rewrite L2. unfold d1. cbn.
  rewrite length_insert. destruct Hd as (_ & _ & _ & _ & _ & _ & L). rewrite L. exact Hs.
Qed.

End Updating.

(** *** One frame *)

Lemma p_age_particleAt (d : FireworkData) (i : nat) :
  p_age (particleAt d i) = aget (ages d) i.
Proof. reflexivity. Qed.

Lemma p_age_spawned (random : nat -> R) (k : nat) (sh : ShellState) :
  p_age (spawned random k sh) = 0.
Proof. reflexivity. Qed.

Section Frames.

Variable random : nat -> R.
Variable baseOrigin : Vector3.

(** The launch timer leaves the buffers and the active shells alone. *)
Lemma launchOnTimer_keeps (delta : R) (c : Component) (s : nat) (sh : ShellState) :
  dataSized (data c) ->
  shells (data c) !! s = Some sh -> active sh = true ->
  let c' := launchOnTimer random baseOrigin delta c in
  dataSized (data c') /\ agreeOn s (data c) (data c').
Proof.
  intros Hd Es As c'. subst c'. unfold launchOnTimer.
  destruct (Rge_dec _ _); [| split; [exact Hd | apply agreeOn_refl]].
  assert (L : length (shells (data c)) = MAX_SHELLS) by (apply Hd).
  rewrite (launchLoop_one random baseOrigin _ (calls c) L).
  destruct (list_find (fun sh => active sh = false) (shells (data c)))
    as [[i sh0] |] eqn:Fi; cbn [data].
  - apply list_find_Some in Fi. destruct Fi as (Ei & Ai & _).
    assert (Hne : i <> s) by (intros ->; congruence).
    split.
    + apply (footprint_sized i (data c)); [apply footprint_set_shell | exact Hd].
    + split; [cbn; apply list_lookup_insert_ne; exact Hne | cbn; auto].
  - rewrite set_shells_same. split; [exact Hd | apply agreeOn_refl].
Qed.

Lemma advance_data (delta : R) (c : Component) :
  data (advance random baseOrigin true delta c)
  = fst (updateShells random delta
           (data (launchOnTimer random baseOrigin delta c),
            calls (launchOnTimer random baseOrigin delta c))).
Proof.
  unfold advance. cbn [negb].
  set (c1 := mkComponent _ _ _ _ _ _).
  assert (E : launchOnTimer random baseOrigin delta c1
              = mkComponent (data (launchOnTimer random baseOrigin delta c))
                  (launchTimer (launchOnTimer random baseOrigin delta c))
                  (hasExplodedOnce (launchOnTimer random baseOrigin delta c))
                  (materialOpacity c1) (trailOpacity c1)
                  (calls (launchOnTimer random baseOrigin delta c))).
  { unfold launchOnTimer. cbn [launchTimer data calls hasExplodedOnce
                                 materialOpacity trailOpacity c1].
    destruct (Rge_dec _ _); [| reflexivity].
    destruct (launchLoop random baseOrigin 1 (shells (data c)) (calls c)) as [[shs n] k].
    reflexivity. }
  rewrite E. cbn [data calls].
  destruct (updateShells random delta _) as [d k]. reflexivity.
Qed.

(** What the loop over the shells does to shell [s], seen from the state
    in which its own iteration starts. *)
Lemma updateShells_at (delta : R) (s : nat) (st : Sim) :
  (s < MAX_SHELLS)%nat -> dataSized (fst st) ->
  exists st1,
    agreeOn s (fst st) (fst st1) /\ dataSized (fst st1) /\
    agreeOn s (fst (updateShell random delta s st1))
      (fst (updateShells random delta st)).
Proof.
  intros Hs Hd. unfold updateShells.
  rewrite (forRange_at _ MAX_SHELLS s st Hs).
  set (st1 := forRange 0 s (updateShell random delta) st).
  destruct (updateShells_others random delta s 0 s st) as [A1 D1]; [lia | exact Hd |].
  fold st1 in A1, D1.
  exists st1. split; [exact A1 |]. split; [exact D1 |].
  apply updateShells_others; [lia |].
  apply (footprint_sized s (fst st1)); [apply footprint_updateShell | exact D1].
Qed.

Lemma inactive_found (shs : list ShellState) (s : nat) (sh : ShellState) :
  shs !! s = Some sh -> active sh = false ->
  exists j, firstInactive shs = Some j /\ (j <= s)%nat.
Proof.
  intros Es As. unfold firstInactive.
  destruct (list_find (fun sh => active sh = false) shs) as [[j y] |] eqn:Fi.
  - exists j. split; [reflexivity |].
    apply list_find_Some in Fi. destruct Fi as (_ & _ & Min).
    destruct (decide (j <= s)%nat) as [H | H]; [exact H |].
    exfalso. apply (Min s sh Es); [lia | exact As].
  - exfalso. apply list_find_None in Fi. rewrite Forall_lookup in Fi.
    apply (Fi s sh Es). exact As.
Qed.

End Frames.

(** C4. In a frame of the running simulation: an active rising shell
    whose height, advanced by this frame's step, reaches its target is
    bursting when the frame ends, with burst age 0, and the 80 particles
    of its slice have age 0; a burst writes the particles of its own
    slice only.  An active bursting shell whose 80 particles are all past
    their lifetime after this frame's ageing is inactive when the frame
    ends, so the next launch scan finds an inactive shell at its index or
    before. *)
Theorem shell_bursts_at_target_and_retires_when_spent
        (random : nat -> R) (baseOrigin : Vector3) (rawDelta : R) (c : Component)
        (s : nat) (sh : ShellState) :
  dataSized (data c) -> (s < MAX_SHELLS)%nat ->
  shells (data c) !! s = Some sh -> active sh = true ->
  let delta := Rmin rawDelta 0.05 in
  let c' := useFrame random baseOrigin true true rawDelta c in
  (phase sh = rising ->
   riseY sh + riseVelocity sh * delta >= targetY sh ->
   (exists sh', shells (data c') !! s = Some sh' /\
                active sh' = true /\ phase sh' = burst /\ burstAge sh' = 0) /\
   (forall p, (p < PARTICLES_PER_SHELL)%nat ->
      aget (ages (data c')) (owned s p) = 0)) /\
  (forall d k i, dataSized d -> ~ inSlice s i ->
     particleAt (fst (burstShell random s sh (d, k))) i = particleAt d i) /\
  (phase sh = burst ->
   (forall p, (p < PARTICLES_PER_SHELL)%nat ->
      aget (ages (data c)) (owned s p) + delta
      > aget (lifetimes (data c)) (owned s p)) ->
   (exists sh', shells (data c') !! s = Some sh' /\ active sh' = false) /\
   (exists j, firstInactive (shells (data c')) = Some j /\ (j <= s)%nat)).
Proof.
  intros Hd Hs Es As delta c'.
  assert (Ec' : data c'
                = fst (updateShells random delta
                         (data (launchOnTimer random baseOrigin delta c),
                          calls (launchOnTimer random baseOrigin delta c)))).
  { subst c'. unfold useFrame. cbn [negb]. fold delta. apply advance_data. }
  destruct (launchOnTimer_keeps random baseOrigin delta c s sh Hd Es As) as [Hd2 A2].
  set (c2 := launchOnTimer random baseOrigin delta c) in *.
  destruct (updateShells_at random delta s (data c2, calls c2) Hs Hd2)
    as ([d1 k1] & A1 & Hd1 & A3).
  cbn [fst] in A1, Hd1, A3. rewrite <- Ec' in A3.
  pose proof (agreeOn_trans s _ _ _ A2 A1) as [S1 G1].
  rewrite Es in S1.
  assert (U : updateShell random delta s (d1, k1)
              = match phase sh with
                | rising => riseShell random delta s sh (d1, k1)
                | burst => fadeShell random delta s sh (d1, k1)
                end).
  { unfold updateShell. cbn [fst]. rewrite S1, As. reflexivity. }
  rewrite U in A3. destruct A3 as [S3 G3].
  split; [| split].
  - intros Ph Reach. rewrite Ph in *.
    destruct (riseShell_bursts random delta s sh d1 k1 Hd1 Hs Reach) as (Sr & k' & Own).
    split.
    + eexists. split; [rewrite S3; exact Sr |].
      split; [exact As | split; reflexivity].
    + intros p Hp. destruct (G3 p Hp) as [-> _].
      rewrite <- p_age_particleAt, (Own p Hp). apply p_age_spawned.
  - intros d k i Hdd Hi.
    destruct (burstShell_spec random s sh d k Hdd Hs) as (_ & _ & _ & _ & Out).
    apply Out. exact Hi.
  - intros Ph Dead. rewrite Ph in *.
    assert (Dead1 : forall p, (p < PARTICLES_PER_SHELL)%nat ->
              aget (ages d1) (owned s p) + delta > aget (lifetimes d1) (owned s p)).
    { intros p Hp. destruct (G1 p Hp) as [-> ->]. apply Dead. exact Hp. }
    pose proof (fadeShell_retires random delta s sh d1 k1 Hd1 Hs Dead1) as Sr.
    rewrite <- S3 in Sr.
    split; [eexists; split; [exact Sr | reflexivity] |].
    apply (inactive_found _ s _ Sr). reflexivity.
Qed.

(** A pool in which shell 0 is rising, one step below its target. *)
Lemma shell_bursts_at_target_and_retires_when_spent_witness :
  let sh := mkShell true rising 0 0 5 6 5 0 (nth 0 PALETTES []) in
  let c := mkComponent (set_shells (<[0%nat := sh]> (shells initialData)) initialData)
             0 true 1 0.7 0 in
  dataSized (data c) /\ (0 < MAX_SHELLS)%nat /\
  shells (data c) !! 0%nat = Some sh /\ active sh = true /\
  forall p, (p < PARTICLES_PER_SHELL)%nat ->
    aget (ages (data (useFrame (fun _ => 0) (mkVector3 (-10) 6 0) true true 1 c)))
      (owned 0 p) = 0.
Proof.
  intros sh c.
  assert (Hd : dataSized (data c)).
  { apply (footprint_sized 0 initialData);
      [apply footprint_set_shell | exact initialData_sized]. }
  assert (Hs : (0 < MAX_SHELLS)%nat) by (unfold MAX_SHELLS; lia).
  assert (Es : shells (data c) !! 0%nat = Some sh).
  { unfold c. cbn [data shells set_shells]. rewrite initialData_shells. reflexivity. }
  assert (As : active sh = true) by reflexivity.
  split; [exact Hd |]. split; [exact Hs |]. split; [exact Es |]. split; [exact As |].
  pose proof (shell_bursts_at_target_and_retires_when_spent
                (fun _ => 0) (mkVector3 (-10) 6 0) 1 c 0 sh Hd Hs Es As) as H.
  cbv zeta in H. destruct H as (H & _).
  apply H; [reflexivity |].
  unfold sh. cbn [riseY riseVelocity targetY].
  unfold Rmin. destruct (Rle_dec 1 0.05); lra.
Defined.

(** *** The launch timer in a frame *)

(** Launching an inactive shell adds one to the active shells. *)
Lemma activeCount_launch (shs : list ShellState) (j : nat) (sh l : ShellState) :
  shs !! j = Some sh -> active sh = false -> active l = true ->
  activeCount (<[j := l]> shs) = S (activeCount shs).
Proof.
  intros Ej Aj Al. unfold activeCount.
  pose proof (lookup_lt_Some _ _ _ Ej) as Lj.
  rewrite insert_take_drop by exact Lj.
  rewrite <- (take_drop_middle shs j sh Ej) at 3.
  rewrite !filter_app, !length_app.
  rewrite (filter_cons_True _ l) by exact Al.
  rewrite (filter_cons_False _ sh) by (rewrite Aj; discriminate).
  simpl. lia.
Qed.

Section FrameTimer.

Variable random : nat -> R.
Variable baseOrigin : Vector3.

(** A rising shell that is still below its target keeps rising. *)
Lemma riseShell_rises (delta : R) (s : nat) (sh : ShellState) (d : FireworkData) (k : nat) :
  dataSized d -> (s < MAX_SHELLS)%nat ->
  ~ riseY sh + riseVelocity sh * delta >= targetY sh ->
  shells (fst (riseShell random delta s sh (d, k))) !! s
  = Some (set_riseY (riseY sh + riseVelocity sh * delta) sh).
Proof.
  intros Hd Hs Below. unfold riseShell.
  pose proof (footprint_trail random s sh (d, k) TRAIL_PARTICLES_PER_SHELL) as F1.
  destruct (forRange 0 TRAIL_PARTICLES_PER_SHELL (trailParticle random s sh) (d, k))
    as [d1 k1]. cbn [fst] in F1.
  pose proof (footprint_sized s d d1 F1 Hd) as Hd1.
  set (sh1 := set_riseY (riseY sh + riseVelocity sh * delta) sh).
  destruct (Rge_dec (riseY sh1) (targetY sh1)) as [Reach | _];
    [exfalso; apply Below; exact Reach |].
  cbn. apply list_lookup_insert_eq.
  destruct Hd1 as (_ & _ & _ & _ & _ & _ & L). rewrite L. exact Hs.
Qed.

(** The loop over the shells leaves an inactive shell as it is, and lifts
    a rising shell that stays below its target. *)
Lemma updateShells_inactive (delta : R) (s : nat) (st : Sim) (sh : ShellState) :
  (s < MAX_SHELLS)%nat -> dataSized (fst st) ->
  shells (fst st) !! s = Some sh -> active sh = false ->
  shells (fst (updateShells random delta st)) !! s = Some sh.
Proof.
  intros Hs Hd Es As.
  destruct (updateShells_at random delta s st Hs Hd) as (st1 & [S1 _] & _ & [S3 _]).
  rewrite S3. unfold updateShell. rewrite S1, Es, As. cbn [negb].
  rewrite S1. exact Es.
Qed.

Lemma updateShells_rising (delta : R) (s : nat) (st : Sim) (sh : ShellState) :
  (s < MAX_SHELLS)%nat -> dataSized (fst st) ->
  shells (fst st) !! s = Some sh -> active sh = true -> phase sh = rising ->
  ~ riseY sh + riseVelocity sh * delta >= targetY sh ->
  shells (fst (updateShells random delta st)) !! s
  = Some (set_riseY (riseY sh + riseVelocity sh * delta) sh).
Proof.
  intros Hs Hd Es As Ph Below.
  destruct (updateShells_at random delta s st Hs Hd) as ([d1 k1] & [S1 _] & Hd1 & [S3 _]).
  cbn [fst] in S1, Hd1. rewrite S3. unfold updateShell. cbn [fst].
  rewrite S1, Es, As, Ph. cbn [negb].
  apply riseShell_rises; assumption.
Qed.

(** A shell just launched is more than one step below its target. *)
Lemma launchShell_below_target (k : nat) (sh : ShellState) (delta : R) :
  (forall n, 0 <= random n < 1) -> delta <= 0.05 ->
  let l := launchShell random k baseOrigin sh in
  ~ riseY l + riseVelocity l * delta >= targetY l.
Proof.
  intros Hr Hd l. subst l. unfold launchShell. cbn [riseY riseVelocity targetY].
  unfold SHELL_RISE_SPEED_MIN, SHELL_RISE_SPEED_MAX.
  pose proof (Hr (k + 2)%nat) as R2. pose proof (Hr (k + 3)%nat) as R3.
  set (v := 6 + random (k + 2)%nat * (10 - 6)).
  assert (Hv : 0 < v < 10) by (subst v; lra).
  assert (P : v * delta <= 0.5).
  { destruct (Rle_dec delta 0) as [N | N]; [nra | nra]. }
  lra.
Qed.

(** What the timer step does to the timer, the shells and the calls. *)
Lemma launchOnTimer_spec (delta : R) (c : Component) :
  length (shells (data c)) = MAX_SHELLS ->
  let c' := launchOnTimer random baseOrigin delta c in
  (launchTimer c + delta < LAUNCH_INTERVAL ->
     data c' = data c /\ launchTimer c' = launchTimer c + delta /\ calls c' = calls c) /\
  (launchTimer c + delta >= LAUNCH_INTERVAL ->
     launchTimer c' = 0 /\
     match firstInactive (shells (data c)) with
     | Some j =>
         exists sh, shells (data c) !! j = Some sh /\ active sh = false /\
           shells (data c')
           = <[j := launchShell random (calls c) baseOrigin sh]> (shells (data c)) /\
           activeCount (shells (data c')) = S (activeCount (shells (data c)))
     | None => data c' = data c /\ calls c' = calls c
     end).
Proof.
  intros L c'. subst c'. unfold launchOnTimer.
  destruct (Rge_dec (launchTimer c + delta) LAUNCH_INTERVAL) as [Due | Early].
  - split; [intros Lt; exfalso; lra | intros _].
    rewrite (launchLoop_one random baseOrigin _ (calls c) L).
    unfold firstInactive.
    destruct (list_find (fun sh => active sh = false) (shells (data c)))
      as [[j sh] |] eqn:Fi; cbn.
    + apply list_find_Some in Fi. destruct Fi as (Ej & Aj & _).
      split; [reflexivity |]. exists sh.
      split; [exact Ej |]. split; [exact Aj |]. split; [reflexivity |].
      apply (activeCount_launch _ j sh); [exact Ej | exact Aj | reflexivity].
    + rewrite set_shells_same. auto.
  - split; [intros _; cbn; auto | intros Due; exfalso; lra].
Qed.

Lemma advance_timer (delta : R) (c : Component) :
  launchTimer (advance random baseOrigin true delta c)
  = launchTimer (launchOnTimer random baseOrigin delta c).
Proof.
  unfold advance. cbn [negb].
  set (c1 := mkComponent _ _ _ _ _ _).
  assert (E : launchTimer (launchOnTimer random baseOrigin delta c1)
              = launchTimer (launchOnTimer random baseOrigin delta c)).
  { unfold launchOnTimer. cbn [launchTimer data calls c1].
    destruct (Rge_dec _ _); [| reflexivity].
    destruct (launchLoop random baseOrigin 1 (shells (data c)) (calls c)) as [[shs n] k].
    reflexivity. }
  rewrite <- E.
  destruct (updateShells random delta _) as [d k]. reflexivity.
Qed.

End FrameTimer.

Lemma useFrame_idle (random : nat -> R) (baseOrigin : Vector3) (rawDelta : R)
      (c : Component) :
  let c' := useFrame random baseOrigin true false rawDelta c in
  launchTimer c' = launchTimer c /\ calls c' = calls c /\
  (activeCount (shells (data c')) <= activeCount (shells (data c)))%nat.
Proof.
  intros c'. subst c'. unfold useFrame, advance. cbn [negb].
  destruct (Rlt_dec _ _); cbn; [| auto].
  split; [reflexivity |]. split; [reflexivity |].
  unfold activeCount. rewrite count_none; [lia |].
  apply Forall_map. apply Forall_forall. intros x _. cbn. discriminate.
Qed.

(** C5. Before the first activation no shell is in flight; the effect that
    runs when [isActive] turns true then launches exactly the five shells
    0 to 4, all rising, and running it again launches nothing.  The timer
    step adds the frame's step to the launch timer; below
    [LAUNCH_INTERVAL] it launches nothing and draws no random number; from
    [LAUNCH_INTERVAL] on it resets the timer to 0 and launches exactly the
    first inactive shell, one active shell more, and when there is no
    inactive shell it leaves the buffers, the shells and the random calls
    as they were.  A frame of the running simulation ends with the timer
    of its timer step, which stays below [LAUNCH_INTERVAL] between frames,
    and with the shells of the timer step moved by the loop over the
    shells: an inactive shell that the timer step does not launch is the
    same when the frame ends, and the shell it launches is active and
    rising, one step above its start.  A frame with [isActive = false]
    leaves the timer alone, draws nothing and launches nothing. *)
Theorem volley_then_one_shell_per_interval (random : nat -> R) (baseOrigin : Vector3) :
  (forall rawDeltas,
     let c := idleFrames random baseOrigin rawDeltas initialComponent in
     let c' := activationEffect random baseOrigin true c in
     activeCount (shells (data c)) = 0%nat /\
     activeCount (shells (data c')) = VOLLEY /\
     (forall i sh, shells (data c') !! i = Some sh ->
        (active sh = true <-> (i < VOLLEY)%nat) /\
        (active sh = true -> phase sh = rising)) /\
     activationEffect random baseOrigin true c' = c') /\
  (forall delta c,
     length (shells (data c)) = MAX_SHELLS ->
     let c' := launchOnTimer random baseOrigin delta c in
     (launchTimer c + delta < LAUNCH_INTERVAL ->
        data c' = data c /\ launchTimer c' = launchTimer c + delta /\
        calls c' = calls c) /\
     (launchTimer c + delta >= LAUNCH_INTERVAL ->
        launchTimer c' = 0 /\
        match firstInactive (shells (data c)) with
        | Some j =>
            exists sh, shells (data c) !! j = Some sh /\ active sh = false /\
              shells (data c')
              = <[j := launchShell random (calls c) baseOrigin sh]> (shells (data c)) /\
              activeCount (shells (data c')) = S (activeCount (shells (data c)))
        | None => data c' = data c /\ calls c' = calls c
        end)) /\
  (forall c,
     Forall (fun sh => active sh = true) (shells (data c)) ->
     firstInactive (shells (data c)) = None) /\
  (forall rawDelta c,
     dataSized (data c) ->
     let delta := Rmin rawDelta 0.05 in
     let c1 := launchOnTimer random baseOrigin delta c in
     let c' := useFrame random baseOrigin true true rawDelta c in
     (launchTimer c + delta < LAUNCH_INTERVAL -> launchTimer c' = launchTimer c + delta) /\
     (launchTimer c + delta >= LAUNCH_INTERVAL -> launchTimer c' = 0) /\
     (0 <= launchTimer c -> 0 <= rawDelta -> 0 <= launchTimer c' < LAUNCH_INTERVAL) /\
     data c' = fst (updateShells random delta (data c1, calls c1)) /\
     (forall i sh,
        shells (data c) !! i = Some sh -> active sh = false ->
        launchTimer c + delta < LAUNCH_INTERVAL \/
        firstInactive (shells (data c)) <> Some i ->
        shells (data c') !! i = Some sh) /\
     ((forall n, 0 <= random n < 1) ->
      launchTimer c + delta >= LAUNCH_INTERVAL ->
      forall j sh,
        firstInactive (shells (data c)) = Some j -> shells (data c) !! j = Some sh ->
        let l := launchShell random (calls c) baseOrigin sh in
        shells (data c') !! j
        = Some (set_riseY (riseY l + riseVelocity l * delta) l))) /\
  (forall rawDelta c,
     let c' := useFrame random baseOrigin true false rawDelta c in
     launchTimer c' = launchTimer c /\ calls c' = calls c /\
     (activeCount (shells (data c')) <= activeCount (shells (data c)))%nat).
Proof.
  split; [| split; [| split; [| split]]].
  - intros rawDeltas c c'.
    pose proof (idlePool_idleFrames random baseOrigin rawDeltas _ idlePool_initial)
      as (L & F & E). fold c in L, F, E.
    destruct (volley_on_idle_pool random baseOrigin (shells (data c)) (calls c) L F)
      as (shs' & Eq & L' & Done & Rest).
    assert (Ec' : c' = mkComponent (set_shells shs' (data c)) (launchTimer c) true
                         (materialOpacity c) (trailOpacity c)
                         (calls c + 5 * VOLLEY)%nat).
    { subst c'. unfold activationEffect. rewrite E. cbn [negb andb]. rewrite Eq.
      reflexivity. }
    assert (Sh : shells (data c') = shs') by (rewrite Ec'; reflexivity).
    assert (Each : forall i sh, shs' !! i = Some sh ->
                     (active sh = true <-> (i < VOLLEY)%nat) /\
                     (active sh = true -> phase sh = rising)).
    { intros i sh Ei. destruct (decide (i < VOLLEY)%nat) as [Hi | Hi].
      - destruct (Done i Hi) as (sh0 & _ & E2). rewrite E2 in Ei.
        injection Ei as <-. split; [split; auto | intros _; reflexivity].
      - rewrite Rest in Ei by lia. rewrite Forall_lookup in F.
        rewrite (F i sh Ei). split; [split; [discriminate | lia] | discriminate]. }
    split; [| split; [| split]].
    + apply (activeCount_prefix _ 0); [lia | intros i sh Hi; lia |].
      intros i sh _ Ei. rewrite Forall_lookup in F. apply (F i sh Ei).
    + rewrite Sh. apply activeCount_prefix.
      * rewrite L'. unfold VOLLEY, MAX_SHELLS. lia.
      * intros i sh Hi Ei. apply (Each i sh Ei). exact Hi.
      * intros i sh Hi Ei. destruct (active sh) eqn:A; [| reflexivity].
        destruct (Each i sh Ei) as [[Fw _] _]. specialize (Fw A). lia.
    + rewrite Sh. exact Each.
    + rewrite Ec'. reflexivity.
  - intros delta c L. apply launchOnTimer_spec. exact L.
  - intros c Act. unfold firstInactive.
    assert (N : list_find (fun sh => active sh = false) (shells (data c)) = None).
    { apply list_find_None. eapply Forall_impl; [exact Act |].
      intros sh H. cbn. rewrite H. discriminate. }
    rewrite N. reflexivity.
  - intros rawDelta c Hd delta c1 c'.
    assert (L : length (shells (data c)) = MAX_SHELLS) by apply Hd.
    assert (Dle : delta <= 0.05) by (apply Rmin_r).
    assert (Et : launchTimer c' = launchTimer c1).
    { subst c' c1. unfold useFrame. cbn [negb]. fold delta. apply advance_timer. }
    assert (Ed : data c' = fst (updateShells random delta (data c1, calls c1))).
    { subst c' c1. unfold useFrame. cbn [negb]. fold delta. apply advance_data. }
    destruct (launchOnTimer_spec random baseOrigin delta c L) as [Early Due].
    fold c1 in Early, Due.
    assert (Hd1 : dataSized (data c1)).
    { destruct (Rlt_dec (launchTimer c + delta) LAUNCH_INTERVAL) as [Lt | Ge].
      - destruct (Early Lt) as (-> & _). exact Hd.
      - destruct (Due ltac:(lra)) as [_ M].
        destruct (firstInactive (shells (data c))) as [j |].
        + destruct M as (sh & Ej & Aj & Sh & _).
          assert (E1 : data c1
                       = set_shells (<[j := launchShell random (calls c) baseOrigin sh]>
                                       (shells (data c))) (data c)).
          { subst c1. unfold launchOnTimer in *.
            destruct (Rge_dec _ _) as [_ | No]; [| exfalso; lra].
            destruct (launchLoop random baseOrigin 1 (shells (data c)) (calls c))
              as [[shs n] k]. cbn [data shells set_shells] in *. rewrite Sh. reflexivity. }
          rewrite E1. apply (footprint_sized j (data c)); [apply footprint_set_shell | exact Hd].
        + destruct M as [-> _]. exact Hd. }
    split; [intros Lt; rewrite Et; apply (Early Lt) |].
    split; [intros Ge; rewrite Et; apply (Due Ge) |].
    split.
    { intros H0 Hr. rewrite Et.
      assert (D0 : 0 <= delta).
      { unfold delta, Rmin. destruct (Rle_dec _ _); lra. }
      unfold LAUNCH_INTERVAL in *.
      destruct (Rlt_dec (launchTimer c + delta) 0.35) as [Lt | Ge].
      - destruct (Early Lt) as (_ & -> & _). lra.
      - destruct (Due ltac:(lra)) as [-> _]. lra. }
    split; [exact Ed |].
    split.
    { intros i sh Ei Ai Other. rewrite Ed.
      assert (Hi : (i < MAX_SHELLS)%nat).
      { rewrite <- L. apply (lookup_lt_Some _ _ _ Ei). }
      apply updateShells_inactive; [exact Hi | exact Hd1 | | exact Ai].
      cbn [fst].
      destruct (Rlt_dec (launchTimer c + delta) LAUNCH_INTERVAL) as [Lt | Ge].
      - destruct (Early Lt) as (-> & _). exact Ei.
      - destruct Other as [Lt | Ne]; [exfalso; lra |].
        destruct (Due ltac:(lra)) as [_ M].
        destruct (firstInactive (shells (data c))) as [j |].
        + destruct M as (sh0 & _ & _ & -> & _).
          rewrite list_lookup_insert_ne by congruence. exact Ei.
        + destruct M as [-> _]. exact Ei. }
    intros Hr Ge j sh Fj Ej l. rewrite Ed.
    destruct (Due Ge) as [_ M]. rewrite Fj in M.
    destruct M as (sh0 & Ej0 & Aj & Sh & _).
    rewrite Ej in Ej0. injection Ej0 as <-.
    assert (Hj : (j < MAX_SHELLS)%nat).
    { rewrite <- L. apply (lookup_lt_Some _ _ _ Ej). }
    apply updateShells_rising; try assumption; try reflexivity.
    + cbn [fst]. rewrite Sh. apply list_lookup_insert_eq. rewrite L. exact Hj.
    + apply launchShell_below_target; assumption.
  - intros rawDelta c. apply useFrame_idle.
Qed.

(** A component whose timer stands at 0.3 with no shell in flight: the
    next frame is due, resets the timer and launches shell 0. *)
Lemma volley_then_one_shell_per_interval_witness :
  let c := mkComponent initialData 0.3 true 1 0.7 0 in
  let c' := useFrame (fun _ => 0) (mkVector3 (-10) 6 0) true true 1 c in
  dataSized (data c) /\ (forall n : nat, 0 <= (fun _ : nat => 0) n < 1) /\
  launchTimer c + Rmin 1 0.05 >= LAUNCH_INTERVAL /\
  firstInactive (shells (data c)) = Some 0%nat /\
  shells (data c) !! 0%nat = Some initShell /\
  launchTimer c' = 0 /\
  active <$> shells (data c') !! 0%nat = Some true.
Proof.
  intros c c'.
  assert (Hd : dataSized (data c)) by exact initialData_sized.
  assert (Hr : forall n : nat, 0 <= (fun _ : nat => 0) n < 1) by (intros n; lra).
  assert (Ge : launchTimer c + Rmin 1 0.05 >= LAUNCH_INTERVAL).
  { unfold c, LAUNCH_INTERVAL, Rmin. cbn [launchTimer].
    destruct (Rle_dec 1 0.05); lra. }
  assert (Es : shells (data c) = replicate MAX_SHELLS initShell)
    by exact initialData_shells.
  assert (Fj : firstInactive (shells (data c)) = Some 0%nat)
    by (rewrite Es; reflexivity).
  assert (Ej : shells (data c) !! 0%nat = Some initShell)
    by (rewrite Es; reflexivity).
  split; [exact Hd |]. split; [exact Hr |]. split; [exact Ge |].
  split; [exact Fj |]. split; [exact Ej |].
  destruct (volley_then_one_shell_per_interval (fun _ => 0) (mkVector3 (-10) 6 0))
    as (_ & _ & _ & H & _).
  destruct (H 1 c Hd) as (_ & Reset & _ & _ & _ & Launch).
  split; [apply Reset; exact Ge |].
  unfold c'. cbv zeta in Launch.
  rewrite (Launch Hr Ge 0%nat initShell Fj Ej). reflexivity.
Defined.

End FireworksFacts.

(** ** The fireworks over a whole run *)

Module FireworkRunFacts.

Import Three ThreeFacts Fireworks FireworksFacts.
Local Open Scope R_scope.

Local Arguments forRange : simpl never.
Local Arguments TOTAL_PARTICLES : simpl never.

(** *** Launching *)

Lemma pickPalette_in (random : nat -> R) (k : nat) :
  0 <= random k < 1 -> In (pickPalette random k) PALETTES.
Proof.
  intros Hr. unfold pickPalette. apply nth_In. apply floor_lt.
  assert (L : INR (length PALETTES) = 7) by (cbn; lra).
  rewrite L. lra.
Qed.

Lemma launchShell_launchedFrom (random : nat -> R) (o : Vector3) (k : nat)
      (sh : ShellState) :
  (forall n, 0 <= random n < 1) -> launchedFrom o (launchShell random k o sh).
Proof.
  intros Hr. unfold launchedFrom, launchShell.
  cbn [active phase burstAge x z riseY riseVelocity targetY palette].
  unfold SPREAD_X, SPREAD_Z, SHELL_RISE_SPEED_MIN, SHELL_RISE_SPEED_MAX.
  pose proof (Hr k) as R0. pose proof (Hr (k + 1)%nat) as R1.
  pose proof (Hr (k + 2)%nat) as R2. pose proof (Hr (k + 3)%nat) as R3.
  repeat split; try reflexivity; try lra.
  apply pickPalette_in. apply Hr.
Qed.

(** X16. With [Math.random()] in [0, 1), a launched shell is active and
    rising with burst age 0; it starts 4 below the origin, behind it by
    less than [SPREAD_X] and within [SPREAD_Z / 2] to either side, rises
    at a speed from 6 up to but not 10, heads for a target at or less than
    4 above the origin, and has one of the seven palettes.  So it is still
    below its target after 0.4 s of rising and has reached it after
    4/3 s. *)
Theorem launched_shell_rises_from_below_to_its_target
        (random : nat -> R) (o : Vector3) (k : nat) (sh : ShellState) :
  (forall n, 0 <= random n < 1) ->
  let l := launchShell random k o sh in
  launchedFrom o l /\
  (forall t, t <= 0.4 -> riseY l + riseVelocity l * t < targetY l) /\
  (forall t, 4 / 3 <= t -> riseY l + riseVelocity l * t >= targetY l).
Proof.
  intros Hr l.
  pose proof (launchShell_launchedFrom random o k sh Hr) as H. fold l in H.
  split; [exact H |].
  destruct H as (_ & _ & _ & _ & _ & Ey & Hv & Ht & _).
  unfold SHELL_RISE_SPEED_MIN, SHELL_RISE_SPEED_MAX in Hv.
  rewrite Ey. split.
  - intros t Ht'. destruct (Rle_dec t 0) as [N | N]; nra.
  - intros t Ht'. nra.
Qed.

Lemma launched_shell_rises_from_below_to_its_target_witness :
  (forall n : nat, 0 <= (fun _ : nat => 0.5) n < 1) /\
  riseY (launchShell (fun _ => 0.5) 0 (mkVector3 (-10) 6 0) initShell) = 2 /\
  targetY (launchShell (fun _ => 0.5) 0 (mkVector3 (-10) 6 0) initShell) = 8 /\
  riseY (launchShell (fun _ => 0.5) 0 (mkVector3 (-10) 6 0) initShell)
  + riseVelocity (launchShell (fun _ => 0.5) 0 (mkVector3 (-10) 6 0) initShell) * 0.4
  < targetY (launchShell (fun _ => 0.5) 0 (mkVector3 (-10) 6 0) initShell).
Proof.
  assert (Hr : forall n : nat, 0 <= (fun _ : nat => 0.5) n < 1) by (intros n; lra).
  split; [exact Hr |].
  split; [cbn; lra |]. split; [cbn; lra |].
  pose proof (launched_shell_rises_from_below_to_its_target
                (fun _ => 0.5) (mkVector3 (-10) 6 0) 0 initShell Hr) as H.
  cbv zeta in H. destruct H as (_ & Slow & _).
  apply Slow. lra.
Defined.

(** *** Fading out *)

Lemma damp_to_zero (x lambda dt : R) : damp x 0 lambda dt = x * exp (- lambda * dt).
Proof. unfold damp, lerp. ring. Qed.

Lemma simulatedTime_app (l : list R) (r : R) :
  simulatedTime (l ++ [r]) = simulatedTime l + Rmin r 0.05.
Proof.
  induction l as [| a l IH]; cbn; [lra |].
  unfold simulatedTime in IH. cbn in IH. rewrite IH. lra.
Qed.

Lemma idleFrames_app (random : nat -> R) (o : Vector3) (l : list R) (r : R)
      (c : Component) :
  idleFrames random o (l ++ [r]) c
  = useFrame random o true false r (idleFrames random o l c).
Proof. unfold idleFrames. rewrite fold_left_app. reflexivity. Qed.

Lemma exp_minus_eight : exp (- 8) < 0.01.
Proof.
  pose proof (exp_ineq1 1 ltac:(lra)) as E1.
  assert (E2 : exp 2 = exp 1 * exp 1) by (rewrite <- exp_plus; f_equal; lra).
  assert (E4 : exp 4 = exp 2 * exp 2) by (rewrite <- exp_plus; f_equal; lra).
  assert (E8 : exp 8 = exp 4 * exp 4) by (rewrite <- exp_plus; f_equal; lra).
  assert (H2 : 4 < exp 2) by nra.
  assert (H4 : 16 < exp 4) by nra.
  assert (H8 : 256 < exp 8) by nra.
  assert (O : exp (- 8) = / exp 8) by (rewrite <- exp_Ropp; f_equal; lra).
  rewrite O.
  assert (P : 0 < exp 8) by lra.
  assert (I : / exp 8 < / 256) by (apply Rinv_lt_contravar; nra).
  lra.
Qed.

(** The buffers of the fade-out: the shells are as they were or all
    retired, the particles are as they were. *)
Lemma frozen_step (d d1 : FireworkData) :
  d1 = d \/ d1 = set_shells (map (set_active false) (shells d)) d ->
  set_shells (map (set_active false) (shells d1)) d1 = d \/
  set_shells (map (set_active false) (shells d1)) d1
  = set_shells (map (set_active false) (shells d)) d.
Proof.
  intros [-> | ->]; right; [reflexivity |].
  destruct d. cbn. unfold set_shells. cbn. f_equal.
  rewrite map_map. reflexivity.
Qed.

Lemma idleFrames_spec (random : nat -> R) (o : Vector3) (rawDeltas : list R)
      (c : Component) :
  let c' := idleFrames random o rawDeltas c in
  materialOpacity c' = materialOpacity c * exp (- 4 * simulatedTime rawDeltas) /\
  trailOpacity c' = trailOpacity c * exp (- 4 * simulatedTime rawDeltas) /\
  (data c' = data c \/
   data c' = set_shells (map (set_active false) (shells (data c))) (data c)).
Proof.
  induction rawDeltas as [| r l IH] using rev_ind; intros c'; subst c'.
  - cbn. replace (- 4 * 0) with 0 by lra. rewrite exp_0.
    split; [lra |]. split; [lra | left; reflexivity].
  - cbv zeta in IH. destruct IH as (M & T & F).
    rewrite idleFrames_app, simulatedTime_app.
    set (c1 := idleFrames random o l c) in *.
    unfold useFrame, advance. cbn [negb].
    rewrite !damp_to_zero.
    replace (- (4) * Rmin r 0.05) with (- 4 * Rmin r 0.05) by lra.
    replace (- 4 * (simulatedTime l + Rmin r 0.05))
      with (- 4 * simulatedTime l + - 4 * Rmin r 0.05) by lra.
    rewrite exp_plus.
    cbn [materialOpacity trailOpacity data].
    split; [rewrite M; ring |]. split; [rewrite T; ring |].
    destruct (Rlt_dec _ _); [apply frozen_step; exact F | exact F].
Qed.

Lemma idleFrames_retire (random : nat -> R) (o : Vector3) (rawDeltas : list R)
      (c : Component) :
  materialOpacity c <= 1 -> 2 <= simulatedTime rawDeltas ->
  Forall (fun sh => active sh = false) (shells (data (idleFrames random o rawDeltas c))).
Proof.
  intros Hm Ht.
  destruct rawDeltas as [| r l _] using rev_ind.
  { cbn in Ht. lra. }
  pose proof (idleFrames_spec random o (l ++ [r]) c) as S. cbv zeta in S.
  destruct S as (M & _ & _).
  rewrite idleFrames_app in *.
  set (c1 := idleFrames random o l c) in *.
  assert (Small : materialOpacity (useFrame random o true false r c1) < 0.01).
  { rewrite M.
    assert (E : exp (- 4 * simulatedTime (l ++ [r])) <= exp (- 8)).
    { destruct (Rle_lt_or_eq_dec 2 _ Ht) as [Lt | Eq].
      - left. apply exp_increasing. lra.
      - right. f_equal. lra. }
    pose proof exp_minus_eight as E8.
    pose proof (exp_pos (- 4 * simulatedTime (l ++ [r]))) as P.
    destruct (Rle_dec (materialOpacity c) 0); nra. }
  revert Small. unfold useFrame, advance. cbn [negb materialOpacity data].
  intros Small.
  destruct (Rlt_dec _ _) as [_ | N]; [| exfalso; apply N; exact Small].
  cbn. apply Forall_map. apply Forall_forall. intros sh _. reflexivity.
Qed.

(** X17. Frames with [isActive = false] multiply both opacities by
    [exp (-4 * delta)], so over any number of frames by [exp (-4 * T)]
    for the simulated time [T].  They do not move, age or recolour any
    particle: the six particle buffers stay as they are, and the shells
    are as they were or all retired.  When the material's opacity is at
    most 1 at the start, every shell is inactive once 2 s have been
    simulated. *)
Theorem fade_out_freezes_the_particles_and_retires_the_shells
        (random : nat -> R) (o : Vector3) (rawDeltas : list R) (c : Component) :
  let c' := idleFrames random o rawDeltas c in
  materialOpacity c' = materialOpacity c * exp (- 4 * simulatedTime rawDeltas) /\
  trailOpacity c' = trailOpacity c * exp (- 4 * simulatedTime rawDeltas) /\
  positions (data c') = positions (data c) /\
  velocities (data c') = velocities (data c) /\
  colors (data c') = colors (data c) /\
  sizes (data c') = sizes (data c) /\
  ages (data c') = ages (data c) /\
  lifetimes (data c') = lifetimes (data c) /\
  (shells (data c') = shells (data c) \/
   shells (data c') = map (set_active false) (shells (data c))) /\
  (materialOpacity c <= 1 -> 2 <= simulatedTime rawDeltas ->
   Forall (fun sh => active sh = false) (shells (data c'))).
Proof.
  intros c'. subst c'.
  pose proof (idleFrames_spec random o rawDeltas c) as S. cbv zeta in S.
  destruct S as (M & T & F).
  split; [exact M |]. split; [exact T |].
  assert (Buf : positions (data (idleFrames random o rawDeltas c)) = positions (data c) /\
                velocities (data (idleFrames random o rawDeltas c)) = velocities (data c) /\
                colors (data (idleFrames random o rawDeltas c)) = colors (data c) /\
                sizes (data (idleFrames random o rawDeltas c)) = sizes (data c) /\
                ages (data (idleFrames random o rawDeltas c)) = ages (data c) /\
                lifetimes (data (idleFrames random o rawDeltas c)) = lifetimes (data c) /\
                (shells (data (idleFrames random o rawDeltas c)) = shells (data c) \/
                 shells (data (idleFrames random o rawDeltas c))
                 = map (set_active false) (shells (data c)))).
  { destruct F as [-> | ->]; cbn; repeat split; auto. }
  destruct Buf as (B1 & B2 & B3 & B4 & B5 & B6 & B7).
  repeat (split; [assumption |]).
  apply idleFrames_retire.
Qed.

Lemma fade_out_freezes_the_particles_and_retires_the_shells_witness :
  let c := mkComponent
             (set_shells (<[0%nat := mkShell true rising 0 0 2 6 8 0 []]> (shells initialData))
                initialData)
             0 true 1 0.7 0 in
  let c' := idleFrames (fun _ => 0) (mkVector3 (-10) 6 0) (repeat 1 40) c in
  materialOpacity c <= 1 /\ 2 <= simulatedTime (repeat 1 40) /\
  Forall (fun sh => active sh = false) (shells (data c')).
Proof.
  intros c c'.
  assert (Hm : materialOpacity c <= 1) by (cbn; lra).
  assert (Ht : 2 <= simulatedTime (repeat 1 40)).
  { cbn. unfold Rmin. destruct (Rle_dec 1 0.05); lra. }
  split; [exact Hm |]. split; [exact Ht |].
  pose proof (fade_out_freezes_the_particles_and_retires_the_shells
                (fun _ => 0) (mkVector3 (-10) 6 0) (repeat 1 40) c) as H.
  cbv zeta in H.
  destruct H as (_ & _ & _ & _ & _ & _ & _ & _ & _ & R).
  exact (R Hm Ht).
Defined.

(** *** Invariants of a run *)

Lemma launchLoop_length (random : nat -> R) (o : Vector3) (limit : nat)
      (shs : list ShellState) (k : nat) :
  length (fst (fst (launchLoop random o limit shs k))) = length shs.
Proof.
  unfold launchLoop.
  apply (forRange_inv (fun st : Launch => length (fst (fst st)) = length shs)).
  - intros j [[shs' n] k'] _ H. cbn [fst] in H. unfold volleyStep.
    destruct (n <? limit)%nat; [| exact H].
    destruct (shs' !! j) as [sh |]; [| exact H].
    destruct (active sh); [exact H |].
    cbn [fst]. rewrite length_insert. exact H.
  - reflexivity.
Qed.

Lemma set_shells_sized (shs : list ShellState) (d : FireworkData) :
  dataSized d -> length shs = length (shells d) -> dataSized (set_shells shs d).
Proof.
  intros (A1 & A2 & A3 & A4 & A5 & A6 & A7) L. unfold dataSized. cbn.
  rewrite L. repeat split; assumption.
Qed.

Lemma activationEffect_spec (random : nat -> R) (o : Vector3) (isActive : bool)
      (c : Component) :
  let c' := activationEffect random o isActive c in
  hasExplodedOnce c' = isActive /\
  launchTimer c' = launchTimer c /\
  materialOpacity c' = materialOpacity c /\
  trailOpacity c' = trailOpacity c /\
  (dataSized (data c) -> dataSized (data c')) /\
  (isActive = false -> data c' = data c).
Proof.
  intros c'. subst c'. unfold activationEffect.
  destruct isActive; cbn [negb andb].
  - destruct (hasExplodedOnce c) eqn:E; cbn [negb].
    + split; [exact E |]. do 3 (split; [reflexivity |]).
      split; [auto | discriminate].
    + pose proof (launchLoop_length random o VOLLEY (shells (data c)) (calls c)) as L.
      destruct (launchLoop random o VOLLEY (shells (data c)) (calls c)) as [[shs n] k].
      cbn [fst] in L. cbn.
      do 4 (split; [reflexivity |]). split; [| discriminate].
      intros Hd. apply set_shells_sized; assumption.
  - cbn. do 4 (split; [reflexivity |]). split; auto.
Qed.

Lemma launchOnTimer_sized (random : nat -> R) (o : Vector3) (delta : R)
      (c : Component) :
  dataSized (data c) -> dataSized (data (launchOnTimer random o delta c)).
Proof.
  intros Hd. unfold launchOnTimer.
  destruct (Rge_dec _ _); [| exact Hd].
  pose proof (launchLoop_length random o 1 (shells (data c)) (calls c)) as L.
  destruct (launchLoop random o 1 (shells (data c)) (calls c)) as [[shs n] k].
  cbn [fst] in L. cbn [data]. apply set_shells_sized; assumption.
Qed.

Lemma launchOnTimer_timer (random : nat -> R) (o : Vector3) (delta : R)
      (c : Component) :
  0 <= launchTimer c -> 0 <= delta ->
  0 <= launchTimer (launchOnTimer random o delta c) < LAUNCH_INTERVAL.
Proof.
  intros Ht Hd. unfold launchOnTimer.
  destruct (Rge_dec _ _) as [Due | Early].
  - destruct (launchLoop random o 1 (shells (data c)) (calls c)) as [[shs n] k].
    cbn. unfold LAUNCH_INTERVAL. lra.
  - cbn. lra.
Qed.

Lemma launchOnTimer_latch (random : nat -> R) (o : Vector3) (delta : R)
      (c : Component) :
  hasExplodedOnce (launchOnTimer random o delta c) = hasExplodedOnce c /\
  materialOpacity (launchOnTimer random o delta c) = materialOpacity c /\
  trailOpacity (launchOnTimer random o delta c) = trailOpacity c.
Proof.
  unfold launchOnTimer.
  destruct (Rge_dec _ _) as [Due | Early]; [| cbn; auto].
  destruct (launchLoop random o 1 (shells (data c)) (calls c)) as [[shs n] k].
  cbn. auto.
Qed.

Lemma damp_within (x y lambda dt : R) :
  0 <= lambda -> 0 <= dt -> 0 <= x <= y -> 0 <= damp x y lambda dt <= y.
Proof.
  intros Hl Hd Hx. unfold damp, lerp.
  assert (E : 0 < exp (- lambda * dt) <= 1).
  { split; [apply exp_pos |].
    destruct (Req_dec (lambda * dt) 0) as [Z | NZ].
    - replace (- lambda * dt) with 0 by lra. rewrite exp_0. lra.
    - left. rewrite <- exp_0. apply exp_increasing. nra. }
  set (e := exp (- lambda * dt)) in *. nra.
Qed.

Lemma Rmin_step_nonneg (r : R) : 0 <= r -> 0 <= Rmin r 0.05.
Proof. intros H. unfold Rmin. destruct (Rle_dec _ _); lra. Qed.

(** What a run keeps true of the component. *)
Lemma frame_invariant (random : nat -> R) (o : Vector3) (mounted isActive : bool)
      (rawDelta : R) (c : Component) :
  0 <= rawDelta ->
  dataSized (data c) ->
  0 <= launchTimer c < LAUNCH_INTERVAL ->
  0 <= materialOpacity c <= 1 -> 0 <= trailOpacity c <= 0.7 ->
  let c' := useFrame random o mounted isActive rawDelta c in
  dataSized (data c') /\ hasExplodedOnce c' = hasExplodedOnce c /\
  0 <= launchTimer c' < LAUNCH_INTERVAL /\
  0 <= materialOpacity c' <= 1 /\ 0 <= trailOpacity c' <= 0.7.
Proof.
  intros Hr Hd Ht Hm Htr c'. subst c'. unfold useFrame.
  destruct mounted; cbn [negb]; [| auto].
  pose proof (Rmin_step_nonneg rawDelta Hr) as Hdelta.
  set (delta := Rmin rawDelta 0.05) in *.
  destruct isActive.
  - unfold advance. cbn [negb].
    set (c1 := mkComponent _ _ _ _ _ _).
    pose proof (launchOnTimer_sized random o delta c1 Hd) as S1.
    assert (Ht1 : 0 <= launchTimer c1) by (unfold c1; cbn [launchTimer]; lra).
    pose proof (launchOnTimer_timer random o delta c1 Ht1 Hdelta) as T1.
    pose proof (launchOnTimer_latch random o delta c1) as (L1 & M1 & R1).
    set (c2 := launchOnTimer random o delta c1) in *.
    destruct (updateShells_others random delta MAX_SHELLS 0 MAX_SHELLS (data c2, calls c2))
      as [_ S2]; [lia | exact S1 |].
    unfold updateShells.
    destruct (forRange 0 MAX_SHELLS (updateShell random delta) (data c2, calls c2))
      as [d k].
    cbn [fst] in S2.
    cbn [data hasExplodedOnce launchTimer materialOpacity trailOpacity].
    split; [exact S2 |]. split; [rewrite L1; reflexivity |]. split; [exact T1 |].
    rewrite M1, R1. cbn [materialOpacity trailOpacity c1].
    split; apply damp_within; lra.
  - unfold advance. cbn [negb].
    assert (M : 0 <= damp (materialOpacity c) 0 4 delta <= 1).
    { rewrite damp_to_zero.
      pose proof (exp_pos (- (4) * delta)) as P.
      assert (E : exp (- (4) * delta) <= 1).
      { destruct (Req_dec delta 0) as [-> | NZ].
        - replace (- (4) * 0) with 0 by lra. rewrite exp_0. lra.
        - left. rewrite <- exp_0. apply exp_increasing. lra. }
      nra. }
    assert (T : 0 <= damp (trailOpacity c) 0 4 delta <= 0.7).
    { rewrite damp_to_zero.
      pose proof (exp_pos (- (4) * delta)) as P.
      assert (E : exp (- (4) * delta) <= 1).
      { destruct (Req_dec delta 0) as [-> | NZ].
        - replace (- (4) * 0) with 0 by lra. rewrite exp_0. lra.
        - left. rewrite <- exp_0. apply exp_increasing. lra. }
      nra. }
    cbn [data hasExplodedOnce launchTimer materialOpacity trailOpacity].
    split; [| auto].
    destruct (Rlt_dec _ _); [| exact Hd].
    apply set_shells_sized; [exact Hd | apply length_map].
Qed.

Lemma run_app (random : nat -> R) (o : Vector3) (l1 l2 : list Input) :
  run random o (l1 ++ l2) = fold_left (step random o) l2 (run random o l1).
Proof. unfold run. apply fold_left_app. Qed.

Lemma run_invariant (random : nat -> R) (o : Vector3) (inputs : list Input) :
  forwardFrames inputs ->
  let s := run random o inputs in
  dataSized (data (fst s)) /\ hasExplodedOnce (fst s) = snd s /\
  0 <= launchTimer (fst s) < LAUNCH_INTERVAL /\
  0 <= materialOpacity (fst s) <= 1 /\ 0 <= trailOpacity (fst s) <= 0.7.
Proof.
  induction inputs as [| i l IH] using rev_ind; intros Hf s; subst s.
  - unfold run. cbn [fold_left fst snd].
    pose proof (activationEffect_spec random o false initialComponent) as H.
    cbv zeta in H. destruct H as (E & T & M & R & S & _).
    rewrite T, M, R. cbn [launchTimer materialOpacity trailOpacity initialComponent].
    unfold LAUNCH_INTERVAL.
    split; [apply S; apply initialData_sized |]. split; [exact E |]. lra.
  - unfold forwardFrames in Hf. apply Forall_app in Hf. destruct Hf as [Hl Hi].
    specialize (IH Hl). cbv zeta in IH. destruct IH as (S & E & T & M & R).
    rewrite run_app. cbn [fold_left].
    destruct (run random o l) as [c a]. cbn [fst snd] in *.
    destruct i as [b | m r]; cbn [step fst snd].
    + pose proof (activationEffect_spec random o b c) as H.
      cbv zeta in H. destruct H as (E' & T' & M' & R' & S' & _).
      rewrite T', M', R'. auto.
    + apply Forall_inv in Hi.
      pose proof (frame_invariant random o m a r c Hi S T M R) as H.
      cbv zeta in H. destruct H as (S' & E' & T' & M' & R').
      rewrite E'. auto.
Qed.

(** X18. Whatever the renders and frames of a run, as long as no frame
    delta is negative: the buffers keep their allocated sizes, the volley
    latch equals the current [isActive], the launch timer is in
    [0, LAUNCH_INTERVAL), the material's opacity in [0, 1], the trail
    material's opacity in [0, 0.7], and at most [MAX_SHELLS] shells are
    active. *)
Theorem run_keeps_buffers_timer_and_opacities_in_range
        (random : nat -> R) (o : Vector3) (inputs : list Input) :
  forwardFrames inputs ->
  let s := run random o inputs in
  dataSized (data (fst s)) /\
  hasExplodedOnce (fst s) = snd s /\
  0 <= launchTimer (fst s) < LAUNCH_INTERVAL /\
  0 <= materialOpacity (fst s) <= 1 /\
  0 <= trailOpacity (fst s) <= 0.7 /\
  (activeCount (shells (data (fst s))) <= MAX_SHELLS)%nat.
Proof.
  intros Hf s.
  pose proof (run_invariant random o inputs Hf) as H. fold s in H.
  destruct H as (S & E & T & M & R).
  repeat (split; [assumption |]).
  destruct S as (_ & _ & _ & _ & _ & _ & L). rewrite <- L.
  unfold activeCount. apply length_filter.
Qed.

Lemma run_keeps_buffers_timer_and_opacities_in_range_witness :
  let inputs := [Render true; Frame true 1; Render false; Frame true 0.016] in
  let s := run (fun _ => 0.5) (mkVector3 (-10) 6 0) inputs in
  forwardFrames inputs /\ snd s = false /\ hasExplodedOnce (fst s) = false /\
  0 <= materialOpacity (fst s) <= 1.
Proof.
  intros inputs s.
  assert (Hf : forwardFrames inputs).
  { unfold inputs, forwardFrames. repeat constructor; lra. }
  split; [exact Hf |].
  pose proof (run_keeps_buffers_timer_and_opacities_in_range
                (fun _ => 0.5) (mkVector3 (-10) 6 0) inputs Hf) as H.
  cbv zeta in H. fold s in H.
  destruct H as (_ & E & _ & M & _).
  assert (Es : snd s = false) by reflexivity.
  split; [exact Es |]. split; [rewrite E; exact Es | exact M].
Defined.

(** *** The volley after a fade-out *)

Lemma idle_run (random : nat -> R) (o : Vector3) (rawDeltas : list R) (c : Component) :
  fold_left (step random o) (map (Frame true) rawDeltas) (c, false)
  = (idleFrames random o rawDeltas c, false).
Proof.
  revert c. induction rawDeltas as [| r l IH]; intros c; [reflexivity |].
  cbn [map fold_left step fst snd]. rewrite IH. reflexivity.
Qed.

Lemma idleFrames_latch (random : nat -> R) (o : Vector3) (rawDeltas : list R)
      (c : Component) :
  hasExplodedOnce (idleFrames random o rawDeltas c) = hasExplodedOnce c /\
  length (shells (data (idleFrames random o rawDeltas c))) = length (shells (data c)).
Proof.
  revert c. induction rawDeltas as [| r l IH]; intros c; [split; reflexivity |].
  unfold idleFrames in *. cbn [fold_left].
  destruct (IH (useFrame random o true false r c)) as [E L]. rewrite E, L.
  unfold useFrame, advance. cbn [negb hasExplodedOnce data].
  split; [reflexivity |].
  destruct (Rlt_dec _ _); [cbn; apply length_map | reflexivity].
Qed.

(** X19. After any run, turning [isActive] off and simulating 2 s of
    mounted frames leaves no shell active; turning [isActive] on again
    then launches exactly shells 0 to 4, each placed as [launchShell]
    places it, with 25 calls of [Math.random()]. *)
Theorem volley_fires_again_after_a_fade_out
        (random : nat -> R) (o : Vector3) (inputs : list Input) (rawDeltas : list R) :
  (forall n, 0 <= random n < 1) ->
  forwardFrames inputs -> 2 <= simulatedTime rawDeltas ->
  let off := run random o (inputs ++ Render false :: map (Frame true) rawDeltas) in
  let on := run random o
              (inputs ++ Render false :: map (Frame true) rawDeltas ++ [Render true]) in
  activeCount (shells (data (fst off))) = 0%nat /\
  snd on = true /\
  activeCount (shells (data (fst on))) = VOLLEY /\
  calls (fst on) = (calls (fst off) + 5 * VOLLEY)%nat /\
  forall i sh, shells (data (fst on)) !! i = Some sh ->
    (active sh = true <-> (i < VOLLEY)%nat) /\
    (active sh = true -> launchedFrom o sh).
Proof.
  intros Hr Hf Ht off on.
  pose proof (run_invariant random o inputs Hf) as H. cbv zeta in H.
  destruct H as (S & _ & _ & M & _).
  assert (Eoff : off = (idleFrames random o rawDeltas
                          (activationEffect random o false (fst (run random o inputs))),
                        false)).
  { subst off. rewrite run_app. cbn [fold_left step]. apply idle_run. }
  assert (Eon : on = step random o off (Render true)).
  { subst on off.
    replace (inputs ++ Render false :: map (Frame true) rawDeltas ++ [Render true])
      with ((inputs ++ Render false :: map (Frame true) rawDeltas) ++ [Render true])
      by (rewrite <- app_assoc; reflexivity).
    rewrite run_app. reflexivity. }
  pose proof (activationEffect_spec random o false (fst (run random o inputs))) as A.
  cbv zeta in A. destruct A as (E1 & _ & M1 & _ & S1 & _).
  set (c1 := activationEffect random o false (fst (run random o inputs))) in *.
  pose proof (idleFrames_retire random o rawDeltas c1 ltac:(lra) Ht) as Idle.
  destruct (idleFrames_latch random o rawDeltas c1) as [E2 L2].
  set (c2 := idleFrames random o rawDeltas c1) in *.
  assert (L : length (shells (data c2)) = MAX_SHELLS).
  { rewrite L2. apply S1. exact S. }
  destruct (volley_on_idle_pool random o (shells (data c2)) (calls c2) L Idle)
    as (shs' & Eq & L' & Done & Rest).
  assert (Ec : fst on = mkComponent (set_shells shs' (data c2)) (launchTimer c2) true
                          (materialOpacity c2) (trailOpacity c2)
                          (calls c2 + 5 * VOLLEY)%nat).
  { rewrite Eon, Eoff. cbn [step fst snd]. unfold activationEffect.
    rewrite E2, E1. cbn [negb andb]. rewrite Eq. reflexivity. }
  assert (Each : forall i sh, shs' !! i = Some sh ->
                   (active sh = true <-> (i < VOLLEY)%nat) /\
                   (active sh = true -> launchedFrom o sh)).
  { intros i sh Ei. destruct (decide (i < VOLLEY)%nat) as [Hi | Hi].
    - destruct (Done i Hi) as (sh0 & _ & E3). rewrite E3 in Ei.
      injection Ei as <-.
      split; [split; auto |]. intros _. apply launchShell_launchedFrom. exact Hr.
    - rewrite Rest in Ei by lia. rewrite Forall_lookup in Idle.
      rewrite (Idle i sh Ei). split; [split; [discriminate | lia] | discriminate]. }
  split; [| split; [| split; [| split]]].
  - rewrite Eoff. cbn [fst].
    apply (activeCount_prefix _ 0); [lia | intros i sh Hi; lia |].
    intros i sh _ Ei. rewrite Forall_lookup in Idle. apply (Idle i sh Ei).
  - rewrite Eon. reflexivity.
  - rewrite Ec. cbn [data shells set_shells]. apply activeCount_prefix.
    + rewrite L'. unfold VOLLEY, MAX_SHELLS. lia.
    + intros i sh Hi Ei. destruct (Each i sh Ei) as [[_ Bw] _]. exact (Bw Hi).
    + intros i sh Hi Ei. destruct (active sh) eqn:Ac; [| reflexivity].
      destruct (Each i sh Ei) as [[Fw _] _]. specialize (Fw Ac). lia.
  - rewrite Ec, Eoff. reflexivity.
  - rewrite Ec. cbn [data shells set_shells]. exact Each.
Qed.

Lemma volley_fires_again_after_a_fade_out_witness :
  let random := fun _ : nat => 0.5 in
  let inputs := [Render true; Frame true 1] in
  let on := run random (mkVector3 (-10) 6 0)
              (inputs ++ Render false :: map (Frame true) (repeat 1 40) ++ [Render true]) in
  (forall n, 0 <= random n < 1) /\ forwardFrames inputs /\
  2 <= simulatedTime (repeat 1 40) /\
  activeCount (shells (data (fst on))) = VOLLEY.
Proof.
  intros random inputs on.
  assert (Hr : forall n, 0 <= random n < 1) by (intros n; unfold random; lra).
  assert (Hf : forwardFrames inputs).
  { unfold inputs, forwardFrames. repeat constructor; lra. }
  assert (Ht : 2 <= simulatedTime (repeat 1 40)).
  { cbn. unfold Rmin. destruct (Rle_dec 1 0.05); lra. }
  split; [exact Hr |]. split; [exact Hf |]. split; [exact Ht |].
  pose proof (volley_fires_again_after_a_fade_out
                random (mkVector3 (-10) 6 0) inputs (repeat 1 40) Hr Hf Ht) as H.
  cbv zeta in H. destruct H as (_ & _ & V & _).
  exact V.
Defined.

End FireworkRunFacts.

(** ** Interactive prop *)

Module PictureFrameFacts.

Import Three ThreeFacts PictureFrame.
Local Open Scope R_scope.

(** Pointer-down on an active prop registers the two listeners, and a
    second pointer-down does not register them again. *)
Lemma pointer_down_registers_once (defaultPosition : Vector3) (x y x' y' : R) :
  let s1 := run defaultPosition [SetActive true; PointerDown x y] in
  let s2 := run defaultPosition [SetActive true; PointerDown x y; PointerDown x' y'] in
  windowListeners s1 = [pointermove_onWindowPointerMove; pointerup_onWindowPointerUp] /\
  isDragging s1 = true /\
  windowListeners s2 = windowListeners s1.
Proof. repeat split; reflexivity. Qed.

(** Pointer-up ends the drag and removes both listeners. *)
Lemma pointer_up_releases (defaultPosition : Vector3) (x y : R) :
  let s := run defaultPosition [SetActive true; PointerDown x y; WindowPointerUp] in
  windowListeners s = [] /\ isDragging s = false.
Proof. split; reflexivity. Qed.

(** C3 on the code.  The prop is activated, a drag starts, and the parent
    deactivates the prop before the pointer is released: the effect clears
    [isDragging] and leaves both listeners on [window].  They stay there
    through the pointer-up that follows, because [onWindowPointerUp] only
    removes them while [isDragging] is set. *)
Theorem listeners_leak_when_deactivated_mid_drag (defaultPosition : Vector3) :
  let s := run defaultPosition [SetActive true; PointerDown 0 0; SetActive false] in
  let s' := run defaultPosition
              [SetActive true; PointerDown 0 0; SetActive false; WindowPointerUp] in
  isDragging s = false /\
  windowListeners s = [pointermove_onWindowPointerMove; pointerup_onWindowPointerUp] /\
  ~ attachedIffDragging s /\
  windowListeners s' = windowListeners s.
Proof.
  cbv zeta. split; [reflexivity |]. split; [reflexivity |]. split; [| reflexivity].
  unfold attachedIffDragging, listenersAttached.
  change (windowListeners (run defaultPosition
            [SetActive true; PointerDown 0 0; SetActive false]))
    with [pointermove_onWindowPointerMove; pointerup_onWindowPointerUp].
  change (isDragging (run defaultPosition
            [SetActive true; PointerDown 0 0; SetActive false])) with false.
  intros [H _]. assert (E : false = true); [| discriminate E].
  apply H. split; [apply list_elem_of_here | apply list_elem_of_further, list_elem_of_here].
Qed.

(** *** Smoothing *)

Lemma smoothing_factor_range (rate delta : R) :
  0 < rate -> 0 <= delta -> 0 <= 1 - exp (- delta * rate) < 1.
Proof.
  intros Hr Hd. pose proof (exp_pos (- delta * rate)) as P.
  assert (U : exp (- delta * rate) <= 1).
  { rewrite <- exp_0. destruct (Req_dec (- delta * rate) 0) as [-> | Hne]; [lra |].
    left. apply exp_increasing. nra. }
  lra.
Qed.

(** An active prop whose inner group is not tilted yet: a frame with
    delta 1 tilts it further than a frame with delta 0.05 does. *)
Lemma prop_smoothing_uses_raw_delta :
  ~ clampsDelta
      (useFrame (mkVector3 0 0.735 3) (mkVector3 3 2 0) (mkVector3 (-1) 0 0)).
Proof.
  intros H.
  specialize (H 1 (run (mkVector3 0 0.735 3) [SetActive true])).
  apply (f_equal tilt) in H.
  change (tilt (useFrame (mkVector3 0 0.735 3) (mkVector3 3 2 0) (mkVector3 (-1) 0 0)
                  1 (run (mkVector3 0 0.735 3) [SetActive true])))
    with (0 + (- FRAME_TILT - 0) * (1 - exp (- 1 * 10))) in H.
  change (tilt (useFrame (mkVector3 0 0.735 3) (mkVector3 3 2 0) (mkVector3 (-1) 0 0)
                  (Rmin 1 MAX_STEP) (run (mkVector3 0 0.735 3) [SetActive true])))
    with (0 + (- FRAME_TILT - 0) * (1 - exp (- Rmin 1 MAX_STEP * 10))) in H.
  assert (M : Rmin 1 MAX_STEP = 0.05).
  { unfold Rmin, MAX_STEP. destruct (Rle_dec 1 0.05); lra. }
  rewrite M in H. unfold FRAME_TILT in H.
  assert (L : exp (- 1 * 10) < exp (- (0.05) * 10)) by (apply exp_increasing; lra).
  lra.
Qed.

End PictureFrameFacts.

(** ** Gestures on the prop and its smoothing *)

Module PropGestureFacts.

Import Three PictureFrame PictureFrameFacts.
Local Open Scope R_scope.

(** *** The listeners follow the drag *)

(** The two shapes of a prop whose listeners follow the drag. *)
Lemma released_or_dragging_step (defaultPosition : Vector3) (s : Prop_) (i : Input) :
  (i = SetActive false -> isDragging s = false) ->
  released s \/
  (isDragging s = true /\ isActive s = true /\
   windowListeners s = [pointermove_onWindowPointerMove; pointerup_onWindowPointerUp]) ->
  let s' := step defaultPosition s i in
  released s' \/
  (isDragging s' = true /\ isActive s' = true /\
   windowListeners s' = [pointermove_onWindowPointerMove; pointerup_onWindowPointerUp]).
Proof.
  intros Hi H s'. subst s'. unfold released in *.
  destruct i as [b | | | x y | | x y |]; cbn [step].
  - unfold setActive. destruct (Bool.eqb b (isActive s)) eqn:Eb; [exact H |].
    unfold activeEffects. cbn [isActive]. destruct b; cbn [negb].
    + destruct H as [H | (D & A & L)]; [left; exact H |].
      rewrite A in Eb. discriminate.
    + left. cbn. split; [reflexivity |].
      destruct H as [[_ L] | (D & _)]; [exact L |].
      rewrite (Hi eq_refl) in D. discriminate.
  - unfold handlePointerOver. destruct (negb (isActive s)); cbn; exact H.
  - unfold handlePointerOut. cbn. exact H.
  - unfold handlePointerDown. destruct (isActive s) eqn:A; [| rewrite A; exact H].
    right. cbn. split; [reflexivity |]. split; [reflexivity |].
    destruct H as [[_ L] | (_ & _ & L)]; rewrite L; reflexivity.
  - unfold handleClick. cbn. exact H.
  - unfold windowPointerMove.
    destruct (decide _) as [In | Out]; [| exact H].
    unfold onWindowPointerMove.
    destruct H as [[D L] | (D & A & L)]; rewrite D; cbn [negb].
    + left. split; assumption.
    + right. cbn. auto.
  - unfold windowPointerUp.
    destruct (decide _) as [In | Out]; [| exact H].
    unfold onWindowPointerUp.
    destruct H as [[D L] | (D & A & L)]; rewrite D.
    + left. split; assumption.
    + left. cbn. split; [reflexivity |]. rewrite L. reflexivity.
Qed.

Lemma released_or_dragging_run (defaultPosition : Vector3) (inputs : list Input)
      (s : Prop_) :
  releasedBeforeDeactivation defaultPosition s inputs ->
  released s \/
  (isDragging s = true /\ isActive s = true /\
   windowListeners s = [pointermove_onWindowPointerMove; pointerup_onWindowPointerUp]) ->
  let s' := fold_left (step defaultPosition) inputs s in
  released s' \/
  (isDragging s' = true /\ isActive s' = true /\
   windowListeners s' = [pointermove_onWindowPointerMove; pointerup_onWindowPointerUp]).
Proof.
  revert s. induction inputs as [| i inputs IH]; intros s Ok H; [exact H |].
  destruct Ok as [Hi Ok]. cbn [fold_left]. apply IH; [exact Ok |].
  apply released_or_dragging_step; assumption.
Qed.

Lemma released_mounted (defaultPosition : Vector3) : released (mounted defaultPosition).
Proof. split; reflexivity. Qed.

(** X12. As long as the prop is never deactivated while it is dragged, the
    listeners on [window] follow the drag through any inputs: after each
    run the two listeners are registered exactly when the prop is
    dragged, a released prop has no listener on [window] at all, and a
    dragged prop is active and has each of the two registered once. *)
Theorem listeners_follow_the_drag (defaultPosition : Vector3) (inputs : list Input) :
  releasedBeforeDeactivation defaultPosition (mounted defaultPosition) inputs ->
  let s := run defaultPosition inputs in
  attachedIffDragging s /\
  (isDragging s = false -> windowListeners s = []) /\
  (isDragging s = true ->
     isActive s = true /\
     windowListeners s = [pointermove_onWindowPointerMove; pointerup_onWindowPointerUp]).
Proof.
  intros Ok s.
  pose proof (released_or_dragging_run defaultPosition inputs (mounted defaultPosition)
                Ok (or_introl (released_mounted defaultPosition))) as H.
  cbv zeta in H. fold (run defaultPosition inputs) in H. fold s in H.
  unfold attachedIffDragging, listenersAttached, released in *.
  destruct H as [[D L] | (D & A & L)]; rewrite D, L.
  - split; [| split; [reflexivity | discriminate]].
    split; [intros [H _]; apply elem_of_nil in H; contradiction | discriminate].
  - split; [| split; [discriminate | auto]].
    split; [reflexivity |]. intros _. split.
    + apply list_elem_of_here.
    + apply list_elem_of_further, list_elem_of_here.
Qed.

(** A drag that is released before the prop is deactivated. *)
Lemma listeners_follow_the_drag_witness :
  releasedBeforeDeactivation (mkVector3 0 0.735 3) (mounted (mkVector3 0 0.735 3))
    [SetActive true; PointerDown 0 0; WindowPointerMove 5 0; WindowPointerUp;
     SetActive false] /\
  windowListeners
    (run (mkVector3 0 0.735 3)
       [SetActive true; PointerDown 0 0; WindowPointerMove 5 0; WindowPointerUp;
        SetActive false]) = [].
Proof.
  assert (Ok : releasedBeforeDeactivation (mkVector3 0 0.735 3)
                 (mounted (mkVector3 0 0.735 3))
                 [SetActive true; PointerDown 0 0; WindowPointerMove 5 0;
                  WindowPointerUp; SetActive false]).
  { cbn [releasedBeforeDeactivation].
    repeat split; try discriminate. }
  split; [exact Ok |].
  pose proof (listeners_follow_the_drag (mkVector3 0 0.735 3) _ Ok) as H.
  cbv zeta in H. destruct H as (_ & H & _). apply H. reflexivity.
Defined.

(** *** The gesture *)

Lemma last_cons {A : Type} (m : A) (l : list A) (d : A) :
  List.last (m :: l) d = List.last l m.
Proof.
  revert m d. induction l as [| m' l IH]; intros m d; [reflexivity |].
  change (List.last (m :: m' :: l) d) with (List.last (m' :: l) d).
  rewrite (IH m' d), (IH m' m). reflexivity.
Qed.

Lemma jumps_or_not (from : R * R) (moves : list (R * R)) :
  jumps from moves \/ ~ jumps from moves.
Proof.
  revert from. induction moves as [| m moves IH]; intros from; [right; intros [] |].
  cbn [jumps].
  destruct (Rgt_dec (Rabs (fst m - fst from)) 2) as [Jx | Nx]; [left; auto |].
  destruct (Rgt_dec (Rabs (snd m - snd from)) 2) as [Jy | Ny]; [left; auto |].
  destruct (IH m) as [J | NJ]; [left; auto | right; tauto].
Qed.

(** Moves of a dragged prop turn it by the way the pointer has gone since
    the move before, and leave it dragged. *)
Lemma drag_moves (moves : list (R * R)) (s : Prop_) :
  isDragging s = true ->
  let s' := fold_left (fun t m => onWindowPointerMove (fst m) (snd m) t) moves s in
  let last := List.last moves (previousPointerPosition s) in
  isDragging s' = true /\ isActive s' = isActive s /\ isHovered s' = isHovered s /\
  windowListeners s' = windowListeners s /\ outputs s' = outputs s /\
  position s' = position s /\ tilt s' = tilt s /\
  previousPointerPosition s' = last /\
  rotationOffset s'
  = mkEuler (ex (rotationOffset s)
             - (snd last - snd (previousPointerPosition s)) * 0.012)
            (ey (rotationOffset s)
             + (fst last - fst (previousPointerPosition s)) * 0.012)
            (ez (rotationOffset s)) /\
  (jumps (previousPointerPosition s) moves -> hasDragged s' = true) /\
  (~ jumps (previousPointerPosition s) moves -> hasDragged s' = hasDragged s).
Proof.
  revert s. induction moves as [| m moves IH]; intros s D.
  - cbn. repeat split; try reflexivity; try exact D.
    + destruct (rotationOffset s) as [a b c]. cbn. f_equal; lra.
    + intros [].
  - cbn [fold_left].
    set (s1 := onWindowPointerMove (fst m) (snd m) s).
    assert (E1 : s1 = mkProp (isActive s) (isHovered s) true
                   (if Rgt_dec (Rabs (fst m - fst (previousPointerPosition s))) 2 then true
                    else if Rgt_dec (Rabs (snd m - snd (previousPointerPosition s))) 2
                         then true else hasDragged s)
                   (fst m, snd m)
                   (mkEuler (ex (rotationOffset s)
                             - (snd m - snd (previousPointerPosition s)) * 0.012)
                            (ey (rotationOffset s)
                             + (fst m - fst (previousPointerPosition s)) * 0.012)
                            (ez (rotationOffset s)))
                   (position s) (tilt s) (windowListeners s) (outputs s)).
    { unfold s1, onWindowPointerMove. rewrite D. reflexivity. }
    assert (D1 : isDragging s1 = true) by (rewrite E1; reflexivity).
    specialize (IH s1 D1). cbv zeta in IH.
    destruct IH as (I1 & I2 & I3 & I4 & I5 & I6 & I7 & I8 & I9 & I10 & I11).
    assert (P1 : previousPointerPosition s1 = m).
    { rewrite E1. cbn. destruct m; reflexivity. }
    assert (L : List.last (m :: moves) (previousPointerPosition s)
                = List.last moves (previousPointerPosition s1)).
    { rewrite P1. apply last_cons. }
    cbv zeta. rewrite L.
    split; [exact I1 |]. split; [rewrite I2, E1; reflexivity |].
    split; [rewrite I3, E1; reflexivity |]. split; [rewrite I4, E1; reflexivity |].
    split; [rewrite I5, E1; reflexivity |]. split; [rewrite I6, E1; reflexivity |].
    split; [rewrite I7, E1; reflexivity |]. split; [exact I8 |].
    split.
    { rewrite I9, P1. rewrite E1. cbn [rotationOffset ex ey ez]. f_equal; lra. }
    rewrite P1 in I10, I11. cbn [jumps]. split.
    + intros [Jx | [Jy | J]].
      * destruct (jumps_or_not m moves) as [J | NJ]; [apply I10; exact J |].
        rewrite (I11 NJ), E1. cbn [hasDragged].
        destruct (Rgt_dec _ _) as [_ | No]; [reflexivity | contradiction].
      * destruct (jumps_or_not m moves) as [J | NJ]; [apply I10; exact J |].
        rewrite (I11 NJ), E1. cbn [hasDragged].
        destruct (Rgt_dec _ _) as [_ | _]; [reflexivity |].
        destruct (Rgt_dec _ _) as [_ | No]; [reflexivity | contradiction].
      * apply I10. exact J.
    + intros NJ. rewrite I11 by tauto. rewrite E1. cbn [hasDragged].
      destruct (Rgt_dec _ _) as [Jx | _]; [tauto |].
      destruct (Rgt_dec _ _) as [Jy | _]; [tauto | reflexivity].
Qed.

(** While the prop is dragged the moves on [window] reach it. *)
Lemma moves_delivered (defaultPosition : Vector3) (moves : list (R * R)) (s : Prop_) :
  isDragging s = true ->
  pointermove_onWindowPointerMove ∈ windowListeners s ->
  fold_left (step defaultPosition)
    (map (fun m => WindowPointerMove (fst m) (snd m)) moves) s
  = fold_left (fun t m => onWindowPointerMove (fst m) (snd m) t) moves s.
Proof.
  revert s. induction moves as [| m moves IH]; intros s D In; [reflexivity |].
  cbn [map fold_left step]. unfold windowPointerMove at 1.
  destruct (decide _) as [_ | Out]; [| contradiction].
  destruct (drag_moves [m] s D) as (D1 & _ & _ & L1 & _). cbn [fold_left] in D1, L1.
  apply IH; [exact D1 | rewrite L1; exact In].
Qed.

Lemma gesture_result (defaultPosition : Vector3) (s : Prop_) (start : R * R)
      (moves : list (R * R)) :
  isActive s = true -> released s ->
  let s' := fold_left (step defaultPosition) (gesture start moves) s in
  let last := List.last moves start in
  released s' /\ isActive s' = true /\ hasDragged s' = false /\
  position s' = position s /\ tilt s' = tilt s /\
  rotationOffset s'
  = mkEuler (ex (rotationOffset s) - (snd last - snd start) * 0.012)
            (ey (rotationOffset s) + (fst last - fst start) * 0.012)
            (ez (rotationOffset s)) /\
  (jumps start moves ->
     outputs s' = DragChange false :: DragChange true :: outputs s) /\
  (~ jumps start moves ->
     outputs s' = Toggle :: DragChange false :: DragChange true :: outputs s).
Proof.
  intros A [D L] s' last. subst s'. unfold gesture.
  cbn [fold_left step]. rewrite fold_left_app.
  set (s1 := handlePointerDown (fst start) (snd start) s).
  assert (E1 : s1 = mkProp true (isHovered s) true false (fst start, snd start)
                   (rotationOffset s) (position s) (tilt s)
                   [pointermove_onWindowPointerMove; pointerup_onWindowPointerUp]
                   (DragChange true :: outputs s)).
  { unfold s1, handlePointerDown. rewrite A, L. reflexivity. }
  assert (D1 : isDragging s1 = true) by (rewrite E1; reflexivity).
  assert (In1 : pointermove_onWindowPointerMove ∈ windowListeners s1).
  { rewrite E1. cbn. apply list_elem_of_here. }
  rewrite (moves_delivered defaultPosition moves s1 D1 In1).
  destruct (drag_moves moves s1 D1)
    as (D2 & A2 & _ & L2 & O2 & P2 & T2 & _ & R2 & J2 & NJ2).
  set (s2 := fold_left (fun t m => onWindowPointerMove (fst m) (snd m) t) moves s1) in *.
  assert (Pp : previousPointerPosition s1 = start).
  { rewrite E1. cbn. destruct start; reflexivity. }
  rewrite Pp in R2, J2, NJ2.
  assert (L2' : windowListeners s2
                = [pointermove_onWindowPointerMove; pointerup_onWindowPointerUp]).
  { rewrite L2, E1. reflexivity. }
  cbn [fold_left step]. unfold windowPointerUp.
  destruct (decide _) as [_ | Out];
    [| exfalso; apply Out; rewrite L2';
       apply list_elem_of_further, list_elem_of_here].
  unfold onWindowPointerUp. rewrite D2. unfold handleClick, released.
  cbn [isActive isHovered isDragging hasDragged previousPointerPosition rotationOffset
       position tilt windowListeners outputs].
  rewrite L2'.
  split; [split; reflexivity |]. split; [rewrite A2, E1; reflexivity |].
  split; [reflexivity |]. split; [rewrite P2, E1; reflexivity |].
  split; [rewrite T2, E1; reflexivity |].
  split; [rewrite R2, E1; reflexivity |].
  rewrite O2. split.
  - intros J. rewrite (J2 J), E1. reflexivity.
  - intros NJ. rewrite (NJ2 NJ), E1. reflexivity.
Qed.

(** X13. A gesture on an active prop at rest turns it by the way the
    pointer has gone, whatever the moves in between: the rotation offset
    changes by 0.012 times the difference between the last pointer
    position and the position of the pointer-down, about the x axis
    against the vertical way and about the y axis with the horizontal
    way.  The gesture moves neither the position nor the tilt, and leaves
    the prop active and at rest. *)
Theorem drag_turns_the_prop_by_the_way_of_the_pointer
        (defaultPosition : Vector3) (s : Prop_) (start : R * R) (moves : list (R * R)) :
  isActive s = true -> released s ->
  let s' := fold_left (step defaultPosition) (gesture start moves) s in
  let last := List.last moves start in
  rotationOffset s'
  = mkEuler (ex (rotationOffset s) - (snd last - snd start) * 0.012)
            (ey (rotationOffset s) + (fst last - fst start) * 0.012)
            (ez (rotationOffset s)) /\
  position s' = position s /\ tilt s' = tilt s /\
  released s' /\ isActive s' = true.
Proof.
  intros A Re s' last.
  destruct (gesture_result defaultPosition s start moves A Re)
    as (Re' & A' & _ & P & T & Ro & _).
  auto.
Qed.

(** X14. The click that ends a gesture toggles the prop exactly when no
    move of the gesture was more than 2 pixels away from the pointer
    position before it: after such a jump the gesture reports the drag
    and its end and no toggle, without one it reports the toggle after
    them.  Either way the click clears the drag flag, so that the next
    click toggles. *)
Theorem click_after_a_drag_does_not_toggle
        (defaultPosition : Vector3) (s : Prop_) (start : R * R) (moves : list (R * R)) :
  isActive s = true -> released s ->
  let s' := fold_left (step defaultPosition) (gesture start moves) s in
  (jumps start moves ->
     outputs s' = DragChange false :: DragChange true :: outputs s) /\
  (~ jumps start moves ->
     outputs s' = Toggle :: DragChange false :: DragChange true :: outputs s) /\
  hasDragged s' = false /\
  outputs (handleClick s') = Toggle :: outputs s'.
Proof.
  intros A Re s'.
  destruct (gesture_result defaultPosition s start moves A Re)
    as (_ & _ & H & _ & _ & _ & J & NJ).
  fold s' in H, J, NJ.
  split; [exact J |]. split; [exact NJ |]. split; [exact H |].
  unfold handleClick. cbn [outputs]. rewrite H. reflexivity.
Qed.

(** An active prop: the pointer goes down, moves 10 pixels to the right in
    two moves and is released. *)
Lemma drag_turns_the_prop_by_the_way_of_the_pointer_witness :
  isActive (run (mkVector3 0 0.735 3) [SetActive true]) = true /\
  released (run (mkVector3 0 0.735 3) [SetActive true]) /\
  released (fold_left (step (mkVector3 0 0.735 3)) (gesture (0, 0) [(5, 0); (10, 0)])
              (run (mkVector3 0 0.735 3) [SetActive true])).
Proof.
  assert (A : isActive (run (mkVector3 0 0.735 3) [SetActive true]) = true)
    by reflexivity.
  assert (Re : released (run (mkVector3 0 0.735 3) [SetActive true]))
    by (split; reflexivity).
  split; [exact A |]. split; [exact Re |].
  pose proof (drag_turns_the_prop_by_the_way_of_the_pointer (mkVector3 0 0.735 3)
                _ (0, 0) [(5, 0); (10, 0)] A Re) as H.
  cbv zeta in H. destruct H as (_ & _ & _ & H & _). exact H.
Defined.

(** The same prop dragged 5 pixels to the right in one move: the click
    that follows the release does not toggle it. *)
Lemma click_after_a_drag_does_not_toggle_witness :
  isActive (run (mkVector3 0 0.735 3) [SetActive true]) = true /\
  released (run (mkVector3 0 0.735 3) [SetActive true]) /\
  jumps (0, 0) [(5, 0)] /\
  outputs (fold_left (step (mkVector3 0 0.735 3)) (gesture (0, 0) [(5, 0)])
             (run (mkVector3 0 0.735 3) [SetActive true]))
  = DragChange false :: DragChange true
    :: outputs (run (mkVector3 0 0.735 3) [SetActive true]).
Proof.
  assert (A : isActive (run (mkVector3 0 0.735 3) [SetActive true]) = true)
    by reflexivity.
  assert (Re : released (run (mkVector3 0 0.735 3) [SetActive true]))
    by (split; reflexivity).
  assert (J : jumps (0, 0) [(5, 0)]).
  { left. cbn [fst]. rewrite Rabs_right; lra. }
  split; [exact A |]. split; [exact Re |]. split; [exact J |].
  pose proof (click_after_a_drag_does_not_toggle (mkVector3 0 0.735 3)
                _ (0, 0) [(5, 0)] A Re) as H.
  cbv zeta in H. destruct H as (H & _). apply H. exact J.
Defined.

(** *** Smoothing *)

Lemma lerpVector_twice (p t : Vector3) (a b : R) :
  lerpVector (lerpVector p t a) t b = lerpVector p t (1 - (1 - a) * (1 - b)).
Proof. unfold lerpVector. cbn [vx vy vz]. f_equal; ring. Qed.

Lemma smoothing_factor_sum (rate d1 d2 : R) :
  1 - (1 - (1 - exp (- d1 * rate))) * (1 - (1 - exp (- d2 * rate)))
  = 1 - exp (- (d1 + d2) * rate).
Proof.
  replace (- (d1 + d2) * rate) with (- d1 * rate + - d2 * rate) by ring.
  rewrite exp_plus. ring.
Qed.

(** X15. The smoothing of the prop does not depend on the frame rate: with
    the camera where it is, two frames of deltas [d1] and [d2] leave the
    prop where one frame of delta [d1 + d2] leaves it, and a frame of
    delta 0 leaves it as it is.  In a frame of delta [d1] the distance of
    the position to its target shrinks by the factor [exp (- 12 d1)]
    along each axis, the distance of the tilt to its target by
    [exp (- 10 d1)]. *)
Theorem smoothing_is_frame_rate_independent
        (defaultPosition cameraPosition cameraDirection : Vector3) (d1 d2 : R)
        (s : Prop_) :
  let frame := useFrame defaultPosition cameraPosition cameraDirection in
  let target := positionTarget defaultPosition cameraPosition cameraDirection s in
  let targetTilt := if isActive s then - FRAME_TILT else 0 in
  frame d2 (frame d1 s) = frame (d1 + d2) s /\
  frame 0 s = s /\
  vx (position (frame d1 s)) - vx target
  = (vx (position s) - vx target) * exp (- d1 * 12) /\
  vy (position (frame d1 s)) - vy target
  = (vy (position s) - vy target) * exp (- d1 * 12) /\
  vz (position (frame d1 s)) - vz target
  = (vz (position s) - vz target) * exp (- d1 * 12) /\
  tilt (frame d1 s) - targetTilt = (tilt s - targetTilt) * exp (- d1 * 10).
Proof.
  intros frame target targetTilt. subst frame.
  split; [| split].
  - unfold useFrame at 1 3.
    assert (ET : positionTarget defaultPosition cameraPosition cameraDirection
                   (useFrame defaultPosition cameraPosition cameraDirection d1 s)
                 = target) by reflexivity.
    rewrite ET.
    cbn [isActive isHovered isDragging hasDragged previousPointerPosition rotationOffset
         position tilt windowListeners outputs useFrame].
    fold target. unfold lerpAlpha.
    rewrite lerpVector_twice, smoothing_factor_sum.
    f_equal.
    replace (- (d1 + d2) * 10) with (- d1 * 10 + - d2 * 10) by ring.
    rewrite exp_plus. ring.
  - unfold useFrame, lerpAlpha, lerpVector.
    replace (- 0 * 12) with 0 by ring. replace (- 0 * 10) with 0 by ring.
    rewrite exp_0. destruct s as [a h d g pp ro [px py pz] ti wl ou].
    cbn [isActive isHovered isDragging hasDragged previousPointerPosition rotationOffset
         position tilt windowListeners outputs vx vy vz].
    f_equal; [f_equal; ring | ring].
  - unfold useFrame, lerpAlpha, lerpVector. fold target. fold targetTilt.
    cbn [position tilt vx vy vz]. repeat split; ring.
Qed.

End PropGestureFacts.

(** ** The frame delta across the components *)

Module FrameDeltaFacts.

Import Three ThreeFacts.
Local Open Scope R_scope.

Lemma fireworks_clamp_delta (random : nat -> R) (baseOrigin : Fireworks.Vector3)
      (mounted isActive : bool) :
  clampsDelta (Fireworks.useFrame random baseOrigin mounted isActive).
Proof.
  intros rawDelta c. unfold Fireworks.useFrame.
  destruct mounted; cbn [negb]; [| reflexivity].
  change 0.05 with MAX_STEP. rewrite Rmin_clamped. reflexivity.
Qed.

Lemma sparkles_clamp_delta (random dateNow : nat -> R) (mounted isActive : bool) :
  clampsDelta (FallingSparkles.useFrame random dateNow mounted isActive).
Proof.
  intros rawDelta f. unfold FallingSparkles.useFrame.
  destruct mounted; cbn [negb]; [| reflexivity].
  change 0.05 with MAX_STEP. rewrite Rmin_clamped. reflexivity.
Qed.

(** C7, as the code has it.  The firework simulation and the sparkle
    field consume the raw frame delta only through [Math.min(rawDelta,
    0.05)], which is at most 0.05.  The prop does not clamp: each frame
    moves its position towards the target by the factor
    [1 - exp (-12 delta)] and its tilt by [1 - exp (-10 delta)] of the raw
    delta, factors that lie in [0, 1) for every delta that is not
    negative. *)
Theorem delta_is_clamped_by_the_particle_systems :
  (forall random baseOrigin mounted isActive,
     clampsDelta (Fireworks.useFrame random baseOrigin mounted isActive)) /\
  (forall random dateNow mounted isActive,
     clampsDelta (FallingSparkles.useFrame random dateNow mounted isActive)) /\
  (forall rawDelta, Rmin rawDelta 0.05 <= MAX_STEP) /\
  (forall defaultPosition cameraPosition cameraDirection delta s,
     let s' := PictureFrame.useFrame defaultPosition cameraPosition cameraDirection
                 delta s in
     PictureFrame.position s'
     = PictureFrame.lerpVector (PictureFrame.position s)
         (PictureFrame.positionTarget defaultPosition cameraPosition cameraDirection s)
         (PictureFrame.lerpAlpha delta) /\
     PictureFrame.tilt s'
     = PictureFrame.tilt s
       + ((if PictureFrame.isActive s then - PictureFrame.FRAME_TILT else 0)
          - PictureFrame.tilt s) * PictureFrame.slerpAlpha delta) /\
  (forall delta, 0 <= delta ->
     0 <= PictureFrame.lerpAlpha delta < 1 /\ 0 <= PictureFrame.slerpAlpha delta < 1).
Proof.
  split; [exact fireworks_clamp_delta |].
  split; [exact sparkles_clamp_delta |].
  split; [exact Rmin_step_bound |].
  split; [intros; split; reflexivity |].
  intros delta Hd. unfold PictureFrame.lerpAlpha, PictureFrame.slerpAlpha.
  split; apply PictureFrameFacts.smoothing_factor_range; lra.
Qed.

Lemma delta_is_clamped_by_the_particle_systems_witness :
  0 <= 1 /\ 0 <= PictureFrame.lerpAlpha 1 < 1.
Proof.
  assert (H : 0 <= 1) by lra. split; [exact H |].
  destruct delta_is_clamped_by_the_particle_systems as (_ & _ & _ & _ & K).
  apply (K 1 H).
Defined.

End FrameDeltaFacts.

(** ** The page *)

Module AppFacts.

Import App.
Local Open Scope nat_scope.

Local Arguments TYPED_LINES : simpl never.
Local Arguments FRAME_AUDIO_MAPPING : simpl never.
Local Arguments String.eqb : simpl never.
Local Arguments Nat.leb : simpl never.
Local Arguments Nat.ltb : simpl never.
Local Arguments Nat.eqb : simpl never.
Local Arguments nth : simpl never.
Local Arguments drop : simpl never.
Local Arguments truthy : simpl never.

Ltac open_state s :=
  destruct s as [hs bo ep li ci ss cv hc cl fw ac af so df bg fr tm].
(** *** Effects that do not run *)

Lemma sameId_refl (a : option String.string) : sameId a a = true.
Proof. destruct a; [apply String.eqb_refl | reflexivity]. Qed.

Lemma sameId_eq (a b : option String.string) : sameId a b = true -> a = b.
Proof.
  destruct a, b; cbn; try discriminate; [| reflexivity].
  intros H. apply String.eqb_eq in H. congruence.
Qed.

Lemma eqb_refl (b : bool) : Bool.eqb b b = true.
Proof. destruct b; reflexivity. Qed.

Lemma sameTypingDeps_refl (s : State) : sameTypingDeps s s = true.
Proof. unfold sameTypingDeps. rewrite !eqb_refl, !Nat.eqb_refl. reflexivity. Qed.

Lemma sameAudioDeps_refl (s : State) : sameAudioDeps s s = true.
Proof. unfold sameAudioDeps. rewrite !sameId_refl, eqb_refl. reflexivity. Qed.

Lemma runEffects_same (s : State) : runEffects s s = s.
Proof. unfold runEffects. rewrite sameTypingDeps_refl, sameAudioDeps_refl. reflexivity. Qed.

Lemma step_idle_timeout (s : State) : timeout s = None -> step s TimeoutFires = s.
Proof. intros H. unfold step, handle. rewrite H. apply runEffects_same. Qed.

(** *** The typing schedule *)

Lemma typed_S (n : nat) : typed (S n) = step (typed n) TimeoutFires.
Proof.
  unfold typed, run.
  replace (KeyDown space :: repeat TimeoutFires (S n))
    with ((KeyDown space :: repeat TimeoutFires n) ++ [TimeoutFires]).
  - rewrite fold_left_app. reflexivity.
  - cbn [app]. f_equal. induction n as [| n IH]; [reflexivity |].
    cbn [repeat app]. rewrite IH. reflexivity.
Qed.

Lemma typing_timeouts : TYPING_TIMEOUTS = 240.
Proof. vm_compute. reflexivity. Qed.

Lemma while_typing :
  forallb (fun n =>
             negb (typingComplete (typed n))
             && match timeout (typed n) with Some TypingTimeout => true | _ => false end
             && negb (isScenePlaying (typed n))
             && (shown (typed n) + currentLineIndex (typed n) =? n)
             && (cursorTargetIndex (typed n) =? Z.of_nat (currentLineIndex (typed n)))%Z)
          (seq 0 240) = true.
Proof. vm_compute. reflexivity. Qed.

Lemma scene_runs_for_good (n : nat) : typed (241 + n) = typed 241.
Proof.
  induction n as [| n IH]; [f_equal; lia |].
  replace (241 + S n) with (S (241 + n)) by lia.
  rewrite typed_S, IH. apply step_idle_timeout. vm_compute. reflexivity.
Qed.

(** X20. The text takes 240 firings of the typing timeout: one for each
    of its 230 code units and one at the end of each of its 10 lines.
    Before the first press of the space bar nothing is armed.  After the
    press and [n < 240] firings the typing is not complete, the typing
    timeout is armed, the scene is not playing, the number of code units on
    screen plus the number of finished lines is [n], and the cursor is on
    the line being typed.  After 240 firings the whole text is on screen,
    the cursor is on the last line and the scene timeout is armed; the
    next firing starts the scene, after which no timeout is armed, no
    cursor is shown, and further firings change nothing. *)
Theorem typing_takes_240_timeouts_and_then_the_scene_starts :
  TYPING_TIMEOUTS = 240 /\
  hasStarted mounted = false /\ timeout mounted = None /\
  (forall n, n < TYPING_TIMEOUTS ->
     typingComplete (typed n) = false /\
     timeout (typed n) = Some TypingTimeout /\
     isScenePlaying (typed n) = false /\
     shown (typed n) + currentLineIndex (typed n) = n /\
     cursorTargetIndex (typed n) = Z.of_nat (currentLineIndex (typed n))) /\
  (typingComplete (typed TYPING_TIMEOUTS) = true /\
   typedLines (typed TYPING_TIMEOUTS) = TYPED_LINES /\
   timeout (typed TYPING_TIMEOUTS) = Some SceneTimeout /\
   isScenePlaying (typed TYPING_TIMEOUTS) = false /\
   cursorTargetIndex (typed TYPING_TIMEOUTS) = 9%Z) /\
  (forall n,
     typed (TYPING_TIMEOUTS + 1 + n) = typed (TYPING_TIMEOUTS + 1) /\
     isScenePlaying (typed (TYPING_TIMEOUTS + 1 + n)) = true /\
     timeout (typed (TYPING_TIMEOUTS + 1 + n)) = None /\
     typedLines (typed (TYPING_TIMEOUTS + 1 + n)) = TYPED_LINES /\
     (forall index, showCursor (typed (TYPING_TIMEOUTS + 1 + n)) index = false)).
Proof.
  rewrite typing_timeouts.
  split; [reflexivity |]. split; [reflexivity |]. split; [vm_compute; reflexivity |].
  split; [| split].
  - intros n Hn. pose proof while_typing as W.
    rewrite forallb_forall in W. specialize (W n).
    assert (I : In n (seq 0 240)) by (apply in_seq; lia).
    specialize (W I).
    apply andb_true_iff in W. destruct W as [W C].
    apply andb_true_iff in W. destruct W as [W S].
    apply andb_true_iff in W. destruct W as [W P].
    apply andb_true_iff in W. destruct W as [T A].
    apply negb_true_iff in T. apply negb_true_iff in P.
    apply Nat.eqb_eq in S. apply Z.eqb_eq in C.
    split; [exact T |]. split.
    + destruct (timeout (typed n)) as [[|] |]; try discriminate. reflexivity.
    + auto.
  - vm_compute. auto.
  - intros n. replace (240 + 1 + n) with (241 + n) by lia.
    rewrite scene_runs_for_good. change (240 + 1) with 241.
    split; [reflexivity |]. split; [vm_compute; reflexivity |].
    split; [vm_compute; reflexivity |]. split; [vm_compute; reflexivity |].
    intros index. unfold showCursor.
    assert (E : negb (typingComplete (typed 241)) || negb (sceneStarted (typed 241)) = false)
      by (vm_compute; reflexivity).
    rewrite E. apply andb_false_r.
Qed.

(** *** The protocol of the space bar and the timeouts *)

Lemma skipEmptyLines_ge (lines : list JsString) (n : nat) :
  n <= skipEmptyLines lines n.
Proof.
  revert n. induction lines as [| line lines IH]; intros n; cbn; [lia |].
  destruct (length line =? 0); [| lia].
  specialize (IH (S n)). lia.
Qed.



Ltac fields :=
  unfold protocol, armed, typingComplete, currentLine in *; cbn in *.

Lemma protocol_audioEffect (s : State) : protocol s -> protocol (audioEffect s).
Proof.
  intros P. unfold audioEffect. open_state s. fields.
  destruct fr as [song |]; cbn;
    destruct (truthy af); cbn;
      destruct bg as [bg |]; cbn;
        try (destruct af as [id |]; cbn; [destruct (FRAME_AUDIO_MAPPING id) as [[src startAt] |] |]; cbn);
        try (destruct (hs && negb (truthy ac)); cbn);
        exact P.
Qed.

Lemma typingEffect_started (s : State) :
  hasStarted s = true -> typingEffect s = set_timeout (armed s) s.
Proof.
  intros H. unfold typingEffect. open_state s. fields. subst hs. cbn.
  destruct (length TYPED_LINES <=? li); cbn; [| reflexivity].
  destruct ss; reflexivity.
Qed.


Lemma protocol_mounted : protocol mounted.
Proof.
  unfold protocol. vm_compute.
  repeat split; try reflexivity; try (intros; discriminate); lia.
Qed.

Ltac same_typing :=
  unfold sameTypingDeps, typingComplete; cbn;
  rewrite ?Nat.eqb_refl, ?eqb_refl; cbn.

Ltac settle := fields; intuition (try congruence; try lia).

Lemma armed_typing (s : State) :
  armed s = Some TypingTimeout ->
  hasStarted s = true /\ typingComplete s = false.
Proof.
  unfold armed. destruct (hasStarted s); cbn; [| discriminate].
  destruct (typingComplete s); [destruct (sceneStarted s); discriminate | auto].
Qed.

Lemma armed_scene (s : State) :
  armed s = Some SceneTimeout ->
  hasStarted s = true /\ typingComplete s = true /\ sceneStarted s = false.
Proof.
  unfold armed. destruct (hasStarted s); cbn; [| discriminate].
  destruct (typingComplete s); [| discriminate].
  destruct (sceneStarted s); [discriminate | auto].
Qed.

Lemma protocol_step (s : State) (e : Event) : protocol s -> protocol (step s e).
Proof.
  intros P. unfold step, runEffects.
  set (h := handle e s).
  assert (P1 : protocol (if sameTypingDeps s h then h else typingEffect h)).
  { destruct e; subst h; cbn [handle].
    - (* the key handler *)
      unfold handleKeyDown.
      destruct (negb _ && negb _);
        [rewrite sameTypingDeps_refl; exact P |].
      destruct (hasStarted s) eqn:Hs; cbn [negb].
      + destruct (hasAnimationCompleted s && isCandleLit s) eqn:Hb.
        * apply andb_true_iff in Hb. destruct Hb as [Hc Hl].
          open_state s. cbn in Hs, Hc, Hl. subst. same_typing. settle.
        * rewrite sameTypingDeps_refl. exact P.
      + assert (E : sameTypingDeps s (set_hasStarted true (playBackgroundMusic s)) = false).
        { unfold sameTypingDeps. cbn [hasStarted set_hasStarted]. rewrite Hs. reflexivity. }
        rewrite E, typingEffect_started by reflexivity.
        unfold playBackgroundMusic.
        open_state s. cbn in Hs. subst hs. cbn [backgroundAudioRef].
        destruct bg as [bg |]; [destruct (negb (paused bg)) |]; fields;
          destruct P as (P1 & P2 & P3 & P4 & P5 & P6);
          destruct (P4 eq_refl) as (-> & -> & ->);
          destruct (length TYPED_LINES <=? 0); cbn;
            repeat split; auto; try congruence; try lia; try (intros; discriminate);
            tauto.
    - (* the timeouts *)
      destruct (timeout s) as [[|] |] eqn:Ht.
      + assert (A : armed s = Some TypingTimeout).
        { destruct P as (_ & _ & <- & _). exact Ht. }
        destruct (armed_typing s A) as [Hs Hc].
        unfold onTypingTimeout.
        cbn [currentLineIndex currentCharIndex set_timeout].
        destruct (currentCharIndex s <? length (nth (currentLineIndex s) TYPED_LINES []))
          eqn:Lt.
        * apply Nat.ltb_lt in Lt.
          assert (E : sameTypingDeps s
                        (set_currentCharIndex (currentCharIndex s + 1) (set_timeout None s))
                      = false).
          { unfold sameTypingDeps. cbn [hasStarted currentCharIndex set_currentCharIndex
                                          set_timeout].
            assert (N : (currentCharIndex s =? currentCharIndex s + 1) = false)
              by (apply Nat.eqb_neq; lia).
            rewrite N, andb_false_r. reflexivity. }
          rewrite E, typingEffect_started by (cbn; exact Hs).
          open_state s. unfold typingComplete in Hc. cbn in Hs, Hc, Lt, A. subst hs.
          fields. rewrite Hc. cbn.
          destruct P as (P1 & P2 & P3 & P4 & P5 & P6).
          repeat split; auto; try congruence; try lia; try (intros; discriminate).
          all: try tauto.
          all: intros Hss; specialize (P5 Hss); congruence.
        * apply Nat.ltb_ge in Lt.
          pose proof (skipEmptyLines_ge (drop (currentLineIndex s + 1) TYPED_LINES)
                        (currentLineIndex s + 1)) as G.
          set (next := skipEmptyLines _ _) in *.
          assert (E : sameTypingDeps s
                        (set_currentCharIndex 0
                           (set_currentLineIndex next (set_timeout None s)))
                      = false).
          { unfold sameTypingDeps.
            cbn [hasStarted currentCharIndex currentLineIndex set_currentCharIndex
                   set_currentLineIndex set_timeout].
            assert (N : (currentLineIndex s =? next) = false)
              by (apply Nat.eqb_neq; lia).
            rewrite N, andb_false_r. reflexivity. }
          rewrite E, typingEffect_started by (cbn; exact Hs).
          open_state s. unfold typingComplete in Hc. cbn in Hs, Hc, Lt, A, G. subst hs.
          fields.
          destruct P as (P1 & P2 & P3 & P4 & P5 & P6).
          repeat split; auto; try congruence; try lia; try (intros; discriminate).
          all: try tauto.
          all: intros Hss; specialize (P5 Hss); congruence.
      + assert (A : armed s = Some SceneTimeout).
        { destruct P as (_ & _ & <- & _). exact Ht. }
        destruct (armed_scene s A) as (Hs & Hc & Hss).
        unfold onSceneTimeout.
        assert (E : sameTypingDeps s (set_sceneStarted true (set_timeout None s)) = false).
        { unfold sameTypingDeps.
          cbn [sceneStarted set_sceneStarted set_timeout]. rewrite Hss.
          apply andb_false_r. }
        rewrite E, typingEffect_started by (cbn; exact Hs).
        open_state s. unfold typingComplete in Hc. cbn in Hs, Hc, Hss. subst hs ss.
        fields. rewrite Hc. cbn.
        destruct P as (P1 & P2 & P3 & P4 & P5 & P6).
        repeat split; auto; try congruence; try lia; try (intros; discriminate).
        all: tauto.
      + rewrite sameTypingDeps_refl. exact P.
    - open_state s. same_typing. settle.
    - destruct e; open_state s; same_typing; settle.
    - open_state s. same_typing. settle.
    - open_state s. same_typing. settle.
    - open_state s. same_typing. settle.
    - unfold onPointerMissed, handleFrameToggle.
      destruct (truthy (activeFrameId s)); [| rewrite sameTypingDeps_refl; exact P].
      destruct (activeFrameId s); [| rewrite sameTypingDeps_refl; exact P].
      open_state s. same_typing. settle.
    - open_state s. same_typing. settle.
    - open_state s. same_typing. settle. }
  destruct (sameAudioDeps s h); [exact P1 | apply protocol_audioEffect; exact P1].
Qed.

Lemma run_snoc (es : list Event) (e : Event) : run (es ++ [e]) = step (run es) e.
Proof. unfold run. rewrite fold_left_app. reflexivity. Qed.

Lemma protocol_run (es : list Event) : protocol (run es).
Proof.
  induction es as [| e es IH] using rev_ind; [exact protocol_mounted |].
  rewrite run_snoc. apply protocol_step. exact IH.
Qed.

(** *** Handlers and effects, field by field *)

Lemma audioEffect_shape (s : State) :
  exists b f, audioEffect s = set_backgroundAudioRef b (set_frameAudioRef f s).
Proof.
  unfold audioEffect. open_state s. cbn.
  destruct fr as [song |]; cbn;
    destruct (truthy af); cbn;
      destruct bg as [bg |]; cbn;
        try (destruct af as [id |]; cbn;
             [destruct (FRAME_AUDIO_MAPPING id) as [[src startAt] |] |]; cbn);
        try (destruct (hs && negb (truthy ac)); cbn);
        eexists; eexists; unfold set_backgroundAudioRef, set_frameAudioRef; cbn;
        reflexivity.
Qed.

Lemma handle_typing_deps (s : State) (e : Event) :
  protocol s -> sameTypingDeps s (handle e s) = false ->
  hasStarted (handle e s) = true.
Proof.
  intros P D. destruct e; cbn [handle] in *.
  - unfold handleKeyDown in *.
    destruct (negb _ && negb _); [rewrite sameTypingDeps_refl in D; discriminate |].
    destruct (hasStarted s) eqn:Hs; cbn [negb] in *; [| reflexivity].
    destruct (hasAnimationCompleted s && isCandleLit s); [| exact Hs].
    open_state s. cbn in *. exact Hs.
  - destruct (timeout s) as [[|] |] eqn:Ht.
    + assert (A : armed s = Some TypingTimeout).
      { destruct P as (_ & _ & <- & _). exact Ht. }
      destruct (armed_typing s A) as [Hs _].
      unfold onTypingTimeout. destruct (_ <? _); open_state s; cbn in *; exact Hs.
    + assert (A : armed s = Some SceneTimeout).
      { destruct P as (_ & _ & <- & _). exact Ht. }
      destruct (armed_scene s A) as [Hs _].
      open_state s; cbn in *; exact Hs.
    + rewrite sameTypingDeps_refl in D. discriminate.
  - exfalso. revert D. open_state s. same_typing. discriminate.
  - exfalso. revert D. destruct e; open_state s; same_typing; discriminate.
  - exfalso. revert D. open_state s. same_typing. discriminate.
  - exfalso. revert D. open_state s. same_typing. discriminate.
  - exfalso. revert D. open_state s. same_typing. discriminate.
  - exfalso. revert D. unfold onPointerMissed, handleFrameToggle.
    destruct (truthy (activeFrameId s)); [| rewrite sameTypingDeps_refl; discriminate].
    destruct (activeFrameId s); [| rewrite sameTypingDeps_refl; discriminate].
    open_state s. same_typing. discriminate.
  - exfalso. revert D. open_state s. same_typing. discriminate.
  - exfalso. revert D. open_state s. same_typing. discriminate.
Qed.

(** After the mount, a step is its handler, followed by effects that
    change the pending timeout and the audio elements only. *)
Lemma step_shape (s : State) (e : Event) :
  protocol s ->
  exists t b f,
    step s e = set_timeout t (set_backgroundAudioRef b (set_frameAudioRef f (handle e s))).
Proof.
  intros P. unfold step, runEffects.
  pose proof (handle_typing_deps s e P) as D.
  set (h := handle e s) in *.
  assert (S1 : exists t, (if sameTypingDeps s h then h else typingEffect h) = set_timeout t h).
  { destruct (sameTypingDeps s h).
    - exists (timeout h). destruct h; reflexivity.
    - exists (armed h). apply typingEffect_started. apply D. reflexivity. }
  destruct S1 as [t ->].
  destruct (sameAudioDeps s h).
  - exists t, (backgroundAudioRef h), (frameAudioRef h). destruct h; reflexivity.
  - destruct (audioEffect_shape (set_timeout t h)) as (b & f & ->).
    exists t, b, f. destruct h; reflexivity.
Qed.

Lemma handle_keeps_on (s : State) (e : Event) :
  protocol s ->
  (hasStarted s = true -> hasStarted (handle e s) = true) /\
  (fireworksActive s = true -> fireworksActive (handle e s) = true) /\
  (sceneStarted s = true -> sceneStarted (handle e s) = true) /\
  (typingComplete s = true -> typingComplete (handle e s) = true) /\
  (hasAnimationCompleted s = true -> hasAnimationCompleted (handle e s) = true).
Proof.
  intros P. destruct e; cbn [handle].
  - unfold handleKeyDown.
    destruct (negb _ && negb _); [tauto |].
    destruct (hasStarted s) eqn:Hs; cbn [negb].
    + destruct (hasAnimationCompleted s && isCandleLit s); [| tauto].
      open_state s. unfold typingComplete. cbn. tauto.
    + unfold playBackgroundMusic. open_state s. unfold typingComplete. cbn in *.
      destruct bg as [bg |]; [destruct (negb (paused bg)) |]; cbn; tauto.
  - destruct (timeout s) as [[|] |] eqn:Ht; [| | tauto].
    + assert (A : armed s = Some TypingTimeout).
      { destruct P as (_ & _ & <- & _). exact Ht. }
      destruct (armed_typing s A) as [Hs Hc].
      destruct P as (_ & _ & _ & _ & P5 & _).
      unfold onTypingTimeout. unfold typingComplete in *.
      destruct (_ <? _); open_state s; cbn in *;
        repeat split; auto; try congruence;
        intros Hss; specialize (P5 Hss); congruence.
    + open_state s. unfold typingComplete. cbn. tauto.
  - open_state s. unfold typingComplete. cbn. tauto.
  - destruct e; open_state s; unfold typingComplete; cbn; tauto.
  - open_state s. unfold typingComplete. cbn. tauto.
  - open_state s. unfold typingComplete. cbn. tauto.
  - open_state s. unfold typingComplete. cbn. tauto.
  - unfold onPointerMissed, handleFrameToggle.
    destruct (truthy (activeFrameId s)); [| tauto].
    destruct (activeFrameId s); [| tauto].
    open_state s. unfold typingComplete. cbn. tauto.
  - open_state s. unfold typingComplete. cbn. tauto.
  - open_state s. unfold typingComplete. cbn. tauto.
Qed.

Lemma nothing_typed (s : State) :
  currentLineIndex s = 0 -> currentCharIndex s = 0 -> shown s = 0.
Proof.
  intros L C. unfold shown, typedLines, typingComplete. rewrite L, C.
  vm_compute. reflexivity.
Qed.

(** X21. In every state the page can reach: the fireworks are on exactly
    when the candle is out, and then the page has started, the animation
    has completed and the hint is hidden; the scene plays only after the
    typing is complete; before the start nothing is typed and no timeout is
    armed; and the pending timeout is the one the typing effect arms in the
    state.  A key that is not the space bar changes nothing.  The first
    press of the space bar starts the page and arms the typing timeout,
    leaving candle and fireworks alone; a later press does nothing unless
    the hint is visible, and then it blows out the candle and starts the
    fireworks.  No event undoes the start, the fireworks, the start of the
    scene, the completion of the typing or of the animation. *)
Theorem space_bar_starts_the_page_and_later_blows_out_the_candle (es : list Event) :
  let s := run es in
  (fireworksActive s = negb (isCandleLit s) /\
   (fireworksActive s = true ->
      hasStarted s = true /\ hasAnimationCompleted s = true /\ hintVisible s = false) /\
   (isScenePlaying s = true -> typingComplete s = true) /\
   (hasStarted s = false ->
      shown s = 0 /\ timeout s = None /\ isScenePlaying s = false) /\
   timeout s = armed s) /\
  (forall event,
     code event <> code space -> key event <> key space ->
     step s (KeyDown event) = s) /\
  (hasStarted s = false ->
     let s' := step s (KeyDown space) in
     hasStarted s' = true /\ timeout s' = Some TypingTimeout /\
     isCandleLit s' = isCandleLit s /\ fireworksActive s' = fireworksActive s) /\
  (hasStarted s = true -> hintVisible s = false -> step s (KeyDown space) = s) /\
  (hasStarted s = true -> hintVisible s = true ->
     let s' := step s (KeyDown space) in
     isCandleLit s' = false /\ fireworksActive s' = true /\ hintVisible s' = false) /\
  (forall e,
     (hasStarted s = true -> hasStarted (step s e) = true) /\
     (fireworksActive s = true -> fireworksActive (step s e) = true) /\
     (sceneStarted s = true -> sceneStarted (step s e) = true) /\
     (typingComplete s = true -> typingComplete (step s e) = true) /\
     (hasAnimationCompleted s = true -> hasAnimationCompleted (step s e) = true)).
Proof.
  intros s. pose proof (protocol_run es) as P. fold s in P.
  pose proof P as (P1 & P2 & P3 & P4 & P5 & P6).
  split; [| split; [| split; [| split; [| split]]]].
  - split; [exact P1 |]. split; [| split; [| split; [| exact P3]]].
    + intros F. destruct (P2 F) as [Hs Hc]. split; [exact Hs |]. split; [exact Hc |].
      unfold hintVisible. rewrite F in P1. destruct (isCandleLit s); [discriminate |].
      apply andb_false_r.
    + unfold isScenePlaying. intros H. apply andb_true_iff in H. apply P5, H.
    + intros Hs. destruct (P4 Hs) as (L & C & Ss).
      split; [apply nothing_typed; assumption |].
      split; [rewrite P3; unfold armed; rewrite Hs; reflexivity |].
      unfold isScenePlaying. rewrite Hs. reflexivity.
  - intros event Hc Hk. unfold step. cbn [handle]. unfold handleKeyDown.
    assert (E1 : String.eqb (code event) (code space) = false)
      by (apply String.eqb_neq; exact Hc).
    assert (E2 : String.eqb (key event) (key space) = false)
      by (apply String.eqb_neq; exact Hk).
    cbn [code key space] in E1, E2. rewrite E1, E2. cbn [negb andb].
    apply runEffects_same.
  - intros Hs s'.
    pose proof (protocol_step s (KeyDown space) P) as (_ & _ & Q3 & _).
    fold s' in Q3.
    destruct (step_shape s (KeyDown space) P) as (t & b & f & E). fold s' in E.
    assert (H : handle (KeyDown space) s = set_hasStarted true (playBackgroundMusic s)).
    { cbn [handle]. unfold handleKeyDown. rewrite Hs. reflexivity. }
    rewrite H in E. destruct (P4 Hs) as (L & C & Ss).
    assert (F : hasStarted s' = true /\ currentLineIndex s' = 0 /\
                isCandleLit s' = isCandleLit s /\ fireworksActive s' = fireworksActive s).
    { rewrite E. unfold playBackgroundMusic.
      destruct (backgroundAudioRef s) as [bg |]; [destruct (negb (paused bg)) |];
        cbn; auto. }
    destruct F as (F1 & F2 & F3 & F4).
    split; [exact F1 |]. split; [| split; assumption].
    rewrite Q3. unfold armed, typingComplete. rewrite F1, F2. reflexivity.
  - intros Hs Hh. unfold step. cbn [handle]. unfold handleKeyDown, space.
    cbn [code key]. unfold hintVisible in Hh. rewrite Hs, Hh.
    cbn. apply runEffects_same.
  - intros Hs Hh s'.
    destruct (step_shape s (KeyDown space) P) as (t & b & f & E). fold s' in E.
    assert (H : handle (KeyDown space) s = set_fireworksActive true (set_isCandleLit false s)).
    { cbn [handle]. unfold handleKeyDown, space. cbn [code key].
      unfold hintVisible in Hh. rewrite Hs, Hh. reflexivity. }
    rewrite H in E. unfold hintVisible. rewrite E. cbn.
    split; [reflexivity |]. split; [reflexivity |]. apply andb_false_r.
  - intros e.
    destruct (step_shape s e P) as (t & b & f & E).
    pose proof (handle_keeps_on s e P) as K.
    rewrite E. unfold typingComplete in *. cbn. exact K.
Qed.

Lemma space_bar_starts_the_page_and_later_blows_out_the_candle_witness :
  let s := run [KeyDown space; SceneCallback Timeline.AnimationComplete] in
  hasStarted s = true /\ hintVisible s = true /\
  isCandleLit (step s (KeyDown space)) = false /\
  fireworksActive (step s (KeyDown space)) = true.
Proof.
  intros s.
  assert (Hs : hasStarted s = true) by (vm_compute; reflexivity).
  assert (Hh : hintVisible s = true) by (vm_compute; reflexivity).
  split; [exact Hs |]. split; [exact Hh |].
  pose proof (space_bar_starts_the_page_and_later_blows_out_the_candle
                [KeyDown space; SceneCallback Timeline.AnimationComplete]) as H.
  cbv zeta in H. destruct H as (_ & _ & _ & _ & Blow & _).
  destruct (Blow Hs Hh) as (B1 & B2 & _). split; [exact B1 | exact B2].
Defined.

(** *** The two audio elements *)

Lemma falsy_unmapped (id : String.string) :
  negb (String.eqb id String.EmptyString) = false -> FRAME_AUDIO_MAPPING id = None.
Proof.
  intros H. apply negb_false_iff in H. apply String.eqb_eq in H. subst id.
  vm_compute. reflexivity.
Qed.

(** The audio effect establishes the mix from any state in which the
    background music plays only after the start. *)
Lemma audioEffect_mixed (s : State) (music song : Audio) :
  backgroundAudioRef s = Some music -> frameAudioRef s = Some song ->
  (paused music = false -> hasStarted s = true) ->
  mixed (audioEffect s).
Proof.
  intros Eb Ef Hp. open_state s. cbn in Eb, Ef, Hp. subst bg fr.
  unfold audioEffect, mixed. cbn.
  destruct (truthy af) eqn:Ta; cbn.
  - destruct af as [id |]; [| discriminate].
    destruct (FRAME_AUDIO_MAPPING id) as [[src startAt] |] eqn:M; cbn.
    + eexists. eexists. split; [reflexivity |]. split; [reflexivity |].
      cbn. rewrite Ta. cbn.
      repeat split; auto; try discriminate; try (rewrite andb_false_r; reflexivity).
      intros id' src' startAt' E1 E2. injection E1 as <-. rewrite M in E2.
      injection E2 as <- <-. reflexivity.
    + eexists. eexists. split; [reflexivity |]. split; [reflexivity |].
      cbn. rewrite Ta. cbn.
      repeat split; auto; try discriminate; try (rewrite andb_false_r; reflexivity).
      intros id' src' startAt' E1 E2. injection E1 as <-. congruence.
  - assert (U : forall id src startAt,
                af = Some id -> FRAME_AUDIO_MAPPING id = Some (src, startAt) -> False).
    { intros id src startAt -> M. unfold truthy in Ta.
      rewrite (falsy_unmapped id Ta) in M.
      discriminate. }
    destruct (hs && negb (truthy ac)) eqn:C; cbn.
    + apply andb_true_iff in C. destruct C as [-> C].
      eexists. eexists. split; [reflexivity |]. split; [reflexivity |].
      cbn. rewrite Ta. cbn.
      repeat split; auto; try discriminate.
      intros id src startAt E1 E2. exfalso. eapply U; eassumption.
    + eexists. eexists. split; [reflexivity |]. split; [reflexivity |].
      cbn. rewrite Ta. cbn.
      split; [discriminate |]. split; [auto |]. split; [exact Hp |]. split.
      * intros Tc. rewrite Tc in C. cbn in C. rewrite andb_true_r in C. subst hs.
        cbn. destruct (paused music) eqn:Pb; [reflexivity |].
        specialize (Hp eq_refl). discriminate.
      * intros id src startAt E1 E2. exfalso. eapply U; eassumption.
Qed.

Lemma mixed_ext (s s' : State) :
  backgroundAudioRef s' = backgroundAudioRef s ->
  frameAudioRef s' = frameAudioRef s ->
  hasStarted s' = hasStarted s ->
  activeFrameId s' = activeFrameId s ->
  activeCardId s' = activeCardId s ->
  mixed s -> mixed s'.
Proof.
  intros E1 E2 E3 E4 E5 M. unfold mixed. rewrite E1, E2, E3, E4, E5. exact M.
Qed.

Lemma typingEffect_audio (s : State) :
  backgroundAudioRef (typingEffect s) = backgroundAudioRef s /\
  frameAudioRef (typingEffect s) = frameAudioRef s /\
  hasStarted (typingEffect s) = hasStarted s /\
  activeFrameId (typingEffect s) = activeFrameId s /\
  activeCardId (typingEffect s) = activeCardId s.
Proof.
  unfold typingEffect, typingComplete. open_state s. cbn.
  destruct hs; cbn; [| auto].
  destruct (length TYPED_LINES <=? li); [destruct ss |]; cbn; auto.
Qed.

Lemma handle_audio (s : State) (e : Event) :
  frameAudioRef (handle e s) = frameAudioRef s /\
  (hasStarted s = true -> hasStarted (handle e s) = true) /\
  (backgroundAudioRef (handle e s) = backgroundAudioRef s \/
   (hasStarted s = false /\ hasStarted (handle e s) = true /\
    exists music, backgroundAudioRef s = Some music /\
                  backgroundAudioRef (handle e s) = Some (play music))).
Proof.
  destruct e; cbn [handle].
  - unfold handleKeyDown.
    destruct (negb _ && negb _); [auto |].
    destruct (hasStarted s) eqn:Hs; cbn [negb].
    + destruct (hasAnimationCompleted s && isCandleLit s); [| auto].
      open_state s. cbn in *. auto.
    + unfold playBackgroundMusic. open_state s. cbn in *.
      destruct bg as [music |]; [| cbn; auto].
      destruct (negb (paused music)); cbn; [auto |].
      split; [reflexivity |]. split; [reflexivity |].
      right. repeat split; auto. exists music. auto.
  - destruct (timeout s) as [[|] |]; [| | auto].
    + unfold onTypingTimeout. destruct (_ <? _); open_state s; cbn; auto.
    + open_state s; cbn; auto.
  - open_state s; cbn; auto.
  - destruct e; open_state s; cbn; auto.
  - open_state s; cbn; auto.
  - open_state s; cbn; auto.
  - open_state s; cbn; auto.
  - unfold onPointerMissed, handleFrameToggle.
    destruct (truthy (activeFrameId s)); [| auto].
    destruct (activeFrameId s); [| auto].
    open_state s; cbn; auto.
  - open_state s; cbn; auto.
  - open_state s; cbn; auto.
Qed.

Lemma sameAudioDeps_eq (s h : State) :
  sameAudioDeps s h = true ->
  activeFrameId h = activeFrameId s /\ hasStarted h = hasStarted s /\
  activeCardId h = activeCardId s.
Proof.
  unfold sameAudioDeps. intros H.
  apply andb_true_iff in H. destruct H as [H C].
  apply andb_true_iff in H. destruct H as [F S].
  apply sameId_eq in F. apply sameId_eq in C. apply Bool.eqb_prop in S.
  auto.
Qed.

Lemma mixed_step (s : State) (e : Event) : mixed s -> mixed (step s e).
Proof.
  intros M. unfold step, runEffects.
  destruct (handle_audio s e) as (Hf & Hs & Hb).
  set (h := handle e s) in *.
  set (s1 := if sameTypingDeps s h then h else typingEffect h).
  assert (A : backgroundAudioRef s1 = backgroundAudioRef h /\
              frameAudioRef s1 = frameAudioRef h /\
              hasStarted s1 = hasStarted h /\
              activeFrameId s1 = activeFrameId h /\
              activeCardId s1 = activeCardId h).
  { subst s1. destruct (sameTypingDeps s h); [auto | apply typingEffect_audio]. }
  destruct A as (A1 & A2 & A3 & A4 & A5).
  destruct (sameAudioDeps s h) eqn:D.
  - destruct (sameAudioDeps_eq s h D) as (D1 & D2 & D3).
    apply (mixed_ext s); try congruence.
    destruct Hb as [Hb | (Hn & Hy & _)]; congruence.
  - destruct M as (music & song & Eb & Ef & _ & _ & Hp & _).
    destruct Hb as [Hb | (Hn & Hy & music' & Eb' & Eh)].
    + apply (audioEffect_mixed s1 music song); try congruence.
      intros P. rewrite A3. apply Hs, Hp, P.
    + apply (audioEffect_mixed s1 (play music') song); try congruence.
Qed.

Lemma mixed_mounted : mixed mounted.
Proof.
  unfold mixed. eexists. eexists.
  split; [vm_compute; reflexivity |]. split; [vm_compute; reflexivity |].
  vm_compute. repeat split; try discriminate; auto.
Qed.

Lemma mixed_run (es : list Event) : mixed (run es).
Proof.
  induction es as [| e es IH] using rev_ind; [exact mixed_mounted |].
  rewrite run_snoc. apply mixed_step. exact IH.
Qed.

Lemma toggle_off (id : String.string) : toggle (Some id) id = None.
Proof. unfold toggle. rewrite String.eqb_refl. reflexivity. Qed.

(** X22. In every state the page can reach both audio elements exist;
    while a frame is active the background music is paused, and the song
    of a frame of the mapping is the one of the mapping, playing from its
    start position; while no frame is active the frame's song is paused
    and rewound; the background music plays only after the start, and when
    no card is active it plays exactly when the page has started and no
    frame is active.  So the two never play together.  Toggling a frame
    makes it the active one, or none if it was active; a click that misses
    every object leaves no frame active, the frame's song paused, and the
    orbit controls enabled unless a frame is being dragged. *)
Theorem one_song_at_a_time (es : list Event) :
  let s := run es in
  (exists music song,
     backgroundAudioRef s = Some music /\ frameAudioRef s = Some song /\
     (truthy (activeFrameId s) = true -> paused music = true) /\
     (truthy (activeFrameId s) = false ->
        paused song = true /\ currentTime song = 0%Q) /\
     (paused music = false -> hasStarted s = true) /\
     (truthy (activeCardId s) = false ->
        paused music = negb (hasStarted s && negb (truthy (activeFrameId s)))) /\
     (forall id src startAt,
        activeFrameId s = Some id -> FRAME_AUDIO_MAPPING id = Some (src, startAt) ->
        song = mkAudio src startAt false)) /\
  playing (backgroundAudioRef s) && playing (frameAudioRef s) = false /\
  (forall id,
     activeFrameId (step s (ToggleFrame id)) = toggle (activeFrameId s) id /\
     (frameIsActive s id = true -> activeFrameId (step s (ToggleFrame id)) = None)) /\
  (let s' := step s PointerMissed in
   truthy (activeFrameId s') = false /\
   playing (frameAudioRef s') = false /\
   orbitEnabled s' = negb (isDraggingFrame s)).
Proof.
  intros s. pose proof (mixed_run es) as M. fold s in M.
  pose proof (protocol_run es) as P. fold s in P.
  split; [exact M |]. split; [| split].
  - destruct M as (music & song & -> & -> & M1 & M2 & _). cbn.
    destruct (truthy (activeFrameId s)).
    + rewrite (M1 eq_refl). reflexivity.
    + destruct (M2 eq_refl) as [-> _]. apply andb_false_r.
  - intros id.
    destruct (step_shape s (ToggleFrame id) P) as (t & b & f & E).
    assert (A : activeFrameId (step s (ToggleFrame id)) = toggle (activeFrameId s) id).
    { rewrite E. cbn. reflexivity. }
    split; [exact A |].
    intros F. rewrite A. unfold frameIsActive in F.
    destruct (activeFrameId s) as [id' |]; [| discriminate].
    apply String.eqb_eq in F. subst id'. apply toggle_off.
  - intros s'.
    pose proof (mixed_step s PointerMissed M) as M'. fold s' in M'.
    destruct (step_shape s PointerMissed P) as (t & b & f & E). fold s' in E.
    assert (A : truthy (activeFrameId s') = false /\
                isDraggingFrame s' = isDraggingFrame s).
    { rewrite E. cbn. unfold onPointerMissed, handleFrameToggle.
      destruct (truthy (activeFrameId s)) eqn:T; [| auto].
      destruct (activeFrameId s) as [id |]; [| unfold truthy in T; discriminate].
      cbn. unfold toggle. rewrite String.eqb_refl. auto. }
    destruct A as [A D]. split; [exact A |].
    destruct M' as (music & song & _ & Ef & _ & M2 & _).
    destruct (M2 A) as [Ps _].
    split; [rewrite Ef; cbn; rewrite Ps; reflexivity |].
    unfold orbitEnabled. rewrite A, D. apply andb_true_r.
Qed.

(** *** The typed lines *)

Lemma typedLines_imap (s : State) :
  typedLines s
  = imap (fun index line =>
            if typingComplete s || (index <? currentLineIndex s) then line
            else if index =? currentLineIndex s then
              take (Nat.min (currentCharIndex s) (length line)) line
            else [])
         TYPED_LINES.
Proof. reflexivity. Qed.

Lemma take_min {A : Type} (n : nat) (l : list A) : take (Nat.min n (length l)) l = take n l.
Proof.
  destruct (Nat.le_ge_cases n (length l)) as [H | H].
  - rewrite Nat.min_l by exact H. reflexivity.
  - rewrite Nat.min_r by exact H. rewrite !take_ge by lia. reflexivity.
Qed.

Lemma imap_id {A : Type} (f : nat -> A -> A) (l : list A) :
  (forall i x, f i x = x) -> imap f l = l.
Proof.
  revert f. induction l as [| x l IH]; intros f H; [reflexivity |].
  cbn. rewrite H. f_equal. apply IH. intros i y. apply H.
Qed.

Lemma concat_imap_shorter {A : Type} (f : nat -> list A -> list A) (l : list (list A)) :
  (forall i x, length (f i x) <= length x) ->
  length (concat (imap f l)) <= length (concat l).
Proof.
  revert f. induction l as [| x l IH]; intros f H; [reflexivity |].
  cbn. rewrite !length_app.
  assert (T : length (concat (imap (f ∘ S) l)) <= length (concat l)).
  { apply IH. intros i y. unfold compose. apply H. }
  specialize (H 0 x). lia.
Qed.

(** X23. In every state there are 10 typed lines: the lines before the
    current one in full, the current one up to the typing position, the
    later ones empty; never more code units than the text has; when the
    typing is complete the typed lines are the text and the cursor is on
    line 9, and until then the cursor is on the current line.  In every
    state the page can reach, the typing position is inside the current
    line. *)
Theorem typed_lines_reveal_the_text_in_order :
  (forall s,
     length (typedLines s) = 10 /\
     (forall index line,
        typedLines s !! index = Some line ->
        exists full,
          TYPED_LINES !! index = Some full /\
          (index < currentLineIndex s -> line = full) /\
          (index = currentLineIndex s -> line = take (currentCharIndex s) full) /\
          (currentLineIndex s < index -> line = [])) /\
     shown s <= length (concat TYPED_LINES) /\
     (typingComplete s = true -> typedLines s = TYPED_LINES) /\
     (typingComplete s = true -> cursorTargetIndex s = 9%Z) /\
     (typingComplete s = false ->
        cursorTargetIndex s = Z.of_nat (currentLineIndex s))) /\
  (forall es, currentCharIndex (run es) <= length (currentLine (run es))).
Proof.
  assert (L10 : length TYPED_LINES = 10) by reflexivity.
  split.
  - intros s.
    assert (Len : length (typedLines s) = 10).
    { rewrite typedLines_imap, length_imap. exact L10. }
    split; [exact Len |]. split; [| split; [| split; [| split]]].
    + intros index line E. rewrite typedLines_imap, list_lookup_imap in E.
      revert E. destruct (_ !! index) as [full |] eqn:F; simpl; intros E;
        [| discriminate].
      injection E as <-.
      exists full. split; [reflexivity |].
      assert (Hi : index < 10) by (apply lookup_lt_Some in F; exact F).
      unfold typingComplete. rewrite L10.
      destruct (10 <=? currentLineIndex s) eqn:C.
      * apply Nat.leb_le in C. cbn [orb].
        split; [reflexivity |]. split; intros; lia.
      * apply Nat.leb_gt in C. cbn [orb].
        destruct (index <? currentLineIndex s) eqn:Lt.
        -- apply Nat.ltb_lt in Lt. split; [reflexivity |]. split; intros; lia.
        -- apply Nat.ltb_ge in Lt.
           destruct (index =? currentLineIndex s) eqn:Eq.
           ++ apply Nat.eqb_eq in Eq.
              split; [intros; lia |]. split; [intros _; apply take_min | intros; lia].
           ++ apply Nat.eqb_neq in Eq.
              split; [intros; lia |]. split; [intros; lia | reflexivity].
    + unfold shown. rewrite typedLines_imap. apply concat_imap_shorter.
      intros i x. destruct (typingComplete s || (i <? currentLineIndex s)); [lia |].
      destruct (i =? currentLineIndex s); [rewrite length_take; lia | cbn; lia].
    + intros C. rewrite typedLines_imap. apply imap_id. intros i x. rewrite C. reflexivity.
    + intros C. unfold cursorTargetIndex, cursorLineIndex. rewrite C, Len. reflexivity.
    + intros C. unfold cursorTargetIndex, cursorLineIndex. rewrite C, Len.
      unfold typingComplete in C. rewrite L10 in C. apply Nat.leb_gt in C. lia.
  - intros es. pose proof (protocol_run es) as (_ & _ & _ & _ & _ & P6). exact P6.
Qed.

End AppFacts.

(** ** The lights of the page *)

Module LightFacts.

Import App AppFacts.
Local Open Scope Q_scope.

Local Ltac lra := Lqa.lra.

Local Arguments TYPED_LINES : simpl never.
Local Arguments FRAME_AUDIO_MAPPING : simpl never.
Local Arguments String.eqb : simpl never.
Local Arguments truthy : simpl never.






(** *** The lights *)

Lemma handle_signals (s : State) (e : Event) :
  (backgroundOpacity (handle e s), environmentProgress (handle e s))
  = match e with
    | SceneCallback c =>
        Timeline.observe (backgroundOpacity s, environmentProgress s) c
    | _ => (backgroundOpacity s, environmentProgress s)
    end.
Proof.
  destruct e; cbn [handle].
  - unfold handleKeyDown.
    destruct (negb _ && negb _); [reflexivity |].
    destruct (hasStarted s); cbn [negb].
    + destruct (hasAnimationCompleted s && isCandleLit s); reflexivity.
    + unfold playBackgroundMusic.
      destruct (backgroundAudioRef s) as [a |]; [destruct (negb (paused a)) |];
        reflexivity.
  - destruct (timeout s) as [[|] |]; [| reflexivity | reflexivity].
    unfold onTypingTimeout. destruct (_ <? _)%nat; reflexivity.
  - reflexivity.
  - destruct e; reflexivity.
  - reflexivity.
  - reflexivity.
  - reflexivity.
  - unfold onPointerMissed. destruct (truthy (activeFrameId s)); [| reflexivity].
    destruct (activeFrameId s); reflexivity.
  - reflexivity.
  - reflexivity.
Qed.

Lemma run_signals (es : list Event) :
  (backgroundOpacity (run es), environmentProgress (run es))
  = Timeline.observed (1, 0) (sceneCallbacks es).
Proof.
  induction es as [| e es IH] using rev_ind; [reflexivity |].
  rewrite run_snoc.
  destruct (step_shape (run es) e (protocol_run es)) as (t & b & f & E).
  rewrite E.
  change (backgroundOpacity (set_timeout t (set_backgroundAudioRef b
            (set_frameAudioRef f (handle e (run es))))))
    with (backgroundOpacity (handle e (run es))).
  change (environmentProgress (set_timeout t (set_backgroundAudioRef b
            (set_frameAudioRef f (handle e (run es))))))
    with (environmentProgress (handle e (run es))).
  rewrite handle_signals, IH.
  unfold sceneCallbacks. rewrite flat_map_app. unfold Timeline.observed.
  rewrite fold_left_app. cbn [flat_map].
  destruct e; rewrite ?app_nil_r; reflexivity.
Qed.

Lemma observed_in_unit (o : Q * Q) (es : list Timeline.Event) :
  0 <= fst o <= 1 -> 0 <= snd o <= 1 -> Forall Timeline.inUnit es ->
  0 <= fst (Timeline.observed o es) <= 1 /\ 0 <= snd (Timeline.observed o es) <= 1.
Proof.
  revert o. induction es as [| e es IH]; intros o H1 H2 F; [auto |].
  inversion F as [| e' es' He Hes]; subst.
  unfold Timeline.observed. cbn [fold_left]. apply IH; [| | exact Hes].
  - destruct e; cbn in *; auto.
  - destruct e; cbn in *; auto.
Qed.

(** X24. When the scene callbacks the page receives are those that the
    timeline invokes over any frames from its mount, the page's background
    opacity and environment progress are what the timeline's refs hold;
    both lie in [0, 1], so the ambient light has an intensity in [0, 0.8],
    the environment one in [0, 0.1] and the background one in
    [0, 0.05]. *)
Theorem lights_follow_the_timeline (es : list Event) (fs : list (bool * bool * Q)) :
  sceneCallbacks es = snd (Timeline.playFrames fs Timeline.initialScene) ->
  let s := run es in
  let scene := fst (Timeline.playFrames fs Timeline.initialScene) in
  backgroundOpacity s = Timeline.backgroundOpacityRef scene /\
  environmentProgress s = Timeline.environmentProgressRef scene /\
  0 <= backgroundOpacity s <= 1 /\
  0 <= environmentProgress s <= 1 /\
  0 <= ambientIntensity s <= 0.8 /\
  0 <= environmentIntensity s <= 0.1 /\
  0 <= backgroundIntensity s <= 0.05.
Proof.
  intros H s scene.
  pose proof (run_signals es) as R. fold s in R. rewrite H in R.
  destruct (CallbackFacts.wellBehaved_playFrames fs Timeline.initialScene)
    as (U & _ & O).
  change (Timeline.signals Timeline.initialScene) with (1, 0) in O.
  rewrite O in R. fold scene in R. unfold Timeline.signals in R.
  injection R as R1 R2.
  split; [exact R1 |]. split; [exact R2 |].
  assert (B : 0 <= backgroundOpacity s <= 1 /\ 0 <= environmentProgress s <= 1).
  { pose proof (observed_in_unit (1, 0) _ ltac:(cbn; lra) ltac:(cbn; lra) U) as [B1 B2].
    rewrite O in B1, B2. fold scene in B1, B2. unfold Timeline.signals in B1, B2.
    cbn [fst snd] in B1, B2. rewrite R1, R2. auto. }
  destruct B as [B1 B2]. split; [exact B1 |]. split; [exact B2 |].
  unfold ambientIntensity, environmentIntensity, backgroundIntensity.
  repeat split; lra.
Qed.

Lemma lights_follow_the_timeline_witness :
  let fs := [(true, true, 0); (true, true, 4); (true, true, 6)] in
  let es := KeyDown space
            :: map SceneCallback (snd (Timeline.playFrames fs Timeline.initialScene)) in
  sceneCallbacks es = snd (Timeline.playFrames fs Timeline.initialScene) /\
  0 <= ambientIntensity (run es) <= 0.8.
Proof.
  intros fs es.
  assert (H : sceneCallbacks es = snd (Timeline.playFrames fs Timeline.initialScene))
    by (vm_compute; reflexivity).
  split; [exact H |].
  pose proof (lights_follow_the_timeline es fs H) as L. cbv zeta in L.
  destruct L as (_ & _ & _ & _ & A & _). exact A.
Defined.

End LightFacts.

(** ** The card overlay *)

Module CardOverlayFacts.

Import CardOverlay.
Local Open Scope nat_scope.




(** *** Clicks and drags *)




End CardOverlayFacts.
